(** * Dive list engine of subsurface (divelist.c): a shallow embedding

    The development follows divelist.c function by function.  Integers of the
    C code (int, timestamp_t) are modelled by [Z]; none of the modelled
    functions multiplies or accumulates without bound, and the statements
    below are about values far from the limits of the machine types.
    Pointers to dives and trips are indices into two arenas, NULL is [None].

    Constants, macros and helpers that divelist.c takes from dive.h and
    equipment.c (O2_IN_AIR, TRIP_THRESHOLD, DIVE_NEEDS_TRIP, cylinder_none)
    are the fields of the class [DiveParams]: every result holds for any
    value of them, up to the side conditions stated with each theorem. *)

From Stdlib Require Import ZArith Lia String List Bool.
From stdpp Require Import base tactics option functions list.

Local Open Scope Z_scope.

(* ===================================================================== *)
(** * Data *)
(* ===================================================================== *)

Abbreviation dive_ptr := nat (only parsing).
Abbreviation trip_ptr := nat (only parsing).

(** A [struct dive **]: the address of a trip's [dives] field or of a
    dive's [next] field.  This is what [dive->pprev] holds. *)
Inductive slot :=
| TripDives (t : trip_ptr)
| DiveNext (d : dive_ptr).

Inductive tripflag_t := TF_NONE | NO_TRIP | IN_TRIP | ASSIGNED_TRIP.

(** Gas mixture: O2 and He fractions in permille. *)
Record gasmix := { o2 : Z; he : Z }.

Record cylinder_t := {
  cyl_size : Z;            (* type.size.mliter *)
  cyl_gasmix : gasmix;
  cyl_start : Z;           (* start.mbar *)
  cyl_end : Z;             (* end.mbar *)
  cyl_sample_start : Z;    (* sample_start.mbar *)
  cyl_sample_end : Z       (* sample_end.mbar *)
}.

Record sample := { s_time : Z; s_depth : Z }.   (* time.seconds, depth.mm *)

(** [dc->samples] is the length of [dc_sample]. *)
Record divecomputer := {
  dc_duration : Z;
  dc_meandepth : Z;
  dc_sample : list sample
}.

Record dive := {
  when : Z;
  duration : Z;                    (* duration.seconds *)
  location : option string;
  cylinder : list cylinder_t;      (* the MAX_CYLINDERS slots *)
  dc : divecomputer;
  tripflag : tripflag_t;
  divetrip : option trip_ptr;
  next : option dive_ptr;
  pprev : option slot
}.

Record dive_trip_t := {
  trip_when : Z;
  trip_location : option string;
  trip_notes : option string;
  trip_dives : option dive_ptr;
  trip_nrdives : Z;
  trip_index : Z;
  trip_autogen : Z;
  trip_next : option trip_ptr
}.

(** What divelist.c uses from dive.h and equipment.c. *)
Class DiveParams := {
  O2_IN_AIR : Z;
  TRIP_THRESHOLD : Z;
  cylinder_none : cylinder_t -> bool;
  DIVE_NEEDS_TRIP : dive -> bool
}.

(* ===================================================================== *)
(** * Gas classification: get_dive_gas and its two users *)
(* ===================================================================== *)

Section Gas.
Context `{DiveParams}.

(** The oxygen value the loop works with: [if (!o2) o2 = O2_IN_AIR]. *)
Definition effective_o2 (cyl : cylinder_t) : Z :=
  if o2 (cyl_gasmix cyl) =? 0 then O2_IN_AIR else o2 (cyl_gasmix cyl).

(** One turn of the loop of get_dive_gas on the triple (maxo2, maxhe, mino2). *)
Definition gas_step (acc : Z * Z * Z) (cyl : cylinder_t) : Z * Z * Z :=
  let '(maxo2, maxhe, mino2) := acc in
  let o2 := o2 (cyl_gasmix cyl) in
  let he := he (cyl_gasmix cyl) in
  if cylinder_none cyl then acc
  else
    let o2 := if o2 =? 0 then O2_IN_AIR else o2 in
    let mino2 := if o2 <? mino2 then o2 else mino2 in
    if he >? maxhe then (o2, he, mino2)
    else if he <? maxhe then (maxo2, maxhe, mino2)
    else if o2 <=? maxo2 then (maxo2, maxhe, mino2)
    else (o2, he, mino2).

Definition gas_scan (cyls : list cylinder_t) : Z * Z * Z :=
  fold_left gas_step cyls (-1, -1, 1000).

(** get_dive_gas: the result is (o2_p, he_p, o2low_p). *)
Definition get_dive_gas (d : dive) : Z * Z * Z :=
  let '(maxo2, maxhe, mino2) := gas_scan (cylinder d) in
  if (maxhe =? 0) && (maxo2 =? O2_IN_AIR) && (mino2 =? maxo2)
  then (0, maxhe, 0)
  else (maxo2, maxhe, mino2).

(** The text nitrox_data_func writes into its buffer. *)
Inductive nitrox_text :=
| Text_o2_he (o2 he : Z)        (* "%d/%d" *)
| Text_o2 (o2 : Z)              (* "%d" *)
| Text_range (o2low o2 : Z)     (* "%d…%d" *)
| Text_air.                     (* "air" *)

(** nitrox_data_func for a row that is a dive; C's [/] truncates. *)
Definition nitrox_data_func (d : dive) : nitrox_text :=
  let '(o2, he, o2low) := get_dive_gas d in
  let o2 := (o2 + 5) ÷ 10 in
  let he := (he + 5) ÷ 10 in
  let o2low := (o2low + 5) ÷ 10 in
  if negb (he =? 0) then Text_o2_he o2 he
  else if negb (o2 =? 0) then
    if o2 =? o2low then Text_o2 o2 else Text_range o2low o2
  else Text_air.

(** The difference of two ints as the machine computes it: on 32 bits, in
    two's complement, so that a difference outside the range of int comes
    back wrapped around. *)
Definition int_sub (a b : Z) : Z := (a - b + 2 ^ 31) mod 2 ^ 32 - 2 ^ 31.

(** nitrox_sort_func on two dives; the three differences are differences
    of ints. *)
Definition nitrox_sort_func (a b : dive) : Z :=
  let '(a_o2, a_he, a_o2low) := get_dive_gas a in
  let '(b_o2, b_he, b_o2low) := get_dive_gas b in
  if a_he =? b_he then
    if a_o2 =? b_o2 then int_sub a_o2low b_o2low else int_sub a_o2 b_o2
  else int_sub a_he b_he.

(** The three numbers get_dive_gas gives for the dive are within 2^30 of
    zero, so that the difference of two of them is within the range of
    int. *)
Definition gas_in_range (d : dive) : Prop :=
  let '(o2, he, o2low) := get_dive_gas d in
  - 2 ^ 30 <= o2 < 2 ^ 30 ∧ - 2 ^ 30 <= he < 2 ^ 30 ∧ - 2 ^ 30 <= o2low < 2 ^ 30.

(** The cylinders the loop does not skip. *)
Definition used_cylinders (cyls : list cylinder_t) : list cylinder_t :=
  filter (fun c => cylinder_none c = false) cyls.

(** A cylinder with its unset oxygen fraction written out as air. *)
Definition with_air_o2 (cyl : cylinder_t) : cylinder_t :=
  {| cyl_size := cyl_size cyl;
     cyl_gasmix := {| o2 := effective_o2 cyl; he := he (cyl_gasmix cyl) |};
     cyl_start := cyl_start cyl; cyl_end := cyl_end cyl;
     cyl_sample_start := cyl_sample_start cyl;
     cyl_sample_end := cyl_sample_end cyl |}.

Definition set_cylinder (d : dive) (cyls : list cylinder_t) : dive :=
  {| when := when d; duration := duration d; location := location d;
     cylinder := cyls; dc := dc d; tripflag := tripflag d;
     divetrip := divetrip d; next := next d; pprev := pprev d |}.

End Gas.

(* ===================================================================== *)
(** * SAC: the duration calculate_sac divides by *)
(* ===================================================================== *)

(** The inner [while (end < dc->samples && dc->sample[end].depth.mm < 100)]:
    [rest] are the samples from index [e] on. *)
Fixpoint sac_scan_end (rest : list sample) (e : nat) : nat :=
  match rest with
  | [] => e
  | s :: rest' => if s_depth s <? 100 then sac_scan_end rest' (S e) else e
  end.

Definition sample_time (smp : list sample) (i : nat) : Z :=
  match smp !! i with Some s => s_time s | None => 0 end.

(** The [for (i = 0; i < dc->samples; i++)] loop; every turn advances [i],
    so [length smp] turns are enough. *)
Fixpoint sac_loop (smp : list sample) (fuel : nat) (i : nat) (dur : Z) : Z :=
  match fuel with
  | O => dur
  | S fuel' =>
    match smp !! i with
    | None => dur                                    (* i >= dc->samples *)
    | Some s =>
      if s_depth s <? 100 then
        let e := sac_scan_end (drop (S i) smp) (S i) in
        if (e <? length smp)%nat then
          let e' := pred e in                        (* end-- *)
          let dur' := dur - (sample_time smp e' - sample_time smp i) in
          sac_loop smp fuel' (S (S e')) dur'         (* i = end + 1; i++ *)
        else sac_loop smp fuel' (S i) dur
      else sac_loop smp fuel' (S i) dur
    end
  end.

(** The value of [duration] when calculate_sac reaches its division. *)
Definition sac_duration (d : dive) : Z :=
  sac_loop (dc_sample (dc d)) (length (dc_sample (dc d))) 0 (dc_duration (dc d)).

(* ===================================================================== *)
(** * The store: dives, trips, the trip list and the dive table *)
(* ===================================================================== *)

(** [heap_dives] and [heap_trips] are the arenas the pointers index.
    calloc appends a zeroed trip.  free records the block in [freed] and
    leaves its bytes in place: merge_trips_cb reads [thistrip->dives] once
    more after the last move has released [thistrip], and finds the NULL
    that remove_dive_from_trip stored there. *)
Record state := {
  heap_dives : list dive;
  heap_trips : list dive_trip_t;
  freed : list trip_ptr;
  dive_trip_list : option trip_ptr;      (* head of the list of trips *)
  dive_table : list dive_ptr             (* dive_table.dives[0 .. nr-1] *)
}.

Definition set_heap_dives (s : state) (ds : list dive) : state :=
  {| heap_dives := ds; heap_trips := heap_trips s; freed := freed s;
     dive_trip_list := dive_trip_list s; dive_table := dive_table s |}.
Definition set_heap_trips (s : state) (ts : list dive_trip_t) : state :=
  {| heap_dives := heap_dives s; heap_trips := ts; freed := freed s;
     dive_trip_list := dive_trip_list s; dive_table := dive_table s |}.
Definition set_freed (s : state) (f : list trip_ptr) : state :=
  {| heap_dives := heap_dives s; heap_trips := heap_trips s; freed := f;
     dive_trip_list := dive_trip_list s; dive_table := dive_table s |}.
Definition set_dive_trip_list (s : state) (h : option trip_ptr) : state :=
  {| heap_dives := heap_dives s; heap_trips := heap_trips s; freed := freed s;
     dive_trip_list := h; dive_table := dive_table s |}.

(** Field updates of the two structs. *)
Definition set_divetrip (d : dive) (t : option trip_ptr) : dive :=
  {| when := when d; duration := duration d; location := location d;
     cylinder := cylinder d; dc := dc d; tripflag := tripflag d;
     divetrip := t; next := next d; pprev := pprev d |}.
Definition set_tripflag (d : dive) (f : tripflag_t) : dive :=
  {| when := when d; duration := duration d; location := location d;
     cylinder := cylinder d; dc := dc d; tripflag := f;
     divetrip := divetrip d; next := next d; pprev := pprev d |}.
Definition set_next (d : dive) (n : option dive_ptr) : dive :=
  {| when := when d; duration := duration d; location := location d;
     cylinder := cylinder d; dc := dc d; tripflag := tripflag d;
     divetrip := divetrip d; next := n; pprev := pprev d |}.
Definition set_pprev (d : dive) (p : option slot) : dive :=
  {| when := when d; duration := duration d; location := location d;
     cylinder := cylinder d; dc := dc d; tripflag := tripflag d;
     divetrip := divetrip d; next := next d; pprev := p |}.

Definition set_trip_when (t : dive_trip_t) (w : Z) : dive_trip_t :=
  {| trip_when := w; trip_location := trip_location t; trip_notes := trip_notes t;
     trip_dives := trip_dives t; trip_nrdives := trip_nrdives t;
     trip_index := trip_index t; trip_autogen := trip_autogen t;
     trip_next := trip_next t |}.
Definition set_trip_location (t : dive_trip_t) (l : option string) : dive_trip_t :=
  {| trip_when := trip_when t; trip_location := l; trip_notes := trip_notes t;
     trip_dives := trip_dives t; trip_nrdives := trip_nrdives t;
     trip_index := trip_index t; trip_autogen := trip_autogen t;
     trip_next := trip_next t |}.
Definition set_trip_notes (t : dive_trip_t) (l : option string) : dive_trip_t :=
  {| trip_when := trip_when t; trip_location := trip_location t; trip_notes := l;
     trip_dives := trip_dives t; trip_nrdives := trip_nrdives t;
     trip_index := trip_index t; trip_autogen := trip_autogen t;
     trip_next := trip_next t |}.
Definition set_trip_dives (t : dive_trip_t) (d : option dive_ptr) : dive_trip_t :=
  {| trip_when := trip_when t; trip_location := trip_location t; trip_notes := trip_notes t;
     trip_dives := d; trip_nrdives := trip_nrdives t;
     trip_index := trip_index t; trip_autogen := trip_autogen t;
     trip_next := trip_next t |}.
Definition set_trip_nrdives (t : dive_trip_t) (n : Z) : dive_trip_t :=
  {| trip_when := trip_when t; trip_location := trip_location t; trip_notes := trip_notes t;
     trip_dives := trip_dives t; trip_nrdives := n;
     trip_index := trip_index t; trip_autogen := trip_autogen t;
     trip_next := trip_next t |}.
Definition set_trip_autogen (t : dive_trip_t) (a : Z) : dive_trip_t :=
  {| trip_when := trip_when t; trip_location := trip_location t; trip_notes := trip_notes t;
     trip_dives := trip_dives t; trip_nrdives := trip_nrdives t;
     trip_index := trip_index t; trip_autogen := a;
     trip_next := trip_next t |}.
Definition set_trip_next (t : dive_trip_t) (n : option trip_ptr) : dive_trip_t :=
  {| trip_when := trip_when t; trip_location := trip_location t; trip_notes := trip_notes t;
     trip_dives := trip_dives t; trip_nrdives := trip_nrdives t;
     trip_index := trip_index t; trip_autogen := trip_autogen t;
     trip_next := n |}.

(** What calloc(sizeof(dive_trip_t), 1) returns. *)
Definition zero_trip : dive_trip_t :=
  {| trip_when := 0; trip_location := None; trip_notes := None;
     trip_dives := None; trip_nrdives := 0; trip_index := 0;
     trip_autogen := 0; trip_next := None |}.

(** ** Outcomes and the state monad of the C functions *)

(** [Fault]: a failed assert or a NULL dereference.  [OutOfFuel]: a loop
    over a linked list did more turns than the arena has blocks, which only
    a cyclic list can cause. *)
Inductive result (A : Type) :=
| Ok (a : A) (s : state)
| Fault
| OutOfFuel.
Arguments Ok {A} a s.
Arguments Fault {A}.
Arguments OutOfFuel {A}.

Definition M (A : Type) := state -> result A.

Definition ret {A} (a : A) : M A := fun s => Ok a s.
Definition bind {A B} (m : M A) (f : A -> M B) : M B :=
  fun s => match m s with
           | Ok a s' => f a s'
           | Fault => Fault
           | OutOfFuel => OutOfFuel
           end.
Definition fault {A} : M A := fun _ => Fault.
Definition out_of_fuel {A} : M A := fun _ => OutOfFuel.
Definition get_state : M state := fun s => Ok s s.
Definition assert (b : bool) : M unit := if b then ret tt else fault.

Declare Scope m_scope.
Delimit Scope m_scope with M.
Notation "'do' x <- m ; k" := (bind m (fun x => k))
  (at level 10, x pattern, m at level 100, k at level 200) : m_scope.
Notation "'run' m ; k" := (bind m (fun _ => k))
  (at level 10, m at level 100, k at level 200) : m_scope.
Local Open Scope m_scope.

(** [*d] for a dive pointer, and the store through it. *)
Definition load_dive (d : dive_ptr) : M dive :=
  fun s => match heap_dives s !! d with
           | Some dv => Ok dv s
           | None => Fault
           end.
Definition store_dive (d : dive_ptr) (dv : dive) : M unit :=
  fun s => match heap_dives s !! d with
           | Some _ => Ok tt (set_heap_dives s (<[d := dv]> (heap_dives s)))
           | None => Fault
           end.
Definition load_trip (t : trip_ptr) : M dive_trip_t :=
  fun s => match heap_trips s !! t with
           | Some tr => Ok tr s
           | None => Fault
           end.
Definition store_trip (t : trip_ptr) (tr : dive_trip_t) : M unit :=
  fun s => match heap_trips s !! t with
           | Some _ => Ok tt (set_heap_trips s (<[t := tr]> (heap_trips s)))
           | None => Fault
           end.
Definition modify_dive (d : dive_ptr) (f : dive -> dive) : M unit :=
  do dv <- load_dive d; store_dive d (f dv).
Definition modify_trip (t : trip_ptr) (f : dive_trip_t -> dive_trip_t) : M unit :=
  do tr <- load_trip t; store_trip t (f tr).

Definition calloc_trip : M trip_ptr :=
  fun s => Ok (length (heap_trips s))
              (set_heap_trips s (heap_trips s ++ [zero_trip])).
Definition free_trip (t : trip_ptr) : M unit :=
  fun s => Ok tt (set_freed s (t :: freed s)).

(** A [dive_trip_t **]: [None] is [&dive_trip_list], [Some t] is [&t->next]. *)
Definition load_tslot (p : option trip_ptr) : M (option trip_ptr) :=
  match p with
  | None => fun s => Ok (dive_trip_list s) s
  | Some t => do tr <- load_trip t; ret (trip_next tr)
  end.
Definition store_tslot (p : option trip_ptr) (v : option trip_ptr) : M unit :=
  match p with
  | None => fun s => Ok tt (set_dive_trip_list s v)
  | Some t => modify_trip t (fun tr => set_trip_next tr v)
  end.

(** [*pprev = next] for a [struct dive **]. *)
Definition store_slot (p : slot) (v : option dive_ptr) : M unit :=
  match p with
  | TripDives t => modify_trip t (fun tr => set_trip_dives tr v)
  | DiveNext d => modify_dive d (fun dv => set_next dv v)
  end.

(** get_dive of dive.h: NULL outside [0, dive_table.nr). *)
Definition get_dive (s : state) (nr : Z) : option dive_ptr :=
  if nr <? 0 then None else dive_table s !! Z.to_nat nr.

(** The bound on the turns of a loop along a list of trips, or of dives. *)
Definition trip_fuel (s : state) : nat := S (length (heap_trips s)).
Definition dive_fuel (s : state) : nat := S (length (heap_dives s)).

(* ===================================================================== *)
(** * helper functions for dive_trip handling *)
(* ===================================================================== *)

(** The [while (trip)] of find_trip_by_idx. *)
Fixpoint find_trip_by_idx_loop (fuel : nat) (idx : Z) (trip : option trip_ptr)
  : M (option trip_ptr) :=
  match trip with
  | None => ret None
  | Some t =>
    match fuel with
    | O => out_of_fuel
    | S fuel' =>
      do tr <- load_trip t;
      if trip_index tr =? idx then ret (Some t)
      else find_trip_by_idx_loop fuel' idx (trip_next tr)
    end
  end.

Definition find_trip_by_idx (idx : Z) : M (option trip_ptr) :=
  if idx >=? 0 then ret None
  else
    do s <- get_state;
    find_trip_by_idx_loop (trip_fuel s) idx (dive_trip_list s).

(** The [while (trip->next && trip->next->when <= when)] of find_matching_trip. *)
Fixpoint find_matching_trip_loop (fuel : nat) (w : Z) (t : trip_ptr)
  : M (option trip_ptr) :=
  match fuel with
  | O => out_of_fuel
  | S fuel' =>
    do tr <- load_trip t;
    match trip_next tr with
    | None => ret (Some t)
    | Some n =>
      do ntr <- load_trip n;
      if trip_when ntr <=? w then find_matching_trip_loop fuel' w n
      else ret (Some t)
    end
  end.

(** this finds the last trip that at or before the time given *)
Definition find_matching_trip (w : Z) : M (option trip_ptr) :=
  do s <- get_state;
  match dive_trip_list s with
  | None => ret None
  | Some t =>
    do tr <- load_trip t;
    if trip_when tr >? w then ret None
    else find_matching_trip_loop (trip_fuel s) w t
  end.

(** The walk of insert_trip to the place of a trip starting at [w]:
    it returns [p] and [trip = *p]. *)
Fixpoint insert_trip_walk (fuel : nat) (w : Z) (p : option trip_ptr)
  : M (option trip_ptr * option trip_ptr) :=
  do trip <- load_tslot p;
  match trip with
  | None => ret (p, None)
  | Some t =>
    do tr <- load_trip t;
    if trip_when tr <? w then
      match fuel with
      | O => out_of_fuel
      | S fuel' => insert_trip_walk fuel' w (Some t)
      end
    else ret (p, Some t)
  end.

(** The walk of delete_trip: unlink [trip] where it is found. *)
Fixpoint delete_trip_walk (fuel : nat) (trip : trip_ptr) (p : option trip_ptr)
  : M unit :=
  do tmp <- load_tslot p;
  match tmp with
  | None => ret tt
  | Some t =>
    if Nat.eqb t trip then
      do tr <- load_trip trip;
      store_tslot p (trip_next tr)
    else
      match fuel with
      | O => out_of_fuel
      | S fuel' => delete_trip_walk fuel' trip (Some t)
      end
  end.

(** free(trip->location) and free(trip->notes) release strings, which the
    model does not track. *)
Definition delete_trip (trip : trip_ptr) : M unit :=
  do tr <- load_trip trip;
  run assert (match trip_dives tr with None => true | Some _ => false end);
  do s <- get_state;
  run delete_trip_walk (trip_fuel s) trip None;
  free_trip trip.

(** The [while ((dive = dive->next) != NULL)] of find_new_trip_start_time:
    [dive] is the dive whose [next] is read. *)
Fixpoint find_new_trip_start_time_loop (fuel : nat) (dive : dive_ptr) (w : Z)
  : M Z :=
  do dv <- load_dive dive;
  match next dv with
  | None => ret w
  | Some n =>
    match fuel with
    | O => out_of_fuel
    | S fuel' =>
      do ndv <- load_dive n;
      find_new_trip_start_time_loop fuel' n
        (if when ndv <? w then when ndv else w)
    end
  end.

Definition find_new_trip_start_time (trip : trip_ptr) : M unit :=
  do tr <- load_trip trip;
  match trip_dives tr with
  | None => fault                                  (* dive->when on NULL *)
  | Some dive =>
    do dv <- load_dive dive;
    do s <- get_state;
    do w <- find_new_trip_start_time_loop (dive_fuel s) dive (when dv);
    modify_trip trip (fun tr => set_trip_when tr w)
  end.

Definition remove_dive_from_trip (dive : dive_ptr) : M unit :=
  do dv <- load_dive dive;
  match divetrip dv with
  | None => ret tt
  | Some trip =>
    (* Remove the dive from the trip's list of dives *)
    let nxt := next dv in
    match pprev dv with
    | None => fault                                (* *pprev on NULL *)
    | Some pp =>
      run store_slot pp nxt;
      run match nxt with
          | Some n => modify_dive n (fun ndv => set_pprev ndv (Some pp))
          | None => ret tt
          end;
      run modify_dive dive (fun dv => set_divetrip dv None);
      run modify_dive dive (fun dv => set_tripflag dv NO_TRIP);
      do tr <- load_trip trip;
      run assert (trip_nrdives tr >? 0);
      run store_trip trip (set_trip_nrdives tr (trip_nrdives tr - 1));
      if trip_nrdives tr - 1 =? 0 then delete_trip trip
      else
        do tr <- load_trip trip;
        do dv <- load_dive dive;
        if trip_when tr =? when dv then find_new_trip_start_time trip
        else ret tt
    end
  end.

(** [trip] is a pointer argument that autogroup_dives may pass as NULL. *)
Definition add_dive_to_trip (dive : dive_ptr) (trip : option trip_ptr) : M unit :=
  do dv <- load_dive dive;
  if decide (divetrip dv = trip) then ret tt
  else
    match trip with
    | None => fault                                (* trip->when on NULL *)
    | Some trip =>
      do tr <- load_trip trip;
      run assert (negb (trip_when tr =? 0));
      run remove_dive_from_trip dive;
      run modify_trip trip (fun tr => set_trip_nrdives tr (trip_nrdives tr + 1));
      run modify_dive dive (fun dv => set_divetrip dv (Some trip));
      run modify_dive dive (fun dv => set_tripflag dv ASSIGNED_TRIP);
      (* Add it to the trip's list of dives *)
      do tr <- load_trip trip;
      run modify_dive dive (fun dv => set_next dv (trip_dives tr));
      run match trip_dives tr with
          | Some n => modify_dive n (fun ndv => set_pprev ndv (Some (DiveNext dive)))
          | None => ret tt
          end;
      run modify_trip trip (fun tr => set_trip_dives tr (Some dive));
      run modify_dive dive (fun dv => set_pprev dv (Some (TripDives trip)));
      do dv <- load_dive dive;
      do tr <- load_trip trip;
      if negb (when dv =? 0) && (trip_when tr >? when dv)
      then modify_trip trip (fun tr => set_trip_when tr (when dv))
      else ret tt
    end.

(** The [while (divep)] of insert_trip. *)
Fixpoint insert_trip_move (fuel : nat) (divep : option dive_ptr) (trip : trip_ptr)
  : M unit :=
  match divep with
  | None => ret tt
  | Some d =>
    match fuel with
    | O => out_of_fuel
    | S fuel' =>
      run add_dive_to_trip d (Some trip);
      do dv <- load_dive d;
      insert_trip_move fuel' (next dv) trip
    end
  end.

(** insert_trip(&dive_trip): the result is the value left in [dive_trip]. *)
Definition insert_trip (dive_trip : trip_ptr) : M trip_ptr :=
  do dtr <- load_trip dive_trip;
  do s <- get_state;
  (* Walk the dive trip list looking for the right location.. *)
  do (p, trip) <- insert_trip_walk (trip_fuel s) (trip_when dtr) None;
  do same <- match trip with
             | None => ret false
             | Some t => do tr <- load_trip t; ret (trip_when tr =? trip_when dtr)
             end;
  match trip, same with
  | Some t, true =>
    run (do tr <- load_trip t;
         match trip_location tr with
         | None => do dtr <- load_trip dive_trip;
                   store_trip t (set_trip_location tr (trip_location dtr))
         | Some _ => ret tt
         end);
    run (do tr <- load_trip t;
         match trip_notes tr with
         | None => do dtr <- load_trip dive_trip;
                   store_trip t (set_trip_notes tr (trip_notes dtr))
         | Some _ => ret tt
         end);
    do dtr <- load_trip dive_trip;
    do s <- get_state;
    run insert_trip_move (dive_fuel s) (trip_dives dtr) t;
    ret t
  | _, _ =>
    run modify_trip dive_trip (fun dtr => set_trip_next dtr trip);
    run store_tslot p (Some dive_trip);
    ret dive_trip
  end.

(** strdup copies the string. *)
Definition create_and_hookup_trip_from_dive (dive : dive_ptr) : M trip_ptr :=
  do dive_trip <- calloc_trip;
  do dv <- load_dive dive;
  run modify_trip dive_trip (fun tr => set_trip_when tr (when dv));
  run match location dv with
      | Some l => modify_trip dive_trip (fun tr => set_trip_location tr (Some l))
      | None => ret tt
      end;
  do dive_trip <- insert_trip dive_trip;
  run modify_dive dive (fun dv => set_tripflag dv IN_TRIP);
  run add_dive_to_trip dive (Some dive_trip);
  ret dive_trip.

Section Autogroup.
Context `{DiveParams}.

(** The body of for_each_dive in autogroup_dives, over the entries of the
    dive table that are still to come. *)
Fixpoint autogroup_loop (table : list dive_ptr) (lastdive : option dive_ptr)
  : M unit :=
  match table with
  | [] => ret tt
  | dive :: table' =>
    do dv <- load_dive dive;
    match divetrip dv with
    | Some _ => autogroup_loop table' (Some dive)
    | None =>
      if negb (DIVE_NEEDS_TRIP dv) then autogroup_loop table' None
      else
        (* Do we have a trip we can combine this into? *)
        do combine <- match lastdive with
                      | None => ret None
                      | Some l =>
                        do ldv <- load_dive l;
                        if when dv <? when ldv + TRIP_THRESHOLD
                        then ret (Some ldv) else ret None
                      end;
        match combine with
        | Some ldv =>
          let trip := divetrip ldv in
          run add_dive_to_trip dive trip;
          match trip with
          | None => fault                          (* trip->location on NULL *)
          | Some t =>
            do tr <- load_trip t;
            run match location dv, trip_location tr with
                | Some l, None => store_trip t (set_trip_location tr (Some l))
                | _, _ => ret tt
                end;
            autogroup_loop table' (Some dive)
          end
        | None =>
          do trip <- create_and_hookup_trip_from_dive dive;
          run modify_trip trip (fun tr => set_trip_autogen tr 1);
          autogroup_loop table' (Some dive)
        end
    end
  end.

Definition autogroup_dives : M unit :=
  do s <- get_state;
  autogroup_loop (dive_table s) None.

End Autogroup.

(** The [while (thistrip->dives)] of merge_trips_cb. *)
Fixpoint merge_trips_loop (fuel : nat) (thistrip : trip_ptr)
    (prevtrip : option trip_ptr) : M unit :=
  do tr <- load_trip thistrip;
  match trip_dives tr with
  | None => ret tt
  | Some d =>
    match fuel with
    | O => out_of_fuel
    | S fuel' =>
      run add_dive_to_trip d prevtrip;
      merge_trips_loop fuel' thistrip prevtrip
    end
  end.

(** merge_trips_cb once its two trip pointers are known: move dives from trip. *)
Definition merge_trips (thistrip prevtrip : option trip_ptr) : M unit :=
  run assert (if decide (thistrip = prevtrip) then false else true);
  match thistrip with
  | None => fault                                  (* thistrip->dives on NULL *)
  | Some t =>
    do s <- get_state;
    merge_trips_loop (dive_fuel s) t prevtrip
  end.

(** merge_trips_cb on the DIVE_DATE of the row of the trip and of the row
    before it. *)
Definition merge_trips_cb (this_date prev_date : Z) : M unit :=
  do thistrip <- find_matching_trip this_date;
  do prevtrip <- find_matching_trip prev_date;
  merge_trips thistrip prevtrip.

(* ===================================================================== *)
(** * Splitting a trip: insert_trip_before and the rows of the tree store *)
(* ===================================================================== *)

(** Of the GTK tree store, insert_trip_before and the functions it calls
    read and write two columns of a row, DIVE_INDEX and DIVE_DATE, and the
    order of the children of a top-level row.  A trip row and its children
    are a [tree_node].  The store keeps rows where the calls put them:
    gtk_tree_store_insert_after with a NULL sibling prepends to the children
    of the parent, gtk_tree_store_remove takes the row out. *)
Record tree_row := { DIVE_INDEX : Z; DIVE_DATE : Z }.
Record tree_node := { node_row : tree_row; node_children : list tree_row }.

Definition set_node_date (n : tree_node) (w : Z) : tree_node :=
  {| node_row := {| DIVE_INDEX := DIVE_INDEX (node_row n); DIVE_DATE := w |};
     node_children := node_children n |}.
Definition set_node_children (n : tree_node) (c : list tree_row) : tree_node :=
  {| node_row := node_row n; node_children := c |}.

(** update_trip_timestamp on a top-level row: the smaller of the dates of
    the first and the last child goes into the row and into the trip. *)
Definition update_trip_timestamp (parent : tree_node) (divetrip : option trip_ptr)
  : M tree_node :=
  match node_children parent with
  | [] => ret parent
  | first_child :: _ =>
    let t1 := DIVE_DATE first_child in
    let t2 := DIVE_DATE (List.last (node_children parent) first_child) in
    let tnew := Z.min t1 t2 in
    run match divetrip with
        | Some t => modify_trip t (fun tr => set_trip_when tr tnew)
        | None => ret tt
        end;
    ret (set_node_date parent tnew)
  end.

(** move_dive_between_trips(dive_iter, old_trip, new_trip, NULL, FALSE) for
    the child [i] of [old_trip]. *)
Definition move_dive_between_trips (i : nat) (old_trip new_trip : tree_node)
  : M (tree_node * tree_node) :=
  match node_children old_trip !! i with
  | None => fault
  | Some row =>
    let new_trip := set_node_children new_trip (row :: node_children new_trip) in
    do s <- get_state;
    let dive := get_dive s (DIVE_INDEX row) in
    let old_trip := set_node_children old_trip (delete i (node_children old_trip)) in
    do old_divetrip <- find_matching_trip (DIVE_DATE (node_row old_trip));
    do old_trip <- update_trip_timestamp old_trip old_divetrip;
    match dive with
    | None => fault                                (* dive->divetrip on NULL *)
    | Some d =>
      do dv <- load_dive d;
      do new_trip <- update_trip_timestamp new_trip (divetrip dv);
      ret (old_trip, new_trip)
    end
  end.

(** The [for (i = nr - 1; i >= 0; i--)] of insert_trip_before; [n] is [i + 1]
    and [k] the position of the row the function was called with. *)
Fixpoint insert_trip_before_loop (n k : nat) (new_divetrip : trip_ptr)
    (parent newparent : tree_node) : M (tree_node * tree_node) :=
  match n with
  | O => ret (parent, newparent)
  | S i =>
    match node_children parent !! i with
    | None => fault
    | Some row =>
      do s <- get_state;
      match get_dive s (DIVE_INDEX row) with
      | None => fault
      | Some dive =>
        run add_dive_to_trip dive (Some new_divetrip);
        do (parent, newparent) <- move_dive_between_trips i parent newparent;
        if Nat.eqb i k then ret (parent, newparent)
        else insert_trip_before_loop i k new_divetrip parent newparent
      end
    end
  end.

(** insert_trip_before for the child [k] of the trip row [parent]: the
    result is the row of the old trip and the row of the new one. *)
Definition insert_trip_before (parent : tree_node) (k : nat)
  : M (tree_node * option tree_node) :=
  match k with
  | O => ret (parent, None)                        (* gtk_tree_path_prev fails *)
  | S k' =>
    do s <- get_state;
    match node_children parent !! k', node_children parent !! k with
    | Some prev_row, Some row =>
      match get_dive s (DIVE_INDEX prev_row), get_dive s (DIVE_INDEX row) with
      | Some prev_dive, Some dive =>
        let newparent := {| node_row := node_row parent; node_children := [] |} in
        do dv <- load_dive dive;
        do pdv <- load_dive prev_dive;
        (* make sure that the timestamp_t of the previous divetrip is correct
           before inserting a new one *)
        run (if when dv <? when pdv then
               match divetrip pdv with
               | Some pt =>
                 do ptr <- load_trip pt;
                 if trip_when ptr <? when pdv
                 then store_trip pt (set_trip_when ptr (when pdv))
                 else ret tt
               | None => ret tt
               end
             else ret tt);
        do new_divetrip <- create_and_hookup_trip_from_dive dive;
        do (parent, newparent) <-
          insert_trip_before_loop (length (node_children parent)) k
                                  new_divetrip parent newparent;
        ret (parent, Some newparent)
      | _, _ => fault
      end
    | _, _ => fault
    end
  end.

(* ===================================================================== *)
(** * init_decompression: how far back the replay goes *)
(* ===================================================================== *)

(** get_divenr: the first index of the table that holds [dive], or
    dive_table.nr. *)
Fixpoint get_divenr_from (table : list dive_ptr) (dive : dive_ptr) (nr : nat) : nat :=
  match table with
  | [] => nr
  | d :: table' => if Nat.eqb d dive then nr else get_divenr_from table' dive (S nr)
  end.
Definition get_divenr (s : state) (dive : dive_ptr) : nat :=
  get_divenr_from (dive_table s) dive 0.

Definition SURFACE_GAP : Z := 48 * 60 * 60.

(** The first loop of init_decompression, [while (i && --i)], started with
    [i]; the result is (i, when, lasttime) when the loop is left. *)
Fixpoint deco_walk_back (s : state) (target : dive) (i : nat) (w lasttime : Z)
  : option (nat * Z * Z) :=
  match i with
  | O => Some (O, w, lasttime)
  | S i' =>
    match i' with
    | O => Some (O, w, lasttime)
    | S _ =>
      match dive_table s !! i' with
      | None => Some (i', w, lasttime)             (* !pdive *)
      | Some p =>
        match heap_dives s !! p with
        | None => None
        | Some pdive =>
          (* we don't want to mix dives from different trips *)
          if match divetrip target with
             | Some _ => if decide (divetrip pdive = divetrip target) then false else true
             | None => false
             end
          then deco_walk_back s target i' w lasttime
          else if (when pdive >? w) || (when pdive + duration pdive + SURFACE_GAP <? w)
          then Some (i', w, lasttime)
          else deco_walk_back s target i' (when pdive) (when pdive + duration pdive)
        end
      end
    end
  end.

(** init_decompression up to the end of its first loop. *)
Definition init_decompression_back (s : state) (dive : dive_ptr)
  : option (nat * Z * Z) :=
  match heap_dives s !! dive with
  | None => None
  | Some target => deco_walk_back s target (get_divenr s dive) (when target) 0
  end.

(* ===================================================================== *)
(** * Reading a store: the registry, the members of a trip, well-formedness *)
(* ===================================================================== *)

(** The trips met from [p] along [trip_next]. *)
Fixpoint trip_list_from (T : list dive_trip_t) (fuel : nat) (p : option trip_ptr)
  : list trip_ptr :=
  match p, fuel with
  | Some t, S fuel' =>
    t :: match T !! t with
         | Some tr => trip_list_from T fuel' (trip_next tr)
         | None => []
         end
  | _, _ => []
  end.

(** The registry: the trips of dive_trip_list, in list order. *)
Definition registry (s : state) : list trip_ptr :=
  trip_list_from (heap_trips s) (trip_fuel s) (dive_trip_list s).

(** The dives met from [p] along [next]. *)
Fixpoint dive_list_from (D : list dive) (fuel : nat) (p : option dive_ptr)
  : list dive_ptr :=
  match p, fuel with
  | Some d, S fuel' =>
    d :: match D !! d with
         | Some dv => dive_list_from D fuel' (next dv)
         | None => []
         end
  | _, _ => []
  end.

(** The members of a trip: the dives of [trip->dives], in list order. *)
Definition members (s : state) (t : trip_ptr) : list dive_ptr :=
  match heap_trips s !! t with
  | Some tr => dive_list_from (heap_dives s) (dive_fuel s) (trip_dives tr)
  | None => []
  end.

Definition dive_when (s : state) (d : dive_ptr) : Z :=
  match heap_dives s !! d with Some dv => when dv | None => 0 end.
Definition trip_start (s : state) (t : trip_ptr) : Z :=
  match heap_trips s !! t with Some tr => trip_when tr | None => 0 end.

(** The least of a list of timestamps. *)
Fixpoint min_when (ws : list Z) : option Z :=
  match ws with
  | [] => None
  | w :: ws' => Some (match min_when ws' with Some m => Z.min w m | None => w end)
  end.

(** The earliest [when] among the members of [t]; [None] without members. *)
Definition earliest_member (s : state) (t : trip_ptr) : option Z :=
  min_when (map (dive_when s) (members s t)).

(** The invariant of the trips: every trip of the registry has a member and
    starts when its earliest member does. *)
Definition trips_start_at_earliest (s : state) : Prop :=
  ∀ t, t ∈ registry s → earliest_member s t = Some (trip_start s t).

(** [tseg T p l q]: [trip_next] leads from [p] through the trips [l] to [q]. *)
Fixpoint tseg (T : list dive_trip_t) (p : option trip_ptr) (l : list trip_ptr)
    (q : option trip_ptr) : Prop :=
  match l with
  | [] => p = q
  | t :: l' => p = Some t ∧ ∃ tr, T !! t = Some tr ∧ tseg T (trip_next tr) l' q
  end.

(** [dseg D t prev p l q]: [next] leads from [p] through the dives [l] to
    [q]; each of them belongs to [t] and its [pprev] is the slot that points
    to it, [prev] for the first. *)
Fixpoint dseg (D : list dive) (t : trip_ptr) (prev : slot) (p : option dive_ptr)
    (l : list dive_ptr) (q : option dive_ptr) : Prop :=
  match l with
  | [] => p = q
  | d :: l' =>
    p = Some d ∧
    ∃ dv, D !! d = Some dv ∧ divetrip dv = Some t ∧ pprev dv = Some prev ∧
          dseg D t (DiveNext d) (next dv) l' q
  end.

(** A store is well formed for the registry [R] and the member lists [Mf]. *)
Record rep (s : state) (R : list trip_ptr) (Mf : trip_ptr → list dive_ptr) : Prop := {
  rep_trips : tseg (heap_trips s) (dive_trip_list s) R None;
  rep_trips_nodup : NoDup R;
  rep_members : ∀ t tr, heap_trips s !! t = Some tr →
      dseg (heap_dives s) t (TripDives t) (trip_dives tr) (Mf t) None ∧
      NoDup (Mf t) ∧
      trip_nrdives tr = Z.of_nat (length (Mf t));
  rep_no_trip : ∀ t, heap_trips s !! t = None → Mf t = [];
  rep_divetrip : ∀ d dv t, heap_dives s !! d = Some dv → divetrip dv = Some t →
      t ∈ R ∧ d ∈ Mf t;
  rep_table : ∀ d, d ∈ dive_table s → is_Some (heap_dives s !! d)
}.

(** Well-formed stores: the list of trips ends and has no trip twice; the
    [dives] list of every trip ends, has no dive twice, is as long as
    [nrdives] says, and [divetrip] and [pprev] of its dives agree with it;
    a dive with a trip is on the list of that trip and the trip is in the
    registry; the dive table holds dives. *)
Definition well_formed (s : state) : Prop := rep s (registry s) (members s).

(** Every dive has a timestamp: [when] is not the zero that add_dive_to_trip
    and the assert in it take for "unset". *)
Definition dives_dated (s : state) : Prop :=
  ∀ d dv, heap_dives s !! d = Some dv → when dv ≠ 0.

(* ===================================================================== *)
(** * One choice of the parameters, for the examples *)
(* ===================================================================== *)

(** Modelled from the spec: cylinder_none of equipment.c, which is not under
    src.  The spec calls a cylinder slot empty, absent or unset when nothing
    is recorded in it: every field is zero. *)
Definition cylinder_unset (cyl : cylinder_t) : bool :=
  (cyl_size cyl =? 0) && (o2 (cyl_gasmix cyl) =? 0) && (he (cyl_gasmix cyl) =? 0) &&
  (cyl_start cyl =? 0) && (cyl_end cyl =? 0) &&
  (cyl_sample_start cyl =? 0) && (cyl_sample_end cyl =? 0).

(** Modelled from the spec: DIVE_NEEDS_TRIP of dive.h, which is not under
    src.  A dive needs grouping unless it was marked otherwise: its
    [tripflag] is still the initial TF_NONE. *)
Definition dive_unmarked (d : dive) : bool :=
  match tripflag d with TF_NONE => true | _ => false end.

(** Air with 20.9% of oxygen, and a gap of [threshold] seconds. *)
Definition example_params (threshold : Z) : DiveParams :=
  {| O2_IN_AIR := 209; TRIP_THRESHOLD := threshold;
     cylinder_none := cylinder_unset; DIVE_NEEDS_TRIP := dive_unmarked |}.

Definition no_cylinder : cylinder_t :=
  {| cyl_size := 0; cyl_gasmix := {| o2 := 0; he := 0 |}; cyl_start := 0;
     cyl_end := 0; cyl_sample_start := 0; cyl_sample_end := 0 |}.
Definition tank (o he : Z) : cylinder_t :=
  {| cyl_size := 12000; cyl_gasmix := {| o2 := o; he := he |}; cyl_start := 200000;
     cyl_end := 50000; cyl_sample_start := 0; cyl_sample_end := 0 |}.
Definition no_dc : divecomputer :=
  {| dc_duration := 0; dc_meandepth := 0; dc_sample := [] |}.

(** A dive outside the store, with the cylinders [cyls]. *)
Definition dive_with_cylinders (cyls : list cylinder_t) : dive :=
  {| when := 1000; duration := 3600; location := None; cylinder := cyls;
     dc := no_dc; tripflag := TF_NONE; divetrip := None; next := None;
     pprev := None |}.
(** A dive outside the store, with the samples [smp] and duration [dur]. *)
Definition dive_with_samples (dur : Z) (smp : list sample) : dive :=
  {| when := 1000; duration := dur; location := None; cylinder := [];
     dc := {| dc_duration := dur; dc_meandepth := 10000; dc_sample := smp |};
     tripflag := TF_NONE; divetrip := None; next := None; pprev := None |}.

(** A used cylinder with its oxygen fraction as the scan reads it. *)
Definition air_filled `{DiveParams} (cyl : cylinder_t) : cylinder_t :=
  if cylinder_none cyl then cyl else with_air_o2 cyl.

(** ** What the backward walk of init_decompression is compared with *)

(** The prior dive [pdive] counts for [target]: the target has no trip, or
    both are in the same trip. *)
Definition deco_relevant (target pdive : dive) : bool :=
  match divetrip target with
  | Some _ => if decide (divetrip pdive = divetrip target) then true else false
  | None => true
  end.

(** The start of the first dive of [ds] that counts for [target], and the
    start of the target when there is none. *)
Fixpoint first_relevant_when (target : dive) (ds : list dive) : Z :=
  match ds with
  | [] => when target
  | d :: ds' => if deco_relevant target d then when d else first_relevant_when target ds'
  end.

(** The start of the next dive that counts, among the dives of the table
    [ds] at the indices from [i] up to the target at [divenr]. *)
Definition next_dive_start (target : dive) (ds : list dive) (divenr i : nat) : Z :=
  first_relevant_when target (drop i (take divenr ds)).

(** The dive records of the table. *)
Definition table_dives (s : state) (ds : list dive) : Prop :=
  Forall2 (λ p d, heap_dives s !! p = Some d) (dive_table s) ds.

(** A store that holds just the dives [ds], in table order, without trips. *)
Definition store_of_dives (ds : list dive) : state :=
  {| heap_dives := ds; heap_trips := []; freed := []; dive_trip_list := None;
     dive_table := seq 0 (length ds) |}.

(** A dive at time [w] (in seconds) that lasts an hour, not in a trip. *)
Definition plain_dive (w : Z) : dive :=
  {| when := w; duration := 3600; location := None; cylinder := [];
     dc := no_dc; tripflag := TF_NONE; divetrip := None; next := None;
     pprev := None |}.

(** ** Auxiliary notions for the lists of the store *)

(** The three fields of a dive that tie it into the list of its trip. *)
Definition dive_links (dv : dive) : option trip_ptr * option slot * option dive_ptr :=
  (divetrip dv, pprev dv, next dv).

(** The slot that points to what comes after the dives [l] that follow [prev]. *)
Definition last_slot (prev : slot) (l : list dive_ptr) : slot :=
  match last l with Some d => DiveNext d | None => prev end.

(** [*p = v] for a [dive_trip_t **], as a function of the store. *)
Definition write_tslot (p : option trip_ptr) (v : option trip_ptr) (s : state) : state :=
  match p with
  | None => set_dive_trip_list s v
  | Some x => set_heap_trips s (alter (λ tr, set_trip_next tr v) x (heap_trips s))
  end.

(** [*p] for a [dive_trip_t **]. *)
Definition read_tslot (s : state) (p : option trip_ptr) : option trip_ptr :=
  match p with
  | None => dive_trip_list s
  | Some x => match heap_trips s !! x with Some tr => trip_next tr | None => None end
  end.

(** The slot that points to what comes after the trips [l] that follow [p]. *)
Definition last_tslot (p : option trip_ptr) (l : list trip_ptr) : option trip_ptr :=
  match last l with Some x => Some x | None => p end.

(** [*pp = v] for a [struct dive **], as a function of the store. *)
Definition write_slot (pp : slot) (v : option dive_ptr) (s : state) : state :=
  match pp with
  | TripDives t => set_heap_trips s (alter (λ tr, set_trip_dives tr v) t (heap_trips s))
  | DiveNext d => set_heap_dives s (alter (λ dv, set_next dv v) d (heap_dives s))
  end.

(** The store after remove_dive_from_trip has taken [dive] out of the list
    of its trip: [*pprev = next], [next->pprev = pprev], and the dive has no
    trip any more. *)
Definition unlink_dive (dive : dive_ptr) (pp : slot) (nxt : option dive_ptr)
    (s : state) : state :=
  let s1 := write_slot pp nxt s in
  let s2 := match nxt with
            | Some n => set_heap_dives s1
                          (alter (λ ndv, set_pprev ndv (Some pp)) n (heap_dives s1))
            | None => s1
            end in
  let s3 := set_heap_dives s2
              (alter (λ dv, set_divetrip dv None) dive (heap_dives s2)) in
  set_heap_dives s3 (alter (λ dv, set_tripflag dv NO_TRIP) dive (heap_dives s3)).

(** ... and after [--trip->nrdives]. *)
Definition leave_trip (dive : dive_ptr) (pp : slot) (nxt : option dive_ptr)
    (trip : trip_ptr) (s : state) : state :=
  let s4 := unlink_dive dive pp nxt s in
  set_heap_trips s4
    (alter (λ tr, set_trip_nrdives tr (trip_nrdives tr - 1)) trip (heap_trips s4)).

(** What the trip functions leave alone in a dive, and in a trip. *)
Definition dive_data (dv : dive) :=
  (when dv, duration dv, location dv, cylinder dv, dc dv).
Definition trip_info (tr : dive_trip_t) :=
  (trip_location tr, trip_notes tr, trip_index tr, trip_autogen tr).

(** [s'] is [s] up to the lists of the trips, their start and their count,
    and the trip and flag of the dive [d]. *)
Record same_but_trip_of (d : dive_ptr) (s s' : state) : Prop := {
  sb_dive_data : dive_data <$> heap_dives s' = dive_data <$> heap_dives s;
  sb_other_dives : ∀ y, y ≠ d →
      (λ dv, (divetrip dv, tripflag dv)) <$> heap_dives s' !! y
      = (λ dv, (divetrip dv, tripflag dv)) <$> heap_dives s !! y;
  sb_trip_info : trip_info <$> heap_trips s' = trip_info <$> heap_trips s;
  sb_table : dive_table s' = dive_table s
}.

(** The store after add_dive_to_trip has put [dive] at the head of the list
    of [trip], whose head was [h]. *)
Definition link_dive (dive : dive_ptr) (trip : trip_ptr) (h : option dive_ptr)
    (s : state) : state :=
  {| heap_dives :=
       alter (λ dv, set_pprev dv (Some (TripDives trip))) dive
         (match h with
          | Some n => alter (λ ndv, set_pprev ndv (Some (DiveNext dive))) n
          | None => id
          end
            (alter (λ dv, set_next dv h) dive
               (alter (λ dv, set_tripflag dv ASSIGNED_TRIP) dive
                  (alter (λ dv, set_divetrip dv (Some trip)) dive (heap_dives s)))));
     heap_trips :=
       alter (λ tr, set_trip_dives tr (Some dive)) trip
         (alter (λ tr, set_trip_nrdives tr (trip_nrdives tr + 1)) trip (heap_trips s));
     freed := freed s;
     dive_trip_list := dive_trip_list s;
     dive_table := dive_table s |}.

(** The member lists without the dive [d]. *)
Definition without_dive (d : dive_ptr) (Mf : trip_ptr → list dive_ptr)
  : trip_ptr → list dive_ptr :=
  λ t, filter (λ y, y ≠ d) (Mf t).

(** The registry without the trip whose only dive is [d]. *)
Definition without_trip_of (d : dive_ptr) (Mf : trip_ptr → list dive_ptr)
    (R : list trip_ptr) : list trip_ptr :=
  filter (λ t, Mf t ≠ [d]) R.

(** The start of a trip after [d] has left, when [w] was its start before:
    a trip that started with [d] starts with the earliest dive left. *)
Definition start_without (s : state) (d : dive_ptr) (l : list dive_ptr) (w : Z) : Z :=
  if decide (d ∈ l ∧ w = dive_when s d) then
    match min_when (map (dive_when s) (filter (λ y, y ≠ d) l)) with
    | Some m => m
    | None => w
    end
  else w.

(** The start of a trip after [d] has joined, when [w] was its start
    before: a dive without a timestamp does not move it. *)
Definition start_with (s : state) (d : dive_ptr) (w : Z) : Z :=
  if negb (dive_when s d =? 0) && (w >? dive_when s d) then dive_when s d else w.

(** The trips of [L] that insert_trip walks past for a trip starting at
    [w], and the trips from the one it stops at. *)
Fixpoint earlier_trips (s : state) (w : Z) (L : list trip_ptr) : list trip_ptr :=
  match L with
  | [] => []
  | t :: L' => if trip_start s t <? w then t :: earlier_trips s w L' else []
  end.
Fixpoint later_trips (s : state) (w : Z) (L : list trip_ptr) : list trip_ptr :=
  match L with
  | [] => []
  | t :: L' => if trip_start s t <? w then later_trips s w L' else L
  end.

(** The trip of the registry that insert_trip finds with the start [w]. *)
Definition same_start_trip (s : state) (w : Z) : option trip_ptr :=
  match later_trips s w (registry s) with
  | t :: _ => if trip_start s t =? w then Some t else None
  | [] => None
  end.

(** [s'] is [s] up to the trips, and the trip and flag of the dive [d]. *)
Record same_dives_but (d : dive_ptr) (s s' : state) : Prop := {
  sd_dive_data : dive_data <$> heap_dives s' = dive_data <$> heap_dives s;
  sd_other_dives : ∀ y, y ≠ d →
      (λ dv, (divetrip dv, tripflag dv)) <$> heap_dives s' !! y
      = (λ dv, (divetrip dv, tripflag dv)) <$> heap_dives s !! y;
  sd_table : dive_table s' = dive_table s
}.

(** The trip [tr] after insert_trip has merged the draft [dtr] into it:
    the location and the notes of the draft where [tr] has none. *)
Definition merge_trip_info (dtr tr : dive_trip_t) : dive_trip_t :=
  let tr1 := match trip_location tr with
             | None => set_trip_location tr (trip_location dtr)
             | Some _ => tr
             end in
  match trip_notes tr1 with
  | None => set_trip_notes tr1 (trip_notes dtr)
  | Some _ => tr1
  end.

(** ** A store with two trips, for the examples *)

(** A dive at time [w] in the trip [t], linked into its list. *)
Definition trip_dive (w : Z) (t : trip_ptr) (nx : option dive_ptr) (pp : slot) : dive :=
  {| when := w; duration := 3600; location := None; cylinder := [];
     dc := no_dc; tripflag := IN_TRIP; divetrip := Some t; next := nx;
     pprev := Some pp |}.

(** Three dives at 1000 s, an hour later and fifty hours later; trip 0 holds
    the first two, trip 1 the third.  The trips carry the indices 1 and 2
    that fill_dive_list hands out. *)
Definition two_trips : state :=
  {| heap_dives := [trip_dive 1000 0 None (DiveNext 1);
                    trip_dive 4600 0 (Some 0%nat) (TripDives 0);
                    trip_dive 181000 1 None (TripDives 1)];
     heap_trips := [{| trip_when := 1000; trip_location := None; trip_notes := None;
                       trip_dives := Some 1%nat; trip_nrdives := 2; trip_index := 1;
                       trip_autogen := 0; trip_next := Some 1%nat |};
                    {| trip_when := 181000; trip_location := None; trip_notes := None;
                       trip_dives := Some 2%nat; trip_nrdives := 1; trip_index := 2;
                       trip_autogen := 0; trip_next := None |}];
     freed := [];
     dive_trip_list := Some 0%nat;
     dive_table := [0%nat; 1%nat; 2%nat] |}.

(** ** A draft trip with two pending dives *)

(** Trip 0 is in the registry, starts at 100 and holds dive 0.  Trip 1 is
    a draft with the same start that is not in the registry; the dives 1
    and 2 are on its list. *)
Definition draft_with_two_dives : state :=
  {| heap_dives := [trip_dive 100 0 None (TripDives 0);
                    trip_dive 100 1 (Some 2%nat) (TripDives 1);
                    trip_dive 200 1 None (DiveNext 1)];
     heap_trips := [{| trip_when := 100; trip_location := None;
                       trip_notes := Some "night dives"%string;
                       trip_dives := Some 0%nat; trip_nrdives := 1; trip_index := 1;
                       trip_autogen := 0; trip_next := None |};
                    {| trip_when := 100; trip_location := Some "Bonaire"%string;
                       trip_notes := Some "draft"%string;
                       trip_dives := Some 1%nat; trip_nrdives := 2; trip_index := 0;
                       trip_autogen := 0; trip_next := None |}];
     freed := [];
     dive_trip_list := Some 0%nat;
     dive_table := [0%nat; 1%nat; 2%nat] |}.

(** The three ungrouped dives of the autogroup example: at [T], an hour
    later and fifty hours later. *)
Definition three_dives (T : Z) : state :=
  store_of_dives [plain_dive T; plain_dive (T + 3600); plain_dive (T + 180000)].

(** The trip that find_matching_trip returns, read off the registry: the
    walk from [t] along the trips [L] goes on while the next trip starts at
    or before [w]. *)
Fixpoint last_at_or_before (s : state) (w : Z) (t : trip_ptr) (L : list trip_ptr)
  : trip_ptr :=
  match L with
  | [] => t
  | n :: L' => if trip_start s n <=? w then last_at_or_before s w n L' else t
  end.
Definition matching_trip (s : state) (w : Z) : option trip_ptr :=
  match registry s with
  | [] => None
  | t :: L => if trip_start s t >? w then None else Some (last_at_or_before s w t L)
  end.

(** ** Auxiliary notions for insert_trip_before *)

(** The date update_trip_timestamp computes for a row with the children
    [rows]: the smaller of the dates of the first and of the last child. *)
Definition first_last_min (rows : list tree_row) : Z :=
  match rows with
  | [] => 0
  | first_child :: _ =>
    Z.min (DIVE_DATE first_child) (DIVE_DATE (List.last rows first_child))
  end.

(** The children of a trip row as fill_dive_list appends them and as the
    default sort order keeps them: every row is later than the rows below. *)
Fixpoint newest_first (rows : list tree_row) : Prop :=
  match rows with
  | [] => True
  | r :: rows' => Forall (λ r', DIVE_DATE r' < DIVE_DATE r) rows' ∧ newest_first rows'
  end.

(** The other order the column of the dive numbers can be sorted in: every
    row is earlier than the rows below. *)
Fixpoint oldest_first (rows : list tree_row) : Prop :=
  match rows with
  | [] => True
  | r :: rows' => Forall (λ r', DIVE_DATE r < DIVE_DATE r') rows' ∧ oldest_first rows'
  end.

(** The order of the rows: newest first when [desc] is set. *)
Definition in_time_order (desc : bool) (rows : list tree_row) : Prop :=
  if desc then newest_first rows else oldest_first rows.

(** The date of the row [i]. *)
Definition row_date (rows : list tree_row) (i : nat) : Z :=
  match rows !! i with Some r => DIVE_DATE r | None => 0 end.

(** The rows [rows] are the rows of the dives [ds]: DIVE_INDEX is the place
    of the dive in the dive table and DIVE_DATE its timestamp. *)
Definition rows_of_dives (s : state) (rows : list tree_row) (ds : list dive_ptr) : Prop :=
  Forall2 (λ row d, get_dive s (DIVE_INDEX row) = Some d ∧
                    DIVE_DATE row = dive_when s d) rows ds.

(** The top-level row [parent] shows the trip [t] of the registry: its date
    is the start of the trip and its children are the rows of the members
    [ds] of the trip. *)
Record shows_trip (s : state) (parent : tree_node) (t : trip_ptr)
    (ds : list dive_ptr) : Prop := {
  st_trip : t ∈ registry s;
  st_date : DIVE_DATE (node_row parent) = trip_start s t;
  st_rows : rows_of_dives s (node_children parent) ds;
  st_members : ds ≡ₚ members s t
}.

(** The trips of the registry follow each other in time: a trip starts
    after every dive of the trips before it. *)
Definition trips_apart (s : state) : Prop :=
  ∀ r1 t1 r2 t2 d,
    registry s = r1 ++ t1 :: r2 → t2 ∈ r2 → d ∈ members s t1 →
    dive_when s d < trip_start s t2.

(** The start of the new trip in the loop of insert_trip_before when [n]
    children are left in the row of the old trip: the date of the dive the
    trip is split at before the first turn, then what update_trip_timestamp
    has computed from the rows that have moved. *)
Definition split_new_start (rows : list tree_row) (k n : nat) : Z :=
  if decide (n = length rows) then row_date rows k else first_last_min (drop n rows).

(** The store and the two rows in the loop of insert_trip_before when [n]
    children are left in the row of the old trip.  [s0] is the store
    before the call, [rows] and [ds] the children of the row and their
    dives, [k] the place of the dive the trip is split at, [R3] the
    registry with the new trip. *)
Record split_state (s0 : state) (rows : list tree_row) (ds : list dive_ptr)
    (k : nat) (old new : trip_ptr) (R3 : list trip_ptr)
    (n : nat) (s : state) (parent newparent : tree_node) : Prop := {
  ss_parent : node_children parent = take n rows;
  ss_parent_date : DIVE_DATE (node_row parent) = first_last_min (take n rows);
  ss_newparent : node_children newparent = drop n rows;
  ss_newparent_date : (n < length rows)%nat →
      DIVE_DATE (node_row newparent) = trip_start s new;
  ss_well_formed : well_formed s;
  ss_registry : registry s = R3;
  ss_new : ∀ d, d ∈ members s new ↔ d ∈ drop n ds ∨ ds !! k = Some d;
  ss_old : ∀ d, d ∈ members s old ↔ d ∈ take n ds ∧ ds !! k ≠ Some d;
  ss_others : ∀ t, t ≠ new → t ≠ old → members s t = members s0 t;
  ss_new_start : trip_start s new = split_new_start rows k n;
  ss_old_start : trip_start s old = first_last_min (take k rows);
  ss_others_start : ∀ t, t ∈ registry s0 → t ≠ old → trip_start s t = trip_start s0 t;
  ss_dive_data : dive_data <$> heap_dives s = dive_data <$> heap_dives s0;
  ss_table : dive_table s = dive_table s0
}.

(** ** Stores and rows for the split examples *)

(** The row of trip 0 of [two_trips]: its two dives, newest first. *)
Definition two_trips_row : tree_node :=
  {| node_row := {| DIVE_INDEX := -1; DIVE_DATE := 1000 |};
     node_children := [{| DIVE_INDEX := 1; DIVE_DATE := 4600 |};
                       {| DIVE_INDEX := 0; DIVE_DATE := 1000 |}] |}.

(** The same row when the list is sorted the other way, oldest first. *)
Definition two_trips_row_oldest_first : tree_node :=
  {| node_row := {| DIVE_INDEX := -1; DIVE_DATE := 1000 |};
     node_children := [{| DIVE_INDEX := 0; DIVE_DATE := 1000 |};
                       {| DIVE_INDEX := 1; DIVE_DATE := 4600 |}] |}.

(** Trip 0 holds the dives 0, 1 and 2 at 100, 200 and 300; trip 1 holds
    dive 3 at 250, in the middle of trip 0.  The dive table is in time
    order. *)
Definition overlapping_trips : state :=
  {| heap_dives := [trip_dive 100 0 None (DiveNext 1);
                    trip_dive 200 0 (Some 0%nat) (DiveNext 2);
                    trip_dive 300 0 (Some 1%nat) (TripDives 0);
                    trip_dive 250 1 None (TripDives 1)];
     heap_trips := [{| trip_when := 100; trip_location := None; trip_notes := None;
                       trip_dives := Some 2%nat; trip_nrdives := 3; trip_index := 1;
                       trip_autogen := 0; trip_next := Some 1%nat |};
                    {| trip_when := 250; trip_location := None; trip_notes := None;
                       trip_dives := Some 3%nat; trip_nrdives := 1; trip_index := 2;
                       trip_autogen := 0; trip_next := None |}];
     freed := [];
     dive_trip_list := Some 0%nat;
     dive_table := [0%nat; 1%nat; 3%nat; 2%nat] |}.

(** The row of trip 0 of [overlapping_trips]. *)
Definition overlapping_row : tree_node :=
  {| node_row := {| DIVE_INDEX := -1; DIVE_DATE := 100 |};
     node_children := [{| DIVE_INDEX := 3; DIVE_DATE := 300 |};
                       {| DIVE_INDEX := 1; DIVE_DATE := 200 |};
                       {| DIVE_INDEX := 0; DIVE_DATE := 100 |}] |}.

(** ** The trip mutations *)

(** The functions that change the trips: add_dive_to_trip,
    remove_dive_from_trip, merge_trips_cb (on the dates of the two rows),
    insert_trip_before (on a trip row and the place of a child) and
    autogroup_dives. *)
Inductive trip_op :=
| Add_dive (dive : dive_ptr) (trip : trip_ptr)
| Remove_dive (dive : dive_ptr)
| Merge_trips (this_date prev_date : Z)
| Split_trip (parent : tree_node) (k : nat)
| Autogroup.

Definition run_op `{DiveParams} (op : trip_op) : M unit :=
  match op with
  | Add_dive dive trip => add_dive_to_trip dive (Some trip)
  | Remove_dive dive => remove_dive_from_trip dive
  | Merge_trips this_date prev_date => merge_trips_cb this_date prev_date
  | Split_trip parent k => run insert_trip_before parent k; ret tt
  | Autogroup => autogroup_dives
  end.

(** What the callers see to before a mutation: the dive and the trip
    exist; the dates of the two rows find two different trips; the row
    shows a trip with its dives in time order, newest first or oldest
    first, the trips before it in the registry start before it and, when
    the rows are oldest first, the trip behind it starts after the dive
    of the split. *)
Definition op_ready (s : state) (op : trip_op) : Prop :=
  match op with
  | Add_dive dive trip => is_Some (heap_dives s !! dive) ∧ trip ∈ registry s
  | Remove_dive dive => is_Some (heap_dives s !! dive)
  | Merge_trips this_date prev_date =>
    ∃ this prev,
      find_matching_trip this_date s = Ok (Some this) s ∧
      find_matching_trip prev_date s = Ok (Some prev) s ∧
      this ≠ prev
  | Split_trip parent k =>
    ∃ old ds desc,
      shows_trip s parent old ds ∧
      in_time_order desc (node_children parent) ∧
      (k < length (node_children parent))%nat ∧
      ∀ A B, registry s = A ++ old :: B →
             Forall (λ a, trip_start s a < trip_start s old) A ∧
             (desc = false →
              ∀ b, head B = Some b → row_date (node_children parent) k < trip_start s b)
  | Autogroup => True
  end.

(** Trip 0 holds dive 0 at 1000; dive 1 has no timestamp and no trip. *)
Definition undated_store : state :=
  {| heap_dives := [trip_dive 1000 0 None (TripDives 0); plain_dive 0];
     heap_trips := [{| trip_when := 1000; trip_location := None; trip_notes := None;
                       trip_dives := Some 0%nat; trip_nrdives := 1; trip_index := 1;
                       trip_autogen := 0; trip_next := None |}];
     freed := [];
     dive_trip_list := Some 0%nat;
     dive_table := [1%nat; 0%nat] |}.

(** ** What the scan of the cylinders has found *)

Section GasSummary.
Context `{DiveParams}.

(** What the scan has found in the cylinders [cs] it did not skip: a
    cylinder of [cs] with the mixture ([mo2], [mhe]), no cylinder of [cs]
    with more helium or with as much helium and more oxygen, and [lo] the
    least oxygen of [cs], capped by the 1000 the scan starts from. *)
Record gas_summary (cs : list cylinder_t) (mo2 mhe lo : Z) : Prop := {
  gs_witness : ∃ c, c ∈ cs ∧ he (cyl_gasmix c) = mhe ∧ effective_o2 c = mo2;
  gs_max : ∀ c, c ∈ cs →
      he (cyl_gasmix c) < mhe ∨ (he (cyl_gasmix c) = mhe ∧ effective_o2 c <= mo2);
  gs_low : ∀ c, c ∈ cs → lo <= effective_o2 c;
  gs_low_cap : lo <= 1000;
  gs_low_met : lo = 1000 ∨ ∃ c, c ∈ cs ∧ effective_o2 c = lo
}.

Definition scan_state (cs : list cylinder_t) (acc : Z * Z * Z) : Prop :=
  match cs with
  | [] => acc = (-1, -1, 1000)
  | _ => gas_summary cs acc.1.1 acc.1.2 acc.2
  end.

End GasSummary.

(** ** The store of the decompression example *)

(** Four dives of an hour each, at 1h, 20h, 60h and 100h; the last one is
    the target. *)
Definition four_dives : state :=
  store_of_dives [plain_dive 3600; plain_dive 72000; plain_dive 216000; plain_dive 360000].

(* ===================================================================== *)
(** * Further notions for the properties of the trip functions *)
(* ===================================================================== *)

(** The trips of the registry in the order of their start, as insert_trip
    looks for its place: no trip starts before a trip that comes before it
    in the list. *)
Fixpoint starts_ascend (s : state) (L : list trip_ptr) : Prop :=
  match L with
  | [] => True
  | t :: L' => Forall (λ b, trip_start s t <= trip_start s b) L' ∧ starts_ascend s L'
  end.
Definition trips_in_order (s : state) : Prop := starts_ascend s (registry s).

(** No two trips of the registry start at the same time. *)
Definition distinct_starts (s : state) : Prop :=
  NoDup (trip_start s <$> registry s).

(** The index fill_dive_list has given to a trip. *)
Definition index_of (s : state) (t : trip_ptr) : option Z :=
  trip_index <$> heap_trips s !! t.

(** [two_trips] with a draft trip that starts at [w], has no dives and is
    not in the registry: what create_and_hookup_trip_from_dive passes to
    insert_trip. *)
Definition two_trips_with_draft (w : Z) : state :=
  set_heap_trips two_trips (heap_trips two_trips ++ [set_trip_when zero_trip w]).

(** Trip 0 holds dive 0 at 1000; dive 1, at 500, has no trip.  The dive
    table is in time order. *)
Definition loose_dive_store : state :=
  {| heap_dives := [trip_dive 1000 0 None (TripDives 0); plain_dive 500];
     heap_trips := [{| trip_when := 1000; trip_location := None; trip_notes := None;
                       trip_dives := Some 0%nat; trip_nrdives := 1; trip_index := 1;
                       trip_autogen := 0; trip_next := None |}];
     freed := [];
     dive_trip_list := Some 0%nat;
     dive_table := [1%nat; 0%nat] |}.

(** The fields of the dive [y] that the trip functions leave alone in a
    dive they are not called for: what it records, its trip and its flag. *)
Definition kept (s s' : state) (y : dive_ptr) : Prop :=
  ∀ dv, heap_dives s !! y = Some dv →
    ∃ dv', heap_dives s' !! y = Some dv' ∧ dive_data dv' = dive_data dv ∧
           divetrip dv' = divetrip dv ∧ tripflag dv' = tripflag dv.

(** The dive [y] is in a trip. *)
Definition has_trip (s : state) (y : dive_ptr) : Prop :=
  ∃ dv t, heap_dives s !! y = Some dv ∧ divetrip dv = Some t.

(** autogroup_dives passes the dive [y] by: it is in a trip, or it is not
    to be grouped. *)
Definition grouped `{DiveParams} (s : state) (y : dive_ptr) : Prop :=
  ∃ dv, heap_dives s !! y = Some dv ∧
        (is_Some (divetrip dv) ∨ DIVE_NEEDS_TRIP dv = false).

(** The trips of [s] are trips of [s'], with the members they had behind
    those that have joined. *)
Definition trips_grown (s s' : state) : Prop :=
  ∀ t, t ∈ registry s → t ∈ registry s' ∧ ∃ l, members s' t = l ++ members s t.

(** The times of the samples do not go back. *)
Definition times_ascend (smp : list sample) : Prop :=
  ∀ i j, (i <= j < length smp)%nat → sample_time smp i <= sample_time smp j.

(* ===================================================================== *)
(** * More functions of divelist.c *)
(* ===================================================================== *)

Definition set_trip_index (t : dive_trip_t) (i : Z) : dive_trip_t :=
  {| trip_when := trip_when t; trip_location := trip_location t; trip_notes := trip_notes t;
     trip_dives := trip_dives t; trip_nrdives := trip_nrdives t;
     trip_index := i; trip_autogen := trip_autogen t;
     trip_next := trip_next t |}.

(** The [for (trip = dive_trip_list; trip != NULL; trip = trip->next)] of
    clear_trip_indexes. *)
Fixpoint clear_trip_indexes_loop (fuel : nat) (trip : option trip_ptr) : M unit :=
  match trip with
  | None => ret tt
  | Some t =>
    match fuel with
    | O => out_of_fuel
    | S fuel' =>
      run modify_trip t (fun tr => set_trip_index tr 0);
      do tr <- load_trip t;
      clear_trip_indexes_loop fuel' (trip_next tr)
    end
  end.

Definition clear_trip_indexes : M unit :=
  do s <- get_state;
  clear_trip_indexes_loop (trip_fuel s) (dive_trip_list s).

(** What clear_trip_indexes leaves alone in a trip. *)
Definition trip_but_index (tr : dive_trip_t) :=
  (trip_when tr, trip_location tr, trip_notes tr, trip_dives tr, trip_nrdives tr,
   trip_autogen tr, trip_next tr).

(** The body of for_each_dive in remove_autogen_trips, over the entries of
    the dive table that are still to come. *)
Fixpoint remove_autogen_trips_loop (table : list dive_ptr) : M unit :=
  match table with
  | [] => ret tt
  | dive :: table' =>
    do dv <- load_dive dive;
    run match divetrip dv with
        | None => ret tt
        | Some trip =>
          do tr <- load_trip trip;
          if negb (trip_autogen tr =? 0) then remove_dive_from_trip dive else ret tt
        end;
    remove_autogen_trips_loop table'
  end.

Definition remove_autogen_trips : M unit :=
  do s <- get_state;
  remove_autogen_trips_loop (dive_table s).

(** The trip [t] carries the mark of autogroup_dives. *)
Definition is_autogen (s : state) (t : trip_ptr) : bool :=
  match heap_trips s !! t with
  | Some tr => negb (trip_autogen tr =? 0)
  | None => false
  end.

(** The dive [y] is in a trip that autogroup_dives has made. *)
Definition in_autogen_trip (s : state) (y : dive_ptr) : Prop :=
  ∃ dv t, heap_dives s !! y = Some dv ∧ divetrip dv = Some t ∧ is_autogen s t = true.

(** [two_trips] with trip 1 marked as made by autogroup_dives. *)
Definition two_trips_one_autogen : state :=
  set_heap_trips two_trips (alter (λ tr, set_trip_autogen tr 1) 1%nat (heap_trips two_trips)).

(** ** The dive table and the selection *)

Definition set_dive_table (s : state) (tab : list dive_ptr) : state :=
  {| heap_dives := heap_dives s; heap_trips := heap_trips s; freed := freed s;
     dive_trip_list := dive_trip_list s; dive_table := tab |}.

(** The selection: the [selected] flag of every dive, and the two counters
    amount_selected and selected_dive that divelist.c shares with the rest
    of the program.  amount_selected is an unsigned int (dump_selection
    prints it with %u), selected_dive an int. *)
Record selection := {
  selected : dive_ptr → bool;
  amount_selected : Z;
  selected_dive : Z
}.

(** Arithmetic on an unsigned int. *)
Definition uint (x : Z) : Z := x mod 2 ^ 32.

Definition set_amount_selected (sel : selection) (n : Z) : selection :=
  {| selected := selected sel; amount_selected := n; selected_dive := selected_dive sel |}.

(** delete_single_dive: the dive leaves its trip and the table, the entries
    behind it move up.  free releases the dive and its strings; the store
    keeps the block of the dive. *)
Definition delete_single_dive (idx : Z) (sel : selection) : M selection :=
  do s <- get_state;
  match get_dive s idx with
  | None => ret sel                                (* this should never happen *)
  | Some dive =>
    run remove_dive_from_trip dive;
    do s <- get_state;
    run (fun _ => Ok tt (set_dive_table s (delete (Z.to_nat idx) (dive_table s))));
    ret (if selected sel dive
         then set_amount_selected sel (uint (amount_selected sel - 1))
         else sel)
  end.

(** add_single_dive.  [allocated] is dive_table.allocated, the length of
    the array, which the store does not hold.  The table grows by one and
    the loop moves the entries from [idx] on down by one place, the last
    of them to dives[nr]: a write behind the array when the table is full.
    For [idx] behind the end of the table no entry is written, and the
    longer table would take in a place of the array that holds no dive of
    the store; for a negative [idx] the loop starts before the array. *)
Definition add_single_dive (allocated : nat) (idx : Z) (dive : dive_ptr)
    (sel : selection) : M selection :=
  do s <- get_state;
  do _ <- load_dive dive;                           (* dive->selected *)
  if (length (dive_table s) <? allocated)%nat
     && (0 <=? idx) && (idx <=? Z.of_nat (length (dive_table s))) then
    run (fun _ => Ok tt (set_dive_table s
                       (take (Z.to_nat idx) (dive_table s) ++
                        dive :: drop (Z.to_nat idx) (dive_table s))));
    ret (if selected sel dive
         then set_amount_selected sel (uint (amount_selected sel + 1))
         else sel)
  else fault.

(** amount_selected counts the entries of the dive table whose dive is
    selected. *)
Definition count_selected (sel : selection) (tab : list dive_ptr) : Z :=
  Z.of_nat (length (filter (λ d, selected sel d = true) tab)).
Definition selection_counted (s : state) (sel : selection) : Prop :=
  amount_selected sel = count_selected sel (dive_table s).

(** dive_table.nr is an int. *)
Definition table_fits (s : state) : Prop :=
  Z.of_nat (length (dive_table s)) < 2 ^ 31.

(** Three dives without trips, and a fourth that is not in the table: the
    dive that merge_dives has made of the first two. *)
Definition three_and_merged : state :=
  set_dive_table
    (store_of_dives [plain_dive 1000; plain_dive 4600; plain_dive 181000; plain_dive 1000])
    [0%nat; 1%nat; 2%nat].

(** ** select_dive and deselect_dive *)

Definition set_selected (sel : selection) (dive : dive_ptr) (b : bool) : selection :=
  {| selected := λ d, if decide (d = dive) then b else selected sel d;
     amount_selected := amount_selected sel;
     selected_dive := selected_dive sel |}.

Definition set_selected_dive (sel : selection) (idx : Z) : selection :=
  {| selected := selected sel; amount_selected := amount_selected sel;
     selected_dive := idx |}.

Definition select_dive (s : state) (idx : Z) (sel : selection) : selection :=
  match get_dive s idx with
  | Some dive =>
    if negb (selected sel dive) then
      set_selected_dive
        (set_amount_selected (set_selected sel dive true) (uint (amount_selected sel + 1)))
        idx
    else sel
  | None => sel
  end.

(** The loop [while (--selected_dive >= 0)] of deselect_dive, entered with
    selected_dive = [i]: the place it returns at, if it does. *)
Fixpoint deselect_dive_down (s : state) (sel : selection) (i : nat) : option Z :=
  match i with
  | O => None
  | S i' =>
    match get_dive s (Z.of_nat i') with
    | Some dive =>
      if selected sel dive then Some (Z.of_nat i') else deselect_dive_down s sel i'
    | None => deselect_dive_down s sel i'
    end
  end.

(** The loop [while (++selected_dive < dive_table.nr)], with selected_dive
    = [i] after the increment and [rest] places from [i] to the end of the
    table: selected_dive when the loop is left, by return or at the end. *)
Fixpoint deselect_dive_up (s : state) (sel : selection) (rest : nat) (i : Z) : Z :=
  match rest with
  | O => i
  | S rest' =>
    match get_dive s i with
    | Some dive =>
      if selected sel dive then i else deselect_dive_up s sel rest' (i + 1)
    | None => deselect_dive_up s sel rest' (i + 1)
    end
  end.

Definition deselect_dive (s : state) (idx : Z) (sel : selection) : selection :=
  match get_dive s idx with
  | Some dive =>
    if selected sel dive then
      let sel := set_amount_selected (set_selected sel dive false)
                   (uint (amount_selected sel - 1)) in
      if (selected_dive sel =? idx) && (amount_selected sel >? 0) then
        (* pick a different dive as selected *)
        match deselect_dive_down s sel (Z.to_nat idx) with
        | Some j => set_selected_dive sel j
        | None =>
          set_selected_dive sel
            (deselect_dive_up s sel (length (dive_table s) - S (Z.to_nat idx)) (idx + 1))
        end
      else if amount_selected sel =? 0 then set_selected_dive sel (-1)
      else sel
    else sel
  | None => sel
  end.

(** The selection is sound: amount_selected counts the selected entries of
    the table, selected_dive is the place of a selected dive if there is
    one, and -1 if there is none. *)
Definition selection_sound (s : state) (sel : selection) : Prop :=
  selection_counted s sel ∧
  (0 < amount_selected sel →
   ∃ d, get_dive s (selected_dive sel) = Some d ∧ selected sel d = true) ∧
  (amount_selected sel = 0 → selected_dive sel = -1).

(** Of three dives, the two later ones selected. *)
Definition two_of_three : selection :=
  {| selected := λ d, negb (Nat.eqb d 0); amount_selected := 2; selected_dive := 1 |}.

(** ** active_o2 *)

(** An event of a dive computer: time.seconds, name and value. *)
Record event := { ev_time : Z; ev_name : string; ev_value : Z }.

Section ActiveO2.
Context `{DiveParams}.

(** The loop of active_o2 along the list of events. *)
Fixpoint active_o2_loop (events : list event) (time o2permille : Z) : Z :=
  match events with
  | [] => o2permille
  | ev :: events' =>
    if ev_time ev >? time then o2permille                              (* break *)
    else if negb (String.eqb (ev_name ev) "gaschange")
         then active_o2_loop events' time o2permille                   (* continue *)
         else active_o2_loop events' time (10 * Z.land (ev_value ev) 65535)
  end.

(** active_o2.  [events] is the list dc->events, which the dive computer
    of the store does not hold.  The result is that of the C function when
    the dive has its first cylinder. *)
Definition active_o2 (dive : dive) (events : list event) (time : Z) : option Z :=
  match cylinder dive with
  | cyl :: _ =>
    Some (active_o2_loop events time
            (if o2 (cyl_gasmix cyl) =? 0 then O2_IN_AIR else o2 (cyl_gasmix cyl)))
  | [] => None
  end.

End ActiveO2.

(** The events follow each other in time. *)
Fixpoint events_in_time_order (events : list event) : Prop :=
  match events with
  | [] => True
  | ev :: events' =>
    Forall (λ e, ev_time ev <= ev_time e) events' ∧ events_in_time_order events'
  end.

(** The gas changes among the events up to [time]. *)
Definition gas_changes_until (events : list event) (time : Z) : list event :=
  filter (λ ev, (ev_time ev <=? time) && String.eqb (ev_name ev) "gaschange" = true) events.

(** ** fill_dive_list and dive_list_update_dives *)

(** The row fill_dive_list stores for the dive at the place [i] of the
    table, in the two columns of [tree_row]. *)
Definition dive_row (i : Z) (dv : dive) : tree_row :=
  {| DIVE_INDEX := i; DIVE_DATE := when dv |}.

(** gtk_tree_store_append: the row becomes the last child of the top-level
    row [parent], or the last top-level row for NULL. *)
Definition tree_store_append (store : list tree_node) (parent : option nat)
    (row : tree_row) : list tree_node :=
  match parent with
  | None => store ++ [{| node_row := row; node_children := [] |}]
  | Some p => alter (λ n, set_node_children n (node_children n ++ [row])) p store
  end.

(** The lookup loop of fill_dive_list: the first top-level row whose
    DIVE_INDEX is [idx]. *)
Definition lookup_top_row (store : list tree_node) (idx : Z) : option nat :=
  fst <$> list_find (λ n, DIVE_INDEX (node_row n) = idx) store.

Section FillDiveList.
Context `{DiveParams}.

(** The head of a turn of the loop of fill_dive_list: the row of the trip
    of the dive, which is made if the trip has no index yet.  The result is
    (trip_index, treestore, parent_ptr). *)
Definition fill_dive_list_parent (trip_idx : Z) (treestore : list tree_node) (dv : dive)
  : M (Z * list tree_node * option nat) :=
  match divetrip dv with
  | None => ret (trip_idx, treestore, None)
  | Some trip =>
    do tr <- load_trip trip;
    if trip_index tr =? 0 then
      run modify_trip trip (fun tr => set_trip_index tr (trip_idx + 1));
      (* Create new trip entry *)
      ret (trip_idx + 1,
           treestore ++ [{| node_row := {| DIVE_INDEX := - (trip_idx + 1);
                                           DIVE_DATE := trip_when tr |};
                            node_children := [] |}],
           Some (length treestore))
    else
      ret (trip_idx, treestore, lookup_top_row treestore (- trip_index tr))
  end.

(** The loop [while (--i >= 0)] of fill_dive_list, entered with [i]. *)
Fixpoint fill_dive_list_loop (i : nat) (trip_idx : Z) (treestore : list tree_node)
    (liststore : list tree_row) : M (list tree_node * list tree_row) :=
  match i with
  | O => ret (treestore, liststore)
  | S i' =>
    do s <- get_state;
    match get_dive s (Z.of_nat i') with
    | None => fault                                  (* dive->divetrip *)
    | Some dive =>
      do dv <- load_dive dive;
      do r <- fill_dive_list_parent trip_idx treestore dv;
      let '(trip_idx, treestore, parent_ptr) := r in
      (* store dive *)
      fill_dive_list_loop i' trip_idx
        (tree_store_append treestore parent_ptr (dive_row (Z.of_nat i') dv))
        (liststore ++ [dive_row (Z.of_nat i') dv])
    end
  end.

(** fill_dive_list up to the end of its loop, with the rows of the two
    stores as it finds them; the result is (treestore, liststore).
    [autogroup] is the global flag.  update_cylinder_related_info writes
    fields of the dive that the store does not hold, and the selection of
    the first row after the loop is left to GTK. *)
Definition fill_dive_list (autogroup : bool) (treestore : list tree_node)
    (liststore : list tree_row) : M (list tree_node * list tree_row) :=
  (* Do we need to create any dive groups automatically? *)
  run (if autogroup then autogroup_dives else ret tt);
  run clear_trip_indexes;
  do s <- get_state;
  fill_dive_list_loop (length (dive_table s)) 0 treestore liststore.

(** dive_list_update_dives clears both stores and fills them. *)
Definition dive_list_update_dives (autogroup : bool)
  : M (list tree_node * list tree_row) :=
  fill_dive_list autogroup [] [].

(** The [for_each_dive] of remove_trip along the dive table. *)
Fixpoint remove_trip_loop (trip : trip_ptr) (table : list dive_ptr) : M unit :=
  match table with
  | [] => ret tt
  | dive :: table' =>
    do dv <- load_dive dive;
    run (if decide (divetrip dv = Some trip) then remove_dive_from_trip dive else ret tt);
    remove_trip_loop trip table'
  end.

(** remove_trip.  [idx] is what get_path_index reads from the row of
    [trippath], its DIVE_INDEX; [stores] are the rows of the two stores,
    which stay as they are when the function returns early. *)
Definition remove_trip (autogroup : bool) (idx : Z)
    (stores : list tree_node * list tree_row) : M (list tree_node * list tree_row) :=
  do trip <- find_trip_by_idx idx;
  match trip with
  | None => ret stores
  | Some trip =>
    do s <- get_state;
    run remove_trip_loop trip (dive_table s);
    dive_list_update_dives autogroup
  end.

End FillDiveList.

(** The trip of the dive at the place [j] of the table. *)
Definition trip_at (s : state) (j : nat) : option trip_ptr :=
  match dive_table s !! j with
  | Some d => match heap_dives s !! d with Some dv => divetrip dv | None => None end
  | None => None
  end.

(** The row of the dive at the place [j] of the table. *)
Definition table_row (s : state) (j : nat) : tree_row :=
  {| DIVE_INDEX := Z.of_nat j;
     DIVE_DATE := from_option (dive_when s) 0 (dive_table s !! j) |}.

(** The places of the table from [i] on whose dive has the trip [t], the
    last place first. *)
Definition places_of (s : state) (t : option trip_ptr) (i : nat) : list nat :=
  filter (λ j, trip_at s j = t) (reverse (seq i (length (dive_table s) - i))).

(** The top-level rows that the loop of fill_dive_list has made when it
    has done the places from [i] on: one for a trip, with the rows of its
    dives below it, and one for a dive without trip. *)
Definition trip_node (s : state) (i : nat) (t : trip_ptr) : tree_node :=
  {| node_row := {| DIVE_INDEX := - default 0 (index_of s t);
                    DIVE_DATE := trip_start s t |};
     node_children := table_row s <$> places_of s (Some t) i |}.
Definition dive_node (s : state) (j : nat) : tree_node :=
  {| node_row := table_row s j; node_children := [] |}.
Definition group_node (s : state) (i : nat) (g : trip_ptr + nat) : tree_node :=
  match g with
  | inl t => trip_node s i t
  | inr j => dive_node s j
  end.

(** The dives of the table follow each other in time. *)
Definition table_in_time_order (s : state) : Prop :=
  ∀ i j di dj, (i < j)%nat → dive_table s !! i = Some di → dive_table s !! j = Some dj →
               dive_when s di < dive_when s dj.

(** What holds when the loop of fill_dive_list has done the places from
    [i] on, started in the store [s0] with all indices cleared: [s] is the
    store, [ti] the local trip_index, [groups] names the top-level rows of
    the tree store and [lst] are the rows of the list store. *)
Record fill_inv (s0 : state) (i : nat) (s : state) (ti : Z)
    (groups : list (trip_ptr + nat)) (lst : list tree_row) : Prop := {
  fi_wf : well_formed s;
  fi_registry : registry s = registry s0;
  fi_members : ∀ t, members s t = members s0 t;
  fi_start : ∀ t, trip_start s t = trip_start s0 t;
  fi_dives : heap_dives s = heap_dives s0;
  fi_table : dive_table s = dive_table s0;
  fi_but : trip_but_index <$> heap_trips s = trip_but_index <$> heap_trips s0;
  fi_count : 0 <= ti;
  fi_nodup : NoDup groups;
  fi_trips : ∀ t, inl t ∈ groups ↔ t ∈ registry s0 ∧ index_of s t ≠ Some 0;
  fi_range : ∀ t, t ∈ registry s0 → ∃ k, index_of s t = Some k ∧ 0 <= k <= ti;
  fi_inj : ∀ t t' k, t ∈ registry s0 → t' ∈ registry s0 →
                     index_of s t = Some k → index_of s t' = Some k → k ≠ 0 → t = t';
  fi_loose : ∀ j, inr j ∈ groups ↔
                  (i <= j < length (dive_table s0))%nat ∧ trip_at s0 j = None;
  fi_unseen : ∀ t, t ∈ registry s0 → index_of s t = Some 0 →
                   places_of s0 (Some t) i = [];
  fi_list : lst = table_row s0 <$> reverse (seq i (length (dive_table s0) - i));
  fi_seen : ∀ t, inl t ∈ groups → places_of s0 (Some t) i ≠ []
}.

(** ** The loop of delete_selected_dives_cb *)

(** The loop [for (i = 0; i < dive_table.nr; i++)] of
    delete_selected_dives_cb, which walks the table and deletes the
    selected dives, entered with [i].  Every turn moves [i] on or makes
    the table shorter; [fuel] bounds the turns. *)
Fixpoint delete_selected_dives_loop (fuel : nat) (i : Z) (sel : selection) : M selection :=
  do s <- get_state;
  if i <? Z.of_nat (length (dive_table s)) then
    match fuel with
    | O => out_of_fuel
    | S fuel' =>
      match get_dive s i with
      | None => delete_selected_dives_loop fuel' (i + 1) sel
      | Some dive =>
        if negb (selected sel dive) then delete_selected_dives_loop fuel' (i + 1) sel
        else
          (* now remove the dive from the table and free it. also move the
             iterator back, so that we don't skip a dive *)
          do sel <- delete_single_dive i sel;
          delete_selected_dives_loop fuel' (i - 1 + 1) sel
      end
    end
  else ret sel.

(** The loop from the start of the table. *)
Definition delete_selected_dives : selection → M selection :=
  fun sel =>
    do s <- get_state;
    delete_selected_dives_loop (length (dive_table s)) 0 sel.

(** ** edit_dive_when_cb *)

Definition set_when (d : dive) (w : Z) : dive :=
  {| when := w; duration := duration d; location := location d;
     cylinder := cylinder d; dc := dc d; tripflag := tripflag d;
     divetrip := divetrip d; next := next d; pprev := pprev d |}.

(** What edit_dive_when_cb does to the trip of the dive before it writes
    the new time: the chain of [if]s under [dive->when != when]. *)
Definition edit_dive_when_trip (dv : dive) (dive : dive_ptr) (when_ : Z) : M unit :=
  match divetrip dv with
  | Some trip =>
    do tr <- load_trip trip;
    (* if this is the only dive in the trip, just change the trip time *)
    if trip_nrdives tr =? 1 then modify_trip trip (fun tr => set_trip_when tr when_)
    (* if this is suddenly before the start of the trip, remove it from the trip *)
    else if trip_when tr >? when_ then remove_dive_from_trip dive
    else
      do m <- find_matching_trip when_;
      if decide (m = Some trip) then ret tt else remove_dive_from_trip dive
  | None =>
    do m <- find_matching_trip when_;
    if decide (m = None) then ret tt else remove_dive_from_trip dive
  end.

(** edit_dive_when_cb from the answer of the dialog on: [success] says
    whether the dialog was accepted, [when_] is the time it gave.  The
    calls that follow the write of the new time sort and show the dives
    again (report_dives, dive_list_update_dives). *)
Definition edit_dive_when_cb (dive : option dive_ptr) (success : bool) (when_ : Z)
  : M unit :=
  match dive with
  | None => ret tt
  | Some dive =>
    do dv <- load_dive dive;
    if negb success then ret tt
    else if when dv =? when_ then ret tt
    else
      run edit_dive_when_trip dv dive when_;
      modify_dive dive (fun dv => set_when dv when_)
  end.

(** A trip with the dives 0 and 1 at 1000 and 5000, the later one first on
    its list. *)
Definition trip_of_two : state :=
  {| heap_dives := [trip_dive 1000 0 None (DiveNext 1);
                    trip_dive 5000 0 (Some 0%nat) (TripDives 0)];
     heap_trips := [{| trip_when := 1000; trip_location := None; trip_notes := None;
                       trip_dives := Some 1%nat; trip_nrdives := 2; trip_index := 0;
                       trip_autogen := 0; trip_next := None |}];
     freed := [];
     dive_trip_list := Some 0%nat;
     dive_table := [0%nat; 1%nat] |}.

(** ** dive_nr_sort *)

(** The conversion of a timestamp_t difference, which has 64 bits as the
    DIVE_DATE column does, to the gint that dive_nr_sort returns. *)
Definition to_gint (x : Z) : Z := (x + 2 ^ 31) mod 2 ^ 32 - 2 ^ 31.

(** The trip dive_nr_sort takes for a row from its DIVE_INDEX. *)
Definition dive_nr_sort_trip (idx : Z) : M (option trip_ptr) :=
  if idx <? 0 then find_trip_by_idx idx
  else
    do s <- get_state;
    match get_dive s idx with
    | Some a => do dv <- load_dive a; ret (divetrip dv)
    | None => ret None
    end.

(** dive_nr_sort on two rows of the model, of which it reads DIVE_INDEX
    and DIVE_DATE. *)
Definition dive_nr_sort (row_a row_b : tree_row) : M Z :=
  do tripa <- dive_nr_sort_trip (DIVE_INDEX row_a);
  do tripb <- dive_nr_sort_trip (DIVE_INDEX row_b);
  (* Compare dive dates within the same trip (or when there are no trips
     involved at all). But if we have two different trips use the trip
     dates for comparison *)
  if decide (tripa = tripb) then ret (to_gint (DIVE_DATE row_a - DIVE_DATE row_b))
  else
    do when_a <- match tripa with
                 | Some t => do tr <- load_trip t; ret (trip_when tr)
                 | None => ret (DIVE_DATE row_a)
                 end;
    do when_b <- match tripb with
                 | Some t => do tr <- load_trip t; ret (trip_when tr)
                 | None => ret (DIVE_DATE row_b)
                 end;
    ret (to_gint (when_a - when_b)).

(* ===================================================================== *)
(** * Facts about the gas classification *)
(* ===================================================================== *)

Section GasFacts.
Context `{DiveParams}.

Lemma used_cylinders_cons c cs :
  used_cylinders (c :: cs) =
  if cylinder_none c then used_cylinders cs else c :: used_cylinders cs.
Proof.
  unfold used_cylinders. rewrite filter_cons.
  destruct (cylinder_none c); simpl; try case_decide; congruence.
Qed.

Lemma elem_of_used_cylinders c cs :
  c ∈ used_cylinders cs ↔ c ∈ cs ∧ cylinder_none c = false.
Proof. unfold used_cylinders. rewrite list_elem_of_filter. tauto. Qed.

Lemma gas_step_none acc c : cylinder_none c = true → gas_step acc c = acc.
Proof. intros Hn. unfold gas_step. destruct acc as [[? ?] ?]. by rewrite Hn. Qed.

Lemma gas_step_summary seen acc c :
  cylinder_none c = false →
  0 <= he (cyl_gasmix c) →
  scan_state seen acc →
  scan_state (seen ++ [c]) (gas_step acc c).
Proof.
  intros Hn Hhe Hst. destruct acc as [[mo2 mhe] lo].
  assert (Hstep : gas_step (mo2, mhe, lo) c =
    let o := effective_o2 c in
    let l := if o <? lo then o else lo in
    if mhe <? he (cyl_gasmix c) then (o, he (cyl_gasmix c), l)
    else if he (cyl_gasmix c) <? mhe then (mo2, mhe, l)
    else if o <=? mo2 then (mo2, mhe, l) else (o, he (cyl_gasmix c), l)).
  { unfold gas_step, effective_o2. rewrite Hn, Z.gtb_ltb. reflexivity. }
  rewrite Hstep. clear Hstep. cbv zeta.
  set (o := effective_o2 c). set (h := he (cyl_gasmix c)) in *.
  assert (Hne : scan_state (seen ++ [c]) = λ acc, gas_summary (seen ++ [c]) acc.1.1 acc.1.2 acc.2).
  { unfold scan_state. destruct seen; reflexivity. }
  rewrite Hne. clear Hne.
  destruct seen as [|c0 seen'].
  - (* the first cylinder the scan keeps *)
    simpl in Hst. injection Hst as -> -> ->.
    destruct (Z.ltb_spec (-1) h); [|lia]. simpl.
    split; simpl.
    + exists c. rewrite list_elem_of_singleton. done.
    + intros c'. rewrite list_elem_of_singleton. intros ->. right. fold o h. lia.
    + intros c'. rewrite list_elem_of_singleton. intros ->. fold o.
      destruct (Z.ltb_spec o 1000); lia.
    + destruct (Z.ltb_spec o 1000); lia.
    + destruct (Z.ltb_spec o 1000); [right|by left].
      exists c. rewrite list_elem_of_singleton. done.
  - set (cs := c0 :: seen') in *.
    assert (Hst' : gas_summary cs mo2 mhe lo) by exact Hst. clear Hst.
    destruct Hst' as [(cw & Hcw & Hwhe & Hwo) Hmax Hlow Hcap Hmet].
    assert (Hl : ∀ l', l' = (if o <? lo then o else lo) →
              (∀ c', c' ∈ cs ++ [c] → l' <= effective_o2 c') ∧ l' <= 1000 ∧
              (l' = 1000 ∨ ∃ c', c' ∈ cs ++ [c] ∧ effective_o2 c' = l')).
    { intros l' ->. split_and!.
      - intros c'. rewrite elem_of_app, list_elem_of_singleton.
        intros [Hc'| ->].
        + specialize (Hlow _ Hc'). destruct (Z.ltb_spec o lo); lia.
        + fold o. destruct (Z.ltb_spec o lo); lia.
      - destruct (Z.ltb_spec o lo); lia.
      - destruct (Z.ltb_spec o lo).
        + right. exists c. rewrite elem_of_app, list_elem_of_singleton. auto.
        + destruct Hmet as [->|(c' & Hc' & <-)]; [by left|].
          right. exists c'. rewrite elem_of_app. auto. }
    destruct (Hl _ eq_refl) as (Hl1 & Hl2 & Hl3). clear Hl.
    destruct (Z.ltb_spec mhe h).
    { split; cbn [fst snd]; auto.
      - exists c. rewrite elem_of_app, list_elem_of_singleton. auto.
      - intros c'. rewrite elem_of_app, list_elem_of_singleton.
        intros [Hc'| ->].
        + destruct (Hmax _ Hc') as [?|[? ?]]; left; lia.
        + right. fold o h. lia. }
    destruct (Z.ltb_spec h mhe).
    { split; cbn [fst snd]; auto.
      - exists cw. rewrite elem_of_app. auto.
      - intros c'. rewrite elem_of_app, list_elem_of_singleton.
        intros [Hc'| ->]; [auto|]. left. fold h. lia. }
    assert (h = mhe) by lia.
    destruct (Z.leb_spec o mo2).
    { split; cbn [fst snd]; auto.
      - exists cw. rewrite elem_of_app. auto.
      - intros c'. rewrite elem_of_app, list_elem_of_singleton.
        intros [Hc'| ->]; [auto|]. right. fold o h. lia. }
    split; cbn [fst snd]; auto.
    + exists c. rewrite elem_of_app, list_elem_of_singleton. auto.
    + intros c'. rewrite elem_of_app, list_elem_of_singleton.
      intros [Hc'| ->].
      * destruct (Hmax _ Hc') as [?|[? ?]]; [left|right]; lia.
      * right. fold o h. lia.
Qed.

Lemma gas_fold_summary cyls seen acc :
  (∀ c, c ∈ used_cylinders cyls → 0 <= he (cyl_gasmix c)) →
  scan_state seen acc →
  scan_state (seen ++ used_cylinders cyls) (fold_left gas_step cyls acc).
Proof.
  revert seen acc. induction cyls as [|c cyls IH]; intros seen acc Hhe Hst.
  - simpl. unfold used_cylinders. rewrite filter_nil, app_nil_r. done.
  - simpl. rewrite used_cylinders_cons in *.
    destruct (cylinder_none c) eqn:Hn.
    + rewrite gas_step_none by done. apply IH; auto.
    + rewrite cons_middle, (assoc_L (++)). apply IH.
      * intros c' Hc'. apply Hhe. by right.
      * apply gas_step_summary; auto. apply Hhe. by left.
Qed.

Lemma gas_scan_summary cyls :
  (∀ c, c ∈ used_cylinders cyls → 0 <= he (cyl_gasmix c)) →
  scan_state (used_cylinders cyls) (gas_scan cyls).
Proof. intros Hhe. apply (gas_fold_summary cyls [] (-1, -1, 1000)); done. Qed.

Lemma gas_scan_all_none cyls :
  Forall (λ c, cylinder_none c = true) cyls → gas_scan cyls = (-1, -1, 1000).
Proof.
  unfold gas_scan. generalize (-1, -1, 1000).
  induction cyls as [|c cyls IH]; intros acc Hall; [done|].
  inversion Hall; subst. simpl. rewrite gas_step_none by done. auto.
Qed.

Lemma effective_o2_with_air c : effective_o2 (with_air_o2 c) = effective_o2 c.
Proof.
  unfold effective_o2 at 1. simpl.
  destruct (Z.eqb_spec (effective_o2 c) 0) as [He|]; [|done].
  unfold effective_o2 in *. destruct (Z.eqb_spec (o2 (cyl_gasmix c)) 0); congruence.
Qed.

Lemma gas_step_unfold acc c :
  gas_step acc c =
  if cylinder_none c then acc
  else
    let o := effective_o2 c in
    let l := if o <? acc.2 then o else acc.2 in
    if acc.1.2 <? he (cyl_gasmix c) then (o, he (cyl_gasmix c), l)
    else if he (cyl_gasmix c) <? acc.1.2 then (acc.1.1, acc.1.2, l)
    else if o <=? acc.1.1 then (acc.1.1, acc.1.2, l)
    else (o, he (cyl_gasmix c), l).
Proof.
  destruct acc as [[mo2 mhe] lo]. unfold gas_step, effective_o2.
  rewrite Z.gtb_ltb. reflexivity.
Qed.

Lemma gas_step_with_air acc c :
  cylinder_none (with_air_o2 c) = cylinder_none c →
  gas_step acc (with_air_o2 c) = gas_step acc c.
Proof.
  intros Hn. rewrite !gas_step_unfold, Hn, effective_o2_with_air. reflexivity.
Qed.

(** A turn of the loop on a cylinder it does not skip leaves a mixture that
    is not behind the cylinder's, and a least oxygen that is not above the
    cylinder's; whatever the values before the turn. *)
Lemma gas_step_counts acc c :
  cylinder_none c = false →
  (he (cyl_gasmix c) < (gas_step acc c).1.2 ∨
   (he (cyl_gasmix c) = (gas_step acc c).1.2 ∧
    effective_o2 c <= (gas_step acc c).1.1)) ∧
  (gas_step acc c).2 <= effective_o2 c.
Proof.
  intros Hn. rewrite gas_step_unfold, Hn. destruct acc as [[mo2 mhe] lo].
  cbn [fst snd]. cbv zeta.
  destruct (Z.ltb_spec (effective_o2 c) lo), (Z.ltb_spec mhe (he (cyl_gasmix c))),
           (Z.ltb_spec (he (cyl_gasmix c)) mhe), (Z.leb_spec (effective_o2 c) mo2);
    cbn [fst snd]; lia.
Qed.

(** The later turns keep that. *)
Lemma gas_step_keeps acc c h o :
  (h < acc.1.2 ∨ (h = acc.1.2 ∧ o <= acc.1.1)) ∧ acc.2 <= o →
  (h < (gas_step acc c).1.2 ∨
   (h = (gas_step acc c).1.2 ∧ o <= (gas_step acc c).1.1)) ∧
  (gas_step acc c).2 <= o.
Proof.
  intros Hacc. rewrite gas_step_unfold. destruct (cylinder_none c); [done|].
  destruct acc as [[mo2 mhe] lo]. cbn [fst snd] in *. cbv zeta.
  destruct (Z.ltb_spec (effective_o2 c) lo), (Z.ltb_spec mhe (he (cyl_gasmix c))),
           (Z.ltb_spec (he (cyl_gasmix c)) mhe), (Z.leb_spec (effective_o2 c) mo2);
    cbn [fst snd]; lia.
Qed.

Lemma gas_fold_keeps cyls acc h o :
  (h < acc.1.2 ∨ (h = acc.1.2 ∧ o <= acc.1.1)) ∧ acc.2 <= o →
  (h < (fold_left gas_step cyls acc).1.2 ∨
   (h = (fold_left gas_step cyls acc).1.2 ∧ o <= (fold_left gas_step cyls acc).1.1)) ∧
  (fold_left gas_step cyls acc).2 <= o.
Proof.
  revert acc. induction cyls as [|c cyls IH]; intros acc Hacc; [done|].
  simpl. by apply IH, gas_step_keeps.
Qed.

Lemma gas_fold_counts cyls acc c :
  c ∈ cyls → cylinder_none c = false →
  (he (cyl_gasmix c) < (fold_left gas_step cyls acc).1.2 ∨
   (he (cyl_gasmix c) = (fold_left gas_step cyls acc).1.2 ∧
    effective_o2 c <= (fold_left gas_step cyls acc).1.1)) ∧
  (fold_left gas_step cyls acc).2 <= effective_o2 c.
Proof.
  revert acc. induction cyls as [|c0 cyls IH]; intros acc Hc Hn.
  - by apply elem_of_nil in Hc.
  - simpl. apply elem_of_cons in Hc as [->|Hc].
    + by apply gas_fold_keeps, gas_step_counts.
    + by apply IH.
Qed.

(** The values the loop keeps are the values it starts from or those of a
    cylinder it did not skip, with the oxygen as the loop reads it. *)
Lemma gas_step_from (all : list cylinder_t) acc c :
  c ∈ all →
  (acc.2 = 1000 ∨
   ∃ x, x ∈ all ∧ cylinder_none x = false ∧ acc.2 = effective_o2 x) ∧
  ((acc.1.1, acc.1.2) = (-1, -1) ∨
   ∃ x, x ∈ all ∧ cylinder_none x = false ∧
        acc.1.2 = he (cyl_gasmix x) ∧ acc.1.1 = effective_o2 x) →
  ((gas_step acc c).2 = 1000 ∨
   ∃ x, x ∈ all ∧ cylinder_none x = false ∧ (gas_step acc c).2 = effective_o2 x) ∧
  (((gas_step acc c).1.1, (gas_step acc c).1.2) = (-1, -1) ∨
   ∃ x, x ∈ all ∧ cylinder_none x = false ∧
        (gas_step acc c).1.2 = he (cyl_gasmix x) ∧
        (gas_step acc c).1.1 = effective_o2 x).
Proof.
  intros Hc [Hlo Hmix]. rewrite gas_step_unfold.
  destruct (cylinder_none c) eqn:Hn; [done|].
  destruct acc as [[mo2 mhe] lo]. cbn [fst snd] in *. cbv zeta.
  assert (Hown : ∃ x, x ∈ all ∧ cylinder_none x = false ∧
                      effective_o2 c = effective_o2 x) by (by exists c).
  assert (Hmine : ∃ x, x ∈ all ∧ cylinder_none x = false ∧
                       he (cyl_gasmix c) = he (cyl_gasmix x) ∧
                       effective_o2 c = effective_o2 x) by (by exists c).
  destruct (Z.ltb_spec (effective_o2 c) lo), (Z.ltb_spec mhe (he (cyl_gasmix c))),
           (Z.ltb_spec (he (cyl_gasmix c)) mhe), (Z.leb_spec (effective_o2 c) mo2);
    cbn [fst snd]; split; auto.
Qed.

Lemma gas_fold_from (all : list cylinder_t) cyls acc :
  (∀ c, c ∈ cyls → c ∈ all) →
  (acc.2 = 1000 ∨
   ∃ x, x ∈ all ∧ cylinder_none x = false ∧ acc.2 = effective_o2 x) ∧
  ((acc.1.1, acc.1.2) = (-1, -1) ∨
   ∃ x, x ∈ all ∧ cylinder_none x = false ∧
        acc.1.2 = he (cyl_gasmix x) ∧ acc.1.1 = effective_o2 x) →
  ((fold_left gas_step cyls acc).2 = 1000 ∨
   ∃ x, x ∈ all ∧ cylinder_none x = false ∧
        (fold_left gas_step cyls acc).2 = effective_o2 x) ∧
  (((fold_left gas_step cyls acc).1.1, (fold_left gas_step cyls acc).1.2) = (-1, -1) ∨
   ∃ x, x ∈ all ∧ cylinder_none x = false ∧
        (fold_left gas_step cyls acc).1.2 = he (cyl_gasmix x) ∧
        (fold_left gas_step cyls acc).1.1 = effective_o2 x).
Proof.
  revert acc. induction cyls as [|c cyls IH]; intros acc Hsub Hacc; [done|].
  simpl. apply IH.
  - intros x Hx. apply Hsub. by right.
  - apply gas_step_from; [|done]. apply Hsub. by left.
Qed.

(** How the oxygen the loop reads shows in the cylinder's record. *)
Lemma effective_o2_cases c v :
  v = effective_o2 c →
  (o2 (cyl_gasmix c) = 0 ∧ v = O2_IN_AIR) ∨
  (o2 (cyl_gasmix c) ≠ 0 ∧ v = o2 (cyl_gasmix c)).
Proof.
  intros ->. unfold effective_o2.
  destruct (Z.eqb_spec (o2 (cyl_gasmix c)) 0); [by left|by right].
Qed.

Lemma effective_o2_unset c : o2 (cyl_gasmix c) = 0 → effective_o2 c = O2_IN_AIR.
Proof. intros Hc. unfold effective_o2. by rewrite Hc. Qed.

End GasFacts.

Section GasClaims.
Context `{DiveParams}.

Lemma gas_fold_none cyls acc :
  Forall (λ c, cylinder_none c = true) cyls → fold_left gas_step cyls acc = acc.
Proof.
  revert acc. induction cyls as [|c cyls IH]; intros acc Hall; [done|].
  inversion Hall; subst. simpl. rewrite gas_step_none by done. auto.
Qed.

(** C5, amended.  get_dive_gas goes over the cylinders that are not empty
    and keeps the mixture with the most helium, on equal helium the one with
    the most oxygen, and the least oxygen it has seen; with helium fractions
    that are not negative this is what [gas_summary] says of its result,
    which is returned as it is unless it is air.  On a 21/0 cylinder
    followed by an 18/45 one the result is the second mixture with 18% as
    the least oxygen.  The result is zero oxygen and zero helium when there
    is a cylinder that is not empty and each such cylinder has no helium and
    an oxygen fraction that is not recorded or is O2_IN_AIR; and only then,
    O2_IN_AIR not being zero.  Cylinders recorded with 21% of oxygen and no
    helium are air in that sense only if O2_IN_AIR is 210; otherwise the
    result is the 210 itself and nitrox_data_func writes "21". *)
Theorem get_dive_gas_max_he_then_o2 :
  (∀ d, used_cylinders (cylinder d) ≠ [] →
        (∀ c, c ∈ used_cylinders (cylinder d) → 0 <= he (cyl_gasmix c)) →
        ∃ mo2 mhe lo,
          gas_summary (used_cylinders (cylinder d)) mo2 mhe lo ∧
          get_dive_gas d =
            if (mhe =? 0) && (mo2 =? O2_IN_AIR) && (lo =? mo2)
            then (0, mhe, 0) else (mo2, mhe, lo)) ∧
  (∀ d c1 c2 rest,
        cylinder d = c1 :: c2 :: rest →
        cylinder_none c1 = false → cylinder_none c2 = false →
        Forall (λ c, cylinder_none c = true) rest →
        cyl_gasmix c1 = {| o2 := 210; he := 0 |} →
        cyl_gasmix c2 = {| o2 := 180; he := 450 |} →
        get_dive_gas d = (180, 450, 180)) ∧
  (∀ d, O2_IN_AIR <= 1000 →
        used_cylinders (cylinder d) ≠ [] →
        (∀ c, c ∈ used_cylinders (cylinder d) →
              he (cyl_gasmix c) = 0 ∧
              (o2 (cyl_gasmix c) = 0 ∨ o2 (cyl_gasmix c) = O2_IN_AIR)) →
        get_dive_gas d = (0, 0, 0)) ∧
  (∀ d, O2_IN_AIR ≠ 0 →
        used_cylinders (cylinder d) ≠ [] →
        (∀ c, c ∈ used_cylinders (cylinder d) → 0 <= he (cyl_gasmix c)) →
        (get_dive_gas d).1 = (0, 0) →
        ∀ c, c ∈ used_cylinders (cylinder d) →
             he (cyl_gasmix c) = 0 ∧
             (o2 (cyl_gasmix c) = 0 ∨ o2 (cyl_gasmix c) = O2_IN_AIR)) ∧
  (∀ d, O2_IN_AIR ≠ 210 →
        used_cylinders (cylinder d) ≠ [] →
        (∀ c, c ∈ used_cylinders (cylinder d) →
              cyl_gasmix c = {| o2 := 210; he := 0 |}) →
        get_dive_gas d = (210, 0, 210) ∧ nitrox_data_func d = Text_o2 21).
Proof.
  assert (Hgen : ∀ d, used_cylinders (cylinder d) ≠ [] →
        (∀ c, c ∈ used_cylinders (cylinder d) → 0 <= he (cyl_gasmix c)) →
        ∃ mo2 mhe lo,
          gas_summary (used_cylinders (cylinder d)) mo2 mhe lo ∧
          get_dive_gas d =
            if (mhe =? 0) && (mo2 =? O2_IN_AIR) && (lo =? mo2)
            then (0, mhe, 0) else (mo2, mhe, lo)).
  { intros d Hne Hhe. pose proof (gas_scan_summary _ Hhe) as Hs.
    unfold get_dive_gas. destruct (gas_scan (cylinder d)) as [[mo2 mhe] lo].
    exists mo2, mhe, lo. split; [|done].
    unfold scan_state in Hs. destruct (used_cylinders (cylinder d)); done. }
  split_and!; [exact Hgen| | | |].
  - intros d c1 c2 rest Hd Hn1 Hn2 Hrest Hm1 Hm2.
    unfold get_dive_gas, gas_scan. rewrite Hd. simpl.
    rewrite !gas_step_unfold, Hn1. unfold effective_o2. rewrite Hm1. simpl.
    rewrite Hn2, Hm2. simpl. rewrite gas_fold_none by done. reflexivity.
  - intros d Hair Hne Hall.
    assert (Hall' : ∀ c, c ∈ used_cylinders (cylinder d) →
              he (cyl_gasmix c) = 0 ∧ effective_o2 c = O2_IN_AIR).
    { intros c Hc. destruct (Hall c Hc) as [Hche Hco]. split; [done|].
      unfold effective_o2. destruct (Z.eqb_spec (o2 (cyl_gasmix c)) 0); lia. }
    destruct (Hgen d Hne) as (mo2 & mhe & lo & Hs & ->).
    { intros c Hc. destruct (Hall c Hc). lia. }
    destruct Hs as [(cw & Hcw & <- & <-) _ Hlow _ Hmet].
    destruct (Hall' cw Hcw) as [-> ->].
    assert (lo = O2_IN_AIR) as ->.
    { specialize (Hlow cw Hcw). destruct (Hall' cw Hcw) as [_ Hcwo].
      destruct Hmet as [->|(c' & Hc' & <-)]; [lia|].
      by destruct (Hall' c' Hc'). }
    rewrite !Z.eqb_refl. reflexivity.
  - intros d Hair Hne Hhe Hzero c Hc.
    destruct (Hgen d Hne Hhe) as (mo2 & mhe & lo & Hs & Hg).
    rewrite Hg in Hzero. clear Hg.
    destruct Hs as [(cw & Hcw & Hwhe & Hwo) Hmax Hlow _ _].
    destruct ((mhe =? 0) && (mo2 =? O2_IN_AIR) && (lo =? mo2)) eqn:Hcond.
    + apply andb_prop in Hcond as [Hcond Hlo]. apply andb_prop in Hcond as [Hmhe Hmo2].
      apply Z.eqb_eq in Hlo, Hmhe, Hmo2. subst mhe mo2.
      specialize (Hmax c Hc). specialize (Hlow c Hc). specialize (Hhe c Hc).
      assert (Heff : effective_o2 c = O2_IN_AIR) by lia.
      split; [lia|].
      destruct (effective_o2_cases c _ (eq_sym Heff)) as [[? _]|[_ ?]]; auto.
    + exfalso. cbn [fst] in Hzero. injection Hzero as -> ->.
      destruct (effective_o2_cases cw 0 (eq_sym Hwo)) as [[_ ?]|[? ?]]; congruence.
  - intros d Hair Hne Hall.
    assert (Hg : get_dive_gas d = (210, 0, 210)).
    { destruct (Hgen d Hne) as (mo2 & mhe & lo & Hs & ->).
      { intros c Hc. rewrite (Hall c Hc). simpl. lia. }
      assert (Heff : ∀ c, c ∈ used_cylinders (cylinder d) →
                he (cyl_gasmix c) = 0 ∧ effective_o2 c = 210).
      { intros c Hc. unfold effective_o2. by rewrite (Hall c Hc). }
      destruct Hs as [(cw & Hcw & <- & <-) _ Hlow _ Hmet].
      destruct (Heff cw Hcw) as [-> ->].
      assert (lo = 210) as ->.
      { specialize (Hlow cw Hcw). destruct (Heff cw Hcw) as [_ Hcwo].
        destruct Hmet as [->|(c' & Hc' & <-)]; [lia|].
        by destruct (Heff c' Hc'). }
      destruct (Z.eqb_spec 210 O2_IN_AIR); [congruence|].
      by rewrite andb_false_r. }
    split; [done|]. unfold nitrox_data_func. rewrite Hg. reflexivity.
Qed.

(** C9, amended.  For a dive whose cylinder slots are all empty,
    get_dive_gas returns the values its scan starts from, -1 for oxygen and
    for helium and 1000 for the least oxygen; nitrox_data_func rounds them
    to 0, 0 and 100 and writes "air". *)
Theorem get_dive_gas_no_cylinder :
  ∀ d, Forall (λ c, cylinder_none c = true) (cylinder d) →
       get_dive_gas d = (-1, -1, 1000) ∧ nitrox_data_func d = Text_air.
Proof.
  intros d Hall.
  assert (Hg : get_dive_gas d = (-1, -1, 1000)).
  { unfold get_dive_gas. rewrite gas_scan_all_none by done. reflexivity. }
  split; [done|]. unfold nitrox_data_func. rewrite Hg. reflexivity.
Qed.

(** C10. A cylinder that is not empty and has no oxygen fraction recorded
    counts with the oxygen of air, for every dive.  (1) With such a cylinder
    among the cylinders, the mixture the loop of get_dive_gas ends with has
    more helium than the cylinder, or as much helium and at least
    O2_IN_AIR of oxygen, and the least oxygen is at most O2_IN_AIR;
    get_dive_gas returns these values unless they are air.  (2) The oxygen
    of the mixture kept and the least oxygen are never the zero of such a
    cylinder: they are the values the loop starts from, or O2_IN_AIR for a
    cylinder without recorded oxygen, or the recorded oxygen of another.
    (3) When such a cylinder is the only one that is not empty, the result
    is air if it has no helium, and O2_IN_AIR with its helium otherwise.
    (4) get_dive_gas gives the same result as on the dive whose used
    cylinders have O2_IN_AIR written in place of the zero (writing the
    value must leave a used cylinder used). *)
Theorem get_dive_gas_unset_o2_as_air :
  (∀ d c, c ∈ cylinder d → cylinder_none c = false → o2 (cyl_gasmix c) = 0 →
        ∃ mo2 mhe lo,
          gas_scan (cylinder d) = (mo2, mhe, lo) ∧
          (he (cyl_gasmix c) < mhe ∨ (he (cyl_gasmix c) = mhe ∧ O2_IN_AIR <= mo2)) ∧
          lo <= O2_IN_AIR ∧
          get_dive_gas d =
            if (mhe =? 0) && (mo2 =? O2_IN_AIR) && (lo =? mo2)
            then (0, mhe, 0) else (mo2, mhe, lo)) ∧
  (∀ d mo2 mhe lo,
        gas_scan (cylinder d) = (mo2, mhe, lo) →
        (lo = 1000 ∨
         ∃ c, c ∈ used_cylinders (cylinder d) ∧
              ((o2 (cyl_gasmix c) = 0 ∧ lo = O2_IN_AIR) ∨
               (o2 (cyl_gasmix c) ≠ 0 ∧ lo = o2 (cyl_gasmix c)))) ∧
        ((mo2, mhe) = (-1, -1) ∨
         ∃ c, c ∈ used_cylinders (cylinder d) ∧ mhe = he (cyl_gasmix c) ∧
              ((o2 (cyl_gasmix c) = 0 ∧ mo2 = O2_IN_AIR) ∨
               (o2 (cyl_gasmix c) ≠ 0 ∧ mo2 = o2 (cyl_gasmix c))))) ∧
  (∀ d c, used_cylinders (cylinder d) = [c] →
        o2 (cyl_gasmix c) = 0 → 0 <= he (cyl_gasmix c) → O2_IN_AIR <= 1000 →
        get_dive_gas d =
          if he (cyl_gasmix c) =? 0 then (0, 0, 0)
          else (O2_IN_AIR, he (cyl_gasmix c), O2_IN_AIR)) ∧
  (∀ d, (∀ c, c ∈ cylinder d → cylinder_none c = false →
              cylinder_none (with_air_o2 c) = false) →
        get_dive_gas (set_cylinder d (map air_filled (cylinder d))) = get_dive_gas d).
Proof.
  split_and!.
  - intros d c Hc Hn Hunset.
    pose proof (gas_fold_counts (cylinder d) (-1, -1, 1000) c Hc Hn) as Hcount.
    rewrite (effective_o2_unset c Hunset) in Hcount.
    unfold get_dive_gas. fold (gas_scan (cylinder d)) in Hcount.
    destruct (gas_scan (cylinder d)) as [[mo2 mhe] lo]. cbn [fst snd] in Hcount.
    exists mo2, mhe, lo. by destruct Hcount.
  - intros d mo2 mhe lo Hscan.
    pose proof (gas_fold_from (cylinder d) (cylinder d) (-1, -1, 1000)
                  (λ c Hc, Hc) (conj (or_introl eq_refl) (or_introl eq_refl))) as Hfrom.
    fold (gas_scan (cylinder d)) in Hfrom. rewrite Hscan in Hfrom.
    cbn [fst snd] in Hfrom. destruct Hfrom as [Hlo Hmix]. split.
    + destruct Hlo as [?|(x & Hx & Hn & Hxo)]; [by left|right].
      exists x. split; [by apply elem_of_used_cylinders|].
      by apply effective_o2_cases.
    + destruct Hmix as [?|(x & Hx & Hn & Hxhe & Hxo)]; [by left|right].
      exists x. split; [by apply elem_of_used_cylinders|]. split; [done|].
      by apply effective_o2_cases.
  - intros d c Hused Hunset Hhe Hair.
    assert (Hhes : ∀ x, x ∈ used_cylinders (cylinder d) → 0 <= he (cyl_gasmix x)).
    { intros x. rewrite Hused, list_elem_of_singleton. by intros ->. }
    pose proof (gas_scan_summary _ Hhes) as Hs.
    unfold get_dive_gas. destruct (gas_scan (cylinder d)) as [[mo2 mhe] lo].
    rewrite Hused in Hs. cbn [scan_state fst snd] in Hs.
    destruct Hs as [(cw & Hcw & Hwhe & Hwo) _ Hlow _ Hmet].
    apply list_elem_of_singleton in Hcw as ->.
    rewrite (effective_o2_unset c Hunset) in Hwo. subst mo2 mhe.
    assert (lo = O2_IN_AIR) as ->.
    { specialize (Hlow c ltac:(by apply list_elem_of_singleton)).
      rewrite (effective_o2_unset c Hunset) in Hlow.
      destruct Hmet as [->|(x & Hx & <-)]; [lia|].
      apply list_elem_of_singleton in Hx as ->. by apply effective_o2_unset. }
    rewrite !Z.eqb_refl, !andb_true_r.
    by destruct (Z.eqb_spec (he (cyl_gasmix c)) 0) as [->|].
  - intros d Hkeep. unfold get_dive_gas, gas_scan. simpl.
    generalize (-1, -1, 1000). revert Hkeep.
    induction (cylinder d) as [|c cyls IH]; intros Hkeep acc; [done|].
    assert (Hstep : gas_step acc (air_filled c) = gas_step acc c).
    { unfold air_filled. destruct (cylinder_none c) eqn:Hn; [done|].
      apply gas_step_with_air. rewrite Hn. apply Hkeep; [by left|done]. }
    simpl. rewrite Hstep.
    specialize (IH (λ c' Hc', Hkeep c' (list_elem_of_further _ _ _ Hc'))).
    specialize (IH (gas_step acc c)).
    destruct (fold_left gas_step (map air_filled cyls) (gas_step acc c)) as [[? ?] ?].
    destruct (fold_left gas_step cyls (gas_step acc c)) as [[? ?] ?].
    exact IH.
Qed.

End GasClaims.

(** C5, on the dive with one 21/0 and one 18/45 cylinder and six empty
    slots, on a dive with two cylinders of air, and on a dive with two
    cylinders recorded with 21% of oxygen. *)
Lemma get_dive_gas_max_he_then_o2_witness :
  @get_dive_gas (example_params 0)
     (dive_with_cylinders (tank 210 0 :: tank 180 450 :: replicate 6 no_cylinder))
    = (180, 450, 180) ∧
  @get_dive_gas (example_params 0)
     (dive_with_cylinders (tank 209 0 :: tank 0 0 :: replicate 6 no_cylinder))
    = (0, 0, 0) ∧
  (@get_dive_gas (example_params 0)
     (dive_with_cylinders (tank 210 0 :: tank 210 0 :: replicate 6 no_cylinder))
    = (210, 0, 210) ∧
   @nitrox_data_func (example_params 0)
     (dive_with_cylinders (tank 210 0 :: tank 210 0 :: replicate 6 no_cylinder))
    = Text_o2 21).
Proof.
  destruct (@get_dive_gas_max_he_then_o2 (example_params 0)) as (_ & H2 & H3 & _ & H5).
  split; [|split].
  - apply (H2 _ (tank 210 0) (tank 180 450) (replicate 6 no_cylinder));
      try reflexivity.
    repeat constructor.
  - apply H3.
    + simpl. lia.
    + vm_compute. discriminate.
    + intros c Hc. vm_compute in Hc.
      apply elem_of_cons in Hc as [->|Hc]; [split; [reflexivity|by right]|].
      apply list_elem_of_singleton in Hc as ->. split; [reflexivity|by left].
  - apply H5.
    + simpl. lia.
    + vm_compute. discriminate.
    + intros c Hc. vm_compute in Hc.
      apply elem_of_cons in Hc as [->|Hc]; [reflexivity|].
      apply list_elem_of_singleton in Hc as ->. reflexivity.
Defined.

(** C5 as stated fails: with 20.9% of oxygen in air, a dive whose cylinders
    are recorded with 21% of oxygen and no helium is not classified as air.
    The result is the 21% itself, and nitrox_data_func writes "21". *)
Lemma get_dive_gas_21_percent_not_air :
  Forall (λ c, cylinder_unset c = false ∧ cyl_gasmix c = {| o2 := 210; he := 0 |})
         [tank 210 0; tank 210 0] ∧
  @get_dive_gas (example_params 0)
     (dive_with_cylinders (tank 210 0 :: tank 210 0 :: replicate 6 no_cylinder))
    = (210, 0, 210) ∧
  (@get_dive_gas (example_params 0)
     (dive_with_cylinders (tank 210 0 :: tank 210 0 :: replicate 6 no_cylinder))).1
    ≠ (0, 0) ∧
  @nitrox_data_func (example_params 0)
     (dive_with_cylinders (tank 210 0 :: tank 210 0 :: replicate 6 no_cylinder))
    = Text_o2 21.
Proof.
  split_and!; [by repeat constructor|by vm_compute|vm_compute; discriminate|by vm_compute].
Qed.

(** C9 as stated fails: with every slot empty the result is not 0/0. *)
Lemma get_dive_gas_no_cylinder_not_zero :
  Forall (λ c, cylinder_unset c = true) (replicate 8 no_cylinder) ∧
  (@get_dive_gas (example_params 0)
     (dive_with_cylinders (replicate 8 no_cylinder))).1 ≠ (0, 0).
Proof. split; [repeat constructor | vm_compute; discriminate]. Qed.

Lemma get_dive_gas_no_cylinder_witness :
  @get_dive_gas (example_params 0) (dive_with_cylinders (replicate 8 no_cylinder))
    = (-1, -1, 1000) ∧
  @nitrox_data_func (example_params 0) (dive_with_cylinders (replicate 8 no_cylinder))
    = Text_air.
Proof.
  apply (@get_dive_gas_no_cylinder (example_params 0)). repeat constructor.
Defined.

(** C10 on a dive with a cylinder without recorded oxygen and a cylinder
    of 32% nitrox, and on a dive with the first of them alone. *)
Lemma get_dive_gas_unset_o2_as_air_witness :
  (∃ mo2 mhe lo,
     @gas_scan (example_params 0)
        (tank 0 0 :: tank 320 0 :: replicate 6 no_cylinder) = (mo2, mhe, lo) ∧
     (0 < mhe ∨ (0 = mhe ∧ 209 <= mo2)) ∧
     lo <= 209 ∧
     @get_dive_gas (example_params 0)
        (dive_with_cylinders (tank 0 0 :: tank 320 0 :: replicate 6 no_cylinder))
       = if (mhe =? 0) && (mo2 =? 209) && (lo =? mo2)
         then (0, mhe, 0) else (mo2, mhe, lo)) ∧
  @get_dive_gas (example_params 0)
     (dive_with_cylinders (tank 0 0 :: replicate 7 no_cylinder))
    = (0, 0, 0) ∧
  @get_dive_gas (example_params 0)
     (dive_with_cylinders (tank 209 0 :: tank 320 0 :: replicate 6 no_cylinder))
  = @get_dive_gas (example_params 0)
     (dive_with_cylinders (tank 0 0 :: tank 320 0 :: replicate 6 no_cylinder)).
Proof.
  destruct (@get_dive_gas_unset_o2_as_air (example_params 0)) as (H1 & _ & H3 & H4).
  split_and!.
  - apply (H1 (dive_with_cylinders (tank 0 0 :: tank 320 0 :: replicate 6 no_cylinder))
              (tank 0 0)); [by left|reflexivity|reflexivity].
  - apply (H3 (dive_with_cylinders (tank 0 0 :: replicate 7 no_cylinder)) (tank 0 0));
      [reflexivity|reflexivity|simpl; lia|simpl; lia].
  - apply (H4 (dive_with_cylinders (tank 0 0 :: tank 320 0 :: replicate 6 no_cylinder))).
    intros c Hc Hn. vm_compute in Hc.
    repeat (apply elem_of_cons in Hc as [->|Hc]; [first [reflexivity|discriminate]|]).
    by apply elem_of_nil in Hc.
Defined.

(* ===================================================================== *)
(** * Facts about the duration of calculate_sac *)
(* ===================================================================== *)

Lemma sac_scan_end_all_shallow rest e :
  Forall (λ x, s_depth x < 100) rest →
  sac_scan_end rest e = (e + length rest)%nat.
Proof.
  revert e. induction rest as [|x rest IH]; intros e Hall; simpl; [lia|].
  inversion Hall; subst. destruct (Z.ltb_spec (s_depth x) 100); [|lia].
  rewrite IH by done. lia.
Qed.

(** A run of shallow samples that reaches the last sample costs nothing. *)
Lemma sac_loop_shallow_tail smp fuel i dur :
  Forall (λ x, s_depth x < 100) (drop i smp) →
  sac_loop smp fuel i dur = dur.
Proof.
  revert i dur. induction fuel as [|fuel IH]; intros i dur Hall; [done|].
  simpl. destruct (smp !! i) as [x|] eqn:Hi; [|done].
  assert (Hlen : (i < length smp)%nat) by (eapply lookup_lt_Some; eauto).
  assert (Hall' : Forall (λ x, s_depth x < 100) (drop (S i) smp)).
  { rewrite (drop_S _ _ _ Hi) in Hall. by inversion Hall. }
  rewrite (drop_S _ _ _ Hi) in Hall. inversion Hall; subst.
  destruct (Z.ltb_spec (s_depth x) 100); [|lia].
  rewrite sac_scan_end_all_shallow by done. rewrite length_drop.
  destruct (Nat.ltb_spec (S i + (length smp - S i)) (length smp)); [lia|].
  apply IH. done.
Qed.

(** C6 fails on this dive: its first two samples are at the surface, before
    the descent, and the ten seconds between them are taken off the
    duration; the run at the end is left in.  The comment in the loop asks
    for the surface time during a dive only. *)
Theorem calculate_sac_cuts_leading_surface_run :
  sac_duration
    (dive_with_samples 40
       [ {| s_time := 0; s_depth := 0 |}; {| s_time := 10; s_depth := 0 |};
         {| s_time := 20; s_depth := 5000 |}; {| s_time := 30; s_depth := 5000 |};
         {| s_time := 35; s_depth := 0 |}; {| s_time := 40; s_depth := 0 |} ])
  = 30.
Proof. reflexivity. Qed.

(* ===================================================================== *)
(** * Facts about the backward walk of init_decompression *)
(* ===================================================================== *)

Section DecoFacts.
Variables (s : state) (target : dive) (ds : list dive) (divenr : nat).
Hypothesis Htable : table_dives s ds.

Lemma table_dives_lookup i d :
  ds !! i = Some d →
  ∃ p, dive_table s !! i = Some p ∧ heap_dives s !! p = Some d.
Proof.
  intros Hd. destruct (Forall2_lookup_r _ _ _ _ _ Htable Hd) as (p & Hp & Hpd).
  eauto.
Qed.

Lemma table_dives_length : length (dive_table s) = length ds.
Proof. by eapply Forall2_length. Qed.

Lemma next_dive_start_step i d :
  (i < divenr)%nat → ds !! i = Some d →
  next_dive_start target ds divenr i =
  if deco_relevant target d then when d
  else next_dive_start target ds divenr (S i).
Proof.
  intros Hi Hd. unfold next_dive_start.
  assert (Hd' : take divenr ds !! i = Some d) by (by rewrite lookup_take_lt).
  rewrite (drop_S _ _ _ Hd'). reflexivity.
Qed.

Lemma deco_walk_back_spec i lasttime :
  (i <= divenr)%nat → (divenr <= length ds)%nat →
  ∃ j w lt,
    deco_walk_back s target i (next_dive_start target ds divenr i) lasttime
      = Some (j, w, lt) ∧
    (j < i ∨ i = 0)%nat ∧
    (i ≠ 0%nat → w = next_dive_start target ds divenr (S j)) ∧
    (∀ m d, (j < m < i)%nat → ds !! m = Some d → deco_relevant target d = true →
          when d <= next_dive_start target ds divenr (S m) ∧
          next_dive_start target ds divenr (S m) <= when d + duration d + SURFACE_GAP) ∧
    (j ≠ 0%nat →
      ∃ d, ds !! j = Some d ∧ deco_relevant target d = true ∧
           (when d > next_dive_start target ds divenr (S j) ∨
            when d + duration d + SURFACE_GAP < next_dive_start target ds divenr (S j))).
Proof.
  revert lasttime. induction i as [|i IH]; intros lasttime Hi Hn.
  - exists 0%nat, (next_dive_start target ds divenr 0), lasttime.
    split_and!; [done|lia|done|intros; lia|done].
  - destruct i as [|i'].
    + (* --i gives 0: the dive at index 0 is not looked at *)
      exists 0%nat, (next_dive_start target ds divenr 1), lasttime.
      split_and!; [done|lia|done|intros; lia|done].
    + set (i := S i') in *.
      destruct (lookup_lt_is_Some_2 ds i) as [d Hd]; [lia|].
      destruct (table_dives_lookup _ _ Hd) as (p & Hp & Hpd).
      assert (Hstep := next_dive_start_step i d ltac:(lia) Hd).
      cbn [deco_walk_back]. fold i. rewrite Hp, Hpd.
      assert (Hrel : match divetrip target with
                     | Some _ => if decide (divetrip d = divetrip target) then false else true
                     | None => false
                     end = negb (deco_relevant target d)).
      { unfold deco_relevant. destruct (divetrip target); [|done].
        by destruct (decide _). }
      rewrite Hrel. clear Hrel.
      destruct (deco_relevant target d) eqn:Hr; simpl negb; cbv iota.
      * (* a dive that counts *)
        destruct ((when d >? next_dive_start target ds divenr (S i))
                  || (when d + duration d + SURFACE_GAP
                      <? next_dive_start target ds divenr (S i))) eqn:Hstop.
        -- exists i, (next_dive_start target ds divenr (S i)), lasttime.
           split_and!; [done|lia|done|intros; lia|].
           intros _. exists d. split_and!; [done..|].
           apply orb_true_iff in Hstop as [Hs|Hs]; [left|right]; lia.
        -- apply orb_false_iff in Hstop as [Hs1 Hs2].
           destruct (IH (when d + duration d) ltac:(lia) Hn)
             as (j & w & lt & Hw & Hj & Hwj & Hacc & Hstopd).
           rewrite Hstep in Hw. exists j, w, lt.
           split_and!; [done|lia|intros _; apply Hwj; done| |done].
           intros m d' Hm Hd' Hr'.
           destruct (decide (m = i)) as [->|Hmi]; [|apply Hacc; [lia|done..]].
           assert (d' = d) as -> by congruence. lia.
      * (* a dive of another trip *)
        destruct (IH lasttime ltac:(lia) Hn)
          as (j & w & lt & Hw & Hj & Hwj & Hacc & Hstopd).
        rewrite Hstep in Hw. exists j, w, lt.
        split_and!; [done|lia|intros _; apply Hwj; done| |done].
        intros m d' Hm Hd' Hr'.
        destruct (decide (m = i)) as [->|Hmi]; [|apply Hacc; [lia|done..]].
        congruence.
Qed.

End DecoFacts.

Lemma get_divenr_from_le table dive nr :
  (nr <= get_divenr_from table dive nr <= nr + length table)%nat.
Proof.
  revert nr. induction table as [|d table IH]; intros nr; simpl; [lia|].
  destruct (Nat.eqb d dive); [lia|]. specialize (IH (S nr)). lia.
Qed.




Local Open Scope m_scope.

(* ===================================================================== *)
(** * Running the monad *)
(* ===================================================================== *)

Lemma run_bind {A B} (m : M A) (k : A → M B) s a s' :
  m s = Ok a s' → bind m k s = k a s'.
Proof. intros Hm. unfold bind. by rewrite Hm. Qed.

Lemma run_load_dive s d dv :
  heap_dives s !! d = Some dv → load_dive d s = Ok dv s.
Proof. intros Hd. unfold load_dive. by rewrite Hd. Qed.

Lemma run_load_trip s t tr :
  heap_trips s !! t = Some tr → load_trip t s = Ok tr s.
Proof. intros Ht. unfold load_trip. by rewrite Ht. Qed.

Lemma insert_alter {A} (l : list A) i x (f : A → A) :
  l !! i = Some x → <[i := f x]> l = alter f i l.
Proof.
  revert i. induction l as [|y l IH]; intros [|i] Hi; simplify_eq/=; [done|].
  f_equal. auto.
Qed.

Lemma run_modify_dive s d dv f :
  heap_dives s !! d = Some dv →
  modify_dive d f s = Ok tt (set_heap_dives s (alter f d (heap_dives s))).
Proof.
  intros Hd. unfold modify_dive. rewrite (run_bind _ _ _ _ _ (run_load_dive _ _ _ Hd)).
  unfold store_dive. rewrite Hd. by rewrite (insert_alter _ _ _ _ Hd).
Qed.

Lemma run_modify_trip s t tr f :
  heap_trips s !! t = Some tr →
  modify_trip t f s = Ok tt (set_heap_trips s (alter f t (heap_trips s))).
Proof.
  intros Ht. unfold modify_trip. rewrite (run_bind _ _ _ _ _ (run_load_trip _ _ _ Ht)).
  unfold store_trip. rewrite Ht. by rewrite (insert_alter _ _ _ _ Ht).
Qed.

Lemma run_store_trip s t tr f :
  heap_trips s !! t = Some tr →
  store_trip t (f tr) s = Ok tt (set_heap_trips s (alter f t (heap_trips s))).
Proof.
  intros Ht. unfold store_trip. rewrite Ht. by rewrite (insert_alter _ _ _ _ Ht).
Qed.

(* ===================================================================== *)
(** * Lists of trips and of dives in the store *)
(* ===================================================================== *)

Lemma last_slot_snoc prev l d : last_slot prev (l ++ [d]) = DiveNext d.
Proof. unfold last_slot. by rewrite last_snoc. Qed.

Lemma last_slot_cons prev d l : last_slot prev (d :: l) = last_slot (DiveNext d) l.
Proof.
  unfold last_slot. destruct l as [|d' l]; [done|]. rewrite last_cons_cons.
  destruct (last (d' :: l)) eqn:E; [done|]. by apply last_None in E.
Qed.

Lemma tseg_frame T T' p l q :
  (∀ t, t ∈ l → trip_next <$> T' !! t = trip_next <$> T !! t) →
  tseg T p l q → tseg T' p l q.
Proof.
  revert p. induction l as [|t l IH]; intros p Hfr; simpl; [done|].
  intros (-> & tr & Ht & Hseg). split; [done|].
  pose proof (Hfr t ltac:(by left)) as Hn. rewrite Ht in Hn.
  destruct (T' !! t) as [tr'|] eqn:Ht'; simplify_eq/=.
  exists tr'. split; [done|]. rewrite Hn. apply IH; [|done].
  intros t' Ht''. apply Hfr. by right.
Qed.

Lemma tseg_app T p l1 l2 q :
  tseg T p (l1 ++ l2) q ↔ ∃ m, tseg T p l1 m ∧ tseg T m l2 q.
Proof.
  revert p. induction l1 as [|t l1 IH]; intros p; simpl.
  - split; [eauto|]. by intros (m & -> & Hm).
  - split.
    + intros (-> & tr & Ht & Hseg). apply IH in Hseg as (m & H1 & H2).
      exists m. eauto 10.
    + intros (m & (-> & tr & Ht & H1) & H2). split; [done|].
      exists tr. split; [done|]. apply IH. eauto.
Qed.

Lemma tseg_valid T p l q t :
  tseg T p l q → t ∈ l → is_Some (T !! t).
Proof.
  revert p. induction l as [|t' l IH]; intros p Hseg Hin; [by apply elem_of_nil in Hin|].
  destruct Hseg as (-> & tr & Ht & Hseg).
  apply elem_of_cons in Hin as [->|Hin]; eauto.
Qed.

Lemma nodup_bounded_length (l : list nat) n :
  NoDup l → (∀ x, x ∈ l → (x < n)%nat) → (length l <= n)%nat.
Proof.
  intros Hnd Hb.
  assert (Hsub : l ⊆+ seq 0 n).
  { apply NoDup_submseteq; [done|]. intros x Hx. apply elem_of_seq. specialize (Hb x Hx). lia. }
  apply submseteq_length in Hsub. by rewrite length_seq in Hsub.
Qed.

Lemma tseg_length T p l q :
  tseg T p l q → NoDup l → (length l <= length T)%nat.
Proof.
  intros Hseg Hnd. apply nodup_bounded_length; [done|].
  intros t Ht. destruct (tseg_valid _ _ _ _ _ Hseg Ht) as [tr Htr].
  by eapply lookup_lt_Some.
Qed.

Lemma trip_list_from_tseg T fuel p l :
  tseg T p l None → (length l < fuel)%nat → trip_list_from T fuel p = l.
Proof.
  revert p fuel. induction l as [|t l IH]; intros p fuel; simpl.
  - intros -> _. by destruct fuel.
  - intros (-> & tr & Ht & Hseg) Hlen. destruct fuel as [|fuel]; [lia|].
    simpl. rewrite Ht. f_equal. apply IH; [done|lia].
Qed.

Lemma dseg_frame D D' t prev p l q :
  (∀ d, d ∈ l → dive_links <$> D' !! d = dive_links <$> D !! d) →
  dseg D t prev p l q → dseg D' t prev p l q.
Proof.
  revert prev p. induction l as [|d l IH]; intros prev p Hfr; simpl; [done|].
  intros (-> & dv & Hd & Htrip & Hprev & Hseg). split; [done|].
  pose proof (Hfr d ltac:(by left)) as Hl. rewrite Hd in Hl.
  destruct (D' !! d) as [dv'|] eqn:Hd'; simplify_eq/=.
  unfold dive_links in Hl. simplify_eq.
  exists dv'. split_and!; [done|congruence|congruence|].
  match goal with H : next _ = next _ |- _ => rewrite H end.
  apply IH; [|done]. intros d' Hd''. apply Hfr. by right.
Qed.

Lemma dseg_app D t prev p l1 l2 q :
  dseg D t prev p (l1 ++ l2) q ↔
  ∃ m, dseg D t prev p l1 m ∧ dseg D t (last_slot prev l1) m l2 q.
Proof.
  revert prev p. induction l1 as [|d l1 IH]; intros prev p; simpl.
  - split; [eauto|]. by intros (m & -> & Hm).
  - split.
    + intros (-> & dv & Hd & Ht & Hp & Hseg). apply IH in Hseg as (m & H1 & H2).
      exists m. rewrite last_slot_cons. eauto 10.
    + intros (m & (-> & dv & Hd & Ht & Hp & H1) & H2). split; [done|].
      exists dv. split_and!; [done..|]. apply IH. rewrite last_slot_cons in H2. eauto.
Qed.

Lemma dseg_valid D t prev p l q d :
  dseg D t prev p l q → d ∈ l →
  ∃ dv, D !! d = Some dv ∧ divetrip dv = Some t.
Proof.
  revert prev p. induction l as [|d' l IH]; intros prev p Hseg Hin;
    [by apply elem_of_nil in Hin|].
  destruct Hseg as (-> & dv & Hd & Ht & Hp & Hseg).
  apply elem_of_cons in Hin as [->|Hin]; eauto.
Qed.

Lemma dseg_length D t prev p l q :
  dseg D t prev p l q → NoDup l → (length l <= length D)%nat.
Proof.
  intros Hseg Hnd. apply nodup_bounded_length; [done|].
  intros d Hd. destruct (dseg_valid _ _ _ _ _ _ _ Hseg Hd) as (dv & Hdv & _).
  by eapply lookup_lt_Some.
Qed.

Lemma dive_list_from_dseg D t prev fuel p l :
  dseg D t prev p l None → (length l < fuel)%nat → dive_list_from D fuel p = l.
Proof.
  revert prev p fuel. induction l as [|d l IH]; intros prev p fuel; simpl.
  - intros -> _. by destruct fuel.
  - intros (-> & dv & Hd & Ht & Hp & Hseg) Hlen. destruct fuel as [|fuel]; [lia|].
    simpl. rewrite Hd. f_equal. eapply IH; [done|lia].
Qed.

Lemma dseg_head D t prev p l q : dseg D t prev p l q → p = match l with d :: _ => Some d | [] => q end.
Proof. destruct l; simpl; [done|]. by intros [-> _]. Qed.

(** ** From [rep] to the registry and the members that are computed *)

Lemma registry_of_rep s R Mf : rep s R Mf → registry s = R.
Proof.
  intros [Ht Hnd _ _ _ _]. unfold registry, trip_fuel.
  apply trip_list_from_tseg; [done|].
  pose proof (tseg_length _ _ _ _ Ht Hnd). lia.
Qed.

Lemma members_of_rep s R Mf t : rep s R Mf → members s t = Mf t.
Proof.
  intros Hrep. unfold members, dive_fuel.
  destruct (heap_trips s !! t) as [tr|] eqn:Htr.
  - destruct (rep_members _ _ _ Hrep t tr Htr) as (Hseg & Hnd & _).
    eapply dive_list_from_dseg; [done|].
    pose proof (dseg_length _ _ _ _ _ _ Hseg Hnd). lia.
  - symmetry. by apply (rep_no_trip _ _ _ Hrep).
Qed.

Lemma rep_ext s R Mf Mf' : (∀ t, Mf t = Mf' t) → rep s R Mf → rep s R Mf'.
Proof.
  intros Heq [H1 H2 H3 H4 H5 H6]. split; auto.
  - intros t tr Ht. rewrite <- Heq. auto.
  - intros t Ht. rewrite <- Heq. auto.
  - intros d dv t Hd Ht. rewrite <- Heq. eauto.
Qed.

Lemma rep_well_formed s R Mf : rep s R Mf → well_formed s.
Proof.
  intros Hrep. unfold well_formed. rewrite (registry_of_rep _ _ _ Hrep).
  apply (rep_ext s R Mf); [|done]. intros t. symmetry. by apply members_of_rep with R.
Qed.

Lemma dseg_alter_notin D t prev p l q f x :
  x ∉ l → dseg D t prev p l q → dseg (alter f x D) t prev p l q.
Proof.
  intros Hx. apply dseg_frame. intros d Hd.
  rewrite list_lookup_alter_ne; [done|]. intros ->. contradiction.
Qed.

Lemma dseg_alter_links D t prev p l q f x :
  (∀ dv, dive_links (f dv) = dive_links dv) →
  dseg D t prev p l q → dseg (alter f x D) t prev p l q.
Proof.
  intros Hf. apply dseg_frame. intros d Hd.
  destruct (decide (x = d)) as [->|Hne].
  - rewrite list_lookup_alter_eq. destruct (D !! d); simpl; [|done]. by rewrite Hf.
  - by rewrite list_lookup_alter_ne.
Qed.

Lemma tseg_alter_notin T p l q f x :
  x ∉ l → tseg T p l q → tseg (alter f x T) p l q.
Proof.
  intros Hx. apply tseg_frame. intros t Ht.
  rewrite list_lookup_alter_ne; [done|]. intros ->. contradiction.
Qed.

Lemma tseg_alter_next T p l q f x :
  (∀ tr, trip_next (f tr) = trip_next tr) →
  tseg T p l q → tseg (alter f x T) p l q.
Proof.
  intros Hf. apply tseg_frame. intros t Ht.
  destruct (decide (x = t)) as [->|Hne].
  - rewrite list_lookup_alter_eq. destruct (T !! t); simpl; [|done]. by rewrite Hf.
  - by rewrite list_lookup_alter_ne.
Qed.

Lemma tseg_snoc T p l x q :
  tseg T p (l ++ [x]) q ↔
  tseg T p l (Some x) ∧ ∃ tr, T !! x = Some tr ∧ trip_next tr = q.
Proof.
  rewrite tseg_app. simpl. split.
  - intros (m & H1 & -> & tr & Hx & Hq). eauto.
  - intros (H1 & tr & Hx & Hq). exists (Some x). eauto 10.
Qed.

Lemma dseg_snoc D t prev p l x q :
  dseg D t prev p (l ++ [x]) q ↔
  dseg D t prev p l (Some x) ∧
  ∃ dv, D !! x = Some dv ∧ divetrip dv = Some t ∧
        pprev dv = Some (last_slot prev l) ∧ next dv = q.
Proof.
  rewrite dseg_app. simpl. split.
  - intros (m & H1 & -> & dv & Hx & Ht & Hp & Hq). eauto 10.
  - intros (H1 & dv & Hx & Ht & Hp & Hq). exists (Some x). eauto 10.
Qed.

(** ** The least timestamp *)

Lemma min_when_fold ws w :
  fold_left Z.min ws w = match min_when ws with Some m => Z.min w m | None => w end.
Proof.
  revert w. induction ws as [|a ws IH]; intros w; simpl; [done|].
  rewrite IH. destruct (min_when ws); lia.
Qed.

Lemma min_when_app ws1 ws2 :
  min_when (ws1 ++ ws2) =
  match min_when ws1, min_when ws2 with
  | Some a, Some b => Some (Z.min a b)
  | Some a, None => Some a
  | None, o => o
  end.
Proof.
  induction ws1 as [|w ws1 IH]; simpl; [by destruct (min_when ws2)|].
  rewrite IH. destruct (min_when ws1), (min_when ws2); f_equal; lia.
Qed.

Lemma min_when_le ws m w : min_when ws = Some m → w ∈ ws → m <= w.
Proof.
  revert m. induction ws as [|a ws IH]; intros m Hm Hw; [by apply elem_of_nil in Hw|].
  simpl in Hm. apply elem_of_cons in Hw as [->|Hw].
  - destruct (min_when ws); simplify_eq; lia.
  - destruct (min_when ws) as [m'|] eqn:Hm'; simplify_eq.
    + specialize (IH m' eq_refl Hw). lia.
    + destruct ws; [by apply elem_of_nil in Hw|done].
Qed.

Lemma min_when_elem ws m : min_when ws = Some m → m ∈ ws.
Proof.
  revert m. induction ws as [|a ws IH]; intros m Hm; [done|].
  simpl in Hm. destruct (min_when ws) as [m'|] eqn:Hm'; simplify_eq.
  - destruct (Z.min_spec a m') as [[_ ->]|[_ ->]]; [by left|right; auto].
  - by left.
Qed.

Lemma min_when_None ws : min_when ws = None ↔ ws = [].
Proof. destruct ws; simpl; split; done. Qed.

Lemma dive_when_lookup s d dv : heap_dives s !! d = Some dv → dive_when s d = when dv.
Proof. intros Hd. unfold dive_when. by rewrite Hd. Qed.

Lemma trip_start_lookup s t tr : heap_trips s !! t = Some tr → trip_start s t = trip_when tr.
Proof. intros Ht. unfold trip_start. by rewrite Ht. Qed.

(** ** find_new_trip_start_time *)

Lemma run_find_new_trip_start_time_loop s t prev fuel d l w :
  dseg (heap_dives s) t prev (Some d) (d :: l) None →
  (length l < fuel)%nat →
  find_new_trip_start_time_loop fuel d w s
  = Ok (fold_left Z.min (map (dive_when s) l) w) s.
Proof.
  revert prev d w fuel. induction l as [|n l IH]; intros prev d w fuel Hseg Hlen.
  - destruct Hseg as (_ & dv & Hd & _ & _ & Hn). simpl in Hn.
    destruct fuel; simpl; rewrite (run_bind _ _ _ _ _ (run_load_dive _ _ _ Hd));
      by rewrite Hn.
  - destruct Hseg as (_ & dv & Hd & _ & _ & Hseg).
    pose proof Hseg as (Hn & ndv & Hnd & _).
    destruct fuel as [|fuel]; [simpl in Hlen; lia|].
    simpl. rewrite (run_bind _ _ _ _ _ (run_load_dive _ _ _ Hd)), Hn.
    rewrite (run_bind _ _ _ _ _ (run_load_dive _ _ _ Hnd)).
    rewrite Hn in Hseg. rewrite (IH _ _ _ _ Hseg) by (simpl in Hlen; lia).
    simpl. f_equal. f_equal. unfold dive_when. rewrite Hnd.
    destruct (Z.ltb_spec (when ndv) w); lia.
Qed.

Lemma run_find_new_trip_start_time s t tr l m :
  heap_trips s !! t = Some tr →
  dseg (heap_dives s) t (TripDives t) (trip_dives tr) l None →
  NoDup l →
  min_when (map (dive_when s) l) = Some m →
  find_new_trip_start_time t s
  = Ok tt (set_heap_trips s (alter (λ tr, set_trip_when tr m) t (heap_trips s))).
Proof.
  intros Ht Hseg Hnd Hm. unfold find_new_trip_start_time.
  rewrite (run_bind _ _ _ _ _ (run_load_trip _ _ _ Ht)).
  destruct l as [|d l]; [done|].
  pose proof Hseg as (Hhd & dv & Hd & _). rewrite Hhd.
  rewrite (run_bind _ _ _ _ _ (run_load_dive _ _ _ Hd)).
  unfold get_state at 1. unfold bind at 1.
  rewrite Hhd in Hseg.
  assert (Hlen : (length l < dive_fuel s)%nat).
  { pose proof (dseg_length _ _ _ _ _ _ Hseg Hnd) as Hle. unfold dive_fuel.
    rewrite length_cons in Hle. lia. }
  rewrite (run_bind _ _ _ _ _
             (run_find_new_trip_start_time_loop _ _ _ _ _ _ (when dv) Hseg Hlen)).
  rewrite (run_modify_trip _ _ _ _ Ht). do 3 f_equal.
  simpl in Hm. rewrite min_when_fold.
  rewrite (dive_when_lookup _ _ _ Hd) in Hm.
  destruct (min_when (map (dive_when s) l)); by simplify_eq.
Qed.

(** ** delete_trip *)

Lemma fmap_alter_same {A B} (g : A → B) (f : A → A) (l : list A) i :
  (∀ x, g (f x) = g x) → g <$> alter f i l = g <$> l.
Proof.
  intros Hf. revert i. induction l as [|x l IH]; intros [|i]; simpl; [done..| |].
  - by rewrite Hf.
  - f_equal. apply IH.
Qed.

Lemma last_tslot_cons p x l : last_tslot p (x :: l) = last_tslot (Some x) l.
Proof.
  unfold last_tslot. destruct l as [|y l]; [done|]. rewrite last_cons_cons.
  destruct (last (y :: l)) eqn:E; [done|]. by apply last_None in E.
Qed.

Lemma last_tslot_snoc p l x : last_tslot p (l ++ [x]) = Some x.
Proof. unfold last_tslot. by rewrite last_snoc. Qed.

Lemma run_load_tslot s p :
  (∀ x, p = Some x → is_Some (heap_trips s !! x)) →
  load_tslot p s = Ok (read_tslot s p) s.
Proof.
  intros Hp. destruct p as [x|]; simpl; [|done].
  destruct (Hp x eq_refl) as [tr Hx].
  by rewrite (run_bind _ _ _ _ _ (run_load_trip _ _ _ Hx)), Hx.
Qed.

Lemma run_store_tslot s p v :
  (∀ x, p = Some x → is_Some (heap_trips s !! x)) →
  store_tslot p v s = Ok tt (write_tslot p v s).
Proof.
  intros Hp. destruct p as [x|]; simpl; [|done].
  destruct (Hp x eq_refl) as [tr Hx]. by rewrite (run_modify_trip _ _ _ _ Hx).
Qed.

Lemma run_delete_trip_walk s fuel t tr p r1 r2 q :
  tseg (heap_trips s) (read_tslot s p) (r1 ++ t :: r2) q →
  t ∉ r1 →
  heap_trips s !! t = Some tr →
  (∀ x, p = Some x → is_Some (heap_trips s !! x)) →
  (length r1 <= fuel)%nat →
  delete_trip_walk fuel t p s
  = Ok tt (write_tslot (last_tslot p r1) (trip_next tr) s).
Proof.
  revert p fuel. induction r1 as [|x r1 IH]; intros p fuel Hseg Hnotin Ht Hp Hlen.
  - destruct Hseg as (Hrd & _).
    assert (Hwalk : ∀ f, delete_trip_walk f t p s
                         = Ok tt (write_tslot p (trip_next tr) s)).
    { intros f. destruct f; simpl;
        rewrite (run_bind _ _ _ _ _ (run_load_tslot _ _ Hp)), Hrd, Nat.eqb_refl;
        rewrite (run_bind _ _ _ _ _ (run_load_trip _ _ _ Ht));
        by apply run_store_tslot. }
    apply Hwalk.
  - destruct Hseg as (Hrd & trx & Hx & Hseg).
    destruct fuel as [|fuel]; [simpl in Hlen; lia|].
    assert (Hxt : x ≠ t). { intros ->. apply Hnotin. by left. }
    simpl. rewrite (run_bind _ _ _ _ _ (run_load_tslot _ _ Hp)), Hrd.
    destruct (Nat.eqb_spec x t) as [|_]; [done|].
    rewrite last_tslot_cons. apply IH.
    + simpl. by rewrite Hx.
    + intros Hin. apply Hnotin. by right.
    + done.
    + intros ? [= <-]. eauto.
    + simpl in Hlen. lia.
Qed.

(** What delete_trip leaves of the store: the trip is out of the list and
    released. *)
Lemma run_delete_trip s R Mf t tr r1 r2 :
  rep s R Mf →
  R = r1 ++ t :: r2 →
  heap_trips s !! t = Some tr →
  trip_dives tr = None →
  delete_trip t s
  = Ok tt (set_freed (write_tslot (last_tslot None r1) (trip_next tr) s) (t :: freed s)).
Proof.
  intros Hrep -> Ht Hdives. unfold delete_trip.
  rewrite (run_bind _ _ _ _ _ (run_load_trip _ _ _ Ht)), Hdives. simpl assert.
  unfold ret at 1. unfold bind at 1. unfold get_state at 1. unfold bind at 1.
  pose proof (rep_trips _ _ _ Hrep) as Hseg.
  pose proof (rep_trips_nodup _ _ _ Hrep) as Hnd.
  apply NoDup_app in Hnd as (_ & Hdisj & _).
  assert (Hnotin : t ∉ r1). { intros Hin. apply (Hdisj t Hin). by left. }
  assert (Hlen : (length r1 <= trip_fuel s)%nat).
  { pose proof (tseg_length _ _ _ _ Hseg (rep_trips_nodup _ _ _ Hrep)) as Hle.
    rewrite length_app in Hle. unfold trip_fuel. lia. }
  rewrite (run_bind _ _ _ _ _
             (run_delete_trip_walk s _ t tr None r1 r2 None Hseg Hnotin Ht
                ltac:(done) Hlen)).
  unfold free_trip. do 3 f_equal. unfold write_tslot.
  by destruct (last_tslot None r1).
Qed.

Lemma rep_delete_trip s R Mf t tr r1 r2 :
  rep s R Mf →
  R = r1 ++ t :: r2 →
  heap_trips s !! t = Some tr →
  Mf t = [] →
  rep (set_freed (write_tslot (last_tslot None r1) (trip_next tr) s) (t :: freed s))
      (r1 ++ r2) Mf.
Proof.
  intros Hrep -> Ht Hempty.
  pose proof (rep_trips _ _ _ Hrep) as Hseg.
  pose proof (rep_trips_nodup _ _ _ Hrep) as Hnd.
  apply tseg_app in Hseg as (m & Hseg1 & Hseg2).
  destruct Hseg2 as (-> & tr' & Ht' & Hseg2). assert (tr' = tr) as -> by congruence.
  apply NoDup_app in Hnd as (Hnd1 & Hdisj & Hnd2).
  apply NoDup_cons in Hnd2 as (Hnotin2 & Hnd2).
  assert (Hnotin1 : t ∉ r1). { intros Hin. apply (Hdisj t Hin). by left. }
  assert (HT : (λ tr, (trip_dives tr, trip_nrdives tr)) <$>
               heap_trips (write_tslot (last_tslot None r1) (trip_next tr) s)
               = (λ tr, (trip_dives tr, trip_nrdives tr)) <$> heap_trips s).
  { unfold write_tslot. destruct (last_tslot None r1); [|done].
    simpl. by apply fmap_alter_same. }
  assert (HD : heap_dives (write_tslot (last_tslot None r1) (trip_next tr) s)
               = heap_dives s).
  { unfold write_tslot. by destruct (last_tslot None r1). }
  split.
  - (* the list of trips *)
    simpl. destruct r1 as [|x r1 _] using rev_ind.
    + simpl in *. done.
    + rewrite last_tslot_snoc. simpl. rewrite <- (assoc_L (++)). apply tseg_app.
      apply tseg_snoc in Hseg1 as (Hseg1 & trx & Hx & Hnx).
      apply NoDup_app in Hnd1 as (Hnd1 & Hdisj1 & _).
      assert (Hx1 : x ∉ r1). { intros Hin. apply (Hdisj1 x Hin). by left. }
      assert (Hx2 : x ∉ r2).
      { intros Hin. apply (Hdisj x); [apply elem_of_app; right; by left|by right]. }
      exists (Some x). split; [by apply tseg_alter_notin|].
      simpl. split; [done|]. eexists. split.
      { rewrite list_lookup_alter_eq, Hx. reflexivity. }
      simpl. by apply tseg_alter_notin.
  - (* no trip twice *)
    apply NoDup_app. split_and!; [done| |done].
    intros x Hx1 Hx2. apply (Hdisj x Hx1). by right.
  - (* the lists of dives *)
    intros t0 tr0 Ht0. simpl in Ht0. simpl. rewrite HD.
    apply (f_equal (λ l, l !! t0)) in HT. rewrite !list_lookup_fmap, Ht0 in HT.
    destruct (heap_trips s !! t0) as [tr1|] eqn:Ht1; [|done].
    simpl in HT. injection HT as Hdv Hnr'.
    destruct (rep_members _ _ _ Hrep t0 tr1 Ht1) as (Hd & Hndd & Hnr).
    rewrite Hdv, Hnr'. done.
  - intros t0 Ht0. simpl in Ht0. apply (rep_no_trip _ _ _ Hrep).
    apply (f_equal (λ l, l !! t0)) in HT. rewrite !list_lookup_fmap, Ht0 in HT.
    by destruct (heap_trips s !! t0).
  - intros d dv t0 Hd Hdt. simpl in Hd. rewrite HD in Hd.
    destruct (rep_divetrip _ _ _ Hrep d dv t0 Hd Hdt) as (Hin & Hdin).
    split; [|done].
    apply elem_of_app in Hin as [Hin|Hin]; [apply elem_of_app; by left|].
    apply elem_of_cons in Hin as [->|Hin]; [|apply elem_of_app; by right].
    rewrite Hempty in Hdin. by apply elem_of_nil in Hdin.
  - intros d Hd. simpl. rewrite HD. apply (rep_table _ _ _ Hrep).
    unfold write_tslot in Hd. by destruct (last_tslot None r1).
Qed.

(** ** Taking a dive out of the list of its trip *)

Lemma rep_trip_valid s R Mf t : rep s R Mf → t ∈ R → is_Some (heap_trips s !! t).
Proof. intros Hrep Ht. eapply tseg_valid; [apply (rep_trips _ _ _ Hrep)|done]. Qed.

Lemma rep_members_trip s R Mf t d :
  rep s R Mf → d ∈ Mf t →
  ∃ dv, heap_dives s !! d = Some dv ∧ divetrip dv = Some t.
Proof.
  intros Hrep Hd. destruct (heap_trips s !! t) as [tr|] eqn:Ht.
  - destruct (rep_members _ _ _ Hrep t tr Ht) as (Hseg & _).
    eapply dseg_valid; eauto.
  - rewrite (rep_no_trip _ _ _ Hrep t Ht) in Hd. by apply elem_of_nil in Hd.
Qed.

Lemma rep_members_disjoint s R Mf t1 t2 d :
  rep s R Mf → d ∈ Mf t1 → d ∈ Mf t2 → t1 = t2.
Proof.
  intros Hrep H1 H2.
  destruct (rep_members_trip _ _ _ _ _ Hrep H1) as (dv1 & Hd1 & Ht1).
  destruct (rep_members_trip _ _ _ _ _ Hrep H2) as (dv2 & Hd2 & Ht2).
  congruence.
Qed.

Lemma unlink_dive_trips d pp nxt s :
  heap_trips (unlink_dive d pp nxt s) =
  match pp with
  | TripDives t => alter (λ tr, set_trip_dives tr nxt) t (heap_trips s)
  | DiveNext _ => heap_trips s
  end.
Proof. unfold unlink_dive, write_slot. by destruct pp, nxt. Qed.

Lemma unlink_dive_dives d pp nxt s :
  heap_dives (unlink_dive d pp nxt s) =
  alter (λ dv, set_tripflag dv NO_TRIP) d
    (alter (λ dv, set_divetrip dv None) d
       (match nxt with
        | Some n => alter (λ ndv, set_pprev ndv (Some pp)) n
        | None => id
        end
          (match pp with
           | TripDives _ => heap_dives s
           | DiveNext x => alter (λ dv, set_next dv nxt) x (heap_dives s)
           end))).
Proof. unfold unlink_dive, write_slot. by destruct pp, nxt. Qed.

Lemma unlink_dive_other d pp nxt s y :
  y ≠ d → nxt ≠ Some y → pp ≠ DiveNext y →
  heap_dives (unlink_dive d pp nxt s) !! y = heap_dives s !! y.
Proof.
  intros Hd Hn Hp. rewrite unlink_dive_dives.
  rewrite !list_lookup_alter_ne by done.
  destruct nxt as [n|]; simpl.
  - rewrite list_lookup_alter_ne by congruence.
    destruct pp as [|x]; [done|]. rewrite list_lookup_alter_ne by congruence. done.
  - destruct pp as [|x]; [done|]. rewrite list_lookup_alter_ne by congruence. done.
Qed.

Lemma unlink_dive_self d pp nxt s dv :
  heap_dives s !! d = Some dv → nxt ≠ Some d → pp ≠ DiveNext d →
  heap_dives (unlink_dive d pp nxt s) !! d
  = Some (set_tripflag (set_divetrip dv None) NO_TRIP).
Proof.
  intros Hd Hn Hp. rewrite unlink_dive_dives.
  rewrite !list_lookup_alter_eq.
  destruct nxt as [n|]; simpl.
  - rewrite list_lookup_alter_ne by congruence.
    destruct pp as [|x]; [by rewrite Hd|].
    rewrite list_lookup_alter_ne by congruence. by rewrite Hd.
  - destruct pp as [|x]; [by rewrite Hd|].
    rewrite list_lookup_alter_ne by congruence. by rewrite Hd.
Qed.

Lemma unlink_dive_next d pp n s :
  n ≠ d → pp ≠ DiveNext n →
  heap_dives (unlink_dive d pp (Some n) s) !! n
  = (λ ndv, set_pprev ndv (Some pp)) <$> heap_dives s !! n.
Proof.
  intros Hd Hp. rewrite unlink_dive_dives.
  rewrite !list_lookup_alter_ne by done. rewrite list_lookup_alter_eq.
  destruct pp as [|x]; [done|]. rewrite list_lookup_alter_ne by congruence. done.
Qed.

Lemma unlink_dive_prev d x nxt s :
  x ≠ d → nxt ≠ Some x →
  heap_dives (unlink_dive d (DiveNext x) nxt s) !! x
  = (λ dv, set_next dv nxt) <$> heap_dives s !! x.
Proof.
  intros Hd Hn. rewrite unlink_dive_dives.
  rewrite !list_lookup_alter_ne by done.
  destruct nxt as [n|]; simpl.
  - rewrite list_lookup_alter_ne by congruence. by rewrite list_lookup_alter_eq.
  - by rewrite list_lookup_alter_eq.
Qed.

Lemma unlink_dive_data d pp nxt s :
  dive_data <$> heap_dives (unlink_dive d pp nxt s) = dive_data <$> heap_dives s.
Proof.
  rewrite unlink_dive_dives.
  rewrite !fmap_alter_same by done.
  destruct nxt as [n|]; simpl.
  - rewrite fmap_alter_same by done.
    destruct pp; [done|]. by rewrite fmap_alter_same.
  - destruct pp; [done|]. by rewrite fmap_alter_same.
Qed.

Lemma last_slot_inj_list prev l d :
  last_slot prev l = DiveNext d → prev ≠ DiveNext d → last l = Some d.
Proof.
  unfold last_slot. destruct (last l) as [x|]; [|congruence]. by intros [= ->].
Qed.

Lemma head_elem_of {A} (l : list A) x : head l = Some x → x ∈ l.
Proof. destruct l; intros [= ->]. by left. Qed.

Lemma last_elem_of {A} (l : list A) x : last l = Some x → x ∈ l.
Proof. intros Hl. apply last_Some in Hl as [l' ->]. apply elem_of_app. right. by left. Qed.

(** The list of the trip after the dive has left it. *)
Lemma dseg_unlink s t d dv l1 l2 p0 :
  heap_dives s !! d = Some dv →
  NoDup (l1 ++ d :: l2) →
  dseg (heap_dives s) t (TripDives t) p0 (l1 ++ d :: l2) None →
  pprev dv = Some (last_slot (TripDives t) l1) ∧
  next dv = head l2 ∧
  dseg (heap_dives (unlink_dive d (last_slot (TripDives t) l1) (head l2) s))
       t (TripDives t)
       (match l1 with [] => head l2 | _ => p0 end)
       (l1 ++ l2) None.
Proof.
  intros Hd Hnd Hseg.
  apply dseg_app in Hseg as (m & Hs1 & Hs2).
  destruct Hs2 as (-> & dv' & Hd' & Hdt & Hpp & Hs2).
  assert (dv' = dv) as -> by congruence.
  pose proof (dseg_head _ _ _ _ _ _ Hs2) as Hnx.
  assert (Hnx' : next dv = head l2) by (rewrite Hnx; by destruct l2).
  split; [done|]. split; [done|].
  apply NoDup_app in Hnd as (Hnd1 & Hdisj & Hnd2).
  apply NoDup_cons in Hnd2 as (Hd2 & Hnd2).
  assert (Hd1 : d ∉ l1). { intros Hin. apply (Hdisj d Hin). by left. }
  remember (last_slot (TripDives t) l1) as pp eqn:Hpp_def.
  assert (Hpp_d : pp ≠ DiveNext d).
  { intros Heq. rewrite Heq in Hpp_def. symmetry in Hpp_def.
    apply last_slot_inj_list in Hpp_def; [|done].
    apply Hd1. by apply last_elem_of. }
  assert (Hhd_d : head l2 ≠ Some d).
  { intros Heq. apply Hd2. by apply head_elem_of. }
  apply dseg_app. exists (head l2). split.
  - (* the dives before [d] *)
    destruct l1 as [|x l1 _] using rev_ind; [done|].
    assert (l1 ++ [x] ≠ []) by (by destruct l1).
    replace (match l1 ++ [x] with [] => head l2 | _ => p0 end) with p0
      by (by destruct l1).
    rewrite last_slot_snoc in Hpp_def. subst pp.
    apply dseg_snoc in Hs1 as (Hs1 & xv & Hx & Hxt & Hxp & Hxn).
    apply NoDup_app in Hnd1 as (Hnd1 & Hdisj1 & _).
    assert (Hx1 : x ∉ l1). { intros Hin. apply (Hdisj1 x Hin). by left. }
    assert (Hxd : x ≠ d). { intros ->. apply Hd1. apply elem_of_app. right. by left. }
    assert (Hx2 : head l2 ≠ Some x).
    { intros Heq. apply head_elem_of in Heq.
      apply (Hdisj x); [apply elem_of_app; right; by left|by right]. }
    apply dseg_snoc. split.
    + eapply dseg_frame; [|exact Hs1]. intros y Hy. f_equal.
      apply unlink_dive_other.
      * intros ->. apply Hd1. apply elem_of_app. by left.
      * intros Heq. apply head_elem_of in Heq.
        apply (Hdisj y); [apply elem_of_app; by left|by right].
      * intros [= ->]. done.
    + exists (set_next xv (head l2)).
      rewrite unlink_dive_prev by done. rewrite Hx. done.
  - (* the dives after [d] *)
    destruct l2 as [|n l2]; [done|]. change (head (n :: l2)) with (Some n) in *.
    destruct Hs2 as (_ & nv & Hn & Hnt & Hnp & Hs2).
    apply NoDup_cons in Hnd2 as (Hn2 & Hnd2).
    assert (Hnd' : n ≠ d). { intros ->. apply Hd2. by left. }
    assert (Hpn : pp ≠ DiveNext n).
    { intros Heq. rewrite Heq in Hpp_def. symmetry in Hpp_def.
      apply last_slot_inj_list in Hpp_def; [|done].
      apply last_elem_of in Hpp_def. apply (Hdisj n Hpp_def). right. by left. }
    cbn [dseg]. split; [done|]. exists (set_pprev nv (Some pp)).
    rewrite unlink_dive_next by done. rewrite Hn.
    split_and!; [done|done|simpl; congruence|].
    cbn [next set_pprev]. eapply dseg_frame; [|exact Hs2]. intros y Hy. f_equal.
    apply unlink_dive_other.
    + intros ->. apply Hd2. by right.
    + intros [= ->]. done.
    + intros Heq. rewrite Heq in Hpp_def. symmetry in Hpp_def.
      apply last_slot_inj_list in Hpp_def; [|done].
      apply last_elem_of in Hpp_def. apply (Hdisj y Hpp_def). right. by right.
Qed.

Lemma same_but_trip_of_refl d s : same_but_trip_of d s s.
Proof. by split. Qed.

Lemma same_but_trip_of_trans d s1 s2 s3 :
  same_but_trip_of d s1 s2 → same_but_trip_of d s2 s3 → same_but_trip_of d s1 s3.
Proof.
  intros [A1 A2 A3 A4] [B1 B2 B3 B4]. split; try congruence.
  intros y Hy. rewrite B2, A2; done.
Qed.

Lemma same_but_trip_of_when d s s' y :
  same_but_trip_of d s s' → dive_when s' y = dive_when s y.
Proof.
  intros [H1 _ _ _]. apply (f_equal (λ l, l !! y)) in H1.
  rewrite !list_lookup_fmap in H1. unfold dive_when.
  destruct (heap_dives s' !! y), (heap_dives s !! y); simplify_eq/=; done.
Qed.

Lemma same_but_trip_of_length d s s' :
  same_but_trip_of d s s' →
  length (heap_dives s') = length (heap_dives s) ∧
  length (heap_trips s') = length (heap_trips s).
Proof.
  intros [H1 _ H3 _]. apply (f_equal length) in H1. apply (f_equal length) in H3.
  rewrite !length_fmap in H1. rewrite !length_fmap in H3. done.
Qed.

Lemma same_but_trip_of_dated d s s' :
  same_but_trip_of d s s' → dives_dated s → dives_dated s'.
Proof.
  intros [H1 _ _ _] Hdated y dv' Hy.
  apply (f_equal (λ l, l !! y)) in H1. rewrite !list_lookup_fmap, Hy in H1.
  destruct (heap_dives s !! y) as [dv|] eqn:Hy'; simplify_eq/=.
  unfold dive_data in H1. simplify_eq. 
  match goal with H : when dv' = when dv |- _ => rewrite H end. eauto.
Qed.

Lemma leave_trip_same d pp nxt t s :
  same_but_trip_of d s (leave_trip d pp nxt t s).
Proof.
  split.
  - apply unlink_dive_data.
  - intros y Hy. unfold leave_trip. cbn [heap_dives set_heap_trips].
    rewrite unlink_dive_dives. rewrite !list_lookup_alter_ne by done.
    assert (Hpp : (λ dv, (divetrip dv, tripflag dv)) <$>
                    (match pp with
                     | TripDives _ => heap_dives s
                     | DiveNext x => alter (λ dv, set_next dv nxt) x (heap_dives s)
                     end) !! y
                  = (λ dv, (divetrip dv, tripflag dv)) <$> heap_dives s !! y).
    { destruct pp as [|x]; [done|]. by rewrite <- !list_lookup_fmap, fmap_alter_same. }
    destruct nxt as [n|]; simpl; [|done].
    rewrite <- list_lookup_fmap, fmap_alter_same by done.
    by rewrite list_lookup_fmap.
  - unfold leave_trip. cbn [heap_trips set_heap_trips].
    rewrite fmap_alter_same by done. rewrite unlink_dive_trips.
    destruct pp; [|done]. by rewrite fmap_alter_same.
  - unfold leave_trip, unlink_dive, write_slot. by destruct pp, nxt.
Qed.

Lemma leave_trip_next d pp nxt t s :
  (λ tr, (trip_when tr, trip_next tr)) <$> heap_trips (leave_trip d pp nxt t s)
  = (λ tr, (trip_when tr, trip_next tr)) <$> heap_trips s.
Proof.
  unfold leave_trip. cbn [heap_trips set_heap_trips].
  rewrite fmap_alter_same by done. rewrite unlink_dive_trips.
  destruct pp; [|done]. by rewrite fmap_alter_same.
Qed.

Lemma leave_trip_globals d pp nxt t s :
  dive_trip_list (leave_trip d pp nxt t s) = dive_trip_list s ∧
  freed (leave_trip d pp nxt t s) = freed s.
Proof. unfold leave_trip, unlink_dive, write_slot. by destruct pp, nxt. Qed.

Lemma tseg_same_next T T' p l q :
  trip_next <$> T' = trip_next <$> T → tseg T p l q → tseg T' p l q.
Proof.
  intros Heq. apply tseg_frame. intros t _.
  apply (f_equal (λ l, l !! t)) in Heq. by rewrite !list_lookup_fmap in Heq.
Qed.

Lemma fmap_fst_eq {A B C} (f : A → B * C) (l l' : list A) :
  f <$> l = f <$> l' → (λ x, (f x).1) <$> l = (λ x, (f x).1) <$> l'.
Proof. intros Heq. apply (f_equal (fmap fst)) in Heq. by rewrite <- !list_fmap_compose in Heq. Qed.

Lemma fmap_snd_eq {A B C} (f : A → B * C) (l l' : list A) :
  f <$> l = f <$> l' → (λ x, (f x).2) <$> l = (λ x, (f x).2) <$> l'.
Proof. intros Heq. apply (f_equal (fmap snd)) in Heq. by rewrite <- !list_fmap_compose in Heq. Qed.

(** The store after the dive has left its trip, before the trip is
    deleted or gets its new start. *)
Lemma rep_leave_trip s R Mf d dv t l1 l2 :
  rep s R Mf →
  heap_dives s !! d = Some dv →
  divetrip dv = Some t →
  Mf t = l1 ++ d :: l2 →
  pprev dv = Some (last_slot (TripDives t) l1) ∧
  next dv = head l2 ∧
  rep (leave_trip d (last_slot (TripDives t) l1) (head l2) t s) R (<[t := l1 ++ l2]> Mf) ∧
  heap_dives (leave_trip d (last_slot (TripDives t) l1) (head l2) t s) !! d
    = Some (set_tripflag (set_divetrip dv None) NO_TRIP).
Proof.
  intros Hrep Hd Hdt HMf.
  destruct (rep_divetrip _ _ _ Hrep d dv t Hd Hdt) as (HtR & _).
  destruct (rep_trip_valid _ _ _ _ Hrep HtR) as [tr Ht].
  destruct (rep_members _ _ _ Hrep t tr Ht) as (Hseg & Hnd & Hnr).
  rewrite HMf in Hseg, Hnd, Hnr.
  destruct (dseg_unlink s t d dv l1 l2 _ Hd Hnd Hseg) as (Hpp & Hnx & Hseg').
  split; [done|]. split; [done|].
  set (pp := last_slot (TripDives t) l1) in *. set (nxt := head l2) in *.
  pose proof Hnd as Hnd0.
  apply NoDup_app in Hnd as (Hnd1 & Hdisj & Hnd2).
  apply NoDup_cons in Hnd2 as (Hd2 & Hnd2).
  assert (Hd1 : d ∉ l1). { intros Hin. apply (Hdisj d Hin). by left. }
  assert (Hpp_in : ∀ y, pp = DiveNext y → y ∈ l1).
  { intros y Heq. apply last_slot_inj_list in Heq; [|done]. by apply last_elem_of. }
  assert (Hnx_in : ∀ y, nxt = Some y → y ∈ l2).
  { intros y Heq. by apply head_elem_of. }
  assert (Hself : heap_dives (leave_trip d pp nxt t s) !! d
                  = Some (set_tripflag (set_divetrip dv None) NO_TRIP)).
  { unfold leave_trip. cbn [heap_dives set_heap_trips]. apply unlink_dive_self; [done| |].
    - intros Heq. apply Hd2. by apply Hnx_in.
    - intros Heq. apply Hd1. by apply Hpp_in. }
  split; [|done].
  pose proof (leave_trip_next d pp nxt t s) as Hnext.
  destruct (leave_trip_globals d pp nxt t s) as (Hhead & _).
  destruct (same_but_trip_of_length _ _ _ (leave_trip_same d pp nxt t s)) as (HlenD & HlenT).
  split.
  - rewrite Hhead. eapply tseg_same_next; [|apply (rep_trips _ _ _ Hrep)].
    by apply fmap_snd_eq in Hnext.
  - apply (rep_trips_nodup _ _ _ Hrep).
  - intros t' tr' Ht'. unfold leave_trip in Ht'. cbn [heap_trips set_heap_trips] in Ht'.
    rewrite unlink_dive_trips in Ht'.
    destruct (decide (t' = t)) as [->|Hne].
    + rewrite fn_lookup_insert.
      rewrite list_lookup_alter_eq in Ht'.
      assert (Htr' : match pp with
                     | TripDives t0 => alter (λ tr, set_trip_dives tr nxt) t0 (heap_trips s)
                     | DiveNext _ => heap_trips s
                     end !! t
                     = Some (match l1 with [] => set_trip_dives tr nxt | _ => tr end)).
      { subst pp. destruct l1 as [|x l1 _] using rev_ind.
        - unfold last_slot. simpl. by rewrite list_lookup_alter_eq, Ht.
        - rewrite last_slot_snoc. rewrite Ht. by destruct l1. }
      rewrite Htr' in Ht'. simpl in Ht'. injection Ht' as <-.
      split_and!.
      * unfold leave_trip. cbn [heap_dives set_heap_trips].
        replace (trip_dives _) with (match l1 with [] => nxt | _ => trip_dives tr end)
          by (by destruct l1).
        exact Hseg'.
      * apply NoDup_app. split_and!; [done| |done].
        intros y Hy1 Hy2. apply (Hdisj y Hy1). by right.
      * replace (trip_nrdives _) with (trip_nrdives tr - 1) by (by destruct l1).
        rewrite Hnr, !length_app, length_cons. lia.
    + rewrite fn_lookup_insert_ne by done.
      rewrite list_lookup_alter_ne in Ht' by done.
      assert (Ht0 : heap_trips s !! t' = Some tr').
      { subst pp. destruct l1 as [|x l1 _] using rev_ind.
        - unfold last_slot in Ht'. simpl in Ht'.
          by rewrite list_lookup_alter_ne in Ht'.
        - by rewrite last_slot_snoc in Ht'. }
      destruct (rep_members _ _ _ Hrep t' tr' Ht0) as (Hseg0 & Hnd0' & Hnr0).
      split_and!; [|done..].
      unfold leave_trip. cbn [heap_dives set_heap_trips].
      eapply dseg_frame; [|exact Hseg0]. intros y Hy. f_equal.
      assert (Hyt : y ∉ Mf t).
      { intros Hin. apply Hne. by eapply rep_members_disjoint. }
      rewrite HMf in Hyt.
      apply unlink_dive_other.
      * intros ->. apply Hyt. apply elem_of_app. right. by left.
      * intros Heq. apply Hyt. apply elem_of_app. right. right. by apply Hnx_in.
      * intros Heq. apply Hyt. apply elem_of_app. left. by apply Hpp_in.
  - intros t' Ht'. destruct (decide (t' = t)) as [->|Hne].
    + apply lookup_ge_None in Ht'. rewrite HlenT in Ht'.
      apply lookup_ge_None in Ht'. congruence.
    + rewrite fn_lookup_insert_ne by done. apply (rep_no_trip _ _ _ Hrep).
      apply lookup_ge_None in Ht'. rewrite HlenT in Ht'. by apply lookup_ge_None.
  - intros y yv t' Hy Hyt.
    destruct (decide (y = d)) as [->|Hyd].
    { rewrite Hself in Hy. injection Hy as <-. done. }
    pose proof (sb_other_dives _ _ _ (leave_trip_same d pp nxt t s) y Hyd) as Hsame.
    rewrite Hy in Hsame. destruct (heap_dives s !! y) as [yv0|] eqn:Hy0; simplify_eq/=.
    assert (Hyt0 : divetrip yv0 = Some t') by congruence.
    destruct (rep_divetrip _ _ _ Hrep y yv0 t' Hy0 Hyt0) as (HR & HM).
    split; [done|].
    destruct (decide (t' = t)) as [->|Hne].
    + rewrite fn_lookup_insert. rewrite HMf in HM.
      apply elem_of_app in HM as [HM|HM]; [apply elem_of_app; by left|].
      apply elem_of_cons in HM as [->|HM]; [done|apply elem_of_app; by right].
    + by rewrite fn_lookup_insert_ne.
  - intros y Hy. rewrite (sb_table _ _ _ (leave_trip_same d pp nxt t s)) in Hy.
    apply (rep_table _ _ _ Hrep) in Hy. apply lookup_lt_is_Some in Hy.
    apply lookup_lt_is_Some. by rewrite HlenD.
Qed.

(** ** Changes of a trip that its lists do not see *)

Lemma rep_alter_trip s R Mf t f :
  (∀ tr, trip_dives (f tr) = trip_dives tr) →
  (∀ tr, trip_nrdives (f tr) = trip_nrdives tr) →
  (∀ tr, trip_next (f tr) = trip_next tr) →
  rep s R Mf → rep (set_heap_trips s (alter f t (heap_trips s))) R Mf.
Proof.
  intros Hfd Hfn Hfx Hrep. split; cbn [heap_dives heap_trips dive_trip_list dive_table set_heap_trips].
  - apply tseg_alter_next; [done|]. apply (rep_trips _ _ _ Hrep).
  - apply (rep_trips_nodup _ _ _ Hrep).
  - intros t' tr' Ht'.
    assert (∃ tr0, heap_trips s !! t' = Some tr0 ∧ trip_dives tr' = trip_dives tr0 ∧
                   trip_nrdives tr' = trip_nrdives tr0) as (tr0 & Ht0 & -> & ->).
    { destruct (decide (t = t')) as [->|Hne].
      - rewrite list_lookup_alter_eq in Ht'.
        destruct (heap_trips s !! t') as [tr0|]; simplify_eq/=. eauto.
      - rewrite list_lookup_alter_ne in Ht' by done. eauto. }
    apply (rep_members _ _ _ Hrep t' tr0 Ht0).
  - intros t' Ht'. apply (rep_no_trip _ _ _ Hrep).
    apply lookup_ge_None in Ht'. rewrite length_alter in Ht'. by apply lookup_ge_None.
  - apply (rep_divetrip _ _ _ Hrep).
  - apply (rep_table _ _ _ Hrep).
Qed.

Lemma same_alter_trip d s t f :
  (∀ tr, trip_info (f tr) = trip_info tr) →
  same_but_trip_of d s (set_heap_trips s (alter f t (heap_trips s))).
Proof.
  intros Hf. split; cbn [heap_dives heap_trips dive_table set_heap_trips]; try done.
  by apply fmap_alter_same.
Qed.

Lemma trip_start_alter s t f t' :
  trip_start (set_heap_trips s (alter f t (heap_trips s))) t'
  = if decide (t = t') then
      match heap_trips s !! t with Some tr => trip_when (f tr) | None => 0 end
    else trip_start s t'.
Proof.
  unfold trip_start. cbn [heap_trips set_heap_trips]. rewrite list_lookup_alter.
  case_decide; [subst|done]. by destruct (heap_trips s !! t').
Qed.

Lemma filter_all {A} (P : A → Prop) `{∀ x, Decision (P x)} (l : list A) :
  Forall P l → filter P l = l.
Proof.
  induction 1 as [|x l Hx Hl IH]; [done|]. rewrite filter_cons_True by done. by f_equal.
Qed.

Lemma filter_ne_split (r1 r2 : list nat) t :
  NoDup (r1 ++ t :: r2) → filter (λ x, x ≠ t) (r1 ++ t :: r2) = r1 ++ r2.
Proof.
  intros Hnd. apply NoDup_app in Hnd as (_ & Hdisj & Hnd2).
  apply NoDup_cons in Hnd2 as (Ht2 & _).
  rewrite filter_app, filter_cons. case_decide; [done|].
  f_equal; apply filter_all, Forall_forall.
  - intros x Hx ->. apply (Hdisj t Hx). by left.
  - intros x Hx ->. done.
Qed.

(** ** remove_dive_from_trip *)

Lemma run_modify_dive' s d f :
  is_Some (heap_dives s !! d) →
  modify_dive d f s = Ok tt (set_heap_dives s (alter f d (heap_dives s))).
Proof. intros [dv Hd]. by eapply run_modify_dive. Qed.

Lemma run_modify_trip' s t f :
  is_Some (heap_trips s !! t) →
  modify_trip t f s = Ok tt (set_heap_trips s (alter f t (heap_trips s))).
Proof. intros [tr Ht]. by eapply run_modify_trip. Qed.

Lemma run_store_slot s pp v :
  match pp with
  | TripDives t => is_Some (heap_trips s !! t)
  | DiveNext d => is_Some (heap_dives s !! d)
  end →
  store_slot pp v s = Ok tt (write_slot pp v s).
Proof.
  destruct pp; simpl; intros Hv; [by apply run_modify_trip'|by apply run_modify_dive'].
Qed.

Lemma alter_is_Some {A} (l : list A) f i j :
  is_Some (l !! i) → is_Some (alter f j l !! i).
Proof. rewrite !lookup_lt_is_Some, length_alter. done. Qed.

Lemma write_slot_dives_is_Some pp v s y :
  is_Some (heap_dives s !! y) → is_Some (heap_dives (write_slot pp v s) !! y).
Proof. destruct pp; simpl; [done|]. apply alter_is_Some. Qed.

(** The first statements of remove_dive_from_trip, up to [--trip->nrdives]. *)
Lemma run_leave_trip s R Mf d dv t l1 l2 :
  rep s R Mf →
  heap_dives s !! d = Some dv →
  divetrip dv = Some t →
  Mf t = l1 ++ d :: l2 →
  remove_dive_from_trip d s
  = (if Z.of_nat (length (l1 ++ l2)) =? 0 then delete_trip t
     else
       do tr <- load_trip t;
       do dv <- load_dive d;
       if trip_when tr =? when dv then find_new_trip_start_time t else ret tt)
      (leave_trip d (last_slot (TripDives t) l1) (head l2) t s).
Proof.
  intros Hrep Hd Hdt HMf.
  destruct (rep_leave_trip _ _ _ _ _ _ _ _ Hrep Hd Hdt HMf) as (Hpp & Hnx & Hrep' & Hself).
  destruct (rep_divetrip _ _ _ Hrep d dv t Hd Hdt) as (HtR & _).
  destruct (rep_trip_valid _ _ _ _ Hrep HtR) as [tr Ht].
  destruct (rep_members _ _ _ Hrep t tr Ht) as (Hseg & Hnd & Hnr).
  rewrite HMf in Hseg, Hnd, Hnr.
  set (pp := last_slot (TripDives t) l1) in *. set (nxt := head l2) in *.
  unfold remove_dive_from_trip.
  rewrite (run_bind _ _ _ _ _ (run_load_dive _ _ _ Hd)), Hdt, Hpp, Hnx.
  assert (Hppv : match pp with
                 | TripDives t => is_Some (heap_trips s !! t)
                 | DiveNext d => is_Some (heap_dives s !! d)
                 end).
  { subst pp. destruct l1 as [|x l1 _] using rev_ind.
    - unfold last_slot. simpl. eauto.
    - rewrite last_slot_snoc.
      destruct (dseg_valid _ _ _ _ _ _ x Hseg) as (xv & Hx & _); [|eauto].
      apply elem_of_app. left. apply elem_of_app. right. by left. }
  rewrite (run_bind _ _ _ _ _ (run_store_slot _ _ _ Hppv)).
  assert (Hnv : ∀ n, nxt = Some n → is_Some (heap_dives s !! n)).
  { intros n Hn. apply head_elem_of in Hn.
    destruct (dseg_valid _ _ _ _ _ _ n Hseg) as (nv & Hnv & _); [|eauto].
    apply elem_of_app. right. by right. }
  set (s1 := write_slot pp nxt s).
  set (s2 := match nxt with
            | Some n => set_heap_dives s1
                          (alter (λ ndv, set_pprev ndv (Some pp)) n (heap_dives s1))
            | None => s1
            end).
  assert (H2 : match nxt with
               | Some n => modify_dive n (λ ndv, set_pprev ndv (Some pp))
               | None => ret tt
               end s1 = Ok tt s2).
  { subst s2. destruct nxt as [n|]; [|done].
    apply run_modify_dive'. apply write_slot_dives_is_Some. by apply Hnv. }
  rewrite (run_bind _ _ _ _ _ H2).
  assert (Hd2 : is_Some (heap_dives s2 !! d)).
  { subst s2. destruct nxt; [apply alter_is_Some|];
      apply write_slot_dives_is_Some; eauto. }
  rewrite (run_bind _ _ _ _ _ (run_modify_dive' _ _ _ Hd2)).
  assert (Hd3 : is_Some (heap_dives (set_heap_dives s2
                  (alter (λ dv, set_divetrip dv None) d (heap_dives s2))) !! d)).
  { cbn [heap_dives set_heap_dives]. by apply alter_is_Some. }
  rewrite (run_bind _ _ _ _ _ (run_modify_dive' _ _ _ Hd3)).
  fold (unlink_dive d pp nxt s).
  assert (Ht4 : ∃ tr4, heap_trips (unlink_dive d pp nxt s) !! t = Some tr4 ∧
                       trip_nrdives tr4 = trip_nrdives tr).
  { rewrite unlink_dive_trips. destruct pp as [t0|]; [|eauto].
    destruct (decide (t0 = t)) as [->|Hne].
    - rewrite list_lookup_alter_eq, Ht. simpl. eauto.
    - rewrite list_lookup_alter_ne by done. eauto. }
  destruct Ht4 as (tr4 & Ht4 & Hnr4).
  rewrite (run_bind _ _ _ _ _ (run_load_trip _ _ _ Ht4)).
  assert (Hpos : (trip_nrdives tr4 >? 0) = true).
  { apply Z.gtb_lt. rewrite Hnr4, Hnr, length_app, length_cons. lia. }
  rewrite Hpos. simpl assert. unfold ret at 1. unfold bind at 1.
  rewrite (run_bind _ _ _ _ _
             (run_store_trip _ _ _ (λ tr, set_trip_nrdives tr (trip_nrdives tr4 - 1)) Ht4)).
  assert (Hleave : set_heap_trips (unlink_dive d pp nxt s)
                     (alter (λ tr, set_trip_nrdives tr (trip_nrdives tr4 - 1)) t
                        (heap_trips (unlink_dive d pp nxt s)))
                   = leave_trip d pp nxt t s).
  { unfold leave_trip. f_equal. apply list_alter_ext; [|done].
    intros tr' Htr'. congruence. }
  rewrite Hleave.
  replace (trip_nrdives tr4 - 1) with (Z.of_nat (length (l1 ++ l2)))
    by (rewrite Hnr4, Hnr, !length_app, length_cons; lia).
  by destruct (Z.of_nat (length (l1 ++ l2)) =? 0).
Qed.

Lemma trip_start_same s s' t :
  trip_when <$> heap_trips s' = trip_when <$> heap_trips s →
  trip_start s' t = trip_start s t.
Proof.
  intros Heq. apply (f_equal (λ l, l !! t)) in Heq. rewrite !list_lookup_fmap in Heq.
  unfold trip_start. destruct (heap_trips s' !! t), (heap_trips s !! t); by simplify_eq/=.
Qed.

Lemma write_tslot_when p v s :
  trip_when <$> heap_trips (write_tslot p v s) = trip_when <$> heap_trips s.
Proof. destruct p; [|done]. simpl. by apply fmap_alter_same. Qed.

Lemma write_tslot_autogen p v s :
  trip_autogen <$> heap_trips (write_tslot p v s) = trip_autogen <$> heap_trips s.
Proof. destruct p; [|done]. simpl. by apply fmap_alter_same. Qed.

Lemma write_tslot_same d p v s : same_but_trip_of d s (write_tslot p v s).
Proof.
  destruct p as [x|]; [|by split]. simpl. by apply same_alter_trip.
Qed.

Lemma set_freed_same d s f : same_but_trip_of d s (set_freed s f).
Proof. by split. Qed.

(** remove_dive_from_trip for a dive in a trip: the dive leaves the list;
    a trip left without dives leaves the registry and is released; a trip
    that started with this dive starts with the earliest dive left. *)
Lemma remove_dive_from_trip_spec s R Mf d dv t l1 l2 :
  rep s R Mf →
  heap_dives s !! d = Some dv →
  divetrip dv = Some t →
  Mf t = l1 ++ d :: l2 →
  ∃ s',
    remove_dive_from_trip d s = Ok tt s' ∧
    rep s' (if decide (l1 ++ l2 = []) then filter (λ x, x ≠ t) R else R)
           (<[t := l1 ++ l2]> Mf) ∧
    same_but_trip_of d s s' ∧
    heap_dives s' !! d = Some (set_tripflag (set_divetrip dv None) NO_TRIP) ∧
    (∀ t', trip_start s' t' =
           if decide (t' = t ∧ trip_start s t = when dv) then
             match min_when (map (dive_when s) (l1 ++ l2)) with
             | Some m => m
             | None => trip_start s t
             end
           else trip_start s t') ∧
    freed s' = (if decide (l1 ++ l2 = []) then t :: freed s else freed s).
Proof.
  intros Hrep Hd Hdt HMf.
  rewrite (run_leave_trip _ _ _ _ _ _ _ _ Hrep Hd Hdt HMf).
  destruct (rep_leave_trip _ _ _ _ _ _ _ _ Hrep Hd Hdt HMf) as (Hpp & Hnx & Hrep' & Hself).
  set (s5 := leave_trip d (last_slot (TripDives t) l1) (head l2) t s) in *.
  pose proof (leave_trip_same d (last_slot (TripDives t) l1) (head l2) t s) as Hsame.
  pose proof (leave_trip_next d (last_slot (TripDives t) l1) (head l2) t s) as Hnext.
  destruct (leave_trip_globals d (last_slot (TripDives t) l1) (head l2) t s) as (_ & Hfreed).
  fold s5 in Hsame, Hnext, Hfreed.
  apply fmap_fst_eq in Hnext. cbn [fst] in Hnext.
  destruct (rep_divetrip _ _ _ Hrep d dv t Hd Hdt) as (HtR & _).
  destruct (rep_trip_valid _ _ _ _ Hrep' HtR) as [tr5 Ht5].
  destruct (rep_members _ _ _ Hrep' t tr5 Ht5) as (Hseg5 & Hnd5 & Hnr5).
  rewrite fn_lookup_insert in Hseg5, Hnd5, Hnr5.
  assert (Hw5 : trip_when tr5 = trip_start s t).
  { rewrite <- (trip_start_same s s5 t Hnext). unfold trip_start. by rewrite Ht5. }
  destruct (decide (l1 ++ l2 = [])) as [Hempty|Hne].
  - (* the last dive of the trip: delete_trip *)
    rewrite Hempty in *. simpl.
    apply list_elem_of_split in HtR as (r1 & r2 & HR).
    assert (Hnone : trip_dives tr5 = None) by exact Hseg5.
    rewrite (run_delete_trip _ _ _ _ _ _ _ Hrep' HR Ht5 Hnone).
    eexists. split; [done|]. split_and!.
    + rewrite HR, filter_ne_split.
      2: { rewrite <- HR. apply (rep_trips_nodup _ _ _ Hrep). }
      apply (rep_delete_trip _ _ _ _ _ _ _ Hrep' HR Ht5). by rewrite fn_lookup_insert.
    + eapply same_but_trip_of_trans; [exact Hsame|].
      eapply same_but_trip_of_trans; [apply write_tslot_same|apply set_freed_same].
    + cbn [heap_dives set_freed]. unfold write_tslot.
      by destruct (last_tslot None r1).
    + intros t'. rewrite (trip_start_same s (set_freed _ _) t').
      * case_decide as Hc; [|done]. by destruct Hc as [-> _].
      * cbn [heap_trips set_freed]. by rewrite write_tslot_when.
    + cbn [freed set_freed]. by rewrite Hfreed.
  - (* dives are left *)
    assert (Hlen : (Z.of_nat (length (l1 ++ l2)) =? 0) = false).
    { apply Z.eqb_neq. destruct (l1 ++ l2); [done|]. rewrite length_cons. lia. }
    rewrite Hlen.
    rewrite (run_bind _ _ _ _ _ (run_load_trip _ _ _ Ht5)).
    rewrite (run_bind _ _ _ _ _ (run_load_dive _ _ _ Hself)).
    cbn [when set_tripflag set_divetrip]. rewrite Hw5.
    destruct (Z.eqb_spec (trip_start s t) (when dv)) as [Heq|Hneq].
    + destruct (min_when (map (dive_when s) (l1 ++ l2))) as [m|] eqn:Hm.
      2: { apply min_when_None in Hm. by destruct (l1 ++ l2). }
      assert (Hm5 : min_when (map (dive_when s5) (l1 ++ l2)) = Some m).
      { rewrite <- Hm. f_equal. apply map_ext. intros y.
        by apply same_but_trip_of_when with d. }
      rewrite (run_find_new_trip_start_time _ _ _ _ _ Ht5 Hseg5 Hnd5 Hm5).
      eexists. split; [done|]. split_and!.
      * by apply rep_alter_trip.
      * eapply same_but_trip_of_trans; [exact Hsame|]. by apply same_alter_trip.
      * done.
      * intros t'. rewrite trip_start_alter, Ht5. cbn [trip_when set_trip_when].
        rewrite (trip_start_same s s5 t' Hnext).
        destruct (decide (t = t')) as [<-|?], (decide (_ ∧ _)) as [[? ?]|Hn];
          try done; try congruence. exfalso. apply Hn. by split.
      * done.
    + eexists. split; [done|]. split_and!; [done..| |done].
      intros t'. rewrite (trip_start_same s s5 t' Hnext).
      destruct (decide _) as [[? ?]|?]; [congruence|done].
Qed.

(** remove_dive_from_trip for a dive without a trip does nothing. *)
Lemma remove_dive_from_trip_no_trip s d dv :
  heap_dives s !! d = Some dv → divetrip dv = None →
  remove_dive_from_trip d s = Ok tt s.
Proof.
  intros Hd Hdt. unfold remove_dive_from_trip.
  by rewrite (run_bind _ _ _ _ _ (run_load_dive _ _ _ Hd)), Hdt.
Qed.

(** ** remove_dive_from_trip, for any dive of the store *)

Lemma filter_ne_notin (l : list nat) d : d ∉ l → filter (λ y, y ≠ d) l = l.
Proof.
  intros Hd. apply filter_all, Forall_forall. intros y Hy ->. done.
Qed.

Lemma rep_no_trip_notin s R Mf d dv t :
  rep s R Mf → heap_dives s !! d = Some dv → divetrip dv ≠ Some t → d ∉ Mf t.
Proof.
  intros Hrep Hd Hdt Hin.
  destruct (rep_members_trip _ _ _ _ _ Hrep Hin) as (dv' & Hd' & Ht'). congruence.
Qed.

Lemma remove_dive_from_trip_ok s R Mf d dv :
  rep s R Mf →
  heap_dives s !! d = Some dv →
  ∃ s',
    remove_dive_from_trip d s = Ok tt s' ∧
    rep s' (without_trip_of d Mf R) (without_dive d Mf) ∧
    same_but_trip_of d s s' ∧
    heap_dives s' !! d
      = Some (match divetrip dv with
              | Some _ => set_tripflag (set_divetrip dv None) NO_TRIP
              | None => dv
              end) ∧
    (∀ t, trip_start s' t = start_without s d (Mf t) (trip_start s t)) ∧
    freed s' = match divetrip dv with
               | Some t => if decide (Mf t = [d]) then t :: freed s else freed s
               | None => freed s
               end.
Proof.
  intros Hrep Hd. destruct (divetrip dv) as [t|] eqn:Hdt.
  - destruct (rep_divetrip _ _ _ Hrep d dv t Hd Hdt) as (HtR & HdM).
    destruct (list_elem_of_split _ _ HdM) as (l1 & l2 & HMf).
    destruct (rep_trip_valid _ _ _ _ Hrep HtR) as [tr Ht].
    destruct (rep_members _ _ _ Hrep t tr Ht) as (_ & Hnd & _).
    rewrite HMf in Hnd.
    assert (Hfilter : filter (λ y, y ≠ d) (Mf t) = l1 ++ l2).
    { rewrite HMf. by apply filter_ne_split. }
    assert (Hsingle : Mf t = [d] ↔ l1 ++ l2 = []).
    { rewrite HMf. split.
      - intros Heq. apply (f_equal length) in Heq.
        rewrite length_app, !length_cons in Heq.
        destruct l1, l2; simpl in *; try lia; done.
      - intros Heq. apply app_eq_nil in Heq as [-> ->]. done. }
    destruct (remove_dive_from_trip_spec _ _ _ _ _ _ _ _ Hrep Hd Hdt HMf)
      as (s' & Hrun & Hrep' & Hsame & Hself & Hstart & Hfreed).
    exists s'. split_and!; try done.
    + assert (HR : (if decide (l1 ++ l2 = []) then filter (λ x, x ≠ t) R else R)
                   = without_trip_of d Mf R).
      { unfold without_trip_of. case_decide as Hc.
        - apply list_filter_iff. intros x.
          split.
          + intros Hx Heq. apply Hx. eapply (rep_members_disjoint s R Mf); [exact Hrep| |exact HdM].
            rewrite Heq. by left.
          + intros Hx ->. apply Hx. by apply Hsingle.
        - symmetry. apply filter_all, Forall_forall. intros x Hx Heq.
          assert (x = t) as ->.
          { eapply (rep_members_disjoint s R Mf); [exact Hrep| |exact HdM]. rewrite Heq. by left. }
          apply Hc. by apply Hsingle. }
      rewrite <- HR. eapply rep_ext; [|exact Hrep'].
      intros t'. unfold without_dive. destruct (decide (t' = t)) as [->|Hne].
      * by rewrite fn_lookup_insert.
      * rewrite fn_lookup_insert_ne by done. symmetry. apply filter_ne_notin.
        intros Hin. apply Hne. by eapply (rep_members_disjoint s R Mf).
    + intros t'. rewrite Hstart. unfold start_without.
      rewrite (dive_when_lookup _ _ _ Hd).
      destruct (decide (t' = t)) as [->|Hne].
      * rewrite Hfilter.
        destruct (decide (t = t ∧ _)) as [[_ Heq]|Hn], (decide (d ∈ Mf t ∧ _)) as [[_ Heq']|Hn'];
          try done.
        -- exfalso. apply Hn'. done.
        -- exfalso. apply Hn. done.
      * destruct (decide (t' = t ∧ _)) as [[? _]|_]; [done|].
        destruct (decide (d ∈ Mf t' ∧ _)) as [[Hin _]|_]; [|done].
        exfalso. apply Hne. by eapply (rep_members_disjoint s R Mf).
    + rewrite Hfreed. destruct (decide (l1 ++ l2 = [])), (decide (Mf t = [d])); tauto.
  - exists s. split_and!; [| |apply same_but_trip_of_refl|done| |done].
    + by eapply remove_dive_from_trip_no_trip.
    + assert (Hnone : ∀ t, d ∉ Mf t).
      { intros t. eapply (rep_no_trip_notin s R Mf); [done..|]. by rewrite Hdt. }
      assert (HR : without_trip_of d Mf R = R).
      { apply filter_all, Forall_forall. intros x _ Heq. apply (Hnone x).
        rewrite Heq. by left. }
      rewrite HR. eapply rep_ext; [|exact Hrep].
      intros t. symmetry. by apply filter_ne_notin.
    + intros t. unfold start_without.
      destruct (decide (d ∈ Mf t ∧ _)) as [[Hin _]|_]; [|done].
      exfalso. eapply (rep_no_trip_notin s R Mf); [done..| |exact Hin]. by rewrite Hdt.
Qed.

(** ** Putting a dive at the head of the list of a trip *)

Lemma link_dive_other d t h s y :
  y ≠ d → h ≠ Some y →
  heap_dives (link_dive d t h s) !! y = heap_dives s !! y.
Proof.
  intros Hd Hh. cbn [link_dive heap_dives].
  rewrite list_lookup_alter_ne by done.
  destruct h as [n|]; simpl.
  - rewrite list_lookup_alter_ne by congruence. by rewrite !list_lookup_alter_ne.
  - by rewrite !list_lookup_alter_ne.
Qed.

Lemma link_dive_self d t h s dv :
  heap_dives s !! d = Some dv → h ≠ Some d →
  heap_dives (link_dive d t h s) !! d
  = Some (set_pprev (set_next (set_tripflag (set_divetrip dv (Some t)) ASSIGNED_TRIP) h)
            (Some (TripDives t))).
Proof.
  intros Hd Hh. cbn [link_dive heap_dives].
  rewrite list_lookup_alter_eq.
  destruct h as [n|]; simpl.
  - rewrite list_lookup_alter_ne by congruence.
    by rewrite !list_lookup_alter_eq, Hd.
  - by rewrite !list_lookup_alter_eq, Hd.
Qed.

Lemma link_dive_head d t n s :
  n ≠ d →
  heap_dives (link_dive d t (Some n) s) !! n
  = (λ ndv, set_pprev ndv (Some (DiveNext d))) <$> heap_dives s !! n.
Proof.
  intros Hd. cbn [link_dive heap_dives].
  rewrite list_lookup_alter_ne by done. rewrite list_lookup_alter_eq.
  by rewrite !list_lookup_alter_ne.
Qed.

Lemma link_dive_same d t h s : same_but_trip_of d s (link_dive d t h s).
Proof.
  split; cbn [link_dive heap_dives heap_trips dive_table].
  - rewrite fmap_alter_same by done.
    destruct h as [n|]; simpl; [rewrite fmap_alter_same by done|];
      by rewrite !fmap_alter_same.
  - intros y Hy. rewrite list_lookup_alter_ne by done.
    destruct h as [n|]; simpl.
    + rewrite <- list_lookup_fmap, fmap_alter_same by done.
      rewrite list_lookup_fmap. by rewrite !list_lookup_alter_ne.
    + by rewrite !list_lookup_alter_ne.
  - by rewrite !fmap_alter_same.
  - done.
Qed.

Lemma link_dive_next d t h s :
  (λ tr, (trip_when tr, trip_next tr)) <$> heap_trips (link_dive d t h s)
  = (λ tr, (trip_when tr, trip_next tr)) <$> heap_trips s.
Proof. cbn [link_dive heap_trips]. by rewrite !fmap_alter_same. Qed.

Lemma rep_link_dive s R Mf d dv t :
  rep s R Mf →
  heap_dives s !! d = Some dv →
  divetrip dv = None →
  t ∈ R →
  rep (link_dive d t (head (Mf t)) s) R (<[t := d :: Mf t]> Mf).
Proof.
  intros Hrep Hd Hdt HtR.
  destruct (rep_trip_valid _ _ _ _ Hrep HtR) as [tr Ht].
  destruct (rep_members _ _ _ Hrep t tr Ht) as (Hseg & Hnd & Hnr).
  assert (Hnone : ∀ t', d ∉ Mf t').
  { intros t'. eapply (rep_no_trip_notin s R Mf); [done..|]. by rewrite Hdt. }
  assert (Hhd : head (Mf t) ≠ Some d).
  { intros Heq. apply (Hnone t). by apply head_elem_of. }
  pose proof (link_dive_next d t (head (Mf t)) s) as Hnext.
  destruct (same_but_trip_of_length _ _ _ (link_dive_same d t (head (Mf t)) s))
    as (HlenD & HlenT).
  split.
  - eapply tseg_same_next; [|apply (rep_trips _ _ _ Hrep)].
    by apply fmap_snd_eq in Hnext.
  - apply (rep_trips_nodup _ _ _ Hrep).
  - intros t' tr' Ht'. cbn [link_dive heap_trips] in Ht'.
    destruct (decide (t' = t)) as [->|Hne].
    + rewrite fn_lookup_insert.
      rewrite !list_lookup_alter_eq, Ht in Ht'. simpl in Ht'. injection Ht' as <-.
      cbn [trip_dives set_trip_dives trip_nrdives set_trip_nrdives].
      split_and!.
      * cbn [dseg]. split; [done|]. eexists.
        split; [by apply link_dive_self|]. split_and!; [done..|].
        cbn [next set_pprev set_next].
        pose proof (dseg_head _ _ _ _ _ _ Hseg) as Hh.
        destruct (Mf t) as [|n l] eqn:HMf; [done|].
        change (head (n :: l)) with (Some n) in *.
        destruct Hseg as (_ & nv & Hn & Hnt & Hnp & Hseg).
        apply NoDup_cons in Hnd as (Hnl & Hnd).
        assert (Hnd' : n ≠ d). { intros ->. apply (Hnone t). rewrite HMf. by left. }
        cbn [dseg]. split; [done|]. exists (set_pprev nv (Some (DiveNext d))).
        rewrite link_dive_head by done. rewrite Hn. split_and!; [done..|].
        cbn [next set_pprev].
        eapply dseg_frame; [|exact Hseg]. intros y Hy. f_equal.
        apply link_dive_other.
        -- intros ->. apply (Hnone t). rewrite HMf. by right.
        -- intros [= ->]. done.
      * apply NoDup_cons. split; [apply Hnone|done].
      * rewrite Hnr, length_cons. lia.
    + rewrite fn_lookup_insert_ne by done.
      rewrite !list_lookup_alter_ne in Ht' by done.
      destruct (rep_members _ _ _ Hrep t' tr' Ht') as (Hseg0 & Hnd0 & Hnr0).
      split_and!; [|done..].
      eapply dseg_frame; [|exact Hseg0]. intros y Hy. f_equal.
      apply link_dive_other.
      * intros ->. by apply (Hnone t').
      * intros Heq. apply head_elem_of in Heq. apply Hne.
        by eapply (rep_members_disjoint s R Mf).
  - intros t' Ht'. destruct (decide (t' = t)) as [->|Hne].
    + apply lookup_ge_None in Ht'. rewrite HlenT in Ht'.
      apply lookup_ge_None in Ht'. congruence.
    + rewrite fn_lookup_insert_ne by done. apply (rep_no_trip _ _ _ Hrep).
      apply lookup_ge_None in Ht'. rewrite HlenT in Ht'. by apply lookup_ge_None.
  - intros y yv t' Hy Hyt.
    destruct (decide (y = d)) as [->|Hyd].
    { rewrite (link_dive_self _ _ _ _ _ Hd Hhd) in Hy. injection Hy as <-.
      simpl in Hyt. injection Hyt as <-. split; [done|].
      rewrite fn_lookup_insert. by left. }
    pose proof (sb_other_dives _ _ _ (link_dive_same d t (head (Mf t)) s) y Hyd) as Hsame.
    rewrite Hy in Hsame. destruct (heap_dives s !! y) as [yv0|] eqn:Hy0; simplify_eq/=.
    assert (Hyt0 : divetrip yv0 = Some t') by congruence.
    destruct (rep_divetrip _ _ _ Hrep y yv0 t' Hy0 Hyt0) as (HR & HM).
    split; [done|].
    destruct (decide (t' = t)) as [->|Hne].
    + rewrite fn_lookup_insert. by right.
    + by rewrite fn_lookup_insert_ne.
  - intros y Hy. cbn [link_dive dive_table] in Hy.
    apply (rep_table _ _ _ Hrep) in Hy. apply lookup_lt_is_Some in Hy.
    apply lookup_lt_is_Some. by rewrite HlenD.
Qed.

(** ** add_dive_to_trip *)

Lemma add_dive_to_trip_same_trip s d dv t :
  heap_dives s !! d = Some dv → divetrip dv = t →
  add_dive_to_trip d t s = Ok tt s.
Proof.
  intros Hd Hdt. unfold add_dive_to_trip.
  rewrite (run_bind _ _ _ _ _ (run_load_dive _ _ _ Hd)). by case_decide.
Qed.

(** The statements of add_dive_to_trip after remove_dive_from_trip, for a
    dive without a trip. *)
Lemma run_link_dive s d dv t tr (k : M unit) :
  heap_dives s !! d = Some dv →
  heap_trips s !! t = Some tr →
  (∀ n, trip_dives tr = Some n → is_Some (heap_dives s !! n)) →
  (run modify_trip t (λ tr, set_trip_nrdives tr (trip_nrdives tr + 1));
   run modify_dive d (λ dv, set_divetrip dv (Some t));
   run modify_dive d (λ dv, set_tripflag dv ASSIGNED_TRIP);
   do tr <- load_trip t;
   run modify_dive d (λ dv, set_next dv (trip_dives tr));
   run match trip_dives tr with
       | Some n => modify_dive n (λ ndv, set_pprev ndv (Some (DiveNext d)))
       | None => ret tt
       end;
   run modify_trip t (λ tr, set_trip_dives tr (Some d));
   run modify_dive d (λ dv, set_pprev dv (Some (TripDives t)));
   k) s
  = k (link_dive d t (trip_dives tr) s).
Proof.
  intros Hd Ht Hn.
  assert (HdS : is_Some (heap_dives s !! d)) by eauto.
  assert (HtS : is_Some (heap_trips s !! t)) by eauto.
  erewrite run_bind by (by apply run_modify_trip').
  erewrite run_bind by (apply run_modify_dive'; exact HdS).
  erewrite run_bind
    by (apply run_modify_dive'; cbn [heap_dives set_heap_dives set_heap_trips];
        by apply alter_is_Some).
  erewrite run_bind.
  2: { apply run_load_trip. cbn [heap_trips set_heap_dives set_heap_trips].
       rewrite list_lookup_alter_eq, Ht. reflexivity. }
  cbn [trip_dives set_trip_nrdives].
  erewrite run_bind
    by (apply run_modify_dive'; cbn [heap_dives set_heap_dives set_heap_trips];
        by do 2 apply alter_is_Some).
  destruct (trip_dives tr) as [n|] eqn:Hh.
  - erewrite run_bind
      by (apply run_modify_dive'; cbn [heap_dives set_heap_dives set_heap_trips];
          do 3 apply alter_is_Some; by apply Hn).
    erewrite run_bind
      by (apply run_modify_trip'; cbn [heap_trips set_heap_dives set_heap_trips];
          by apply alter_is_Some).
    erewrite run_bind
      by (apply run_modify_dive';
          cbn [heap_dives heap_trips set_heap_dives set_heap_trips];
          by do 4 apply alter_is_Some).
    reflexivity.
  - erewrite run_bind by reflexivity.
    erewrite run_bind
      by (apply run_modify_trip'; cbn [heap_trips set_heap_dives set_heap_trips];
          by apply alter_is_Some).
    erewrite run_bind
      by (apply run_modify_dive';
          cbn [heap_dives heap_trips set_heap_dives set_heap_trips];
          by do 3 apply alter_is_Some).
    reflexivity.
Qed.

Lemma start_without_notin s d l w : d ∉ l → start_without s d l w = w.
Proof. intros Hd. unfold start_without. case_decide as Hc; [|done]. by destruct Hc. Qed.

(** add_dive_to_trip of a dive to a trip of the registry it is not in: the
    dive leaves its trip as in remove_dive_from_trip and is the new head of
    the list of [t]; [t] starts with the dive when the dive has a
    timestamp and is earlier. *)
Lemma add_dive_to_trip_spec s R Mf d dv t :
  rep s R Mf →
  heap_dives s !! d = Some dv →
  t ∈ R →
  trip_start s t ≠ 0 →
  divetrip dv ≠ Some t →
  ∃ s',
    add_dive_to_trip d (Some t) s = Ok tt s' ∧
    rep s' (without_trip_of d Mf R) (<[t := d :: Mf t]> (without_dive d Mf)) ∧
    same_but_trip_of d s s' ∧
    (∃ dv', heap_dives s' !! d = Some dv' ∧ divetrip dv' = Some t ∧
            tripflag dv' = ASSIGNED_TRIP) ∧
    (∀ t', trip_start s' t' =
           if decide (t' = t) then start_with s d (trip_start s t)
           else start_without s d (Mf t') (trip_start s t')) ∧
    freed s' = match divetrip dv with
               | Some t0 => if decide (Mf t0 = [d]) then t0 :: freed s else freed s
               | None => freed s
               end.
Proof.
  intros Hrep Hd HtR Hstart Hdt.
  destruct (rep_trip_valid _ _ _ _ Hrep HtR) as [tr Ht].
  assert (HdM : d ∉ Mf t) by (by eapply (rep_no_trip_notin s R Mf)).
  unfold add_dive_to_trip.
  rewrite (run_bind _ _ _ _ _ (run_load_dive _ _ _ Hd)).
  case_decide as Hc; [done|]. clear Hc.
  rewrite (run_bind _ _ _ _ _ (run_load_trip _ _ _ Ht)).
  rewrite (trip_start_lookup _ _ _ Ht) in Hstart.
  assert (Hassert : negb (trip_when tr =? 0) = true).
  { apply negb_true_iff. by apply Z.eqb_neq. }
  rewrite Hassert. simpl assert. unfold ret at 1. unfold bind at 1.
  destruct (remove_dive_from_trip_ok _ _ _ _ _ Hrep Hd)
    as (s1 & Hrun & Hrep1 & Hsame1 & Hself1 & Hstart1 & Hfreed1).
  rewrite (run_bind _ _ _ _ _ Hrun).
  set (dv1 := match divetrip dv with
              | Some _ => set_tripflag (set_divetrip dv None) NO_TRIP
              | None => dv
              end) in *.
  assert (Hdt1 : divetrip dv1 = None).
  { subst dv1. by destruct (divetrip dv) eqn:E. }
  assert (Hw1 : when dv1 = when dv).
  { subst dv1. by destruct (divetrip dv). }
  assert (HtR1 : t ∈ without_trip_of d Mf R).
  { apply list_elem_of_filter. split; [|done]. intros Heq. apply HdM. rewrite Heq. by left. }
  assert (HMf1 : without_dive d Mf t = Mf t) by (by apply filter_ne_notin).
  destruct (rep_trip_valid _ _ _ _ Hrep1 HtR1) as [tr1 Ht1].
  destruct (rep_members _ _ _ Hrep1 t tr1 Ht1) as (Hseg1 & Hnd1 & Hnr1).
  pose proof (dseg_head _ _ _ _ _ _ Hseg1) as Hhead1.
  assert (Hhead : trip_dives tr1 = head (Mf t)).
  { rewrite Hhead1, HMf1. by destruct (Mf t). }
  assert (Hw_tr1 : trip_when tr1 = trip_when tr).
  { rewrite <- (trip_start_lookup _ _ _ Ht1), Hstart1, start_without_notin by done.
    by apply trip_start_lookup. }
  rewrite (run_link_dive s1 d dv1 t tr1 _ Hself1 Ht1).
  2: { intros n Hn. rewrite Hhead in Hn. apply head_elem_of in Hn.
       rewrite <- HMf1 in Hn.
       destruct (rep_members_trip _ _ _ _ _ Hrep1 Hn) as (nv & Hnv & _). eauto. }
  rewrite Hhead.
  replace (head (Mf t)) with (head (without_dive d Mf t)) by (by rewrite HMf1).
  pose proof (rep_link_dive _ _ _ _ _ _ Hrep1 Hself1 Hdt1 HtR1) as Hrep2.
  set (s2 := link_dive d t (head (without_dive d Mf t)) s1) in *.
  pose proof (link_dive_same d t (head (without_dive d Mf t)) s1) as Hsame2.
  pose proof (link_dive_next d t (head (without_dive d Mf t)) s1) as Hnext2.
  fold s2 in Hsame2, Hnext2.
  apply fmap_fst_eq in Hnext2. cbn [fst] in Hnext2.
  assert (Hself2 : heap_dives s2 !! d
      = Some (set_pprev (set_next (set_tripflag (set_divetrip dv1 (Some t)) ASSIGNED_TRIP)
                           (head (without_dive d Mf t))) (Some (TripDives t)))).
  { apply link_dive_self; [done|]. intros Heq. apply head_elem_of in Heq.
    rewrite HMf1 in Heq. done. }
  destruct (rep_trip_valid _ _ _ _ Hrep2 HtR1) as [tr2 Ht2].
  assert (Hw_tr2 : trip_when tr2 = trip_when tr).
  { rewrite <- Hw_tr1, <- (trip_start_lookup _ _ _ Ht2), <- (trip_start_lookup _ _ _ Ht1).
    by apply trip_start_same. }
  rewrite (run_bind _ _ _ _ _ (run_load_dive _ _ _ Hself2)).
  rewrite (run_bind _ _ _ _ _ (run_load_trip _ _ _ Ht2)).
  cbn [when set_pprev set_next set_tripflag set_divetrip]. rewrite Hw1, Hw_tr2.
  assert (Hrep2' : rep s2 (without_trip_of d Mf R) (<[t := d :: Mf t]> (without_dive d Mf))).
  { eapply rep_ext; [|exact Hrep2]. intros t'.
    destruct (decide (t' = t)) as [->|Hne].
    - by rewrite !fn_lookup_insert, HMf1.
    - by rewrite !fn_lookup_insert_ne. }
  assert (Hsame12 : same_but_trip_of d s s2).
  { by eapply same_but_trip_of_trans. }
  assert (Hstart2 : ∀ t', trip_start s2 t' = start_without s d (Mf t') (trip_start s t')).
  { intros t'. by rewrite (trip_start_same s1 s2 t' Hnext2). }
  assert (Hfreed2 : freed s2 = match divetrip dv with
               | Some t0 => if decide (Mf t0 = [d]) then t0 :: freed s else freed s
               | None => freed s
               end) by exact Hfreed1.
  assert (Hdv2 : ∀ s', heap_dives s' = heap_dives s2 →
            ∃ dv', heap_dives s' !! d = Some dv' ∧ divetrip dv' = Some t ∧
                   tripflag dv' = ASSIGNED_TRIP).
  { intros s' ->. eexists. split; [exact Hself2|]. done. }
  assert (Hcond : negb (when dv =? 0) && (trip_when tr >? when dv)
                  = negb (dive_when s d =? 0) && (trip_start s t >? dive_when s d)).
  { by rewrite (dive_when_lookup _ _ _ Hd), (trip_start_lookup _ _ _ Ht). }
  rewrite Hcond.
  destruct (negb (dive_when s d =? 0) && (trip_start s t >? dive_when s d)) eqn:Hlower.
  - rewrite (run_modify_trip _ _ _ _ Ht2).
    eexists. split; [done|]. split_and!.
    + apply rep_alter_trip; [done..|exact Hrep2'].
    + eapply same_but_trip_of_trans; [exact Hsame12|]. by apply same_alter_trip.
    + by apply Hdv2.
    + intros t'. rewrite trip_start_alter, Ht2. cbn [trip_when set_trip_when].
      unfold start_with. rewrite Hlower, Hstart2.
      rewrite (dive_when_lookup _ _ _ Hd).
      destruct (decide (t = t')) as [<-|?], (decide (_ = t)) as [?|?]; congruence.
    + done.
  - eexists. split; [done|]. split_and!; [exact Hrep2'|exact Hsame12|by apply Hdv2| |done].
    intros t'. unfold start_with. rewrite Hlower, Hstart2.
    destruct (decide (t' = t)) as [->|?]; [|done].
    by apply start_without_notin.
Qed.

(** ** insert_trip *)

Lemma earlier_later_trips s w L : earlier_trips s w L ++ later_trips s w L = L.
Proof.
  induction L as [|t L IH]; simpl; [done|].
  destruct (trip_start s t <? w); simpl; [by f_equal|done].
Qed.

Lemma same_dives_but_of_trip d s s' : same_but_trip_of d s s' → same_dives_but d s s'.
Proof. intros [H1 H2 _ H4]. by split. Qed.

Lemma same_dives_but_refl d s : same_dives_but d s s.
Proof. by split. Qed.

Lemma same_dives_but_trans d s1 s2 s3 :
  same_dives_but d s1 s2 → same_dives_but d s2 s3 → same_dives_but d s1 s3.
Proof.
  intros [A1 A2 A4] [B1 B2 B4]. split; try congruence.
  intros y Hy. rewrite B2, A2; done.
Qed.

Lemma same_dives_but_heap d s s' :
  heap_dives s' = heap_dives s → dive_table s' = dive_table s → same_dives_but d s s'.
Proof. intros H1 H2. split; [by rewrite H1| |done]. intros y _. by rewrite H1. Qed.

Lemma same_dives_but_when d s s' y :
  same_dives_but d s s' → dive_when s' y = dive_when s y.
Proof.
  intros [H1 _ _]. apply (f_equal (λ l, l !! y)) in H1.
  rewrite !list_lookup_fmap in H1. unfold dive_when.
  destruct (heap_dives s' !! y), (heap_dives s !! y); simplify_eq/=; done.
Qed.

Lemma same_dives_but_dated d s s' :
  same_dives_but d s s' → dives_dated s → dives_dated s'.
Proof.
  intros [H1 _ _] Hdated y dv' Hy.
  apply (f_equal (λ l, l !! y)) in H1. rewrite !list_lookup_fmap, Hy in H1.
  destruct (heap_dives s !! y) as [dv|] eqn:Hy'; simplify_eq/=.
  unfold dive_data in H1. simplify_eq.
  match goal with H : when dv' = when dv |- _ => rewrite H end. eauto.
Qed.

(** The walk of insert_trip stops behind the trips that start before [w]. *)
Lemma run_insert_trip_walk s fuel w p L :
  tseg (heap_trips s) (read_tslot s p) L None →
  (∀ x, p = Some x → is_Some (heap_trips s !! x)) →
  (length L <= fuel)%nat →
  insert_trip_walk fuel w p s
  = Ok (last_tslot p (earlier_trips s w L), head (later_trips s w L)) s.
Proof.
  revert p fuel. induction L as [|t L IH]; intros p fuel Hseg Hp Hlen.
  - simpl in Hseg.
    assert (Hwalk : ∀ f, insert_trip_walk f w p s = Ok (p, None) s).
    { intros f. destruct f; simpl;
        by rewrite (run_bind _ _ _ _ _ (run_load_tslot _ _ Hp)), Hseg. }
    by rewrite Hwalk.
  - destruct Hseg as (Hrd & tr & Ht & Hseg).
    destruct fuel as [|fuel]; [simpl in Hlen; lia|].
    cbn [insert_trip_walk earlier_trips later_trips].
    rewrite (run_bind _ _ _ _ _ (run_load_tslot _ _ Hp)), Hrd.
    rewrite (run_bind _ _ _ _ _ (run_load_trip _ _ _ Ht)).
    rewrite (trip_start_lookup _ _ _ Ht).
    destruct (trip_when tr <? w); [|done].
    rewrite last_tslot_cons. apply IH.
    + simpl. by rewrite Ht.
    + intros ? [= <-]. eauto.
    + simpl in Hlen. lia.
Qed.

Lemma rep_alter_trip_out s R Mf t f :
  t ∉ R →
  (∀ tr, trip_dives (f tr) = trip_dives tr) →
  (∀ tr, trip_nrdives (f tr) = trip_nrdives tr) →
  rep s R Mf → rep (set_heap_trips s (alter f t (heap_trips s))) R Mf.
Proof.
  intros Hout Hfd Hfn Hrep.
  split; cbn [heap_dives heap_trips dive_trip_list dive_table set_heap_trips].
  - apply tseg_alter_notin; [done|]. apply (rep_trips _ _ _ Hrep).
  - apply (rep_trips_nodup _ _ _ Hrep).
  - intros t' tr' Ht'.
    assert (∃ tr0, heap_trips s !! t' = Some tr0 ∧ trip_dives tr' = trip_dives tr0 ∧
                   trip_nrdives tr' = trip_nrdives tr0) as (tr0 & Ht0 & -> & ->).
    { destruct (decide (t = t')) as [->|Hne].
      - rewrite list_lookup_alter_eq in Ht'.
        destruct (heap_trips s !! t') as [tr0|]; simplify_eq/=. eauto.
      - rewrite list_lookup_alter_ne in Ht' by done. eauto. }
    apply (rep_members _ _ _ Hrep t' tr0 Ht0).
  - intros t' Ht'. apply (rep_no_trip _ _ _ Hrep).
    apply lookup_ge_None in Ht'. rewrite length_alter in Ht'. by apply lookup_ge_None.
  - apply (rep_divetrip _ _ _ Hrep).
  - apply (rep_table _ _ _ Hrep).
Qed.

(** The registry with the trip [dt] put in front of [r2]. *)
Lemma rep_insert_at s R Mf dt r1 r2 :
  rep s R Mf →
  R = r1 ++ r2 →
  dt ∉ R →
  is_Some (heap_trips s !! dt) →
  rep (write_tslot (last_tslot None r1) (Some dt)
         (set_heap_trips s (alter (λ tr, set_trip_next tr (head r2)) dt (heap_trips s))))
      (r1 ++ dt :: r2) Mf.
Proof.
  intros Hrep -> Hnotin [dtr Hdt].
  pose proof (rep_trips _ _ _ Hrep) as Hseg.
  pose proof (rep_trips_nodup _ _ _ Hrep) as Hnd.
  apply tseg_app in Hseg as (m & Hseg1 & Hseg2).
  pose proof (dseg_head) as _.
  assert (Hm : m = head r2). { destruct r2; simpl in *; [done|]. by destruct Hseg2. }
  subst m.
  apply NoDup_app in Hnd as (Hnd1 & Hdisj & Hnd2).
  assert (Hn1 : dt ∉ r1). { intros Hin. apply Hnotin. apply elem_of_app. by left. }
  assert (Hn2 : dt ∉ r2). { intros Hin. apply Hnotin. apply elem_of_app. by right. }
  set (s1 := set_heap_trips s (alter (λ tr, set_trip_next tr (head r2)) dt (heap_trips s))).
  assert (Hrep1 : rep s1 (r1 ++ r2) Mf).
  { unfold s1. apply rep_alter_trip_out; [done..|exact Hrep]. }
  assert (HT : (λ tr, (trip_dives tr, trip_nrdives tr)) <$>
               heap_trips (write_tslot (last_tslot None r1) (Some dt) s1)
               = (λ tr, (trip_dives tr, trip_nrdives tr)) <$> heap_trips s1).
  { unfold write_tslot. destruct (last_tslot None r1); [|done].
    cbn [heap_trips set_heap_trips]. by apply fmap_alter_same. }
  assert (HD : heap_dives (write_tslot (last_tslot None r1) (Some dt) s1) = heap_dives s1).
  { unfold write_tslot. by destruct (last_tslot None r1). }
  split.
  - destruct r1 as [|x r1 _] using rev_ind.
    + simpl. split; [done|]. eexists. split.
      { rewrite list_lookup_alter_eq, Hdt. reflexivity. }
      simpl. apply tseg_alter_notin; [done|]. exact Hseg2.
    + rewrite last_tslot_snoc. cbn [write_tslot dive_trip_list heap_trips set_heap_trips].
      rewrite <- (assoc_L (++)). apply tseg_app.
      apply tseg_snoc in Hseg1 as (Hseg1 & trx & Hx & Hnx).
      apply NoDup_app in Hnd1 as (Hnd1 & Hdisj1 & _).
      assert (Hx1 : x ∉ r1). { intros Hin. apply (Hdisj1 x Hin). by left. }
      assert (Hx2 : x ∉ r2).
      { intros Hin. apply (Hdisj x); [apply elem_of_app; right; by left|done]. }
      assert (Hxdt : x ≠ dt). { intros ->. apply Hn1. apply elem_of_app. right. by left. }
      exists (Some x). split.
      { apply tseg_alter_notin; [done|]. apply tseg_alter_notin; [|done].
        intros Hin. apply Hn1. apply elem_of_app. by left. }
      simpl. split; [done|]. eexists. split.
      { rewrite list_lookup_alter_eq, list_lookup_alter_ne, Hx by done. reflexivity. }
      simpl. split; [done|]. eexists. split.
      { rewrite list_lookup_alter_ne, list_lookup_alter_eq, Hdt by done. reflexivity. }
      simpl. apply tseg_alter_notin; [done|]. by apply tseg_alter_notin.
  - apply NoDup_app. split_and!; [done| |].
    + intros x Hx1 Hx2. apply elem_of_cons in Hx2 as [->|Hx2]; [done|].
      by apply (Hdisj x).
    + by apply NoDup_cons.
  - intros t0 tr0 Ht0. rewrite HD.
    apply (f_equal (λ l, l !! t0)) in HT. rewrite !list_lookup_fmap, Ht0 in HT.
    destruct (heap_trips s1 !! t0) as [tr1|] eqn:Ht1; [|done].
    simpl in HT. injection HT as Hdv Hnr'.
    destruct (rep_members _ _ _ Hrep1 t0 tr1 Ht1) as (Hd & Hndd & Hnr).
    rewrite Hdv, Hnr'. done.
  - intros t0 Ht0. apply (rep_no_trip _ _ _ Hrep1).
    apply (f_equal (λ l, l !! t0)) in HT. rewrite !list_lookup_fmap, Ht0 in HT.
    by destruct (heap_trips s1 !! t0).
  - intros d dv t0 Hd Hdt0. rewrite HD in Hd.
    destruct (rep_divetrip _ _ _ Hrep1 d dv t0 Hd Hdt0) as (Hin & Hdin).
    split; [|done].
    apply elem_of_app in Hin as [Hin|Hin]; apply elem_of_app; [by left|right; by right].
  - intros d Hd. rewrite HD. apply (rep_table _ _ _ Hrep1).
    unfold write_tslot in Hd. by destruct (last_tslot None r1).
Qed.

Lemma alter_twice {A} (f g : A → A) (l : list A) i :
  alter g i (alter f i l) = alter (g ∘ f) i l.
Proof. apply list_alter_alter_eq. Qed.

(** insert_trip of a draft without dives that is not in the registry. *)
Lemma insert_trip_spec s R Mf dt dtr :
  rep s R Mf →
  heap_trips s !! dt = Some dtr →
  dt ∉ R →
  trip_dives dtr = None →
  ∃ s',
    insert_trip dt s
      = Ok (match same_start_trip s (trip_when dtr) with Some t0 => t0 | None => dt end) s' ∧
    rep s' (match same_start_trip s (trip_when dtr) with
            | Some _ => R
            | None => earlier_trips s (trip_when dtr) R ++ dt :: later_trips s (trip_when dtr) R
            end) Mf ∧
    heap_dives s' = heap_dives s ∧
    dive_table s' = dive_table s ∧
    freed s' = freed s ∧
    trip_when <$> heap_trips s' = trip_when <$> heap_trips s ∧
    trip_autogen <$> heap_trips s' = trip_autogen <$> heap_trips s ∧
    (∀ t0, same_start_trip s (trip_when dtr) = Some t0 →
           heap_trips s' !! t0 = merge_trip_info dtr <$> heap_trips s !! t0).
Proof.
  intros Hrep Hdt Hout Hnodives.
  set (w := trip_when dtr).
  pose proof (rep_trips _ _ _ Hrep) as Hseg.
  pose proof (rep_trips_nodup _ _ _ Hrep) as Hnd.
  unfold insert_trip.
  rewrite (run_bind _ _ _ _ _ (run_load_trip _ _ _ Hdt)).
  unfold get_state at 1. unfold bind at 1.
  assert (Hlen : (length R <= trip_fuel s)%nat).
  { pose proof (tseg_length _ _ _ _ Hseg Hnd). unfold trip_fuel. lia. }
  rewrite (run_bind _ _ _ _ _
             (run_insert_trip_walk s _ w None R Hseg ltac:(done) Hlen)).
  unfold same_start_trip. rewrite (registry_of_rep _ _ _ Hrep). fold w.
  pose proof (earlier_later_trips s w R) as Hsplit.
  destruct (later_trips s w R) as [|t0 r2] eqn:Hlater.
  - (* behind the last trip *)
    cbn [head]. unfold ret at 1. unfold bind at 1.
    rewrite (run_bind _ _ _ _ _ (run_modify_trip _ _ _ _ Hdt)).
    erewrite run_bind by (by apply run_store_tslot;
      intros x Hx; cbn [heap_trips set_heap_trips]; apply alter_is_Some;
      eapply (rep_trip_valid s R Mf); [done|];
      rewrite <- Hsplit; apply elem_of_app; left;
      unfold last_tslot in Hx; destruct (last (earlier_trips s w R)) eqn:E;
      simplify_eq; by apply last_elem_of).
    eexists. split; [reflexivity|].
    pose proof (rep_insert_at s R Mf dt (earlier_trips s w R) [] Hrep
                  (eq_sym Hsplit) Hout ltac:(eauto)) as Hrep'.
    split_and!.
    + exact Hrep'.
    + unfold write_tslot. by destruct (last_tslot None _).
    + unfold write_tslot. by destruct (last_tslot None _).
    + unfold write_tslot. by destruct (last_tslot None _).
    + rewrite write_tslot_when. cbn [heap_trips set_heap_trips]. by apply fmap_alter_same.
    + rewrite write_tslot_autogen. cbn [heap_trips set_heap_trips]. by apply fmap_alter_same.
    + done.
  - assert (Ht0R : t0 ∈ R). { rewrite <- Hsplit. apply elem_of_app. right. by left. }
    destruct (rep_trip_valid _ _ _ _ Hrep Ht0R) as [tr0 Ht0].
    cbn [head]. erewrite run_bind.
    2: { erewrite run_bind by (by apply run_load_trip). reflexivity. }
    rewrite (trip_start_lookup _ _ _ Ht0). fold w.
    destruct (trip_when tr0 =? w) eqn:Hsame.
    + (* a trip with the same start: merge *)
      set (s1 := match trip_location tr0 with
                 | None => set_heap_trips s
                     (alter (λ tr, set_trip_location tr (trip_location dtr)) t0 (heap_trips s))
                 | Some _ => s
                 end).
      assert (H1 : (do tr <- load_trip t0;
                    match trip_location tr with
                    | None => do dtr <- load_trip dt;
                              store_trip t0 (set_trip_location tr (trip_location dtr))
                    | Some _ => ret tt
                    end) s = Ok tt s1).
      { rewrite (run_bind _ _ _ _ _ (run_load_trip _ _ _ Ht0)). subst s1.
        destruct (trip_location tr0); [done|].
        rewrite (run_bind _ _ _ _ _ (run_load_trip _ _ _ Hdt)).
        by rewrite (run_store_trip _ _ _ (λ tr, set_trip_location tr (trip_location dtr)) Ht0). }
      rewrite (run_bind _ _ _ _ _ H1).
      assert (Hne : t0 ≠ dt). { intros ->. done. }
      assert (Ht1 : heap_trips s1 !! t0
                    = Some (match trip_location tr0 with
                            | None => set_trip_location tr0 (trip_location dtr)
                            | Some _ => tr0
                            end)).
      { subst s1. destruct (trip_location tr0); [done|].
        cbn [heap_trips set_heap_trips]. by rewrite list_lookup_alter_eq, Ht0. }
      assert (Hdt1 : heap_trips s1 !! dt = Some dtr).
      { subst s1. destruct (trip_location tr0); [done|].
        cbn [heap_trips set_heap_trips]. by rewrite list_lookup_alter_ne. }
      set (tr1 := match trip_location tr0 with
                  | None => set_trip_location tr0 (trip_location dtr)
                  | Some _ => tr0
                  end) in *.
      set (s2 := match trip_notes tr1 with
                 | None => set_heap_trips s1
                     (alter (λ tr, set_trip_notes tr (trip_notes dtr)) t0 (heap_trips s1))
                 | Some _ => s1
                 end).
      assert (H2 : (do tr <- load_trip t0;
                    match trip_notes tr with
                    | None => do dtr <- load_trip dt;
                              store_trip t0 (set_trip_notes tr (trip_notes dtr))
                    | Some _ => ret tt
                    end) s1 = Ok tt s2).
      { rewrite (run_bind _ _ _ _ _ (run_load_trip _ _ _ Ht1)). subst s2.
        destruct (trip_notes tr1); [done|].
        rewrite (run_bind _ _ _ _ _ (run_load_trip _ _ _ Hdt1)).
        by rewrite (run_store_trip _ _ _ (λ tr, set_trip_notes tr (trip_notes dtr)) Ht1). }
      rewrite (run_bind _ _ _ _ _ H2).
      assert (Hdt2 : heap_trips s2 !! dt = Some dtr).
      { subst s2. destruct (trip_notes tr1); [done|].
        cbn [heap_trips set_heap_trips]. by rewrite list_lookup_alter_ne. }
      rewrite (run_bind _ _ _ _ _ (run_load_trip _ _ _ Hdt2)).
      unfold get_state at 1. unfold bind at 1. rewrite Hnodives.
      assert (Hmove : ∀ f, insert_trip_move f None t0 s2 = Ok tt s2) by (by intros []).
      rewrite (run_bind _ _ _ _ _ (Hmove _)).
      exists s2. split; [reflexivity|].
      assert (Hrep1 : rep s1 R Mf).
      { subst s1. destruct (trip_location tr0); [done|]. by apply rep_alter_trip. }
      assert (Hrep2 : rep s2 R Mf).
      { subst s2. destruct (trip_notes tr1); [done|]. by apply rep_alter_trip. }
      split_and!; try done.
      * subst s2 s1. by destruct (trip_notes tr1), (trip_location tr0).
      * subst s2 s1. by destruct (trip_notes tr1), (trip_location tr0).
      * subst s2 s1. by destruct (trip_notes tr1), (trip_location tr0).
      * subst s2 s1.
        destruct (trip_notes tr1), (trip_location tr0);
          cbn [heap_trips set_heap_trips]; by rewrite ?fmap_alter_same.
      * subst s2 s1.
        destruct (trip_notes tr1), (trip_location tr0);
          cbn [heap_trips set_heap_trips]; by rewrite ?fmap_alter_same.
      * intros ? [= <-]. rewrite Ht0. cbn [fmap option_fmap option_map].
        unfold merge_trip_info. fold tr1. subst s2.
        destruct (trip_notes tr1); [done|].
        cbn [heap_trips set_heap_trips]. by rewrite list_lookup_alter_eq, Ht1.
    + (* in front of a later trip *)
      rewrite (run_bind _ _ _ _ _ (run_modify_trip _ _ _ _ Hdt)).
      erewrite run_bind by (by apply run_store_tslot;
        intros x Hx; cbn [heap_trips set_heap_trips]; apply alter_is_Some;
        eapply (rep_trip_valid s R Mf); [done|];
        rewrite <- Hsplit; apply elem_of_app; left;
        unfold last_tslot in Hx; destruct (last (earlier_trips s w R)) eqn:E;
        simplify_eq; by apply last_elem_of).
      eexists. split; [reflexivity|].
      pose proof (rep_insert_at s R Mf dt (earlier_trips s w R) (t0 :: r2) Hrep
                    (eq_sym Hsplit) Hout ltac:(eauto)) as Hrep'.
      split_and!.
      * exact Hrep'.
      * unfold write_tslot. by destruct (last_tslot None _).
      * unfold write_tslot. by destruct (last_tslot None _).
      * unfold write_tslot. by destruct (last_tslot None _).
      * rewrite write_tslot_when. cbn [heap_trips set_heap_trips]. by apply fmap_alter_same.
      * rewrite write_tslot_autogen. cbn [heap_trips set_heap_trips]. by apply fmap_alter_same.
      * done.
Qed.

(** ** create_and_hookup_trip_from_dive *)

Lemma rep_alter_dive s R Mf d f :
  (∀ dv, dive_links (f dv) = dive_links dv) →
  rep s R Mf → rep (set_heap_dives s (alter f d (heap_dives s))) R Mf.
Proof.
  intros Hf Hrep.
  split; cbn [heap_dives heap_trips dive_trip_list dive_table set_heap_dives].
  - apply (rep_trips _ _ _ Hrep).
  - apply (rep_trips_nodup _ _ _ Hrep).
  - intros t tr Ht. destruct (rep_members _ _ _ Hrep t tr Ht) as (Hseg & Hnd & Hnr).
    split_and!; [|done..]. by apply dseg_alter_links.
  - apply (rep_no_trip _ _ _ Hrep).
  - intros y yv t Hy Hyt.
    assert (∃ yv0, heap_dives s !! y = Some yv0 ∧ divetrip yv0 = Some t)
      as (yv0 & Hy0 & Hyt0).
    { destruct (decide (d = y)) as [->|Hne].
      - rewrite list_lookup_alter_eq in Hy.
        destruct (heap_dives s !! y) as [yv0|]; simplify_eq/=.
        exists yv0. split; [done|]. specialize (Hf yv0). unfold dive_links in Hf.
        congruence.
      - rewrite list_lookup_alter_ne in Hy by done. eauto. }
    by apply (rep_divetrip _ _ _ Hrep y yv0 t).
  - intros y Hy. apply alter_is_Some. by apply (rep_table _ _ _ Hrep).
Qed.

Lemma rep_calloc s R Mf :
  rep s R Mf → rep (set_heap_trips s (heap_trips s ++ [zero_trip])) R Mf.
Proof.
  intros Hrep.
  split; cbn [heap_dives heap_trips dive_trip_list dive_table set_heap_trips].
  - eapply tseg_frame; [|apply (rep_trips _ _ _ Hrep)]. intros t Ht.
    destruct (rep_trip_valid _ _ _ _ Hrep Ht) as [tr Htr].
    by rewrite (lookup_app_l_Some _ _ _ _ Htr), Htr.
  - apply (rep_trips_nodup _ _ _ Hrep).
  - intros t tr Ht. apply lookup_app_Some in Ht as [Ht|[Hlen Ht]].
    + by apply (rep_members _ _ _ Hrep).
    + rewrite (rep_no_trip _ _ _ Hrep t) by (by apply lookup_ge_None).
      apply list_lookup_singleton_Some in Ht as [_ <-].
      split_and!; [done|constructor|done].
  - intros t Ht. apply (rep_no_trip _ _ _ Hrep).
    apply lookup_ge_None in Ht. rewrite length_app in Ht. apply lookup_ge_None. lia.
  - apply (rep_divetrip _ _ _ Hrep).
  - apply (rep_table _ _ _ Hrep).
Qed.

Lemma rep_fresh_trip s R Mf : rep s R Mf → length (heap_trips s) ∉ R.
Proof.
  intros Hrep Hin. destruct (rep_trip_valid _ _ _ _ Hrep Hin) as [tr Htr].
  apply lookup_lt_Some in Htr. lia.
Qed.

Lemma earlier_trips_ext s s' w L :
  (∀ t, t ∈ L → trip_start s' t = trip_start s t) →
  earlier_trips s' w L = earlier_trips s w L.
Proof.
  induction L as [|t L IH]; intros Heq; simpl; [done|].
  rewrite Heq by (by left). destruct (trip_start s t <? w); [|done].
  f_equal. apply IH. intros t' Ht'. apply Heq. by right.
Qed.

Lemma later_trips_ext s s' w L :
  (∀ t, t ∈ L → trip_start s' t = trip_start s t) →
  later_trips s' w L = later_trips s w L.
Proof.
  induction L as [|t L IH]; intros Heq; simpl; [done|].
  rewrite Heq by (by left). destruct (trip_start s t <? w); [|done].
  apply IH. intros t' Ht'. apply Heq. by right.
Qed.

Lemma later_trips_suffix s w L t : t ∈ later_trips s w L → t ∈ L.
Proof. intros Ht. rewrite <- (earlier_later_trips s w L). apply elem_of_app. by right. Qed.

Lemma same_start_trip_Some s R Mf w t :
  rep s R Mf → same_start_trip s w = Some t → t ∈ R ∧ trip_start s t = w.
Proof.
  intros Hrep. unfold same_start_trip. rewrite (registry_of_rep _ _ _ Hrep).
  destruct (later_trips s w R) as [|t0 r2] eqn:Hl; [done|].
  destruct (Z.eqb_spec (trip_start s t0) w); [|done]. intros [= <-].
  split; [|done]. apply (later_trips_suffix s w). rewrite Hl. by left.
Qed.

Lemma same_start_trip_ext s s' R Mf R' Mf' w :
  rep s R Mf → rep s' R' Mf' → R' = R →
  (∀ t, t ∈ R → trip_start s' t = trip_start s t) →
  same_start_trip s' w = same_start_trip s w.
Proof.
  intros Hrep Hrep' -> Heq. unfold same_start_trip.
  rewrite (registry_of_rep _ _ _ Hrep), (registry_of_rep _ _ _ Hrep').
  rewrite (later_trips_ext s s' w R Heq).
  destruct (later_trips s w R) as [|t0 r2] eqn:Hl; [done|].
  rewrite Heq; [done|]. apply (later_trips_suffix s w). rewrite Hl. by left.
Qed.

Lemma start_with_same s d w : w = dive_when s d → start_with s d w = w.
Proof.
  intros ->. unfold start_with.
  destruct (Z.gtb_spec (dive_when s d) (dive_when s d)); [lia|].
  by rewrite andb_false_r.
Qed.

Lemma start_without_ext s s' d l w :
  (∀ y, dive_when s' y = dive_when s y) →
  start_without s' d l w = start_without s d l w.
Proof.
  intros Heq. unfold start_without. rewrite Heq.
  replace (map (dive_when s') (filter (λ y, y ≠ d) l))
    with (map (dive_when s) (filter (λ y, y ≠ d) l)); [done|].
  apply map_ext. intros y. by rewrite Heq.
Qed.

Lemma start_with_ext s s' d w :
  (∀ y, dive_when s' y = dive_when s y) → start_with s' d w = start_with s d w.
Proof. intros Heq. unfold start_with. by rewrite Heq. Qed.

(** The store before insert_trip in create_and_hookup_trip_from_dive: a
    new trip with the start and the location of the dive. *)
Lemma create_draft s R Mf d dv :
  rep s R Mf →
  heap_dives s !! d = Some dv →
  ∃ s3 dtr,
    (∀ A (k : trip_ptr → M A),
      (do dive_trip <- calloc_trip;
       do dv <- load_dive d;
       run modify_trip dive_trip (λ tr, set_trip_when tr (when dv));
       run match location dv with
           | Some l => modify_trip dive_trip (λ tr, set_trip_location tr (Some l))
           | None => ret tt
           end;
       k dive_trip) s = k (length (heap_trips s)) s3) ∧
    rep s3 R Mf ∧
    heap_trips s3 = heap_trips s ++ [dtr] ∧
    trip_when dtr = when dv ∧ trip_dives dtr = None ∧ trip_autogen dtr = 0 ∧
    heap_dives s3 = heap_dives s ∧ dive_table s3 = dive_table s ∧ freed s3 = freed s.
Proof.
  intros Hrep Hd.
  set (dt := length (heap_trips s)).
  set (s1 := set_heap_trips s (heap_trips s ++ [zero_trip])).
  assert (H1 : calloc_trip s = Ok dt s1) by done.
  assert (Hd1 : heap_dives s1 !! d = Some dv) by done.
  assert (Hdt1 : heap_trips s1 !! dt = Some zero_trip).
  { subst s1 dt. cbn [heap_trips set_heap_trips]. by rewrite list_lookup_middle. }
  assert (Halter : ∀ f, alter f dt (heap_trips s ++ [zero_trip])
                        = heap_trips s ++ [f zero_trip]).
  { intros f. subst dt. rewrite alter_app_r_alt by lia.
    by rewrite Nat.sub_diag. }
  pose proof (rep_fresh_trip _ _ _ Hrep) as Hfresh. fold dt in Hfresh.
  pose proof (rep_calloc _ _ _ Hrep) as Hrep1. fold s1 in Hrep1.
  destruct (location dv) as [l|] eqn:Hloc.
  - eexists (set_heap_trips _ (alter (λ tr, set_trip_location tr (Some l)) dt
               (heap_trips (set_heap_trips s1
                  (alter (λ tr, set_trip_when tr (when dv)) dt (heap_trips s1)))))),
            (set_trip_location (set_trip_when zero_trip (when dv)) (Some l)).
    split.
    { intros A k. rewrite (run_bind _ _ _ _ _ H1).
      rewrite (run_bind _ _ _ _ _ (run_load_dive _ _ _ Hd1)).
      rewrite (run_bind _ _ _ _ _ (run_modify_trip _ _ _ _ Hdt1)). rewrite Hloc.
      erewrite run_bind; [reflexivity|].
      apply run_modify_trip'. cbn [heap_trips set_heap_trips]. by apply alter_is_Some. }
    split_and!; try done.
    + apply rep_alter_trip_out; [done..|]. by apply rep_alter_trip_out.
    + subst s1. cbn [heap_trips set_heap_trips]. rewrite alter_twice. apply Halter.
  - eexists (set_heap_trips s1 (alter (λ tr, set_trip_when tr (when dv)) dt (heap_trips s1))),
            (set_trip_when zero_trip (when dv)).
    split.
    { intros A k. rewrite (run_bind _ _ _ _ _ H1).
      rewrite (run_bind _ _ _ _ _ (run_load_dive _ _ _ Hd1)).
      rewrite (run_bind _ _ _ _ _ (run_modify_trip _ _ _ _ Hdt1)). rewrite Hloc.
      erewrite run_bind by reflexivity. reflexivity. }
    split_and!; try done.
    + by apply rep_alter_trip_out.
    + subst s1. cbn [heap_trips set_heap_trips]. apply Halter.
Qed.

(** create_and_hookup_trip_from_dive for a dive with a timestamp: the dive
    joins the trip of the registry that starts with it, or a new trip put
    in the registry at the place of its start. *)
Lemma create_and_hookup_spec s R Mf d dv :
  rep s R Mf →
  heap_dives s !! d = Some dv →
  when dv ≠ 0 →
  ∃ s',
    create_and_hookup_trip_from_dive d s
      = Ok (match same_start_trip s (when dv) with
            | Some t0 => t0
            | None => length (heap_trips s)
            end) s' ∧
    (let res := match same_start_trip s (when dv) with
                | Some t0 => t0
                | None => length (heap_trips s)
                end in
     let R3 := match same_start_trip s (when dv) with
               | Some _ => R
               | None => earlier_trips s (when dv) R ++
                         length (heap_trips s) :: later_trips s (when dv) R
               end in
     (if decide (divetrip dv = Some res) then rep s' R Mf
      else rep s' (without_trip_of d Mf R3) (<[res := d :: Mf res]> (without_dive d Mf))) ∧
     same_dives_but d s s' ∧
     (∃ dv', heap_dives s' !! d = Some dv' ∧ divetrip dv' = Some res) ∧
     trip_start s' res = when dv ∧
     (∀ t', t' ≠ res → is_Some (heap_trips s !! t') →
            trip_start s' t' = start_without s d (Mf t') (trip_start s t')) ∧
     length (heap_trips s') = S (length (heap_trips s)) ∧
     trip_autogen <$> heap_trips s' = (trip_autogen <$> heap_trips s) ++ [0]).
Proof.
  intros Hrep Hd Hw.
  destruct (create_draft _ _ _ _ _ Hrep Hd)
    as (s3 & dtr & Hrun3 & Hrep3 & HT3 & Hdw & Hdd & Hda & HD3 & Htab3 & Hfr3).
  unfold create_and_hookup_trip_from_dive. rewrite Hrun3. clear Hrun3.
  set (dt := length (heap_trips s)) in *.
  pose proof (rep_fresh_trip _ _ _ Hrep) as Hfresh. fold dt in Hfresh.
  assert (Hdt3 : heap_trips s3 !! dt = Some dtr).
  { rewrite HT3. subst dt. by rewrite list_lookup_middle. }
  assert (Hold3 : ∀ t, is_Some (heap_trips s !! t) → heap_trips s3 !! t = heap_trips s !! t).
  { intros t [tr Ht]. rewrite HT3. by rewrite (lookup_app_l_Some _ _ _ _ Ht). }
  assert (Hstart3 : ∀ t, is_Some (heap_trips s !! t) → trip_start s3 t = trip_start s t).
  { intros t Ht. unfold trip_start. by rewrite Hold3. }
  assert (Hsst : same_start_trip s3 (when dv) = same_start_trip s (when dv)).
  { eapply same_start_trip_ext; [exact Hrep|exact Hrep3|done|].
    intros t Ht. apply Hstart3. by eapply (rep_trip_valid s R Mf). }
  destruct (insert_trip_spec _ _ _ _ _ Hrep3 Hdt3 Hfresh Hdd)
    as (s4 & Hrun4 & Hrep4 & HD4 & Htab4 & Hfr4 & Hw4 & Hag4 & Hmerge4).
  rewrite Hdw, Hsst in Hrun4, Hrep4. rewrite Hdw in Hmerge4.
  rewrite (run_bind _ _ _ _ _ Hrun4).
  rewrite (earlier_trips_ext s s3), (later_trips_ext s s3) in Hrep4
    by (intros t Ht; apply Hstart3; by eapply (rep_trip_valid s R Mf)).
  set (res := match same_start_trip s (when dv) with Some t0 => t0 | None => dt end) in *.
  set (R3 := match same_start_trip s (when dv) with
             | Some _ => R
             | None => earlier_trips s (when dv) R ++ dt :: later_trips s (when dv) R
             end) in *.
  assert (Hd4 : heap_dives s4 !! d = Some dv) by (by rewrite HD4, HD3).
  rewrite (run_bind _ _ _ _ _ (run_modify_dive _ _ _ _ Hd4)).
  set (s5 := set_heap_dives s4 (alter (λ dv, set_tripflag dv IN_TRIP) d (heap_dives s4))).
  assert (Hrep5 : rep s5 R3 Mf) by (by apply rep_alter_dive).
  assert (Hd5 : heap_dives s5 !! d = Some (set_tripflag dv IN_TRIP)).
  { subst s5. cbn [heap_dives set_heap_dives]. by rewrite list_lookup_alter_eq, Hd4. }
  assert (Hsame5 : same_dives_but d s s5).
  { split.
    - subst s5. cbn [heap_dives set_heap_dives]. rewrite fmap_alter_same by done.
      by rewrite HD4, HD3.
    - intros y Hy. subst s5. cbn [heap_dives set_heap_dives].
      rewrite list_lookup_alter_ne by done. by rewrite HD4, HD3.
    - subst s5. cbn [dive_table set_heap_dives]. by rewrite Htab4. }
  assert (Hwhen5 : ∀ y, dive_when s5 y = dive_when s y).
  { intros y. by eapply same_dives_but_when. }
  assert (Hstart5 : ∀ t, trip_start s5 t = trip_start s3 t).
  { intros t. by apply trip_start_same. }
  assert (Hresdt : trip_start s3 dt = when dv).
  { rewrite (trip_start_lookup _ _ _ Hdt3). done. }
  assert (Hres5 : trip_start s5 res = when dv ∧ res ∈ R3).
  { rewrite Hstart5. subst res R3.
    destruct (same_start_trip s (when dv)) as [t0|] eqn:Hs.
    - destruct (same_start_trip_Some _ _ _ _ _ Hrep Hs) as (Ht0R & Ht0w).
      split; [|done]. rewrite Hstart3; [done|]. by eapply (rep_trip_valid s R Mf).
    - split; [done|]. apply elem_of_app. right. by left. }
  destruct Hres5 as (Hres5 & HresR).
  assert (Hlen5 : length (heap_trips s5) = S (length (heap_trips s))).
  { subst s5. cbn [heap_trips set_heap_dives].
    apply (f_equal length) in Hw4. rewrite !length_fmap in Hw4.
    rewrite Hw4, HT3, length_app. simpl. lia. }
  assert (Hautogen : trip_autogen <$> heap_trips s4 = (trip_autogen <$> heap_trips s) ++ [0]).
  { by rewrite Hag4, HT3, fmap_app, <- Hda. }
  destruct (decide (divetrip dv = Some res)) as [Hsame|Hdiff].
  - (* the dive is in the trip that starts with it *)
    rewrite (run_bind _ _ _ _ _ (add_dive_to_trip_same_trip _ _ _ _ Hd5 Hsame)).
    exists s5. split; [reflexivity|].
    assert (HR3 : R3 = R).
    { subst R3 res. destruct (same_start_trip s (when dv)) eqn:Hs; [done|].
      exfalso. destruct (rep_divetrip _ _ _ Hrep d dv dt Hd Hsame) as (Hin & _). done. }
    rewrite HR3 in Hrep5.
    split_and!; [done|done|eauto|done| |done|].
    + intros t' Hne Hv. rewrite Hstart5, Hstart3 by done.
      symmetry. apply start_without_notin. intros Hin. apply Hne.
      destruct (rep_divetrip _ _ _ Hrep d dv res Hd Hsame) as (_ & Hin').
      by eapply (rep_members_disjoint s R Mf).
    + exact Hautogen.
  - destruct (add_dive_to_trip_spec s5 R3 Mf d _ res Hrep5 Hd5 HresR)
      as (s6 & Hrun6 & Hrep6 & Hsame6 & Hdv6 & Hstart6 & Hfreed6).
    { rewrite Hres5. done. }
    { done. }
    rewrite (run_bind _ _ _ _ _ Hrun6).
    exists s6. split; [reflexivity|].
    split_and!.
    + exact Hrep6.
    + eapply same_dives_but_trans; [exact Hsame5|]. by apply same_dives_but_of_trip.
    + destruct Hdv6 as (dv' & ? & ? & ?). eauto.
    + rewrite Hstart6. destruct (decide (res = res)); [|done].
      rewrite Hres5. apply start_with_same.
      by rewrite Hwhen5, (dive_when_lookup _ _ _ Hd).
    + intros t' Hne Hv. rewrite Hstart6. destruct (decide (t' = res)); [done|].
      rewrite Hstart5, Hstart3 by done. by apply start_without_ext.
    + destruct (same_but_trip_of_length _ _ _ Hsame6) as (_ & ->). done.
    + rewrite <- Hautogen. subst s5. cbn [heap_trips set_heap_dives].
      pose proof (f_equal (fmap snd) (sb_trip_info _ _ _ Hsame6)) as Hinfo.
      rewrite <- !list_fmap_compose in Hinfo. exact Hinfo.
Qed.

(** ** find_trip_by_idx *)

(** The loop of find_trip_by_idx passes the trips that do not have the
    index and returns NULL behind the last. *)
Lemma run_find_trip_by_idx_loop s idx l : ∀ fuel p,
  tseg (heap_trips s) p l None →
  (length l < fuel)%nat →
  (∀ t tr, t ∈ l → heap_trips s !! t = Some tr → trip_index tr ≠ idx) →
  find_trip_by_idx_loop fuel idx p s = Ok None s.
Proof.
  induction l as [|t l IH]; intros fuel p Hseg Hfuel Hidx.
  - simpl in Hseg. subst p. by destruct fuel.
  - destruct Hseg as (-> & tr & Ht & Hseg).
    destruct fuel as [|fuel]; [simpl in Hfuel; lia|].
    cbn [find_trip_by_idx_loop].
    rewrite (run_bind _ _ _ _ _ (run_load_trip _ _ _ Ht)).
    destruct (Z.eqb_spec (trip_index tr) idx) as [Heq|_].
    { exfalso. eapply Hidx; [by left|done..]. }
    apply IH; [done|simpl in Hfuel; lia|].
    intros t' tr' Hin. apply Hidx. by right.
Qed.

(** The loop only returns a trip that it has met on the list. *)
Lemma find_trip_by_idx_loop_in s idx l : ∀ fuel p r s',
  tseg (heap_trips s) p l None →
  find_trip_by_idx_loop fuel idx p s = Ok (Some r) s' →
  r ∈ l.
Proof.
  induction l as [|t l IH]; intros fuel p r s' Hseg Hrun.
  - simpl in Hseg. subst p. by destruct fuel.
  - destruct Hseg as (-> & tr & Ht & Hseg).
    destruct fuel as [|fuel]; [done|].
    cbn [find_trip_by_idx_loop] in Hrun.
    rewrite (run_bind _ _ _ _ _ (run_load_trip _ _ _ Ht)) in Hrun.
    destruct (trip_index tr =? idx).
    + injection Hrun as <- _. by left.
    + right. by eapply IH.
Qed.

Lemma find_trip_by_idx_in s R Mf idx r s' :
  rep s R Mf → find_trip_by_idx idx s = Ok (Some r) s' → r ∈ R.
Proof.
  intros Hrep Hrun. unfold find_trip_by_idx in Hrun.
  destruct (idx >=? 0); [done|].
  eapply find_trip_by_idx_loop_in; [|exact Hrun]. apply Hrep.
Qed.

Lemma find_trip_by_idx_none s R Mf idx :
  rep s R Mf →
  (∀ t tr, t ∈ R → heap_trips s !! t = Some tr → trip_index tr ≠ idx) →
  find_trip_by_idx idx s = Ok None s.
Proof.
  intros Hrep Hidx. unfold find_trip_by_idx.
  destruct (idx >=? 0); [done|].
  unfold get_state at 1. unfold bind at 1.
  eapply run_find_trip_by_idx_loop; [apply Hrep| |done].
  pose proof (tseg_length _ _ _ _ (rep_trips _ _ _ Hrep) (rep_trips_nodup _ _ _ Hrep)).
  unfold trip_fuel. lia.
Qed.

(** C7.  Removing the only member of a trip with remove_dive_from_trip
    deletes the trip: the call returns, the store stays well formed, the
    trip is released and no longer in the registry, whose other trips stay.
    After that find_trip_by_idx returns the trip for no index, and NULL for
    the index of the trip when no other trip of the registry has it. *)
Theorem remove_sole_member_deletes_trip s d dv t tr :
  well_formed s →
  heap_dives s !! d = Some dv →
  divetrip dv = Some t →
  heap_trips s !! t = Some tr →
  members s t = [d] →
  ∃ s',
    remove_dive_from_trip d s = Ok tt s' ∧
    well_formed s' ∧
    (t ∉ registry s') ∧
    (∀ t', t' ≠ t → (t' ∈ registry s' ↔ t' ∈ registry s)) ∧
    t ∈ freed s' ∧
    (∀ idx r s'', find_trip_by_idx idx s' = Ok r s'' → r ≠ Some t) ∧
    ((∀ t' tr', t' ∈ registry s → t' ≠ t → heap_trips s !! t' = Some tr' →
                trip_index tr' ≠ trip_index tr) →
     find_trip_by_idx (trip_index tr) s' = Ok None s').
Proof.
  intros Hwf Hd Htrip Ht Hsole.
  destruct (remove_dive_from_trip_ok _ _ _ _ _ Hwf Hd)
    as (s' & Hrun & Hrep' & Hsame & _ & _ & Hfreed).
  rewrite Htrip in Hfreed. rewrite decide_True in Hfreed by done.
  assert (Hreg : ∀ t', t' ∈ without_trip_of d (members s) (registry s)
                       ↔ t' ∈ registry s ∧ t' ≠ t).
  { intros t'. unfold without_trip_of. rewrite list_elem_of_filter.
    split; intros (H1 & H2).
    - split; [done|]. intros ->. done.
    - split; [|done]. intros Hm. apply H2.
      eapply (rep_members_disjoint s (registry s) (members s)); [done| |].
      + rewrite Hm. by left.
      + rewrite Hsole. by left. }
  exists s'. rewrite (registry_of_rep _ _ _ Hrep').
  split_and!.
  - done.
  - by eapply rep_well_formed.
  - rewrite Hreg. by intros (_ & ?).
  - intros t' Hne. rewrite Hreg. tauto.
  - rewrite Hfreed. by left.
  - intros idx r s'' Hfind ->.
    pose proof (find_trip_by_idx_in _ _ _ _ _ _ Hrep' Hfind) as Hin.
    apply Hreg in Hin. by destruct Hin.
  - intros Huniq. eapply find_trip_by_idx_none; [exact Hrep'|].
    intros t' tr' Hin Ht'. apply Hreg in Hin. destruct Hin as (Hin & Hne).
    assert (Hinfo : (trip_info <$> heap_trips s') !! t' = (trip_info <$> heap_trips s) !! t')
      by (by rewrite (sb_trip_info _ _ _ Hsame)).
    rewrite !list_lookup_fmap, Ht' in Hinfo.
    destruct (heap_trips s !! t') as [tr0|] eqn:Ht0; [|done].
    injection Hinfo as _ _ Hi _. rewrite Hi. by eapply Huniq.
Qed.

(** ** The example store with two trips *)

(** Decidable facts about the lists of a given store. *)
Ltac by_computation := apply (bool_decide_unpack _); vm_compute; exact I.

Lemma two_trips_well_formed : well_formed two_trips.
Proof.
  split.
  - vm_compute. eauto 10.
  - by_computation.
  - intros [|[|t]] tr Ht; vm_compute in Ht; simplify_eq.
    + split_and!; [vm_compute; eauto 20|by_computation|reflexivity].
    + split_and!; [vm_compute; eauto 20|by_computation|reflexivity].
  - intros [|[|t]] Ht; vm_compute in Ht; by simplify_eq.
  - intros [|[|[|d]]] dv t Hd Ht; vm_compute in Hd; simplify_eq;
      vm_compute in Ht; simplify_eq; split; by_computation.
  - intros d Hd. vm_compute in Hd.
    repeat (apply elem_of_cons in Hd as [->|Hd]; [by eexists|]).
    by apply elem_of_nil in Hd.
Qed.

Lemma two_trips_start_at_earliest : trips_start_at_earliest two_trips.
Proof.
  intros t Ht. vm_compute in Ht.
  repeat (apply elem_of_cons in Ht as [->|Ht]; [by vm_compute|]).
  by apply elem_of_nil in Ht.
Qed.

Lemma two_trips_dated : dives_dated two_trips.
Proof.
  intros [|[|[|d]]] dv Hd; vm_compute in Hd; by simplify_eq.
Qed.

Lemma remove_sole_member_deletes_trip_witness :
  ∃ s',
    remove_dive_from_trip 2%nat two_trips = Ok tt s' ∧
    well_formed s' ∧
    (1%nat ∉ registry s') ∧
    (∀ t', t' ≠ 1%nat → (t' ∈ registry s' ↔ t' ∈ registry two_trips)) ∧
    1%nat ∈ freed s' ∧
    (∀ idx r s'', find_trip_by_idx idx s' = Ok r s'' → r ≠ Some 1%nat) ∧
    ((∀ t' tr', t' ∈ registry two_trips → t' ≠ 1%nat →
                heap_trips two_trips !! t' = Some tr' → trip_index tr' ≠ 2) →
     find_trip_by_idx 2 s' = Ok None s').
Proof.
  apply (remove_sole_member_deletes_trip two_trips 2%nat
           (trip_dive 181000 1 None (TripDives 1)) 1%nat
           {| trip_when := 181000; trip_location := None; trip_notes := None;
              trip_dives := Some 2%nat; trip_nrdives := 1; trip_index := 2;
              trip_autogen := 0; trip_next := None |}).
  - exact two_trips_well_formed.
  - reflexivity.
  - reflexivity.
  - reflexivity.
  - reflexivity.
Defined.

(** ** insert_trip with a draft that has pending dives *)

(** C2.  insert_trip with a draft that starts when a trip of the registry
    does, and has two pending dives: the call returns the trip of the
    registry, which has taken the location of the draft and kept its own
    notes, and the registry is as long as before.  Only the first pending
    dive has moved: after add_dive_to_trip its [next] is the old head of the
    trip of the registry, so the loop never reaches the second pending dive,
    which stays in the draft; the draft is not released. *)
Theorem insert_trip_moves_only_first_pending_dive :
  ∃ s',
    insert_trip 1%nat draft_with_two_dives = Ok 0%nat s' ∧
    registry s' = registry draft_with_two_dives ∧
    (trip_location <$> heap_trips s' !! 0%nat) = Some (Some "Bonaire"%string) ∧
    (trip_notes <$> heap_trips s' !! 0%nat) = Some (Some "night dives"%string) ∧
    members draft_with_two_dives 1%nat = [1%nat; 2%nat] ∧
    members s' 0%nat = [1%nat; 0%nat] ∧
    members s' 1%nat = [2%nat] ∧
    (divetrip <$> heap_dives s' !! 2%nat) = Some (Some 1%nat) ∧
    freed s' = [].
Proof.
  eexists. split; [vm_compute; reflexivity|].
  vm_compute. done.
Qed.

(** ** The start of a trip and its earliest member *)

Lemma min_when_spec ws m :
  min_when ws = Some m ↔ m ∈ ws ∧ ∀ w, w ∈ ws → m <= w.
Proof.
  split.
  - intros Hm. split; [by apply min_when_elem|]. intros w. by apply min_when_le.
  - intros (Hin & Hle).
    destruct (min_when ws) as [m'|] eqn:Hm'.
    + pose proof (min_when_elem _ _ Hm') as Hin'.
      pose proof (min_when_le _ _ _ Hm' Hin). pose proof (Hle _ Hin'). f_equal. lia.
    + apply min_when_None in Hm'. subst ws. by apply elem_of_nil in Hin.
Qed.

(** Taking [d] out of the members [l] of a trip that starts at its
    earliest member [w] leaves a list whose earliest member is what
    remove_dive_from_trip makes the start of the trip. *)
Lemma start_without_min s d l w :
  NoDup l → l ≠ [d] →
  min_when (map (dive_when s) l) = Some w →
  min_when (map (dive_when s) (filter (λ y, y ≠ d) l)) = Some (start_without s d l w).
Proof.
  intros Hnd Hne Hmin.
  destruct (decide (d ∈ l)) as [Hin|Hout].
  2: { rewrite filter_ne_notin by done. by rewrite start_without_notin. }
  unfold start_without.
  destruct (decide (d ∈ l ∧ w = dive_when s d)) as [(_ & Hw)|Hnw].
  - destruct (min_when (map (dive_when s) (filter (λ y, y ≠ d) l))) as [m|] eqn:Hm; [done|].
    exfalso. apply min_when_None in Hm. apply fmap_nil_inv in Hm.
    apply Hne. destruct l as [|x l]; [by apply elem_of_nil in Hin|].
    assert (Hall : ∀ y, y ∈ x :: l → y = d).
    { intros y Hy. destruct (decide (y = d)) as [|Hyd]; [done|].
      assert (y ∈ filter (λ y, y ≠ d) (x :: l)) as Hf by (by apply list_elem_of_filter).
      rewrite Hm in Hf. by apply elem_of_nil in Hf. }
    rewrite (Hall x) in * by (by left).
    destruct l as [|x' l]; [done|].
    apply NoDup_cons in Hnd as (Hnotin & _). exfalso. apply Hnotin.
    rewrite (Hall x') by (right; by left). by left.
  - apply min_when_spec in Hmin as (Hel & Hle). apply min_when_spec. split.
    + apply list_elem_of_fmap in Hel as (y & -> & Hy).
      apply list_elem_of_fmap. exists y. split; [done|].
      apply list_elem_of_filter. split; [|done]. intros ->. by apply Hnw.
    + intros w' Hw'. apply Hle.
      apply list_elem_of_fmap in Hw' as (y & -> & Hy).
      apply list_elem_of_fmap. exists y. split; [done|].
      by apply list_elem_of_filter in Hy as (_ & ?).
Qed.

Lemma start_with_min s d w :
  dive_when s d ≠ 0 → start_with s d w = Z.min (dive_when s d) w.
Proof.
  intros Hd. unfold start_with.
  destruct (Z.eqb_spec (dive_when s d) 0); [done|]. cbn [negb andb].
  destruct (Z.gtb_spec w (dive_when s d)); lia.
Qed.

(** A trip that starts at its earliest member, when every dive has a
    timestamp, has a start that add_dive_to_trip accepts. *)
Lemma trip_start_nonzero s t :
  well_formed s → dives_dated s →
  earliest_member s t = Some (trip_start s t) → trip_start s t ≠ 0.
Proof.
  intros Hwf Hdated Hmin. apply min_when_elem in Hmin.
  apply list_elem_of_fmap in Hmin as (y & Hy & Hin). rewrite Hy.
  destruct (rep_members_trip _ _ _ _ _ Hwf Hin) as (dv & Hd & _).
  rewrite (dive_when_lookup _ _ _ Hd). by eapply Hdated.
Qed.

(** ** remove_dive_from_trip and add_dive_to_trip keep the trips right *)

Lemma remove_dive_from_trip_inv s d dv :
  well_formed s →
  trips_start_at_earliest s →
  heap_dives s !! d = Some dv →
  ∃ s',
    remove_dive_from_trip d s = Ok tt s' ∧
    well_formed s' ∧
    trips_start_at_earliest s' ∧
    same_but_trip_of d s s' ∧
    registry s' = without_trip_of d (members s) (registry s) ∧
    (∀ t, members s' t = without_dive d (members s) t) ∧
    (∀ t, trip_start s' t = start_without s d (members s t) (trip_start s t)).
Proof.
  intros Hwf Hinv Hd.
  destruct (remove_dive_from_trip_ok _ _ _ _ _ Hwf Hd)
    as (s' & Hrun & Hrep' & Hsame & _ & Hstart & _).
  exists s'.
  pose proof (registry_of_rep _ _ _ Hrep') as HR.
  assert (HM : ∀ t, members s' t = without_dive d (members s) t)
    by (intros t; by apply (members_of_rep _ _ _ _ Hrep')).
  split_and!; [done|by eapply rep_well_formed| |done..].
  intros t Ht. rewrite HR in Ht. unfold earliest_member. rewrite HM, Hstart.
  apply list_elem_of_filter in Ht as (Hne & Ht).
  assert (Hwhen : ∀ l, map (dive_when s') l = map (dive_when s) l).
  { intros l. apply list_fmap_ext. intros _ y _. by eapply same_but_trip_of_when. }
  rewrite Hwhen.
  apply start_without_min; [|done|by apply Hinv].
  destruct (rep_trip_valid _ _ _ _ Hwf Ht) as [tr Htr].
  by destruct (rep_members _ _ _ Hwf _ _ Htr) as (_ & ? & _).
Qed.

Lemma add_dive_to_trip_inv s d dv t :
  well_formed s →
  trips_start_at_earliest s →
  dives_dated s →
  heap_dives s !! d = Some dv →
  t ∈ registry s →
  divetrip dv ≠ Some t →
  ∃ s',
    add_dive_to_trip d (Some t) s = Ok tt s' ∧
    well_formed s' ∧
    trips_start_at_earliest s' ∧
    same_but_trip_of d s s' ∧
    (∃ dv', heap_dives s' !! d = Some dv' ∧ divetrip dv' = Some t) ∧
    registry s' = without_trip_of d (members s) (registry s) ∧
    (∀ t', members s' t' = if decide (t' = t) then d :: members s t
                           else without_dive d (members s) t') ∧
    trip_start s' t = Z.min (when dv) (trip_start s t) ∧
    (∀ t', t' ≠ t →
       trip_start s' t' = start_without s d (members s t') (trip_start s t')).
Proof.
  intros Hwf Hinv Hdated Hd Ht Hne.
  pose proof (trip_start_nonzero _ _ Hwf Hdated (Hinv _ Ht)) as Hnz.
  destruct (add_dive_to_trip_spec _ _ _ _ _ _ Hwf Hd Ht Hnz Hne)
    as (s' & Hrun & Hrep' & Hsame & (dv' & Hd' & Hdt' & _) & Hstart & _).
  exists s'.
  pose proof (registry_of_rep _ _ _ Hrep') as HR.
  assert (HM : ∀ t', members s' t' = if decide (t' = t) then d :: members s t
                                     else without_dive d (members s) t').
  { intros t'. rewrite (members_of_rep _ _ _ t' Hrep').
    destruct (decide (t' = t)) as [->|Hne'].
    - by rewrite fn_lookup_insert.
    - by rewrite fn_lookup_insert_ne. }
  assert (Hdw : dive_when s d = when dv) by (by apply dive_when_lookup).
  assert (Hdnz : dive_when s d ≠ 0) by (rewrite Hdw; by eapply Hdated).
  assert (Hwhen : ∀ l, map (dive_when s') l = map (dive_when s) l).
  { intros l. apply list_fmap_ext. intros _ y _. by eapply same_but_trip_of_when. }
  split_and!; [done|by eapply rep_well_formed| |done|by eauto|done|done| |].
  - intros t' Ht'. rewrite HR in Ht'. unfold earliest_member.
    rewrite HM, Hstart, Hwhen.
    apply list_elem_of_filter in Ht' as (Hne' & Ht').
    destruct (decide (t' = t)) as [->|Hnet].
    + cbn [map min_when]. pose proof (Hinv _ Ht) as Hmin.
      unfold earliest_member in Hmin. rewrite Hmin.
      by rewrite start_with_min.
    + apply start_without_min; [|done|by apply Hinv].
      destruct (rep_trip_valid _ _ _ _ Hwf Ht') as [tr Htr].
      by destruct (rep_members _ _ _ Hwf _ _ Htr) as (_ & ? & _).
  - rewrite Hstart. rewrite decide_True by done.
    by rewrite start_with_min, Hdw.
  - intros t' Hnet. rewrite Hstart. by rewrite decide_False.
Qed.

(** ** create_and_hookup_trip_from_dive keeps the trips right *)

Lemma create_and_hookup_inv s d dv :
  well_formed s →
  trips_start_at_earliest s →
  heap_dives s !! d = Some dv →
  when dv ≠ 0 →
  ∃ s',
    create_and_hookup_trip_from_dive d s
      = Ok (match same_start_trip s (when dv) with
            | Some t0 => t0
            | None => length (heap_trips s)
            end) s' ∧
    (let res := match same_start_trip s (when dv) with
                | Some t0 => t0
                | None => length (heap_trips s)
                end in
     well_formed s' ∧
     trips_start_at_earliest s' ∧
     same_dives_but d s s' ∧
     (∃ dv', heap_dives s' !! d = Some dv' ∧ divetrip dv' = Some res) ∧
     res ∈ registry s' ∧
     trip_start s' res = when dv ∧
     (divetrip dv = None →
        registry s' = match same_start_trip s (when dv) with
                      | Some _ => registry s
                      | None => earlier_trips s (when dv) (registry s) ++
                                res :: later_trips s (when dv) (registry s)
                      end ∧
        (∀ t', members s' t' = if decide (t' = res) then d :: members s res
                               else members s t') ∧
        (∀ t', t' ∈ registry s → trip_start s' t' = trip_start s t')) ∧
     trip_autogen <$> heap_trips s' = (trip_autogen <$> heap_trips s) ++ [0]).
Proof.
  intros Hwf Hinv Hd Hw.
  destruct (create_and_hookup_spec _ _ _ _ _ Hwf Hd Hw)
    as (s' & Hrun & Hrep' & Hsame & Hdv' & Hres & Hothers & _ & Hauto).
  exists s'. split; [exact Hrun|]. cbn zeta in *.
  set (res := match same_start_trip s (when dv) with
              | Some t0 => t0
              | None => length (heap_trips s)
              end) in *.
  set (R3 := match same_start_trip s (when dv) with
             | Some _ => registry s
             | None => earlier_trips s (when dv) (registry s) ++
                       length (heap_trips s) :: later_trips s (when dv) (registry s)
             end) in *.
  assert (Hwhen : ∀ l, map (dive_when s') l = map (dive_when s) l).
  { intros l. apply list_fmap_ext. intros _ y _. by eapply same_dives_but_when. }
  assert (Hdw : dive_when s d = when dv) by (by apply dive_when_lookup).
  assert (HresR3 : res ∈ R3).
  { subst res R3. destruct (same_start_trip s (when dv)) as [t0|] eqn:Hs.
    - by destruct (same_start_trip_Some _ _ _ _ _ Hwf Hs).
    - apply elem_of_app. right. by left. }
  assert (HR3 : ∀ t, t ∈ R3 → t ≠ res → t ∈ registry s).
  { intros t Ht Hne. subst res R3. destruct (same_start_trip s (when dv)); [done|].
    rewrite <- (earlier_later_trips s (when dv) (registry s)).
    apply elem_of_app in Ht as [Ht|Ht]; apply elem_of_app; [by left|right].
    apply elem_of_cons in Ht as [->|Ht]; done. }
  assert (Hmin_res : min_when (map (dive_when s) (members s res))
                     = match members s res with [] => None | _ => Some (when dv) end).
  { subst res. destruct (same_start_trip s (when dv)) as [t0|] eqn:Hs.
    - destruct (same_start_trip_Some _ _ _ _ _ Hwf Hs) as (Ht0 & Hst).
      pose proof (Hinv _ Ht0) as Hmin. unfold earliest_member in Hmin.
      rewrite Hmin, Hst. destruct (members s t0); [done|done].
    - rewrite (rep_no_trip _ _ _ Hwf); [done|]. apply lookup_ge_None. lia. }
  destruct (decide (divetrip dv = Some res)) as [Hin|Hout].
  - (* the dive is in the trip already *)
    destruct (rep_divetrip _ _ _ Hwf _ _ _ Hd Hin) as (HresR & Hdin).
    pose proof (registry_of_rep _ _ _ Hrep') as HR.
    assert (HM : ∀ t, members s' t = members s t)
      by (intros t; by apply (members_of_rep _ _ _ _ Hrep')).
    split_and!; [by eapply rep_well_formed| |done|done|by rewrite HR|done| |done].
    + intros t Ht. rewrite HR in Ht. unfold earliest_member. rewrite HM, Hwhen.
      destruct (decide (t = res)) as [->|Hne].
      * rewrite Hres, Hmin_res. destruct (members s res); [|done].
        by apply elem_of_nil in Hdin.
      * rewrite Hothers by (by try eapply (rep_trip_valid s (registry s) (members s))).
        rewrite start_without_notin; [by apply Hinv|].
        intros Hdt. apply Hne.
        by eapply (rep_members_disjoint s (registry s) (members s)).
    + intros Hnone. congruence.
  - pose proof (registry_of_rep _ _ _ Hrep') as HR.
    assert (HM : ∀ t', members s' t' = if decide (t' = res) then d :: members s res
                                       else without_dive d (members s) t').
    { intros t'. rewrite (members_of_rep _ _ _ t' Hrep').
      destruct (decide (t' = res)) as [->|Hne'].
      - by rewrite fn_lookup_insert.
      - by rewrite fn_lookup_insert_ne. }
    assert (Hdres : d ∉ members s res)
      by (by eapply (rep_no_trip_notin s (registry s) (members s))).
    assert (HresR : res ∈ registry s').
    { rewrite HR. apply list_elem_of_filter. split; [|done].
      intros Heq. apply Hdres. rewrite Heq. by left. }
    split_and!; [by eapply rep_well_formed| |done|done|done|done| |done].
    + intros t Ht. rewrite HR in Ht. unfold earliest_member. rewrite HM, Hwhen.
      apply list_elem_of_filter in Ht as (Hne' & Ht).
      destruct (decide (t = res)) as [->|Hne].
      * cbn [map min_when]. rewrite Hres, Hmin_res, Hdw.
        destruct (members s res); f_equal; lia.
      * pose proof (HR3 _ Ht Hne) as HtR.
        rewrite Hothers by (by try eapply (rep_trip_valid s (registry s) (members s))).
        apply start_without_min; [|done|by apply Hinv].
        destruct (rep_trip_valid _ _ _ _ Hwf HtR) as [tr Htr].
        by destruct (rep_members _ _ _ Hwf _ _ Htr) as (_ & ? & _).
    + intros Hnone.
      assert (Hnotin : ∀ t, d ∉ members s t).
      { intros t. eapply (rep_no_trip_notin s (registry s) (members s)); [done..|].
        by rewrite Hnone. }
      split_and!.
      * rewrite HR. unfold without_trip_of. rewrite filter_all.
        -- subst R3 res. by destruct (same_start_trip s (when dv)).
        -- apply Forall_forall. intros t _ Heq. apply (Hnotin t). rewrite Heq. by left.
      * intros t'. rewrite HM. destruct (decide (t' = res)); [done|].
        unfold without_dive. by apply filter_ne_notin.
      * intros t' Ht'. destruct (decide (t' = res)) as [->|Hne].
        -- rewrite Hres. subst res.
           destruct (same_start_trip s (when dv)) as [t0|] eqn:Hs.
           ++ by destruct (same_start_trip_Some _ _ _ _ _ Hwf Hs) as (_ & ->).
           ++ exfalso. by apply (rep_fresh_trip _ _ _ Hwf).
        -- rewrite Hothers by (by try eapply (rep_trip_valid s (registry s) (members s))).
           by apply start_without_notin.
Qed.

(** ** Writes to a trip that leave its lists and its start alone *)

Lemma alter_trip_views s t f :
  (∀ tr, trip_dives (f tr) = trip_dives tr) →
  (∀ tr, trip_nrdives (f tr) = trip_nrdives tr) →
  (∀ tr, trip_next (f tr) = trip_next tr) →
  (∀ tr, trip_when (f tr) = trip_when tr) →
  well_formed s →
  well_formed (set_heap_trips s (alter f t (heap_trips s))) ∧
  registry (set_heap_trips s (alter f t (heap_trips s))) = registry s ∧
  (∀ t', members (set_heap_trips s (alter f t (heap_trips s))) t' = members s t') ∧
  (∀ t', trip_start (set_heap_trips s (alter f t (heap_trips s))) t' = trip_start s t') ∧
  (trips_start_at_earliest s →
   trips_start_at_earliest (set_heap_trips s (alter f t (heap_trips s)))).
Proof.
  intros Hd Hn Hx Hw Hwf.
  pose proof (rep_alter_trip _ _ _ t f Hd Hn Hx Hwf) as Hrep.
  pose proof (registry_of_rep _ _ _ Hrep) as HR.
  assert (HM : ∀ t', members (set_heap_trips s (alter f t (heap_trips s))) t' = members s t')
    by (intros t'; by apply (members_of_rep _ _ _ _ Hrep)).
  assert (Hst : ∀ t', trip_start (set_heap_trips s (alter f t (heap_trips s))) t'
                      = trip_start s t').
  { intros t'. apply trip_start_same. cbn [heap_trips set_heap_trips].
    by apply fmap_alter_same. }
  split_and!; [by eapply rep_well_formed|done..|].
  intros Hinv t' Ht'. rewrite HR in Ht'. unfold earliest_member.
  rewrite HM, Hst. exact (Hinv _ Ht').
Qed.

Lemma alter_at {A} (f g : A → A) (l : list A) i x :
  l !! i = Some x → f x = g x → alter f i l = alter g i l.
Proof.
  intros Hi Hfg. apply list_eq. intros j.
  destruct (decide (j = i)) as [->|Hne].
  - by rewrite !list_lookup_alter_eq, Hi; cbn; rewrite Hfg.
  - by rewrite !list_lookup_alter_ne.
Qed.

Lemma alter_trip_id s t f tr :
  heap_trips s !! t = Some tr → f tr = tr →
  set_heap_trips s (alter f t (heap_trips s)) = s.
Proof.
  intros Ht Hf. rewrite (alter_at f id _ _ _ Ht Hf), list_alter_id by done.
  by destruct s.
Qed.

Lemma same_dives_but_valid d s s' y :
  same_dives_but d s s' → is_Some (heap_dives s !! y) → is_Some (heap_dives s' !! y).
Proof.
  intros Hsame Hy. apply lookup_lt_is_Some. apply lookup_lt_is_Some in Hy.
  pose proof (f_equal length (sd_dive_data _ _ _ Hsame)) as Hlen.
  rewrite !length_fmap in Hlen. lia.
Qed.

Section AutogroupFacts.
Context `{DiveParams}.

(** An ungrouped dive that needs a trip and starts less than the threshold
    after the last dive joins the trip of that dive. *)
Lemma autogroup_join s dive dv l ldv t :
  well_formed s →
  trips_start_at_earliest s →
  dives_dated s →
  heap_dives s !! dive = Some dv →
  divetrip dv = None →
  DIVE_NEEDS_TRIP dv = true →
  heap_dives s !! l = Some ldv →
  divetrip ldv = Some t →
  when dv < when ldv + TRIP_THRESHOLD →
  ∃ s1,
    (∀ table', autogroup_loop (dive :: table') (Some l) s
               = autogroup_loop table' (Some dive) s1) ∧
    well_formed s1 ∧
    trips_start_at_earliest s1 ∧
    same_dives_but dive s s1 ∧
    (∃ dv', heap_dives s1 !! dive = Some dv' ∧ divetrip dv' = Some t) ∧
    registry s1 = registry s ∧
    (∀ t', members s1 t' = if decide (t' = t) then dive :: members s t
                           else members s t') ∧
    (∀ t', trip_start s1 t' = if decide (t' = t) then Z.min (when dv) (trip_start s t)
                              else trip_start s t') ∧
    trip_autogen <$> heap_trips s1 = trip_autogen <$> heap_trips s.
Proof.
  intros Hwf Hinv Hdated Hd Hnotrip Hneeds Hl Hlt Hgap.
  destruct (rep_divetrip _ _ _ Hwf _ _ _ Hl Hlt) as (HtR & _).
  destruct (add_dive_to_trip_inv s dive dv t Hwf Hinv Hdated Hd HtR)
    as (s' & Hrun & Hwf' & Hinv' & Hsame & Hdv' & HR & HM & Hst & Hso).
  { by rewrite Hnotrip. }
  assert (Hnotin : ∀ t', dive ∉ members s t').
  { intros t'. eapply (rep_no_trip_notin s (registry s) (members s)); [done..|].
    by rewrite Hnotrip. }
  assert (HR' : registry s' = registry s).
  { rewrite HR. unfold without_trip_of. apply filter_all. apply Forall_forall.
    intros t' _ Heq. apply (Hnotin t'). rewrite Heq. by left. }
  assert (HM' : ∀ t', members s' t' = if decide (t' = t) then dive :: members s t
                                      else members s t').
  { intros t'. rewrite HM. destruct (decide (t' = t)); [done|].
    unfold without_dive. by apply filter_ne_notin. }
  assert (Hst' : ∀ t', trip_start s' t' = if decide (t' = t) then Z.min (when dv) (trip_start s t)
                                          else trip_start s t').
  { intros t'. destruct (decide (t' = t)) as [->|Hne]; [done|].
    rewrite Hso by done. by apply start_without_notin. }
  assert (Hag : trip_autogen <$> heap_trips s' = trip_autogen <$> heap_trips s).
  { pose proof (f_equal (fmap snd) (sb_trip_info _ _ _ Hsame)) as Hinfo.
    by rewrite <- !list_fmap_compose in Hinfo. }
  assert (Ht' : is_Some (heap_trips s' !! t)).
  { eapply (rep_trip_valid s' (registry s') (members s')); [done|]. by rewrite HR'. }
  destruct Ht' as [tr' Ht'].
  set (f := λ tr : dive_trip_t,
              match location dv, trip_location tr with
              | Some loc, None => set_trip_location tr (Some loc)
              | _, _ => tr
              end).
  destruct (alter_trip_views s' t f) as (Hwf1 & HR1 & HM1 & Hst1 & Hinv1);
    [by (intros tr; unfold f; destruct (location dv), (trip_location tr))..|done|].
  exists (set_heap_trips s' (alter f t (heap_trips s'))).
  split_and!.
  - intros table'. cbn [autogroup_loop].
    rewrite (run_bind _ _ _ _ _ (run_load_dive _ _ _ Hd)).
    rewrite Hnotrip, Hneeds. cbn [negb].
    erewrite run_bind.
    2: { rewrite (run_bind _ _ _ _ _ (run_load_dive _ _ _ Hl)).
         rewrite (proj2 (Z.ltb_lt _ _) Hgap). reflexivity. }
    cbn beta iota. rewrite Hlt.
    rewrite (run_bind _ _ _ _ _ Hrun).
    rewrite (run_bind _ _ _ _ _ (run_load_trip _ _ _ Ht')).
    erewrite run_bind; [reflexivity|].
    destruct (location dv) as [loc|] eqn:Hloc.
    + destruct (trip_location tr') eqn:Htl.
      * rewrite (alter_trip_id _ _ f _ Ht'); [done|]. unfold f. by rewrite Htl.
      * rewrite (run_store_trip _ _ _ (λ tr, set_trip_location tr (Some loc)) Ht').
        do 2 f_equal. eapply alter_at; [done|]. unfold f. by rewrite Htl.
    + rewrite (alter_trip_id _ _ f _ Ht'); [done|]. unfold f.
      by destruct (trip_location tr').
  - done.
  - by apply Hinv1.
  - eapply same_dives_but_trans; [by apply same_dives_but_of_trip|].
    by apply same_dives_but_heap.
  - done.
  - by rewrite HR1.
  - intros t'. by rewrite HM1.
  - intros t'. by rewrite Hst1.
  - cbn [heap_trips set_heap_trips]. rewrite fmap_alter_same; [done|].
    intros tr. unfold f. by destruct (location dv), (trip_location tr).
Qed.

(** An ungrouped dive that needs a trip and has no last dive, or starts the
    threshold or more after it, gets the trip that
    create_and_hookup_trip_from_dive gives it, and that trip is flagged. *)
Lemma autogroup_seed s dive dv lastdive :
  well_formed s →
  trips_start_at_earliest s →
  dives_dated s →
  heap_dives s !! dive = Some dv →
  divetrip dv = None →
  DIVE_NEEDS_TRIP dv = true →
  (∀ l, lastdive = Some l →
        ∃ ldv, heap_dives s !! l = Some ldv ∧ when ldv + TRIP_THRESHOLD <= when dv) →
  ∃ s1,
    (∀ table', autogroup_loop (dive :: table') lastdive s
               = autogroup_loop table' (Some dive) s1) ∧
    (let res := match same_start_trip s (when dv) with
                | Some t0 => t0
                | None => length (heap_trips s)
                end in
     well_formed s1 ∧
     trips_start_at_earliest s1 ∧
     same_dives_but dive s s1 ∧
     (∃ dv', heap_dives s1 !! dive = Some dv' ∧ divetrip dv' = Some res) ∧
     registry s1 = match same_start_trip s (when dv) with
                   | Some _ => registry s
                   | None => earlier_trips s (when dv) (registry s) ++
                             res :: later_trips s (when dv) (registry s)
                   end ∧
     (∀ t', members s1 t' = if decide (t' = res) then dive :: members s res
                            else members s t') ∧
     trip_start s1 res = when dv ∧
     (∀ t', t' ∈ registry s → trip_start s1 t' = trip_start s t') ∧
     trip_autogen <$> heap_trips s1
       = <[res := 1]> ((trip_autogen <$> heap_trips s) ++ [0])).
Proof.
  intros Hwf Hinv Hdated Hd Hnotrip Hneeds Hlast.
  destruct (create_and_hookup_inv s dive dv Hwf Hinv Hd (Hdated _ _ Hd))
    as (s' & Hrun & Hwf' & Hinv' & Hsame & Hdv' & HresR & Hres & Hnone & Hag).
  destruct (Hnone Hnotrip) as (HR & HM & Hst). clear Hnone.
  set (res := match same_start_trip s (when dv) with
              | Some t0 => t0
              | None => length (heap_trips s)
              end) in *.
  destruct (alter_trip_views s' res (λ tr, set_trip_autogen tr 1))
    as (Hwf1 & HR1 & HM1 & Hst1 & Hinv1); [done..|].
  exists (set_heap_trips s' (alter (λ tr, set_trip_autogen tr 1) res (heap_trips s'))).
  split.
  { intros table'. cbn [autogroup_loop].
    rewrite (run_bind _ _ _ _ _ (run_load_dive _ _ _ Hd)).
    rewrite Hnotrip, Hneeds. cbn [negb].
    erewrite run_bind.
    2: { instantiate (1 := s). instantiate (1 := None).
         destruct lastdive as [l|]; [|done].
         destruct (Hlast l eq_refl) as (ldv & Hl & Hgap).
         rewrite (run_bind _ _ _ _ _ (run_load_dive _ _ _ Hl)).
         by rewrite (proj2 (Z.ltb_ge _ _) Hgap). }
    cbn beta iota.
    rewrite (run_bind _ _ _ _ _ Hrun).
    erewrite run_bind; [reflexivity|].
    apply run_modify_trip'.
    by eapply (rep_trip_valid s' (registry s') (members s')). }
  cbn zeta.
  split_and!; [done|by apply Hinv1| |done|by rewrite HR1|
               by (intros t'; rewrite HM1)|by rewrite Hst1|
               by (intros t' Ht'; rewrite Hst1; apply Hst)|].
  - eapply same_dives_but_trans; [done|]. by apply same_dives_but_heap.
  - cbn [heap_trips set_heap_trips]. rewrite <- Hag.
    apply list_eq. intros i. rewrite list_lookup_fmap.
    destruct (decide (i = res)) as [->|Hne].
    + rewrite list_lookup_alter_eq.
      destruct (rep_trip_valid _ _ _ _ Hwf' HresR) as [tr Htr]. rewrite Htr.
      rewrite list_lookup_insert_eq; [done|].
      rewrite length_fmap. by eapply lookup_lt_Some.
    + rewrite list_lookup_alter_ne, list_lookup_insert_ne by done.
      by rewrite list_lookup_fmap.
Qed.

(** The loop of autogroup_dives returns, and keeps the store well formed
    and every trip at the start of its earliest member. *)
Lemma autogroup_loop_inv table : ∀ s lastdive,
  well_formed s →
  trips_start_at_earliest s →
  dives_dated s →
  (∀ d, d ∈ table → is_Some (heap_dives s !! d)) →
  (∀ l, lastdive = Some l →
        ∃ ldv t, heap_dives s !! l = Some ldv ∧ divetrip ldv = Some t) →
  ∃ s', autogroup_loop table lastdive s = Ok tt s' ∧
        well_formed s' ∧ trips_start_at_earliest s' ∧ dives_dated s'.
Proof.
  induction table as [|dive table' IH]; intros s lastdive Hwf Hinv Hdated Htab Hlast.
  { exists s. by split_and!. }
  destruct (Htab dive) as [dv Hd]; [by left|].
  assert (Hnext : ∀ s1, same_dives_but dive s s1 →
            (∃ dv' t, heap_dives s1 !! dive = Some dv' ∧ divetrip dv' = Some t) →
            well_formed s1 → trips_start_at_earliest s1 →
            ∃ s', autogroup_loop table' (Some dive) s1 = Ok tt s' ∧
                  well_formed s' ∧ trips_start_at_earliest s' ∧ dives_dated s').
  { intros s1 Hsame Hdv1 Hwf1 Hinv1. apply IH; [done|done| | |].
    - by eapply same_dives_but_dated.
    - intros y Hy. eapply same_dives_but_valid; [done|]. apply Htab. by right.
    - by intros ? [= <-]. }
  destruct (divetrip dv) as [t0|] eqn:Hnotrip.
  { (* the dive has a trip *)
    destruct (Hnext s) as (s' & Hrun & ?); [by apply same_dives_but_refl|by eauto|done..|].
    exists s'. split; [|done]. cbn [autogroup_loop].
    rewrite (run_bind _ _ _ _ _ (run_load_dive _ _ _ Hd)). by rewrite Hnotrip. }
  destruct (DIVE_NEEDS_TRIP dv) eqn:Hneeds.
  2: { (* the dive is to stay without a trip *)
    destruct (IH s None) as (s' & Hrun & ?); [done..| |done|].
    { intros y Hy. apply Htab. by right. }
    exists s'. split; [|done]. cbn [autogroup_loop].
    rewrite (run_bind _ _ _ _ _ (run_load_dive _ _ _ Hd)).
    by rewrite Hnotrip, Hneeds. }
  assert (Hseed : (∀ l, lastdive = Some l →
             ∃ ldv, heap_dives s !! l = Some ldv ∧ when ldv + TRIP_THRESHOLD <= when dv) →
           ∃ s', autogroup_loop (dive :: table') lastdive s = Ok tt s' ∧
                 well_formed s' ∧ trips_start_at_earliest s' ∧ dives_dated s').
  { intros Hfar.
    destruct (autogroup_seed s dive dv lastdive Hwf Hinv Hdated Hd Hnotrip Hneeds Hfar)
      as (s1 & Hstep & Hwf1 & Hinv1 & Hsame & (dv' & Hdv') & _).
    destruct (Hnext s1) as (s' & Hrun & ?); [done|by eauto|done..|].
    exists s'. split; [|done]. by rewrite Hstep. }
  destruct lastdive as [l|]; [|by apply Hseed].
  destruct (Hlast l eq_refl) as (ldv & t & Hl & Hlt).
  destruct (Z.lt_ge_cases (when dv) (when ldv + TRIP_THRESHOLD)) as [Hnear|Hfar].
  - destruct (autogroup_join s dive dv l ldv t Hwf Hinv Hdated Hd Hnotrip Hneeds Hl Hlt Hnear)
      as (s1 & Hstep & Hwf1 & Hinv1 & Hsame & (dv' & Hdv') & _).
    destruct (Hnext s1) as (s' & Hrun & ?); [done|by eauto|done..|].
    exists s'. split; [|done]. by rewrite Hstep.
  - apply Hseed. intros ? [= <-]. eauto.
Qed.

Lemma autogroup_dives_inv s :
  well_formed s →
  trips_start_at_earliest s →
  dives_dated s →
  ∃ s', autogroup_dives s = Ok tt s' ∧
        well_formed s' ∧ trips_start_at_earliest s' ∧ dives_dated s'.
Proof.
  intros Hwf Hinv Hdated. unfold autogroup_dives.
  unfold get_state at 1. unfold bind at 1.
  apply autogroup_loop_inv; [done..| |done].
  intros d Hd. by apply (rep_table _ _ _ Hwf).
Qed.

End AutogroupFacts.

(** ** Stores without trips *)

Lemma store_of_dives_well_formed ds :
  Forall (λ dv, divetrip dv = None) ds → well_formed (store_of_dives ds).
Proof.
  intros Hds. split.
  - reflexivity.
  - apply NoDup_nil_2.
  - intros t tr Ht. by destruct t.
  - done.
  - intros d dv t Hd Ht. exfalso.
    rewrite Forall_forall in Hds.
    assert (divetrip dv = None) as Hn; [|congruence].
    apply Hds. by eapply list_elem_of_lookup_2.
  - intros d Hd. cbn [dive_table store_of_dives] in Hd.
    apply elem_of_seq in Hd. apply lookup_lt_is_Some. cbn [heap_dives store_of_dives]. lia.
Qed.

Lemma store_of_dives_start_at_earliest ds : trips_start_at_earliest (store_of_dives ds).
Proof. intros t Ht. by apply elem_of_nil in Ht. Qed.

Lemma same_dives_but_lookup d s s' y dv :
  same_dives_but d s s' →
  heap_dives s !! y = Some dv →
  ∃ dv', heap_dives s' !! y = Some dv' ∧ when dv' = when dv ∧
         location dv' = location dv ∧
         (y ≠ d → divetrip dv' = divetrip dv ∧ tripflag dv' = tripflag dv).
Proof.
  intros Hsame Hy.
  destruct (same_dives_but_valid _ _ _ _ Hsame (mk_is_Some _ _ Hy)) as [dv' Hy'].
  exists dv'. split; [done|].
  pose proof (f_equal (λ l, l !! y) (sd_dive_data _ _ _ Hsame)) as Hdata.
  cbn beta in Hdata. rewrite !list_lookup_fmap, Hy, Hy' in Hdata.
  injection Hdata as Hw _ Hloc _ _. split_and!; [done..|].
  intros Hne. pose proof (sd_other_dives _ _ _ Hsame y Hne) as Ho.
  rewrite Hy, Hy' in Ho. by injection Ho.
Qed.

Section AutogroupExample.
Context `{DiveParams}.

(** Three ungrouped dives at T, T + 1h and T + 50h, a threshold above one
    hour and of at most 49 hours: two flagged trips, the first two dives in
    one and the third in the other. *)
Lemma autogroup_three_dives T :
  3600 < TRIP_THRESHOLD <= 176400 →
  T ≠ 0 → T + 3600 ≠ 0 → T + 180000 ≠ 0 →
  (∀ dv, tripflag dv = TF_NONE → DIVE_NEEDS_TRIP dv = true) →
  ∃ s',
    autogroup_dives (three_dives T) = Ok tt s' ∧
    well_formed s' ∧
    trips_start_at_earliest s' ∧
    registry s' = [0%nat; 1%nat] ∧
    members s' 0%nat = [1%nat; 0%nat] ∧
    members s' 1%nat = [2%nat] ∧
    trip_autogen <$> heap_trips s' = [1; 1].
Proof.
  intros HTH HT0 HT1 HT2 Hneeds.
  set (s0 := three_dives T).
  assert (Hwf0 : well_formed s0) by (apply store_of_dives_well_formed; repeat constructor).
  assert (Hinv0 : trips_start_at_earliest s0) by apply store_of_dives_start_at_earliest.
  assert (Hdated0 : dives_dated s0).
  { intros [|[|[|d]]] dv Hd; cbn in Hd; simplify_eq; done. }
  (* the first dive seeds a trip *)
  destruct (autogroup_seed s0 0%nat (plain_dive T) None Hwf0 Hinv0 Hdated0)
    as (s1 & Hstep1 & Hwf1 & Hinv1 & Hsame1 & (dv0 & Hd0 & Hdt0) & HR1 & HM1 & Hst1 & _ & Hag1);
    [done|done|by apply Hneeds|done|].
  change (same_start_trip s0 (when (plain_dive T))) with (@None trip_ptr) in *.
  cbn [length heap_trips three_dives store_of_dives s0] in Hdt0, HR1, HM1, Hst1, Hag1.
  change (registry s0) with (@nil trip_ptr) in HR1.
  cbn [earlier_trips later_trips app] in HR1.
  assert (Hdated1 : dives_dated s1) by (by eapply same_dives_but_dated).
  (* the second dive is an hour after the first *)
  destruct (same_dives_but_lookup _ _ _ 0%nat _ Hsame1 eq_refl) as (dv0' & Hd0' & Hw0 & _).
  rewrite Hd0 in Hd0'. injection Hd0' as <-.
  destruct (same_dives_but_lookup _ _ _ 1%nat _ Hsame1 eq_refl)
    as (dv1 & Hd1 & Hw1 & _ & Ho1).
  destruct Ho1 as (Hdt1 & Hfl1); [done|].
  destruct (autogroup_join s1 1%nat dv1 0%nat dv0 0%nat Hwf1 Hinv1 Hdated1 Hd1 Hdt1)
    as (s2 & Hstep2 & Hwf2 & Hinv2 & Hsame2 & (dv1' & Hd1' & Hdt1') & HR2 & HM2 & Hst2 & Hag2);
    [by apply Hneeds|done|done|rewrite Hw0, Hw1; cbn; lia|].
  assert (Hdated2 : dives_dated s2) by (by eapply same_dives_but_dated).
  (* the third dive is 49 hours after the second *)
  destruct (same_dives_but_lookup _ _ _ 2%nat _ Hsame1 eq_refl)
    as (dv2 & Hd2 & Hw2 & _ & Ho2).
  destruct Ho2 as (Hdt2 & Hfl2); [done|].
  destruct (same_dives_but_lookup _ _ _ 2%nat _ Hsame2 Hd2)
    as (dv2' & Hd2' & Hw2' & _ & Ho2').
  destruct Ho2' as (Hdt2' & Hfl2'); [done|].
  destruct (same_dives_but_lookup _ _ _ 1%nat _ Hsame2 Hd1) as (dv1'' & Hd1'' & Hw1' & _).
  rewrite Hd1' in Hd1''. injection Hd1'' as <-.
  cbn [when plain_dive tripflag divetrip] in *.
  assert (Hstart20 : trip_start s2 0%nat = T).
  { rewrite Hst2, Hst1. rewrite decide_True by done. lia. }
  assert (Hsst : same_start_trip s2 (when dv2') = None).
  { unfold same_start_trip. rewrite HR2, HR1. cbn [later_trips].
    rewrite Hstart20. rewrite (proj2 (Z.ltb_lt _ _)); [done|lia]. }
  assert (Hlen2 : length (heap_trips s2) = 1%nat).
  { pose proof (f_equal length Hag2) as Hl. rewrite Hag1 in Hl.
    by rewrite !length_fmap in Hl. }
  destruct (autogroup_seed s2 2%nat dv2' (Some 1%nat) Hwf2 Hinv2 Hdated2 Hd2')
    as (s3 & Hstep3 & Hwf3 & Hinv3 & Hsame3 & _ & HR3 & HM3 & _ & _ & Hag3);
    [congruence|apply Hneeds; congruence| |].
  { intros ? [= <-]. exists dv1'. split; [done|]. lia. }
  rewrite Hsst, Hlen2 in HR3, HM3, Hag3.
  exists s3. split_and!.
  - unfold autogroup_dives. unfold get_state at 1. unfold bind at 1.
    change (dive_table s0) with [0%nat; 1%nat; 2%nat].
    by rewrite Hstep1, Hstep2, Hstep3.
  - done.
  - done.
  - rewrite HR3, HR2, HR1. cbn [earlier_trips later_trips].
    rewrite Hstart20. rewrite (proj2 (Z.ltb_lt _ _)); [done|lia].
  - rewrite HM3, decide_False by done. rewrite HM2, decide_True by done.
    by rewrite HM1, decide_True.
  - rewrite HM3, decide_True by done. rewrite HM2, decide_False by done.
    by rewrite HM1, decide_False.
  - rewrite Hag3, Hag2, Hag1. reflexivity.
Qed.


End AutogroupExample.



(** ** find_matching_trip *)

Lemma run_find_matching_trip_loop s w L : ∀ fuel t tr,
  heap_trips s !! t = Some tr →
  tseg (heap_trips s) (trip_next tr) L None →
  (length L < fuel)%nat →
  find_matching_trip_loop fuel w t s = Ok (Some (last_at_or_before s w t L)) s.
Proof.
  induction L as [|n L IH]; intros fuel t tr Ht Hseg Hfuel.
  - simpl in Hseg. destruct fuel as [|fuel]; [simpl in Hfuel; lia|].
    cbn [find_matching_trip_loop].
    rewrite (run_bind _ _ _ _ _ (run_load_trip _ _ _ Ht)). by rewrite Hseg.
  - destruct Hseg as (Hnext & ntr & Hn & Hseg).
    destruct fuel as [|fuel]; [simpl in Hfuel; lia|].
    cbn [find_matching_trip_loop last_at_or_before].
    rewrite (run_bind _ _ _ _ _ (run_load_trip _ _ _ Ht)). rewrite Hnext.
    rewrite (run_bind _ _ _ _ _ (run_load_trip _ _ _ Hn)).
    rewrite (trip_start_lookup _ _ _ Hn).
    destruct (trip_when ntr <=? w); [|done].
    eapply IH; [done..|]. simpl in Hfuel. lia.
Qed.

Lemma run_find_matching_trip s R Mf w :
  rep s R Mf → find_matching_trip w s = Ok (matching_trip s w) s.
Proof.
  intros Hrep. unfold find_matching_trip, matching_trip.
  rewrite (registry_of_rep _ _ _ Hrep).
  unfold get_state at 1. unfold bind at 1.
  pose proof (rep_trips _ _ _ Hrep) as Hseg.
  pose proof (tseg_length _ _ _ _ Hseg (rep_trips_nodup _ _ _ Hrep)) as Hlen.
  destruct R as [|t L].
  - simpl in Hseg. by rewrite Hseg.
  - destruct Hseg as (-> & tr & Ht & Hseg).
    rewrite (run_bind _ _ _ _ _ (run_load_trip _ _ _ Ht)).
    rewrite (trip_start_lookup _ _ _ Ht).
    destruct (trip_when tr >? w); [done|].
    eapply run_find_matching_trip_loop; [done..|].
    unfold trip_fuel. simpl in Hlen. lia.
Qed.

Lemma last_at_or_before_in s w t L : last_at_or_before s w t L ∈ t :: L.
Proof.
  revert t. induction L as [|n L IH]; intros t; cbn [last_at_or_before].
  - by left.
  - destruct (trip_start s n <=? w); [|by left]. right. apply IH.
Qed.

Lemma matching_trip_in s w t : matching_trip s w = Some t → t ∈ registry s.
Proof.
  unfold matching_trip. destruct (registry s) as [|t0 L]; [done|].
  destruct (trip_start s t0 >? w); [done|]. intros [= <-].
  apply last_at_or_before_in.
Qed.

(** ** merge_trips_cb: the dives of one trip move to another *)

Lemma merge_trips_loop_inv l : ∀ s fuel this prev,
  well_formed s →
  trips_start_at_earliest s →
  dives_dated s →
  this ≠ prev →
  prev ∈ registry s →
  is_Some (heap_trips s !! this) →
  members s this = l →
  (length l < fuel)%nat →
  ∃ s',
    merge_trips_loop fuel this (Some prev) s = Ok tt s' ∧
    well_formed s' ∧
    trips_start_at_earliest s' ∧
    dives_dated s' ∧
    dive_data <$> heap_dives s' = dive_data <$> heap_dives s ∧
    dive_table s' = dive_table s ∧
    registry s' = filter (λ t, t ≠ this) (registry s) ∧
    (∀ t', members s' t' = if decide (t' = prev) then rev l ++ members s prev
                           else if decide (t' = this) then [] else members s t').
Proof.
  induction l as [|d l IH]; intros s fuel this prev Hwf Hinv Hdated Hne Hprev [tr Ht] Hl Hfuel.
  - exists s.
    destruct (rep_members _ _ _ Hwf _ _ Ht) as (Hseg & _ & _).
    rewrite Hl in Hseg. simpl in Hseg.
    split_and!; [|done..| |].
    + destruct fuel; cbn [merge_trips_loop];
        rewrite (run_bind _ _ _ _ _ (run_load_trip _ _ _ Ht)); by rewrite Hseg.
    + symmetry. apply filter_all. apply Forall_forall. intros t Hin ->.
      pose proof (Hinv _ Hin) as Hmin. unfold earliest_member in Hmin.
      by rewrite Hl in Hmin.
    + intros t'. destruct (decide (t' = prev)) as [->|]; [done|].
      destruct (decide (t' = this)) as [->|]; done.
  - destruct (rep_members _ _ _ Hwf _ _ Ht) as (Hseg & Hnd & _).
    rewrite Hl in Hseg, Hnd.
    pose proof (dseg_head _ _ _ _ _ _ Hseg) as Hhead.
    destruct (rep_members_trip _ _ _ this d Hwf) as (dv & Hd & Hdt);
      [rewrite Hl; by left|].
    destruct (add_dive_to_trip_inv s d dv prev Hwf Hinv Hdated Hd Hprev)
      as (s1 & Hrun & Hwf1 & Hinv1 & Hsame & _ & HR1 & HM1 & _); [congruence|].
    assert (Hdonly : ∀ t, d ∈ members s t → t = this).
    { intros t Hin. eapply (rep_members_disjoint s (registry s) (members s)); [done..|].
      rewrite Hl. by left. }
    apply NoDup_cons in Hnd as (Hdl & Hnd).
    destruct (IH s1 (pred fuel) this prev) as (s' & Hrun' & Hwf' & Hinv' & Hdated' & Hdata' & Htab' & HR' & HM');
      [done|done|by eapply same_but_trip_of_dated|done| | | |simpl in Hfuel; lia|].
    { rewrite HR1. apply list_elem_of_filter. split; [|done].
      intros Heq. apply Hne. symmetry. apply Hdonly. rewrite Heq. by left. }
    { apply lookup_lt_is_Some.
      destruct (same_but_trip_of_length _ _ _ Hsame) as (_ & ->).
      by eapply lookup_lt_Some. }
    { rewrite HM1. rewrite decide_False by done. unfold without_dive. rewrite Hl.
      rewrite filter_cons_False by (by intros ?).
      by apply filter_ne_notin. }
    exists s'. split_and!; [|done..| | | |].
    + destruct fuel as [|fuel]; [simpl in Hfuel; lia|].
      cbn [merge_trips_loop].
      rewrite (run_bind _ _ _ _ _ (run_load_trip _ _ _ Ht)). rewrite Hhead.
      by rewrite (run_bind _ _ _ _ _ Hrun).
    + rewrite Hdata'. apply (sb_dive_data _ _ _ Hsame).
    + rewrite Htab'. apply (sb_table _ _ _ Hsame).
    + rewrite HR', HR1. unfold without_trip_of. rewrite list_filter_filter.
      apply list_filter_iff. intros t. split; [intros (Hx & _); exact Hx|].
      intros Hnt. split; [done|]. intros Heq. apply Hnt. apply Hdonly.
      rewrite Heq. by left.
    + intros t'. rewrite HM'.
      destruct (decide (t' = prev)) as [->|Hnp].
      * rewrite HM1, decide_True by done. cbn [rev]. by rewrite <- app_assoc.
      * destruct (decide (t' = this)); [done|].
        rewrite HM1, decide_False by done.
        unfold without_dive. apply filter_ne_notin. intros Hin. by apply Hdonly in Hin.
Qed.

Lemma merge_trips_cb_inv s this_date prev_date this prev :
  well_formed s →
  trips_start_at_earliest s →
  dives_dated s →
  matching_trip s this_date = Some this →
  matching_trip s prev_date = Some prev →
  this ≠ prev →
  ∃ s',
    merge_trips_cb this_date prev_date s = Ok tt s' ∧
    well_formed s' ∧
    trips_start_at_earliest s' ∧
    dives_dated s' ∧
    dive_data <$> heap_dives s' = dive_data <$> heap_dives s ∧
    dive_table s' = dive_table s ∧
    registry s' = filter (λ t, t ≠ this) (registry s) ∧
    (∀ t', members s' t' = if decide (t' = prev) then rev (members s this) ++ members s prev
                           else if decide (t' = this) then [] else members s t').
Proof.
  intros Hwf Hinv Hdated Hthis Hprev Hne.
  pose proof (matching_trip_in _ _ _ Hthis) as HthisR.
  pose proof (matching_trip_in _ _ _ Hprev) as HprevR.
  destruct (rep_trip_valid _ _ _ _ Hwf HthisR) as [tr Ht].
  destruct (merge_trips_loop_inv (members s this) s (dive_fuel s) this prev)
    as (s' & Hrun & Hrest); [done..|by eauto|done| |].
  { destruct (rep_members _ _ _ Hwf _ _ Ht) as (Hseg & Hnd & _).
    pose proof (dseg_length _ _ _ _ _ _ Hseg Hnd). unfold dive_fuel. lia. }
  exists s'. split; [|done].
  unfold merge_trips_cb.
  rewrite (run_bind _ _ _ _ _ (run_find_matching_trip _ _ _ this_date Hwf)), Hthis.
  rewrite (run_bind _ _ _ _ _ (run_find_matching_trip _ _ _ prev_date Hwf)), Hprev.
  unfold merge_trips. rewrite decide_False by congruence.
  unfold assert, ret at 1. unfold bind at 1.
  unfold get_state at 1. unfold bind at 1. done.
Qed.

(** ** Rows in time order *)

Lemma newest_first_app rows1 rows2 :
  newest_first (rows1 ++ rows2) ↔
  newest_first rows1 ∧ newest_first rows2 ∧
  ∀ r1 r2, r1 ∈ rows1 → r2 ∈ rows2 → DIVE_DATE r2 < DIVE_DATE r1.
Proof.
  induction rows1 as [|r rows1 IH]; cbn [app newest_first].
  - split; [intros ?; split_and!; [done..|]|by intros (_ & ? & _)].
    intros r1 r2 Hin. by apply elem_of_nil in Hin.
  - rewrite Forall_app, IH, !Forall_forall. split.
    + intros ((H1 & H2) & H3 & H4 & H5). split_and!; [done..|].
      intros r1 r2 Hr1 Hr2. apply elem_of_cons in Hr1 as [->|Hr1]; [by apply H2|by apply H5].
    + intros ((H1 & H2) & H3 & H4). split_and!; [done| |done..|].
      * intros r2 Hr2. apply H4; [by left|done].
      * intros r1 r2 Hr1 Hr2. apply H4; [by right|done].
Qed.

Lemma newest_first_take rows n : newest_first rows → newest_first (take n rows).
Proof.
  intros Hs. rewrite <- (take_drop n rows) in Hs. by apply newest_first_app in Hs as (? & _).
Qed.

Lemma newest_first_drop rows n : newest_first rows → newest_first (drop n rows).
Proof.
  intros Hs. rewrite <- (take_drop n rows) in Hs. by apply newest_first_app in Hs as (_ & ? & _).
Qed.

Lemma newest_first_lt rows i j ri rj :
  newest_first rows → (i < j)%nat →
  rows !! i = Some ri → rows !! j = Some rj → DIVE_DATE rj < DIVE_DATE ri.
Proof.
  intros Hs Hij Hi Hj. rewrite <- (take_drop j rows) in Hs.
  apply newest_first_app in Hs as (_ & _ & Hlt). apply Hlt.
  - apply list_elem_of_lookup. exists i. by rewrite lookup_take_lt.
  - apply list_elem_of_lookup. exists 0%nat. rewrite lookup_drop. by rewrite Nat.add_0_r.
Qed.

(** In such a list the last row has the least date, which is what the
    first and the last row give to update_trip_timestamp. *)
Lemma newest_first_min rows r :
  newest_first (rows ++ [r]) →
  first_last_min (rows ++ [r]) = DIVE_DATE r ∧
  min_when (map DIVE_DATE (rows ++ [r])) = Some (DIVE_DATE r).
Proof.
  intros Hs. apply newest_first_app in Hs as (_ & _ & Hlt). split.
  - destruct rows as [|r0 rows]; [cbn; lia|].
    unfold first_last_min. cbn [app].
    change (r0 :: rows ++ [r]) with ((r0 :: rows) ++ [r]). rewrite last_last.
    rewrite Z.min_r; [done|].
    apply Z.lt_le_incl. apply Hlt; [by left|by left].
  - apply min_when_spec. split.
    + apply list_elem_of_fmap. exists r. split; [done|]. apply elem_of_app. right. by left.
    + intros w Hw. apply list_elem_of_fmap in Hw as (r' & -> & Hr').
      apply elem_of_app in Hr' as [Hr'|Hr'].
      * apply Z.lt_le_incl. apply Hlt; [done|by left].
      * apply list_elem_of_singleton in Hr' as ->. lia.
Qed.

Lemma run_update_trip_timestamp parent t s :
  node_children parent ≠ [] →
  is_Some (heap_trips s !! t) →
  update_trip_timestamp parent (Some t) s
  = Ok (set_node_date parent (first_last_min (node_children parent)))
       (set_heap_trips s
          (alter (λ tr, set_trip_when tr (first_last_min (node_children parent))) t
             (heap_trips s))).
Proof.
  intros Hne Ht. unfold update_trip_timestamp, first_last_min.
  destruct (node_children parent) as [|f rows]; [done|].
  by rewrite (run_bind _ _ _ _ _ (run_modify_trip' _ _ _ Ht)).
Qed.

(** ** Which trip find_matching_trip returns *)

Lemma last_at_or_before_app s w t L1 L2 :
  Forall (λ a, trip_start s a <= w) L1 →
  last_at_or_before s w t (L1 ++ L2)
  = last_at_or_before s w (default t (last L1)) L2.
Proof.
  revert t. induction L1 as [|a L1 IH]; intros t Hall; [done|].
  apply Forall_cons in Hall as (Ha & Hall). cbn [app last_at_or_before].
  rewrite (proj2 (Z.leb_le _ _) Ha). rewrite IH by done.
  f_equal. rewrite last_cons. by destruct (last L1).
Qed.

Lemma matching_trip_at s w L1 x L2 :
  registry s = L1 ++ x :: L2 →
  Forall (λ a, trip_start s a <= w) L1 →
  trip_start s x <= w →
  (∀ y, head L2 = Some y → w < trip_start s y) →
  matching_trip s w = Some x.
Proof.
  intros HR Hall Hx Hy. unfold matching_trip. rewrite HR.
  assert (Hstop : ∀ t, last_at_or_before s w t (x :: L2) = x).
  { intros t. cbn [last_at_or_before]. rewrite (proj2 (Z.leb_le _ _) Hx).
    destruct L2 as [|y L2]; [done|]. cbn [last_at_or_before].
    rewrite (proj2 (Z.leb_gt _ _)); [done|]. by apply Hy. }
  assert (Hgt : ∀ a, trip_start s a <= w → (trip_start s a >? w) = false).
  { intros a Ha. rewrite Z.gtb_ltb. apply Z.ltb_ge. lia. }
  destruct L1 as [|a L1]; cbn [app].
  - rewrite Hgt by done. f_equal.
    destruct L2 as [|y L2]; cbn [last_at_or_before]; [done|].
    rewrite (proj2 (Z.leb_gt _ _)); [done|]. by apply Hy.
  - apply Forall_cons in Hall as (Ha & Hall).
    rewrite Hgt by done. f_equal.
    rewrite last_at_or_before_app by done. apply Hstop.
Qed.

Lemma min_when_set ws1 ws2 :
  (∀ w, w ∈ ws1 ↔ w ∈ ws2) → min_when ws1 = min_when ws2.
Proof.
  intros Hset. destruct (min_when ws1) as [m|] eqn:H1.
  - symmetry. apply min_when_spec. apply min_when_spec in H1 as (Hin & Hle).
    split; [by apply Hset|]. intros w Hw. apply Hle. by apply Hset.
  - apply min_when_None in H1. subst ws1. symmetry. apply min_when_None.
    destruct ws2 as [|w ws2]; [done|]. exfalso.
    eapply elem_of_nil. apply Hset. by left.
Qed.

(** ** The rows of the dives of a trip *)

Lemma rows_of_dives_lookup s rows ds i row :
  rows_of_dives s rows ds → rows !! i = Some row →
  ∃ d, ds !! i = Some d ∧ get_dive s (DIVE_INDEX row) = Some d ∧
       DIVE_DATE row = dive_when s d.
Proof.
  intros Hrows Hi. destruct (Forall2_lookup_l _ _ _ _ _ Hrows Hi) as (d & Hd & ? & ?).
  by exists d.
Qed.

Lemma rows_of_dives_length s rows ds : rows_of_dives s rows ds → length rows = length ds.
Proof. apply Forall2_length. Qed.

Lemma rows_of_dives_dates s rows ds :
  rows_of_dives s rows ds → map DIVE_DATE rows = map (dive_when s) ds.
Proof.
  induction 1 as [|row d rows ds (_ & Hdate) _ IH]; [done|].
  cbn [map]. by rewrite Hdate, IH.
Qed.

Lemma rows_of_dives_ext s s' rows ds :
  dive_table s' = dive_table s →
  (∀ d, dive_when s' d = dive_when s d) →
  rows_of_dives s rows ds → rows_of_dives s' rows ds.
Proof.
  intros Htab Hwhen Hrows. eapply Forall2_impl; [exact Hrows|].
  intros row d (Hget & Hdate). unfold get_dive in *. by rewrite Htab, Hwhen.
Qed.

Lemma rows_of_dives_take s rows ds n :
  rows_of_dives s rows ds → rows_of_dives s (take n rows) (take n ds).
Proof. apply Forall2_take. Qed.

Lemma rows_of_dives_drop s rows ds n :
  rows_of_dives s rows ds → rows_of_dives s (drop n rows) (drop n ds).
Proof. apply Forall2_drop. Qed.

(** ** Trips that follow each other in time *)

Lemma trips_apart_before s A t B a :
  well_formed s → trips_start_at_earliest s → trips_apart s →
  registry s = A ++ t :: B → a ∈ A → trip_start s a < trip_start s t.
Proof.
  intros Hwf Hinv Hapart HR Ha.
  apply list_elem_of_split in Ha as (A1 & A2 & ->).
  assert (HaR : a ∈ registry s).
  { rewrite HR. apply elem_of_app. left. apply elem_of_app. right. by left. }
  pose proof (Hinv _ HaR) as Hmin. apply min_when_elem in Hmin.
  apply list_elem_of_fmap in Hmin as (d & -> & Hd).
  eapply (Hapart A1 a (A2 ++ t :: B)); [by rewrite HR, <- app_assoc| |done].
  apply elem_of_app. right. by left.
Qed.

Lemma trips_apart_after s A t B b d :
  trips_apart s → registry s = A ++ t :: B → b ∈ B → d ∈ members s t →
  dive_when s d < trip_start s b.
Proof. intros Hapart HR Hb Hd. by eapply Hapart. Qed.

(** ** insert_trip_before: one turn of the loop *)

Lemma dive_when_same_data s s' d :
  dive_data <$> heap_dives s' = dive_data <$> heap_dives s →
  dive_when s' d = dive_when s d.
Proof.
  intros Hdata. pose proof (f_equal (λ l, l !! d) Hdata) as Hd. cbn beta in Hd.
  rewrite !list_lookup_fmap in Hd. unfold dive_when.
  destruct (heap_dives s' !! d), (heap_dives s !! d); try done.
  by injection Hd.
Qed.

Lemma dives_dated_same_data s s' :
  dive_data <$> heap_dives s' = dive_data <$> heap_dives s →
  dives_dated s → dives_dated s'.
Proof.
  intros Hdata Hdated d dv Hd.
  pose proof (dive_when_same_data _ _ d Hdata) as Hw.
  rewrite (dive_when_lookup _ _ _ Hd) in Hw. rewrite Hw.
  pose proof (f_equal (λ l, l !! d) Hdata) as Hl. cbn beta in Hl.
  rewrite !list_lookup_fmap, Hd in Hl.
  destruct (heap_dives s !! d) as [dv0|] eqn:Hd0; [|done].
  rewrite (dive_when_lookup _ _ _ Hd0). by eapply Hdated.
Qed.

Lemma delete_take_last {A} (l : list A) i :
  (i < length l)%nat → delete i (take (S i) l) = take i l.
Proof.
  revert i. induction l as [|x l IH]; intros i Hi; [simpl in Hi; lia|].
  destruct i as [|i]; [done|]. cbn [take delete list_delete]. f_equal.
  apply IH. simpl in Hi. lia.
Qed.

Lemma elem_of_drop_in {A} (l : list A) n x : x ∈ drop n l → x ∈ l.
Proof.
  intros Hx. rewrite <- (take_drop n l). apply elem_of_app. by right.
Qed.

Lemma elem_of_take_in {A} (l : list A) n x : x ∈ take n l → x ∈ l.
Proof.
  intros Hx. rewrite <- (take_drop n l). apply elem_of_app. by left.
Qed.

Lemma newest_first_min_drop rows i :
  newest_first rows → (i < length rows)%nat →
  first_last_min (drop i rows) = first_last_min rows.
Proof.
  intros Hsorted Hi. destruct (decide (rows = [])) as [->|Hne]; [simpl in Hi; lia|].
  destruct (exists_last Hne) as (rows' & r & ->).
  assert (Hlen : (i <= length rows')%nat).
  { rewrite length_app in Hi. simpl in Hi. lia. }
  rewrite drop_app_le by done.
  destruct (newest_first_min rows' r Hsorted) as (-> & _).
  apply (newest_first_drop _ i) in Hsorted. rewrite drop_app_le in Hsorted by done.
  by destruct (newest_first_min _ r Hsorted) as (-> & _).
Qed.

Lemma newest_first_min_take rows i row :
  newest_first rows → rows !! i = Some row →
  first_last_min (take (S i) rows) = DIVE_DATE row.
Proof.
  intros Hsorted Hi. rewrite (take_S_r _ _ _ Hi).
  pose proof (newest_first_take _ (S i) Hsorted) as Hs.
  rewrite (take_S_r _ _ _ Hi) in Hs.
  by destruct (newest_first_min _ _ Hs) as (-> & _).
Qed.

Lemma newest_first_min_le rows i row :
  newest_first rows → rows !! i = Some row →
  first_last_min rows <= DIVE_DATE row.
Proof.
  intros Hsorted Hi. pose proof (lookup_lt_Some _ _ _ Hi) as Hlt.
  rewrite <- (newest_first_min_drop rows i Hsorted Hlt).
  pose proof (newest_first_drop _ i Hsorted) as Hs.
  destruct (decide (drop i rows = [])) as [He|Hne].
  { apply (f_equal length) in He. rewrite length_drop in He. simpl in He. lia. }
  destruct (exists_last Hne) as (rows' & r & Hr). rewrite Hr in Hs. rewrite Hr.
  destruct (newest_first_min _ _ Hs) as (-> & Hmin).
  eapply min_when_le; [exact Hmin|].
  apply list_elem_of_fmap. exists row. split; [done|]. rewrite <- Hr.
  apply list_elem_of_lookup. exists 0%nat. by rewrite lookup_drop, Nat.add_0_r.
Qed.

(** ** Rows in the other order *)

Lemma oldest_first_app rows1 rows2 :
  oldest_first (rows1 ++ rows2) ↔
  oldest_first rows1 ∧ oldest_first rows2 ∧
  ∀ r1 r2, r1 ∈ rows1 → r2 ∈ rows2 → DIVE_DATE r1 < DIVE_DATE r2.
Proof.
  induction rows1 as [|r rows1 IH]; cbn [app oldest_first].
  - split; [intros ?; split_and!; [done..|]|by intros (_ & ? & _)].
    intros r1 r2 Hin. by apply elem_of_nil in Hin.
  - rewrite Forall_app, IH, !Forall_forall. split.
    + intros ((H1 & H2) & H3 & H4 & H5). split_and!; [done..|].
      intros r1 r2 Hr1 Hr2. apply elem_of_cons in Hr1 as [->|Hr1]; [by apply H2|by apply H5].
    + intros ((H1 & H2) & H3 & H4). split_and!; [done| |done..|].
      * intros r2 Hr2. apply H4; [by left|done].
      * intros r1 r2 Hr1 Hr2. apply H4; [by right|done].
Qed.

Lemma oldest_first_take rows n : oldest_first rows → oldest_first (take n rows).
Proof.
  intros Hs. rewrite <- (take_drop n rows) in Hs. by apply oldest_first_app in Hs as (? & _).
Qed.

Lemma oldest_first_drop rows n : oldest_first rows → oldest_first (drop n rows).
Proof.
  intros Hs. rewrite <- (take_drop n rows) in Hs. by apply oldest_first_app in Hs as (_ & ? & _).
Qed.

Lemma oldest_first_lt rows i j ri rj :
  oldest_first rows → (i < j)%nat →
  rows !! i = Some ri → rows !! j = Some rj → DIVE_DATE ri < DIVE_DATE rj.
Proof.
  intros Hs Hij Hi Hj. rewrite <- (take_drop j rows) in Hs.
  apply oldest_first_app in Hs as (_ & _ & Hlt). apply Hlt.
  - apply list_elem_of_lookup. exists i. by rewrite lookup_take_lt.
  - apply list_elem_of_lookup. exists 0%nat. rewrite lookup_drop. by rewrite Nat.add_0_r.
Qed.

Lemma last_default_elem_of {A} (l : list A) d : l ≠ [] → List.last l d ∈ l.
Proof.
  induction l as [|x l IH]; [done|]. intros _.
  destruct l as [|y l]; [by left|]. right. by apply IH.
Qed.

(** In such a list the first row has the least date. *)
Lemma oldest_first_min r rows :
  oldest_first (r :: rows) →
  first_last_min (r :: rows) = DIVE_DATE r ∧
  min_when (map DIVE_DATE (r :: rows)) = Some (DIVE_DATE r).
Proof.
  intros (Hlt & _). rewrite Forall_forall in Hlt.
  assert (Hle : ∀ r', r' ∈ r :: rows → DIVE_DATE r <= DIVE_DATE r').
  { intros r' Hr'. apply elem_of_cons in Hr' as [->|Hr']; [lia|].
    apply Z.lt_le_incl. by apply Hlt. }
  split.
  - unfold first_last_min. apply Z.min_l. apply Hle.
    by apply last_default_elem_of.
  - apply min_when_spec. split.
    + apply list_elem_of_fmap. exists r. split; [done|by left].
    + intros w Hw. apply list_elem_of_fmap in Hw as (r' & -> & Hr'). by apply Hle.
Qed.

Lemma oldest_first_min_take rows i r0 :
  oldest_first rows → rows !! 0%nat = Some r0 →
  first_last_min (take (S i) rows) = DIVE_DATE r0.
Proof.
  intros Hs H0. destruct rows as [|r rows]; [done|]. injection H0 as ->.
  apply (oldest_first_take _ (S i)) in Hs. cbn [take] in *.
  by destruct (oldest_first_min _ _ Hs) as (-> & _).
Qed.

Lemma oldest_first_min_drop rows i row :
  oldest_first rows → rows !! i = Some row →
  first_last_min (drop i rows) = DIVE_DATE row.
Proof.
  intros Hs Hi. apply (oldest_first_drop _ i) in Hs.
  rewrite (drop_S _ _ _ Hi) in Hs |- *.
  by destruct (oldest_first_min _ _ Hs) as (-> & _).
Qed.

(** ** Rows in either order *)

Lemma in_time_order_take desc rows n :
  in_time_order desc rows → in_time_order desc (take n rows).
Proof. destruct desc; [apply newest_first_take|apply oldest_first_take]. Qed.

Lemma in_time_order_drop desc rows n :
  in_time_order desc rows → in_time_order desc (drop n rows).
Proof. destruct desc; [apply newest_first_drop|apply oldest_first_drop]. Qed.

(** What update_trip_timestamp takes from the first and the last row is
    the least date of the rows. *)
Lemma in_time_order_min desc rows :
  in_time_order desc rows → rows ≠ [] →
  min_when (map DIVE_DATE rows) = Some (first_last_min rows).
Proof.
  intros Hs Hne. destruct desc.
  - destruct (exists_last Hne) as (rows' & r & ->).
    by destruct (newest_first_min _ _ Hs) as (-> & ->).
  - destruct rows as [|r rows]; [done|].
    by destruct (oldest_first_min _ _ Hs) as (-> & ->).
Qed.

Lemma in_time_order_inj desc rows i j ri rj :
  in_time_order desc rows →
  rows !! i = Some ri → rows !! j = Some rj →
  DIVE_DATE ri = DIVE_DATE rj → i = j.
Proof.
  intros Hs Hi Hj Heq.
  destruct (Nat.lt_trichotomy i j) as [Hlt|[?|Hlt]]; [|done|]; exfalso; destruct desc.
  - pose proof (newest_first_lt _ _ _ _ _ Hs Hlt Hi Hj). lia.
  - pose proof (oldest_first_lt _ _ _ _ _ Hs Hlt Hi Hj). lia.
  - pose proof (newest_first_lt _ _ _ _ _ Hs Hlt Hj Hi). lia.
  - pose proof (oldest_first_lt _ _ _ _ _ Hs Hlt Hj Hi). lia.
Qed.

(** The date that update_trip_timestamp computes is the date of a row. *)
Lemma in_time_order_min_row desc rows :
  in_time_order desc rows → rows ≠ [] →
  ∃ j row, rows !! j = Some row ∧ first_last_min rows = DIVE_DATE row.
Proof.
  intros Hs Hne. pose proof (in_time_order_min _ _ Hs Hne) as Hmin.
  apply min_when_elem in Hmin. apply list_elem_of_fmap in Hmin as (row & Hrow & Hin).
  apply list_elem_of_lookup in Hin as (j & Hj). by exists j, row.
Qed.

Lemma in_time_order_min_le desc rows i row :
  in_time_order desc rows → rows !! i = Some row →
  first_last_min rows <= DIVE_DATE row.
Proof.
  intros Hs Hi.
  assert (Hne : rows ≠ []) by (by intros ->).
  eapply min_when_le; [by eapply in_time_order_min|].
  apply list_elem_of_fmap. exists row. split; [done|]. by eapply list_elem_of_lookup_2.
Qed.

Lemma row_date_lookup rows i row : rows !! i = Some row → row_date rows i = DIVE_DATE row.
Proof. intros Hi. unfold row_date. by rewrite Hi. Qed.

(** The start of the new trip in the loop is the date of a row: of the
    row of the split, or of a row that has moved. *)
Lemma split_new_start_row desc rows k n :
  in_time_order desc rows → (k < length rows)%nat → (n <= length rows)%nat →
  ∃ j row, rows !! j = Some row ∧ split_new_start rows k n = DIVE_DATE row ∧
           (j = k ∨ (n <= j)%nat).
Proof.
  intros Hs Hk Hn. unfold split_new_start.
  destruct (decide (n = length rows)) as [->|Hne].
  - destruct (lookup_lt_is_Some_2 rows k Hk) as [row Hrow].
    exists k, row. split_and!; [done|by apply row_date_lookup|by left].
  - destruct (in_time_order_min_row desc (drop n rows)) as (j & row & Hj & Hmin).
    + by apply in_time_order_drop.
    + intros He. apply (f_equal length) in He. rewrite length_drop in He.
      simpl in He. lia.
    + rewrite lookup_drop in Hj. exists (n + j)%nat, row.
      split_and!; [done|done|right; lia].
Qed.

Section SplitInOrder.
Variables (s0 : state) (rows : list tree_row) (ds : list dive_ptr) (k : nat).
Variables (old new : trip_ptr) (A B : list trip_ptr) (desc : bool).
Hypothesis Hdated0 : ∀ d, d ∈ ds → dive_when s0 d ≠ 0.
Hypothesis Hrows : rows_of_dives s0 rows ds.
Hypothesis Hnd : NoDup ds.
Hypothesis Hsorted : in_time_order desc rows.
Hypothesis Hk : (0 < k < length rows)%nat.
Hypothesis Hreg0 : registry s0 = A ++ old :: B.
Hypothesis Hnew : new ∉ registry s0.
Hypothesis HA : Forall (λ a, trip_start s0 a < first_last_min rows) A.
Hypothesis HndR : NoDup (registry s0).

(** The registry with the new trip: before the old trip when the rows are
    newest first, behind it when they are oldest first. *)
Local Abbreviation R3 :=
  (if desc then A ++ new :: old :: B else A ++ old :: new :: B).
Local Abbreviation split_at := (split_state s0 rows ds k old new R3).

Lemma split_new_old : new ≠ old.
Proof.
  intros ->. apply Hnew. rewrite Hreg0. apply elem_of_app. right. by left.
Qed.

Lemma split_new_in : new ∈ R3.
Proof.
  destruct desc; apply elem_of_app; right; [by left|right; by left].
Qed.

Lemma split_old_in : old ∈ R3.
Proof.
  destruct desc; apply elem_of_app; right; [right; by left|by left].
Qed.

Lemma split_A_in a : a ∈ A → a ∈ registry s0 ∧ a ≠ old.
Proof.
  intros Ha. split; [rewrite Hreg0; apply elem_of_app; by left|].
  intros ->. pose proof HndR as HndR'. rewrite Hreg0 in HndR'.
  apply NoDup_app in HndR' as (_ & Hdisj & _). eapply Hdisj; [done|by left].
Qed.

Lemma split_min_le i row :
  rows !! i = Some row → first_last_min rows <= DIVE_DATE row.
Proof. by apply in_time_order_min_le with desc. Qed.

(** Every dive of the rows is no earlier than the least date. *)
Lemma split_dive_date d :
  d ∈ ds → first_last_min rows <= dive_when s0 d.
Proof.
  intros Hd. apply list_elem_of_lookup in Hd as (j & Hj).
  destruct (Forall2_lookup_r _ _ _ _ _ Hrows Hj) as (row & Hrow & _ & Hdate).
  rewrite <- Hdate. by eapply split_min_le.
Qed.

Lemma split_row_nonzero i row : rows !! i = Some row → DIVE_DATE row ≠ 0.
Proof.
  intros Hi. destruct (rows_of_dives_lookup _ _ _ _ _ Hrows Hi) as (d & Hd & _ & ->).
  apply Hdated0. by eapply list_elem_of_lookup_2.
Qed.

Lemma split_lookup_inj i j d :
  ds !! i = Some d → ds !! j = Some d → i = j.
Proof. intros Hi Hj. exact (NoDup_lookup _ _ _ _ Hnd Hi Hj). Qed.

Lemma split_take_S i d d' :
  ds !! i = Some d → d' ∈ take (S i) ds ↔ d' ∈ take i ds ∨ d' = d.
Proof.
  intros Hi. rewrite (take_S_r _ _ _ Hi), elem_of_app, list_elem_of_singleton. tauto.
Qed.

Lemma split_drop_S i d d' :
  ds !! i = Some d → d' ∈ drop i ds ↔ d' = d ∨ d' ∈ drop (S i) ds.
Proof.
  intros Hi. rewrite (drop_S _ _ _ Hi), elem_of_cons. tauto.
Qed.

Lemma split_not_in_take i d : ds !! i = Some d → d ∉ take i ds.
Proof.
  intros Hi Hin. apply list_elem_of_lookup in Hin as (j & Hj).
  pose proof (lookup_lt_Some _ _ _ Hj) as Hlt. rewrite length_take in Hlt.
  rewrite lookup_take_lt in Hj by lia.
  pose proof (split_lookup_inj _ _ _ Hi Hj). lia.
Qed.

(** The start of the old trip in the loop is the date of a row above the
    split, which is not the date of a row from the split on. *)
Lemma split_old_start_row :
  ∃ j row, (j < k)%nat ∧ rows !! j = Some row ∧
           first_last_min (take k rows) = DIVE_DATE row.
Proof.
  destruct (in_time_order_min_row desc (take k rows)) as (j & row & Hj & Hmin).
  - by apply in_time_order_take.
  - intros He. apply (f_equal length) in He. rewrite length_take in He. simpl in He. lia.
  - pose proof (lookup_lt_Some _ _ _ Hj) as Hlt. rewrite length_take in Hlt.
    rewrite lookup_take_lt in Hj by lia. exists j, row. split_and!; [lia|done..].
Qed.

Lemma split_old_start_ne i row :
  (k <= i)%nat → rows !! i = Some row → first_last_min (take k rows) ≠ DIVE_DATE row.
Proof.
  intros Hi Hrow Heq. destruct split_old_start_row as (j & rj & Hj & Hrj & Hmin).
  rewrite Hmin in Heq.
  pose proof (in_time_order_inj _ _ _ _ _ _ Hsorted Hrj Hrow Heq). lia.
Qed.

(** add_dive_to_trip in the loop: the dive of row [i] joins the new trip,
    where the dive the trip is split at is already. *)
Lemma split_add i d s parent newparent :
  (k <= i < length rows)%nat →
  ds !! i = Some d →
  split_at (S i) s parent newparent →
  ∃ s1,
    add_dive_to_trip d (Some new) s = Ok tt s1 ∧
    well_formed s1 ∧
    registry s1 = R3 ∧
    (∀ d', d' ∈ members s1 new ↔ d' ∈ drop i ds ∨ ds !! k = Some d') ∧
    (∀ d', d' ∈ members s1 old ↔ d' ∈ take i ds ∧ ds !! k ≠ Some d') ∧
    (∀ t, t ≠ new → t ≠ old → members s1 t = members s0 t) ∧
    trip_start s1 new
      = (if decide (i = k) then split_new_start rows k (S i)
         else Z.min (dive_when s0 d) (split_new_start rows k (S i))) ∧
    trip_start s1 old = first_last_min (take k rows) ∧
    (∀ t, t ∈ registry s0 → t ≠ old → trip_start s1 t = trip_start s0 t) ∧
    dive_data <$> heap_dives s1 = dive_data <$> heap_dives s0 ∧
    dive_table s1 = dive_table s0.
Proof.
  intros Hi Hdi [Hp Hpd Hnp _ Hwf HR Hmnew Hmold Hoth Hns Hos Hots Hdata Htab].
  assert (Hwhen : ∀ y, dive_when s y = dive_when s0 y)
    by (intros y; by apply dive_when_same_data).
  pose proof (rows_of_dives_length _ _ _ Hrows) as Hlen.
  destruct (decide (i = k)) as [->|Hik].
  - (* the dive the trip is split at *)
    assert (Hin : d ∈ members s new) by (apply Hmnew; by right).
    destruct (rep_members_trip _ _ _ _ _ Hwf Hin) as (dv & Hd & Hdt).
    exists s. split_and!; [by eapply add_dive_to_trip_same_trip|done|done| | |done..].
    + intros d'. rewrite Hmnew, (split_drop_S _ _ d' Hdi).
      split; [tauto|]. intros [[->|?]|?]; tauto.
    + intros d'. rewrite Hmold, (split_take_S _ _ d' Hdi).
      split; [|tauto]. intros ([?| ->] & Hne); [tauto|]. done.
  - (* a dive of the old trip *)
    assert (Hin : d ∈ members s old).
    { apply Hmold. split.
      - apply list_elem_of_lookup. exists i. rewrite lookup_take_lt by lia. done.
      - intros Hk'. apply Hik. by eapply split_lookup_inj. }
    destruct (rep_members_trip _ _ _ _ _ Hwf Hin) as (dv & Hd & Hdt).
    assert (Hrep : rep s R3 (members s)) by (rewrite <- HR; exact Hwf).
    destruct (add_dive_to_trip_spec s R3 (members s) d dv new Hrep Hd split_new_in)
      as (s1 & Hrun & Hrep1 & Hsame & _ & Hst & _).
    { rewrite Hns.
      destruct (split_new_start_row desc rows k (S i) Hsorted ltac:(lia) ltac:(lia))
        as (j & row & Hj & -> & _).
      by eapply split_row_nonzero. }
    { rewrite Hdt. intros [= Heq]. by apply split_new_old. }
    assert (Honly : ∀ t, d ∈ members s t → t = old).
    { intros t Ht. by eapply (rep_members_disjoint s (registry s) (members s)). }
    assert (Hd0 : ∃ d0, ds !! 0%nat = Some d0) by (apply lookup_lt_is_Some; lia).
    destruct Hd0 as [d0 Hd0].
    assert (Hd0old : d0 ∈ members s old).
    { apply Hmold. split.
      - apply list_elem_of_lookup. exists 0%nat. rewrite lookup_take_lt by lia. done.
      - intros Hk'. pose proof (split_lookup_inj _ _ _ Hd0 Hk'). lia. }
    assert (HR1 : without_trip_of d (members s) R3 = R3).
    { apply filter_all. apply Forall_forall. intros t _ Heq.
      assert (t = old) as -> by (apply Honly; rewrite Heq; by left).
      rewrite Heq in Hd0old. apply list_elem_of_singleton in Hd0old as ->.
      pose proof (split_lookup_inj _ _ _ Hd0 Hdi). lia. }
    rewrite HR1 in Hrep1.
    pose proof (registry_of_rep _ _ _ Hrep1) as HR1'.
    assert (HM1 : ∀ t, members s1 t = if decide (t = new) then d :: members s new
                                      else filter (λ y, y ≠ d) (members s t)).
    { intros t. rewrite (members_of_rep _ _ _ t Hrep1).
      destruct (decide (t = new)) as [->|Hne].
      - by rewrite fn_lookup_insert.
      - by rewrite fn_lookup_insert_ne. }
    assert (Hdw : dive_when s d <> 0).
    { rewrite Hwhen. apply Hdated0. by eapply list_elem_of_lookup_2. }
    destruct (Forall2_lookup_r _ _ _ _ _ Hrows Hdi) as (row & Hrow & _ & Hdate).
    exists s1. split_and!; [done|by eapply rep_well_formed|done| | | | | | | |].
    + intros d'. rewrite HM1, decide_True by done.
      rewrite elem_of_cons, Hmnew, (split_drop_S _ _ d' Hdi). tauto.
    + intros d'. rewrite HM1, decide_False by (intros Heq; by apply split_new_old).
      rewrite list_elem_of_filter, Hmold, (split_take_S _ _ d' Hdi).
      pose proof (split_not_in_take _ _ Hdi).
      split; [intros (Hne & [Ht| ->] & Hk'); [done|done]|].
      intros (Ht & Hk'). split_and!; [by intros ->|by left|done].
    + intros t Hn Ho. rewrite HM1, decide_False by done.
      rewrite filter_ne_notin; [by apply Hoth|].
      intros Ht. by apply Ho, Honly.
    + rewrite Hst, decide_True by done. rewrite start_with_min by done.
      by rewrite Hwhen, Hns.
    + rewrite Hst, decide_False by (intros Heq; by apply split_new_old).
      unfold start_without. rewrite decide_False; [done|].
      intros (_ & Heq). rewrite Hos, Hwhen, <- Hdate in Heq.
      eapply (split_old_start_ne i row); [lia|done..].
    + intros t Ht Ho.
      assert (t ≠ new) by (intros ->; done).
      rewrite Hst, decide_False by done.
      rewrite start_without_notin; [by apply Hots|].
      intros Hin'. by apply Ho, Honly.
    + rewrite <- Hdata. apply (sb_dive_data _ _ _ Hsame).
    + rewrite <- Htab. apply (sb_table _ _ _ Hsame).
Qed.

Lemma split_matched_cases :
  (if desc then new else old) = new ∨ (if desc then new else old) = old.
Proof. destruct desc; [by left|by right]. Qed.

Lemma split_matched_old : (if desc then new else old) = old → desc = false.
Proof.
  pose proof split_new_old as Hne. destruct desc; [|done]. intros Heq. by destruct Hne.
Qed.

Lemma split_matched_in : (if desc then new else old) ∈ R3.
Proof.
  destruct desc; apply elem_of_app; right; [by left|by left].
Qed.

(** The trip that find_matching_trip returns for the date of the old row
    after add_dive_to_trip: the new trip when the rows are newest first,
    the old trip, whose start the date is, when they are oldest first. *)
Lemma split_match i row d s1 :
  (k <= i < length rows)%nat →
  rows !! i = Some row →
  ds !! i = Some d →
  registry s1 = R3 →
  trip_start s1 new
    = (if decide (i = k) then split_new_start rows k (S i)
       else Z.min (dive_when s0 d) (split_new_start rows k (S i))) →
  trip_start s1 old = first_last_min (take k rows) →
  (∀ t, t ∈ registry s0 → t ≠ old → trip_start s1 t = trip_start s0 t) →
  matching_trip s1 (first_last_min (take (S i) rows))
    = Some (if desc then new else old) ∧
  (desc = false → first_last_min (take i rows) = first_last_min (take k rows)).
Proof.
  intros Hi Hrow Hdi HR1 Hsn Hso Hsx.
  destruct (rows_of_dives_lookup _ _ _ _ _ Hrows Hrow) as (d' & Hdi' & _ & Hdate).
  rewrite Hdi in Hdi'. injection Hdi' as <-.
  assert (HAle : ∀ w, first_last_min rows <= w → Forall (λ a, trip_start s1 a <= w) A).
  { intros w Hw. apply Forall_forall. intros a Ha.
    destruct (split_A_in a Ha) as (? & ?). rewrite Hsx by done.
    pose proof (proj1 (Forall_forall _ _) HA a Ha) as Hlt. cbn beta in Hlt. lia. }
  destruct (split_new_start_row desc rows k (S i) Hsorted ltac:(lia) ltac:(lia))
    as (j & rj & Hj & Hsns & Hjk).
  assert (Hk1 : ∃ rk, rows !! (pred k) = Some rk) by (apply lookup_lt_is_Some; lia).
  destruct Hk1 as [rk Hrk].
  assert (H0 : ∃ r0, rows !! 0%nat = Some r0) by (apply lookup_lt_is_Some; lia).
  destruct H0 as [r0 H0].
  pose proof (split_min_le _ _ Hrow) as Hle_row.
  pose proof (split_min_le _ _ H0) as Hle_0.
  clear HA.
  destruct desc.
  - (* newest first *)
    rewrite (newest_first_min_take rows i row Hsorted Hrow). split; [|done].
    eapply (matching_trip_at s1 _ A new (old :: B)); [done| | |].
    + by apply HAle.
    + rewrite Hsn. destruct (decide (i = k)) as [->|Hne]; [|rewrite Hdate; lia].
      rewrite Hsns. destruct Hjk as [->|Hjk]; [by simplify_eq|].
      apply Z.lt_le_incl.
      by apply (newest_first_lt rows k j row rj Hsorted).
    + intros y [= <-]. rewrite Hso.
      pose proof (newest_first_min_take rows (pred k) rk Hsorted Hrk) as Hmin.
      replace (S (pred k)) with k in Hmin by lia. rewrite Hmin.
      apply (newest_first_lt rows (pred k) i rk row Hsorted); [lia|done..].
  - (* oldest first *)
    assert (Hos : first_last_min (take k rows) = DIVE_DATE r0).
    { replace k with (S (pred k)) by lia. by apply oldest_first_min_take. }
    rewrite (oldest_first_min_take rows i r0 Hsorted H0). split.
    + eapply (matching_trip_at s1 _ A old (new :: B)); [done| | |].
      * by apply HAle.
      * rewrite Hso, Hos. lia.
      * intros y [= <-]. rewrite Hsn.
        assert (DIVE_DATE r0 < DIVE_DATE rj).
        { apply (oldest_first_lt rows 0 j r0 rj Hsorted); [lia|done..]. }
        assert (DIVE_DATE r0 < DIVE_DATE row).
        { apply (oldest_first_lt rows 0 i r0 row Hsorted); [lia|done..]. }
        destruct (decide (i = k)); rewrite ?Hdate; lia.
    + intros _. rewrite Hos. replace i with (S (pred i)) by lia.
      by apply oldest_first_min_take.
Qed.

(** One turn of the loop: the first update_trip_timestamp writes to the
    trip that find_matching_trip returns, the second one sets the start of
    the new trip to the least date of the rows that have moved. *)
Lemma split_step i s parent newparent :
  (k <= i < length rows)%nat →
  split_at (S i) s parent newparent →
  ∃ s' parent' newparent',
    insert_trip_before_loop (S i) k new parent newparent s
    = (if Nat.eqb i k then ret (parent', newparent')
       else insert_trip_before_loop i k new parent' newparent') s' ∧
    split_at i s' parent' newparent'.
Proof.
  intros Hi Hst.
  assert (Hrow : ∃ row, rows !! i = Some row) by (apply lookup_lt_is_Some; lia).
  destruct Hrow as [row Hrow].
  destruct (rows_of_dives_lookup _ _ _ _ _ Hrows Hrow) as (d & Hdi & Hget0 & Hdate).
  destruct (split_add i d s parent newparent Hi Hdi Hst)
    as (s1 & Hrun & Hwf1 & HR1 & HMn & HMo & HMx & Hsn & Hso & Hsx & Hdata1 & Htab1).
  destruct Hst as [Hp Hpd Hnp _ Hwf HR _ _ _ _ _ _ Hdata Htab].
  assert (Hget : ∀ s', dive_table s' = dive_table s0 →
                       get_dive s' (DIVE_INDEX row) = Some d).
  { intros s' Ht. unfold get_dive in *. by rewrite Ht. }
  assert (Hprow : node_children parent !! i = Some row).
  { rewrite Hp, lookup_take_lt by lia. done. }
  assert (Hvalid1 : ∀ t, t ∈ R3 → is_Some (heap_trips s1 !! t)).
  { intros t Ht. eapply (rep_trip_valid s1 (registry s1) (members s1)); [done|].
    by rewrite HR1. }
  destruct (split_match i row d s1 Hi Hrow Hdi HR1 Hsn Hso Hsx) as (Hmatch & Hasc).
  set (m := if desc then new else old) in *.
  assert (Hm : m ∈ R3) by apply split_matched_in.
  set (flm1 := first_last_min (take i rows)).
  set (flm2 := first_last_min (drop i rows)).
  set (s2 := set_heap_trips s1 (alter (λ tr, set_trip_when tr flm1) m (heap_trips s1))).
  set (s3 := set_heap_trips s2 (alter (λ tr, set_trip_when tr flm2) new (heap_trips s2))).
  set (parent' := set_node_date (set_node_children parent (take i rows)) flm1).
  set (newparent' := set_node_date (set_node_children newparent (drop i rows)) flm2).
  assert (Hdin : d ∈ members s1 new).
  { apply HMn. left. apply list_elem_of_lookup. exists 0%nat.
    by rewrite lookup_drop, Nat.add_0_r. }
  destruct (rep_members_trip _ _ _ _ _ Hwf1 Hdin) as (dv & Hd & Hdt).
  assert (Hmove : move_dive_between_trips i parent newparent s1
                  = Ok (parent', newparent') s3).
  { unfold move_dive_between_trips. rewrite Hprow.
    unfold get_state at 1. unfold bind at 1.
    rewrite (Hget s1 Htab1).
    rewrite (run_bind _ _ _ _ _ (run_find_matching_trip s1 _ _ _ Hwf1)).
    cbn [node_row set_node_children]. rewrite Hpd, Hmatch.
    rewrite Hp, delete_take_last by lia.
    erewrite run_bind.
    2: { apply run_update_trip_timestamp; [|by apply Hvalid1].
         cbn [node_children set_node_children].
         intros He. apply (f_equal length) in He. rewrite length_take in He.
         simpl in He. lia. }
    cbn [node_children set_node_children].
    erewrite run_bind by (by apply run_load_dive).
    rewrite Hdt.
    erewrite run_bind.
    2: { apply run_update_trip_timestamp.
         - cbn [node_children set_node_children]. done.
         - cbn [heap_trips set_heap_trips]. apply alter_is_Some, Hvalid1, split_new_in. }
    cbn [node_children set_node_children]. rewrite Hnp. rewrite <- (drop_S _ _ _ Hrow). done. }
  exists s3, parent', newparent'. split.
  { cbn [insert_trip_before_loop]. rewrite Hprow.
    unfold get_state at 1. unfold bind at 1. rewrite (Hget s Htab).
    rewrite (run_bind _ _ _ _ _ Hrun).
    by rewrite (run_bind _ _ _ _ _ Hmove). }
  (* the store after the two writes to the starts *)
  assert (Hrep3 : rep s3 (registry s1) (members s1)).
  { unfold s3, s2. by do 2 (apply rep_alter_trip; [done..|]). }
  assert (HM3 : ∀ t, members s3 t = members s1 t)
    by (intros t; by apply (members_of_rep _ _ _ _ Hrep3)).
  assert (Hst3 : ∀ t, trip_start s3 t
                      = if decide (t = new) then flm2
                        else if decide (t = m) then flm1 else trip_start s1 t).
  { intros t. unfold s3. rewrite trip_start_alter.
    destruct (decide (new = t)) as [<-|Hne].
    - rewrite decide_True by done.
      destruct (Hvalid1 new split_new_in) as [tr Htr].
      assert (is_Some (heap_trips s2 !! new)) as [tr2 ->]; [|done].
      unfold s2. cbn [heap_trips set_heap_trips]. by apply alter_is_Some.
    - rewrite decide_False by done. unfold s2. rewrite trip_start_alter.
      destruct (decide (m = t)) as [<-|Hne'].
      + rewrite decide_True by done. by destruct (Hvalid1 m Hm) as [tr ->].
      + by rewrite decide_False. }
  split.
  - done.
  - done.
  - done.
  - intros _. cbn [newparent' node_row set_node_date DIVE_DATE].
    by rewrite Hst3, decide_True.
  - by eapply rep_well_formed.
  - by rewrite (registry_of_rep _ _ _ Hrep3).
  - intros d'. by rewrite HM3.
  - intros d'. by rewrite HM3.
  - intros t Hn Ho. rewrite HM3. by apply HMx.
  - rewrite Hst3, decide_True by done. unfold split_new_start.
    rewrite decide_False by lia. done.
  - rewrite Hst3, decide_False by (intros Heq; by apply split_new_old).
    destruct (decide (old = m)) as [Heq|Hne]; [|done].
    apply Hasc. apply split_matched_old. symmetry. exact Heq.
  - intros t Ht Ho. rewrite Hst3, decide_False by (intros ->; done).
    rewrite decide_False; [by apply Hsx|].
    destruct split_matched_cases as [Hc|Hc]; fold m in Hc; rewrite Hc;
      [by intros ->|done].
  - done.
  - done.
Qed.

Lemma split_loop n : ∀ s parent newparent,
  (k < n <= length rows)%nat →
  split_at n s parent newparent →
  ∃ s' parent' newparent',
    insert_trip_before_loop n k new parent newparent s = Ok (parent', newparent') s' ∧
    split_at k s' parent' newparent'.
Proof.
  induction n as [|i IH]; intros s parent newparent Hn Hst; [lia|].
  destruct (split_step i s parent newparent ltac:(lia) Hst)
    as (s1 & parent1 & newparent1 & Hrun & Hst1).
  destruct (Nat.eqb_spec i k) as [->|Hne].
  - exists s1, parent1, newparent1. by split.
  - destruct (IH s1 parent1 newparent1 ltac:(lia) Hst1)
      as (s' & parent' & newparent' & Hrun' & Hst').
    exists s', parent', newparent'. split; [|done]. by rewrite Hrun.
Qed.

End SplitInOrder.

(** ** insert_trip_before: up to the loop *)

Lemma earlier_later_split s w L1 L2 :
  Forall (λ a, trip_start s a < w) L1 →
  (∀ y, head L2 = Some y → w <= trip_start s y) →
  earlier_trips s w (L1 ++ L2) = L1 ∧
  later_trips s w (L1 ++ L2) = L2.
Proof.
  intros Hall Hy. induction L1 as [|a L1 IH]; cbn [app].
  - destruct L2 as [|y L2]; [done|]. cbn [earlier_trips later_trips].
    rewrite (proj2 (Z.ltb_ge _ _)) by (by apply Hy). done.
  - apply Forall_cons in Hall as (Ha & Hall). cbn [earlier_trips later_trips].
    rewrite (proj2 (Z.ltb_lt _ _)) by done.
    destruct (IH Hall) as (-> & ->). done.
Qed.

(** The start of the trip a row shows is the least date of its rows. *)
Lemma shows_trip_start desc s parent t ds :
  trips_start_at_earliest s →
  shows_trip s parent t ds →
  in_time_order desc (node_children parent) →
  node_children parent ≠ [] →
  trip_start s t = first_last_min (node_children parent).
Proof.
  intros Hinv [Htrip Hdate Hrows Hmem] Hsorted Hne.
  pose proof (Hinv _ Htrip) as Hmin. unfold earliest_member in Hmin.
  rewrite (min_when_set _ (map (dive_when s) ds)) in Hmin.
  2: { intros w. rewrite !list_elem_of_fmap. by setoid_rewrite Hmem. }
  rewrite <- (rows_of_dives_dates _ _ _ Hrows) in Hmin.
  rewrite (in_time_order_min _ _ Hsorted Hne) in Hmin. congruence.
Qed.

(** The dives of the rows of a trip have timestamps. *)
Lemma shows_trip_dated s parent t ds d :
  well_formed s → dives_dated s → shows_trip s parent t ds →
  d ∈ ds → dive_when s d ≠ 0.
Proof.
  intros Hwf Hdated Hshow Hd. rewrite (st_members _ _ _ _ Hshow) in Hd.
  destruct (rep_members_trip _ _ _ _ _ Hwf Hd) as (dv & Hdv & _).
  rewrite (dive_when_lookup _ _ _ Hdv). by eapply Hdated.
Qed.

(** When the rows are newest first, the start of the old trip is first
    moved to the dive before the split, and the new trip comes before the
    old one; when they are oldest first the new trip comes behind it, and
    before a trip that starts later. *)
Lemma insert_trip_before_to_loop desc s parent k' old ds A B :
  well_formed s →
  trips_start_at_earliest s →
  dives_dated s →
  shows_trip s parent old ds →
  in_time_order desc (node_children parent) →
  (S k' < length (node_children parent))%nat →
  registry s = A ++ old :: B →
  Forall (λ a, trip_start s a < trip_start s old) A →
  (desc = false →
   ∀ b, head B = Some b → row_date (node_children parent) (S k') < trip_start s b) →
  ∃ s1,
    insert_trip_before parent (S k') s
    = (do (parent, newparent) <-
         insert_trip_before_loop (length (node_children parent)) (S k')
           (length (heap_trips s)) parent
           {| node_row := node_row parent; node_children := [] |};
       ret (parent, Some newparent)) s1 ∧
    split_state s (node_children parent) ds (S k') old (length (heap_trips s))
      (if desc then A ++ length (heap_trips s) :: old :: B
       else A ++ old :: length (heap_trips s) :: B)
      (length (node_children parent)) s1 parent
      {| node_row := node_row parent; node_children := [] |}.
Proof.
  intros Hwf Hinv Hdated Hshow Hsorted Hk HR HA HB.
  assert (Hrne : node_children parent ≠ []).
  { intros He. rewrite He in Hk. simpl in Hk. lia. }
  pose proof (shows_trip_start _ _ _ _ _ Hinv Hshow Hsorted Hrne) as Hstart.
  destruct Hshow as [Htrip Hdate Hrows Hmem].
  set (rows := node_children parent) in *.
  set (new := length (heap_trips s)).
  pose proof (rows_of_dives_length _ _ _ Hrows) as Hlen.
  assert (Hnd : NoDup ds).
  { rewrite Hmem. destruct (rep_trip_valid _ _ _ _ Hwf Htrip) as [tr Htr].
    by destruct (rep_members _ _ _ Hwf _ _ Htr) as (_ & ? & _). }
  (* the row of the split and the row before it *)
  assert (Hprow : ∃ prow, rows !! k' = Some prow) by (apply lookup_lt_is_Some; lia).
  destruct Hprow as [prow Hprow].
  assert (Hrow : ∃ row, rows !! S k' = Some row) by (apply lookup_lt_is_Some; lia).
  destruct Hrow as [row Hrow].
  assert (Hrow0 : ∃ row0, rows !! 0%nat = Some row0) by (apply lookup_lt_is_Some; lia).
  destruct Hrow0 as [row0 Hrow0].
  destruct (rows_of_dives_lookup _ _ _ _ _ Hrows Hprow) as (pd & Hpdi & Hpget & Hpdate).
  destruct (rows_of_dives_lookup _ _ _ _ _ Hrows Hrow) as (d & Hdi & Hget & Hddate).
  assert (Hpin : pd ∈ members s old) by (rewrite <- Hmem; by eapply list_elem_of_lookup_2).
  assert (Hdin : d ∈ members s old) by (rewrite <- Hmem; by eapply list_elem_of_lookup_2).
  destruct (rep_members_trip _ _ _ _ _ Hwf Hpin) as (pdv & Hpd & Hpdt).
  destruct (rep_members_trip _ _ _ _ _ Hwf Hdin) as (dv & Hd & Hdt).
  rewrite (dive_when_lookup _ _ _ Hpd) in Hpdate.
  rewrite (dive_when_lookup _ _ _ Hd) in Hddate.
  pose proof (in_time_order_min_le _ _ _ _ Hsorted Hrow) as Hmin_le.
  destruct (rep_trip_valid _ _ _ _ Hwf Htrip) as [otr Hotr].
  pose proof (trip_start_lookup _ _ _ Hotr) as Hostart.
  assert (HndR : NoDup (registry s)) by apply (rep_trips_nodup _ _ _ Hwf).
  assert (HAold : ∀ a, a ∈ A → a ≠ old).
  { intros a Ha ->. pose proof HndR as HndR'. rewrite HR in HndR'.
    apply NoDup_app in HndR' as (_ & Hdisj & _). eapply Hdisj; [done|by left]. }
  set (os := first_last_min (take (S k') rows)).
  (* the store when create_and_hookup_trip_from_dive is called *)
  assert (Hpre : ∃ s_a,
    (if when dv <? when pdv then
       match divetrip pdv with
       | Some pt =>
         do ptr <- load_trip pt;
         if trip_when ptr <? when pdv
         then store_trip pt (set_trip_when ptr (when pdv))
         else ret tt
       | None => ret tt
       end
     else ret tt) s = Ok tt s_a ∧
    rep s_a (registry s) (members s) ∧
    heap_dives s_a = heap_dives s ∧
    dive_table s_a = dive_table s ∧
    length (heap_trips s_a) = length (heap_trips s) ∧
    (∀ t, trip_start s_a t = if decide (t = old) then os else trip_start s t) ∧
    os ≠ when dv ∧
    earlier_trips s_a (when dv) (A ++ old :: B) = (if desc then A else A ++ [old]) ∧
    later_trips s_a (when dv) (A ++ old :: B) = (if desc then old :: B else B) ∧
    (∀ y, head (if desc then old :: B else B) = Some y → trip_start s_a y ≠ when dv)).
  { destruct desc.
    - (* newest first: the start of the old trip goes to the dive before *)
      pose proof (newest_first_lt rows k' (S k') prow row Hsorted ltac:(lia) Hprow Hrow)
        as Hlt.
      assert (Hos : os = when pdv).
      { unfold os. by rewrite (newest_first_min_take rows k' prow Hsorted Hprow). }
      set (s_a := set_heap_trips s
                    (alter (λ tr, set_trip_when tr (when pdv)) old (heap_trips s))).
      assert (Hst_a : ∀ t, trip_start s_a t = if decide (t = old) then os
                                              else trip_start s t).
      { intros t. unfold s_a. rewrite trip_start_alter, Hotr, Hos.
        destruct (decide (old = t)) as [->|Hne]; [by rewrite decide_True|].
        by rewrite decide_False. }
      assert (Hel : earlier_trips s_a (when dv) (A ++ old :: B) = A ∧
                    later_trips s_a (when dv) (A ++ old :: B) = old :: B).
      { apply earlier_later_split.
        - apply Forall_forall. intros a Ha.
          rewrite Hst_a, decide_False by (by apply HAold).
          pose proof (proj1 (Forall_forall _ _) HA a Ha) as Ha'. cbn beta in Ha'. lia.
        - intros y [= <-]. rewrite Hst_a, decide_True by done. lia. }
      destruct Hel as (Hel1 & Hel2).
      exists s_a.
      split_and!; [|by apply rep_alter_trip|done|done| |done|lia|done|done|].
      + rewrite (proj2 (Z.ltb_lt _ _)) by lia. rewrite Hpdt.
        rewrite (run_bind _ _ _ _ _ (run_load_trip _ _ _ Hotr)).
        rewrite (proj2 (Z.ltb_lt _ _)) by lia.
        apply (run_store_trip _ _ _ (λ tr, set_trip_when tr (when pdv)) Hotr).
      + unfold s_a. cbn [heap_trips set_heap_trips]. by rewrite length_alter.
      + intros y [= <-]. rewrite Hst_a, decide_True by done. lia.
    - (* oldest first: nothing to adjust *)
      pose proof (oldest_first_lt rows k' (S k') prow row Hsorted ltac:(lia) Hprow Hrow)
        as Hlt.
      pose proof (oldest_first_lt rows 0 (S k') row0 row Hsorted ltac:(lia) Hrow0 Hrow)
        as Hlt0.
      assert (Hos : os = trip_start s old).
      { unfold os. rewrite Hstart.
        rewrite (oldest_first_min_take rows k' row0 Hsorted Hrow0).
        rewrite <- (oldest_first_min_take rows (length rows) row0 Hsorted Hrow0).
        by rewrite take_ge by lia. }
      assert (Hos0 : os = DIVE_DATE row0).
      { unfold os. by rewrite (oldest_first_min_take rows k' row0 Hsorted Hrow0). }
      specialize (HB eq_refl). unfold row_date in HB. fold rows in HB.
      rewrite Hrow in HB.
      assert (Hel : earlier_trips s (when dv) ((A ++ [old]) ++ B) = A ++ [old] ∧
                    later_trips s (when dv) ((A ++ [old]) ++ B) = B).
      { apply earlier_later_split.
        - apply Forall_app. split.
          + apply Forall_forall. intros a Ha.
            pose proof (proj1 (Forall_forall _ _) HA a Ha) as Ha'. cbn beta in Ha'. lia.
          + apply Forall_singleton. lia.
        - intros y Hy. pose proof (HB y Hy). lia. }
      rewrite <- app_assoc in Hel. destruct Hel as (Hel1 & Hel2).
      exists s. split_and!; [|done|done|done|done| |lia|done|done|].
      + by rewrite (proj2 (Z.ltb_ge _ _)) by lia.
      + intros t. destruct (decide (t = old)) as [->|]; done.
      + intros y Hy. pose proof (HB y Hy). lia. }
  destruct Hpre as (s_a & Hrun_a & Hrep_a & HD_a & Htab_a & Hlen_a & Hst_a & Hos_ne &
                    Hearlier & Hlater & Hhead).
  assert (Hd_a : heap_dives s_a !! d = Some dv) by (by rewrite HD_a).
  assert (Hsst : same_start_trip s_a (when dv) = None).
  { unfold same_start_trip. rewrite (registry_of_rep _ _ _ Hrep_a), HR, Hlater.
    destruct (if desc then old :: B else B) as [|y L] eqn:HL; [done|].
    destruct (Z.eqb_spec (trip_start s_a y) (when dv)) as [Heq|]; [|done].
    exfalso. by eapply Hhead. }
  destruct (create_and_hookup_spec s_a (registry s) (members s) d dv Hrep_a Hd_a)
    as (s1 & Hrun & Hrep1 & Hsame & _ & Hnstart & Hostarts & _ & _);
    [by eapply Hdated|].
  rewrite Hsst in Hrun. cbn zeta in Hrep1, Hnstart, Hostarts.
  rewrite Hsst in Hrep1, Hnstart, Hostarts.
  rewrite Hlen_a in Hrun, Hrep1, Hnstart, Hostarts. fold new in Hrun, Hrep1, Hnstart, Hostarts.
  assert (Hfresh : new ∉ registry s) by apply (rep_fresh_trip _ _ _ Hwf).
  assert (Hno : new ≠ old) by (intros Heq; apply Hfresh; by rewrite Heq).
  rewrite decide_False in Hrep1 by (rewrite Hdt; intros [= ?]; done).
  rewrite HR, Hearlier, Hlater in Hrep1.
  assert (HR3 : (if desc then A else A ++ [old]) ++ new :: (if desc then old :: B else B)
                = if desc then A ++ new :: old :: B else A ++ old :: new :: B).
  { destruct desc; [done|]. by rewrite <- app_assoc. }
  rewrite HR3 in Hrep1. clear HR3.
  assert (Hnewnil : members s new = []).
  { apply (rep_no_trip _ _ _ Hwf). apply lookup_ge_None. unfold new. lia. }
  assert (Honly : ∀ t, d ∈ members s t → t = old).
  { intros t Ht. by eapply (rep_members_disjoint s (registry s) (members s)). }
  destruct (rows_of_dives_lookup _ _ _ _ _ Hrows Hrow0) as (d0 & Hd0 & _ & _).
  assert (HR1 : ∀ L, without_trip_of d (members s) L = L).
  { intros L. apply filter_all. apply Forall_forall. intros t _ Heq.
    assert (t = old) as -> by (apply Honly; rewrite Heq; by left).
    assert (d0 ∈ members s old) as Hd0in
      by (rewrite <- Hmem; by eapply list_elem_of_lookup_2).
    rewrite Heq in Hd0in. apply list_elem_of_singleton in Hd0in as ->.
    pose proof (NoDup_lookup _ _ _ _ Hnd Hd0 Hdi). lia. }
  rewrite HR1 in Hrep1.
  assert (HM1 : ∀ t, members s1 t = if decide (t = new) then [d]
                                    else filter (λ y, y ≠ d) (members s t)).
  { intros t. rewrite (members_of_rep _ _ _ t Hrep1).
    destruct (decide (t = new)) as [->|Hne].
    - by rewrite fn_lookup_insert, Hnewnil.
    - by rewrite fn_lookup_insert_ne. }
  assert (Hvalid_a : ∀ t, t ∈ registry s → is_Some (heap_trips s_a !! t)).
  { intros t Ht. by eapply (rep_trip_valid s_a (registry s) (members s)). }
  assert (Hwhen_a : ∀ y, dive_when s_a y = dive_when s y).
  { intros y. unfold dive_when. by rewrite HD_a. }
  exists s1. split.
  { unfold insert_trip_before. unfold get_state at 1. unfold bind at 1.
    fold rows. rewrite Hprow, Hrow, Hpget, Hget.
    rewrite (run_bind _ _ _ _ _ (run_load_dive _ _ _ Hd)).
    rewrite (run_bind _ _ _ _ _ (run_load_dive _ _ _ Hpd)).
    rewrite (run_bind _ _ _ _ _ Hrun_a).
    by rewrite (run_bind _ _ _ _ _ Hrun). }
  split.
  - by rewrite firstn_all.
  - by rewrite firstn_all, Hdate.
  - by rewrite drop_all.
  - lia.
  - by eapply rep_well_formed.
  - by eapply registry_of_rep.
  - intros d'. rewrite HM1, decide_True by done. rewrite Hlen, drop_all.
    rewrite list_elem_of_singleton, elem_of_nil. rewrite Hdi.
    split; [intros ->; by right|]. by intros [[]|[= ->]].
  - intros d'. rewrite HM1, decide_False by done.
    rewrite list_elem_of_filter. rewrite Hlen, firstn_all, Hdi.
    assert (d' ∈ ds ↔ d' ∈ members s old) as Hiff by (by rewrite Hmem).
    split.
    + intros (H1 & H2). split; [by apply Hiff|congruence].
    + intros (H1 & H2). split; [congruence|by apply Hiff].
  - intros t Hn Ho. rewrite HM1, decide_False by done.
    apply filter_ne_notin. intros Ht. by apply Ho, Honly.
  - rewrite Hnstart. unfold split_new_start. rewrite decide_True by done.
    by rewrite (row_date_lookup _ _ _ Hrow).
  - rewrite Hostarts; [|by intros ->|by apply Hvalid_a].
    rewrite Hst_a, decide_True by done.
    unfold start_without. rewrite decide_False; [done|].
    intros (_ & Heq). rewrite Hwhen_a, (dive_when_lookup _ _ _ Hd) in Heq. done.
  - intros t Ht Ho.
    assert (t ≠ new) by (intros ->; done).
    rewrite Hostarts; [|done|by apply Hvalid_a].
    rewrite Hst_a, decide_False by done.
    apply start_without_notin. intros Hin. by apply Ho, Honly.
  - rewrite (sd_dive_data _ _ _ Hsame). by rewrite HD_a.
  - rewrite (sd_table _ _ _ Hsame). done.
Qed.

(** ** insert_trip_before keeps the trips right *)

Lemma insert_trip_before_inv desc s parent k' old ds A B :
  well_formed s →
  trips_start_at_earliest s →
  dives_dated s →
  shows_trip s parent old ds →
  in_time_order desc (node_children parent) →
  (S k' < length (node_children parent))%nat →
  registry s = A ++ old :: B →
  Forall (λ a, trip_start s a < trip_start s old) A →
  (desc = false →
   ∀ b, head B = Some b → row_date (node_children parent) (S k') < trip_start s b) →
  ∃ s' parent' newparent',
    insert_trip_before parent (S k') s = Ok (parent', Some newparent') s' ∧
    well_formed s' ∧
    trips_start_at_earliest s' ∧
    dives_dated s' ∧
    registry s' = (if desc then A ++ length (heap_trips s) :: old :: B
                   else A ++ old :: length (heap_trips s) :: B) ∧
    shows_trip s' parent' old (take (S k') ds) ∧
    shows_trip s' newparent' (length (heap_trips s)) (drop (S k') ds) ∧
    node_children parent' = take (S k') (node_children parent) ∧
    node_children newparent' = drop (S k') (node_children parent) ∧
    (∀ t, t ≠ length (heap_trips s) → t ≠ old → members s' t = members s t) ∧
    (∀ t, t ∈ registry s → t ≠ old → trip_start s' t = trip_start s t) ∧
    dive_data <$> heap_dives s' = dive_data <$> heap_dives s ∧
    dive_table s' = dive_table s.
Proof.
  intros Hwf Hinv Hdated Hshow Hsorted Hk HR HA HB.
  destruct (insert_trip_before_to_loop desc s parent k' old ds A B
              Hwf Hinv Hdated Hshow Hsorted Hk HR HA HB) as (s1 & Hrun1 & Hst1).
  assert (Hrne : node_children parent ≠ []).
  { intros He. rewrite He in Hk. simpl in Hk. lia. }
  pose proof (shows_trip_start _ _ _ _ _ Hinv Hshow Hsorted Hrne) as Hstart.
  assert (Hdated0 : ∀ d, d ∈ ds → dive_when s d ≠ 0).
  { intros d. by apply (shows_trip_dated s parent old). }
  destruct Hshow as [Htrip Hdate Hrows Hmem].
  set (rows := node_children parent) in *.
  set (new := length (heap_trips s)) in *.
  assert (Hnd : NoDup ds).
  { rewrite Hmem. destruct (rep_trip_valid _ _ _ _ Hwf Htrip) as [tr Htr].
    by destruct (rep_members _ _ _ Hwf _ _ Htr) as (_ & ? & _). }
  assert (Hfresh : new ∉ registry s) by apply (rep_fresh_trip _ _ _ Hwf).
  assert (HndR : NoDup (registry s)) by apply (rep_trips_nodup _ _ _ Hwf).
  rewrite Hstart in HA.
  destruct (split_loop s rows ds (S k') old new A B desc Hdated0 Hrows Hnd Hsorted
              ltac:(lia) HR Hfresh HA HndR (length rows) s1 parent _ ltac:(lia) Hst1)
    as (s' & parent' & newparent' & Hrun & Hst).
  exists s', parent', newparent'.
  destruct Hst as [Hp Hpd Hnp Hnpd Hwf' HR' Hmnew Hmold Hoth Hns Hos Hots Hdata Htab].
  assert (Hwhen : ∀ y, dive_when s' y = dive_when s y)
    by (intros y; by apply dive_when_same_data).
  pose proof (rows_of_dives_length _ _ _ Hrows) as Hlen.
  assert (Hdk : ∃ dk, ds !! S k' = Some dk) by (apply lookup_lt_is_Some; lia).
  destruct Hdk as [dk Hdk].
  assert (Hno : new ≠ old) by (intros Heq; apply Hfresh; by rewrite Heq).
  assert (Hnew_in : new ∈ registry s').
  { rewrite HR'. destruct desc; apply elem_of_app; right; [by left|right; by left]. }
  assert (Hold_in : old ∈ registry s').
  { rewrite HR'. destruct desc; apply elem_of_app; right; [right; by left|by left]. }
  assert (HMnew : drop (S k') ds ≡ₚ members s' new).
  { apply NoDup_Permutation.
    - rewrite <- (take_drop (S k') ds) in Hnd. by apply NoDup_app in Hnd as (_ & _ & ?).
    - assert (is_Some (heap_trips s' !! new)) as [tr Htr]
        by (by eapply (rep_trip_valid s' (registry s') (members s'))).
      by destruct (rep_members _ _ _ Hwf' _ _ Htr) as (_ & ? & _).
    - intros d. rewrite Hmnew. split; [by left|]. intros [?|Hd]; [done|].
      apply list_elem_of_lookup. exists 0%nat. by rewrite lookup_drop, Nat.add_0_r. }
  assert (HMold : take (S k') ds ≡ₚ members s' old).
  { apply NoDup_Permutation.
    - rewrite <- (take_drop (S k') ds) in Hnd. by apply NoDup_app in Hnd as (? & _).
    - assert (is_Some (heap_trips s' !! old)) as [tr Htr]
        by (by eapply (rep_trip_valid s' (registry s') (members s'))).
      by destruct (rep_members _ _ _ Hwf' _ _ Htr) as (_ & ? & _).
    - intros d. rewrite Hmold. split; [|by intros (? & _)].
      intros Hd. split; [done|]. intros Hd'.
      apply elem_of_take in Hd as (j & Hj & Hlt).
      pose proof (NoDup_lookup _ _ _ _ Hnd Hj Hd'). lia. }
  assert (Hrows' : ∀ l1 l2, rows_of_dives s l1 l2 → rows_of_dives s' l1 l2).
  { intros l1 l2. by apply rows_of_dives_ext. }
  assert (Htake_ne : take (S k') rows ≠ []).
  { intros He. apply (f_equal length) in He. rewrite length_take in He.
    change (length (@nil tree_row)) with 0%nat in He. lia. }
  assert (Hdrop_ne : drop (S k') rows ≠ []).
  { intros He. apply (f_equal length) in He. rewrite length_drop in He.
    change (length (@nil tree_row)) with 0%nat in He. lia. }
  assert (Holdstart : earliest_member s' old = Some (trip_start s' old)).
  { unfold earliest_member.
    rewrite (min_when_set _ (map (dive_when s') (take (S k') ds))).
    2: { intros w. rewrite !list_elem_of_fmap.
         split; intros (y & -> & Hy); exists y; (split; [done|]); by rewrite ?HMold in *. }
    rewrite <- (rows_of_dives_dates s' (take (S k') rows))
      by (by apply Hrows', rows_of_dives_take).
    rewrite Hos.
    apply (in_time_order_min desc); [by apply in_time_order_take|done]. }
  assert (Hns' : trip_start s' new = first_last_min (drop (S k') rows)).
  { rewrite Hns. unfold split_new_start. rewrite decide_False by lia. done. }
  assert (Hnewstart : earliest_member s' new = Some (trip_start s' new)).
  { unfold earliest_member.
    rewrite (min_when_set _ (map (dive_when s') (drop (S k') ds))).
    2: { intros w. rewrite !list_elem_of_fmap.
         split; intros (y & -> & Hy); exists y; (split; [done|]); by rewrite ?HMnew in *. }
    rewrite <- (rows_of_dives_dates s' (drop (S k') rows))
      by (by apply Hrows', rows_of_dives_drop).
    rewrite Hns'.
    apply (in_time_order_min desc); [by apply in_time_order_drop|done]. }
  split_and!; [|done| |by eapply dives_dated_same_data|done| | |done..].
  - rewrite Hrun1. by rewrite (run_bind _ _ _ _ _ Hrun).
  - intros t Ht.
    destruct (decide (t = new)) as [->|Hn]; [done|].
    destruct (decide (t = old)) as [->|Ho]; [done|].
    assert (HtR : t ∈ registry s).
    { rewrite HR' in Ht. rewrite HR.
      destruct desc; apply elem_of_app in Ht as [Ht|Ht]; apply elem_of_app;
        try (by left); right.
      - apply elem_of_cons in Ht as [->|Ht]; done.
      - apply elem_of_cons in Ht as [->|Ht]; [done|].
        apply elem_of_cons in Ht as [->|Ht]; [done|]. by right. }
    unfold earliest_member. rewrite Hoth, Hots by done.
    replace (map (dive_when s') (members s t)) with (map (dive_when s) (members s t))
      by (apply list_fmap_ext; intros _ y _; by rewrite Hwhen).
    by apply Hinv.
  - split; [done| |rewrite Hp; by apply Hrows', rows_of_dives_take|done].
    by rewrite Hpd, Hos.
  - split; [done| |rewrite Hnp; by apply Hrows', rows_of_dives_drop|done].
    apply Hnpd. lia.
Qed.

(** ** Splitting a trip and merging the new trip back *)

Lemma filter_ne_fresh (L1 L2 : list trip_ptr) x :
  x ∉ L1 → x ∉ L2 → filter (λ t, t ≠ x) (L1 ++ x :: L2) = L1 ++ L2.
Proof.
  intros H1 H2. rewrite filter_app, filter_cons_False by (by intros ?).
  by rewrite !filter_ne_notin.
Qed.

(** The start of a trip that starts at its earliest member is the least
    timestamp of any list with the same dives. *)
Lemma start_of_members s s' t t' :
  (∀ y, dive_when s' y = dive_when s y) →
  members s' t' ≡ₚ members s t →
  earliest_member s t = Some (trip_start s t) →
  earliest_member s' t' = Some (trip_start s' t') →
  trip_start s' t' = trip_start s t.
Proof.
  intros Hwhen Hperm Hs Hs'. unfold earliest_member in *.
  rewrite (min_when_set _ (map (dive_when s) (members s t))) in Hs'; [congruence|].
  intros w. rewrite !list_elem_of_fmap.
  split; intros (y & -> & Hy); exists y; rewrite ?Hwhen.
  - split; [done|]. by rewrite <- Hperm.
  - split; [done|]. by rewrite Hperm.
Qed.

(** The start of a trip that starts at its earliest member is the
    timestamp of one of its dives. *)
Lemma start_is_member s t :
  earliest_member s t = Some (trip_start s t) →
  ∃ d, d ∈ members s t ∧ trip_start s t = dive_when s d.
Proof.
  intros Hmin. apply min_when_elem in Hmin.
  apply list_elem_of_fmap in Hmin as (d & Hd & Hin). by exists d.
Qed.

(** C8, amended.  A well-formed store whose dives have timestamps, whose
    trips start at their earliest member and follow each other in time; a
    trip row that shows a trip of the registry, with the rows of its dives
    in time order, newest first as in the default order or oldest first,
    with distinct dates.  At a row that is not the first,
    insert_trip_before and then merge_trips_cb on the row of the new trip,
    with the row of the old trip before it, both return; afterwards the
    registry is the one before the split, every trip has the dives it had
    (the old trip too) and starts when it did. *)
Theorem split_then_merge_restores_trip desc s parent k' old ds :
  well_formed s →
  trips_start_at_earliest s →
  dives_dated s →
  trips_apart s →
  shows_trip s parent old ds →
  in_time_order desc (node_children parent) →
  (S k' < length (node_children parent))%nat →
  ∃ s1 parent' newparent' s2,
    insert_trip_before parent (S k') s = Ok (parent', Some newparent') s1 ∧
    node_children parent' = take (S k') (node_children parent) ∧
    node_children newparent' = drop (S k') (node_children parent) ∧
    members s1 old ≡ₚ take (S k') ds ∧
    (∃ new, (new ∉ registry s) ∧ new ∈ registry s1 ∧
            members s1 new ≡ₚ drop (S k') ds) ∧
    merge_trips_cb (DIVE_DATE (node_row newparent')) (DIVE_DATE (node_row parent')) s1
      = Ok tt s2 ∧
    well_formed s2 ∧
    trips_start_at_earliest s2 ∧
    registry s2 = registry s ∧
    members s2 old ≡ₚ members s old ∧
    trip_start s2 old = trip_start s old ∧
    (∀ t, t ∈ registry s →
          members s2 t ≡ₚ members s t ∧ trip_start s2 t = trip_start s t).
Proof.
  intros Hwf Hinv Hdated Hapart Hshow Hsorted Hk.
  pose proof (st_trip _ _ _ _ Hshow) as Htrip.
  pose proof (st_members _ _ _ _ Hshow) as Hmem.
  pose proof (st_rows _ _ _ _ Hshow) as Hrows.
  destruct (list_elem_of_split _ _ Htrip) as (A & B & HR).
  assert (HA : Forall (λ a, trip_start s a < trip_start s old) A).
  { apply Forall_forall. intros a Ha. by eapply trips_apart_before. }
  set (rows := node_children parent) in *.
  pose proof (rows_of_dives_length _ _ _ Hrows) as Hlen.
  assert (Hrow : ∃ row, rows !! S k' = Some row) by (apply lookup_lt_is_Some; lia).
  destruct Hrow as [row Hrow].
  destruct (rows_of_dives_lookup _ _ _ _ _ Hrows Hrow) as (dk & Hdk & _ & Hkdate).
  assert (HB : ∀ b d, b ∈ B → d ∈ ds → dive_when s d < trip_start s b).
  { intros b d Hb Hd. eapply (Hapart A old B); [done..|]. by rewrite <- Hmem. }
  assert (HBk : desc = false →
                ∀ b, head B = Some b → row_date rows (S k') < trip_start s b).
  { intros _ b Hb. apply head_Some_elem_of in Hb.
    rewrite (row_date_lookup _ _ _ Hrow), Hkdate. apply HB; [done|].
    by eapply list_elem_of_lookup_2. }
  destruct (insert_trip_before_inv desc s parent k' old ds A B
              Hwf Hinv Hdated Hshow Hsorted Hk HR HA HBk)
    as (s1 & parent' & newparent' & Hrun1 & Hwf1 & Hinv1 & Hdated1 & HR1 & Hshow_old &
        Hshow_new & Hp & Hnp & Hoth & Hots & Hdata & Htab).
  set (new := length (heap_trips s)) in *.
  assert (Hfresh : new ∉ registry s) by apply (rep_fresh_trip _ _ _ Hwf).
  assert (Hno : new ≠ old) by (intros Heq; apply Hfresh; by rewrite Heq).
  assert (HndR : NoDup (registry s)) by apply (rep_trips_nodup _ _ _ Hwf).
  assert (Hwhen1 : ∀ y, dive_when s1 y = dive_when s y)
    by (intros y; by apply dive_when_same_data).
  (* the dives the two trips start at *)
  assert (Hold_is : ∃ j rj dj, (j < S k')%nat ∧ rows !! j = Some rj ∧ dj ∈ ds ∧
                      trip_start s1 old = DIVE_DATE rj ∧ DIVE_DATE rj = dive_when s dj).
  { destruct (start_is_member _ _ (Hinv1 _ (st_trip _ _ _ _ Hshow_old)))
      as (dj & Hin & Hdj).
    rewrite <- (st_members _ _ _ _ Hshow_old) in Hin.
    apply elem_of_take in Hin as (j & Hj & Hlt).
    destruct (Forall2_lookup_r _ _ _ _ _ Hrows Hj) as (rj & Hrj & _ & Hjdate).
    exists j, rj, dj. split_and!; [done|done|by eapply list_elem_of_lookup_2| |done].
    by rewrite Hdj, Hwhen1. }
  destruct Hold_is as (j & rj & dj & Hjlt & Hrj & Hdj & Hold_start & Hjdate).
  assert (Hnew_is : ∃ i ri di, (S k' <= i)%nat ∧ rows !! i = Some ri ∧ di ∈ ds ∧
                      trip_start s1 new = DIVE_DATE ri ∧ DIVE_DATE ri = dive_when s di).
  { destruct (start_is_member _ _ (Hinv1 _ (st_trip _ _ _ _ Hshow_new)))
      as (di & Hin & Hdi).
    rewrite <- (st_members _ _ _ _ Hshow_new) in Hin.
    apply list_elem_of_lookup in Hin as (i & Hi). rewrite lookup_drop in Hi.
    destruct (Forall2_lookup_r _ _ _ _ _ Hrows Hi) as (ri & Hri & _ & Hidate).
    exists (S k' + i)%nat, ri, di.
    split_and!; [lia|done|by eapply list_elem_of_lookup_2| |done].
    by rewrite Hdi, Hwhen1. }
  destruct Hnew_is as (i & ri & di & Hile & Hri & Hdi & Hnew_start & Hidate).
  assert (Hstart_le : ∀ d, d ∈ ds → trip_start s old <= dive_when s d).
  { intros d Hd. eapply min_when_le; [by apply Hinv|].
    apply list_elem_of_fmap. exists d. split; [done|]. by rewrite <- Hmem. }
  assert (HAin : ∀ a, a ∈ A → a ∈ registry s ∧ a ≠ old).
  { intros a Ha. split; [rewrite HR; apply elem_of_app; by left|].
    intros ->. pose proof HndR as HndR'. rewrite HR in HndR'.
    apply NoDup_app in HndR' as (_ & Hdisj & _). eapply Hdisj; [done|by left]. }
  assert (HBin : ∀ b, b ∈ B → b ∈ registry s ∧ b ≠ old).
  { intros b Hb. split; [rewrite HR; apply elem_of_app; right; by right|].
    intros ->. pose proof HndR as HndR'. rewrite HR in HndR'.
    apply NoDup_app in HndR' as (_ & _ & Hnd').
    apply NoDup_cons in Hnd' as (Hnotin & _). done. }
  assert (HAlt : ∀ a d, a ∈ A → d ∈ ds → trip_start s1 a < dive_when s d).
  { intros a d Ha Hd. destruct (HAin a Ha) as (? & ?). rewrite Hots by done.
    pose proof (proj1 (Forall_forall _ _) HA a Ha) as Ha'. cbn beta in Ha'.
    pose proof (Hstart_le d Hd). lia. }
  assert (HBgt : ∀ b d, head B = Some b → d ∈ ds → dive_when s d < trip_start s1 b).
  { intros b d Hb Hd. apply head_Some_elem_of in Hb.
    destruct (HBin b Hb) as (? & ?). rewrite Hots by done. by apply HB. }
  (* the trips that the dates of the two rows find *)
  assert (Hfound : matching_trip s1 (DIVE_DATE (node_row newparent')) = Some new ∧
                   matching_trip s1 (DIVE_DATE (node_row parent')) = Some old).
  { rewrite (st_date _ _ _ _ Hshow_new), (st_date _ _ _ _ Hshow_old).
    destruct desc.
    - pose proof (newest_first_lt rows j i rj ri Hsorted ltac:(lia) Hrj Hri) as Hlt.
      split.
      + eapply (matching_trip_at s1 _ A new (old :: B)); [done| |lia|].
        * apply Forall_forall. intros a Ha. pose proof (HAlt a di Ha Hdi). lia.
        * intros y [= <-]. lia.
      + eapply (matching_trip_at s1 _ (A ++ [new]) old B).
        * by rewrite HR1, <- app_assoc.
        * apply Forall_app. split.
          -- apply Forall_forall. intros a Ha. pose proof (HAlt a dj Ha Hdj). lia.
          -- apply Forall_singleton. lia.
        * lia.
        * intros b Hb. pose proof (HBgt b dj Hb Hdj). lia.
    - pose proof (oldest_first_lt rows j i rj ri Hsorted ltac:(lia) Hrj Hri) as Hlt.
      split.
      + eapply (matching_trip_at s1 _ (A ++ [old]) new B).
        * by rewrite HR1, <- app_assoc.
        * apply Forall_app. split.
          -- apply Forall_forall. intros a Ha. pose proof (HAlt a di Ha Hdi). lia.
          -- apply Forall_singleton. lia.
        * lia.
        * intros b Hb. pose proof (HBgt b di Hb Hdi). lia.
      + eapply (matching_trip_at s1 _ A old (new :: B)); [done| |lia|].
        * apply Forall_forall. intros a Ha. pose proof (HAlt a dj Ha Hdj). lia.
        * intros y [= <-]. lia. }
  destruct Hfound as (Hthis & Hprev).
  destruct (merge_trips_cb_inv s1 _ _ new old Hwf1 Hinv1 Hdated1 Hthis Hprev Hno)
    as (s2 & Hrun2 & Hwf2 & Hinv2 & Hdated2 & Hdata2 & Htab2 & HR2 & HM2).
  assert (Hwhen2 : ∀ y, dive_when s2 y = dive_when s y).
  { intros y. rewrite <- Hwhen1. by apply dive_when_same_data. }
  assert (HAnew : new ∉ A) by (intros Ha; apply Hfresh; by apply HAin).
  assert (HBnew : new ∉ B) by (intros Hb; apply Hfresh; by apply HBin).
  assert (HR2' : registry s2 = registry s).
  { rewrite HR2, HR1, HR. destruct desc.
    - apply filter_ne_fresh; [done|].
      intros Hb. apply elem_of_cons in Hb as [?|Hb]; done.
    - change (A ++ old :: new :: B) with (A ++ [old] ++ new :: B).
      rewrite app_assoc, filter_ne_fresh, <- app_assoc; [done| |done].
      intros Ha. apply elem_of_app in Ha as [Ha|Ha]; [done|].
      by apply list_elem_of_singleton in Ha. }
  assert (Hall : ∀ t, t ∈ registry s → members s2 t ≡ₚ members s t).
  { intros t Ht. rewrite HM2.
    destruct (decide (t = old)) as [->|Ho].
    - rewrite <- (Permutation_rev (members s1 new)).
      rewrite <- (st_members _ _ _ _ Hshow_old), <- (st_members _ _ _ _ Hshow_new).
      rewrite Permutation_app_comm, take_drop. exact Hmem.
    - rewrite decide_False by (intros ->; done). by rewrite Hoth by (by intros ->). }
  assert (Hstarts : ∀ t, t ∈ registry s → trip_start s2 t = trip_start s t).
  { intros t Ht. eapply start_of_members; [done|by apply Hall|by apply Hinv|].
    apply Hinv2. by rewrite HR2'. }
  exists s1, parent', newparent', s2.
  split_and!; [done|done|done| | |done|done|done|done|by apply Hall|by apply Hstarts|by auto].
  - symmetry. apply (st_members _ _ _ _ Hshow_old).
  - exists new. split_and!; [done|apply (st_trip _ _ _ _ Hshow_new)|].
    symmetry. apply (st_members _ _ _ _ Hshow_new).
Qed.

Lemma two_trips_apart : trips_apart two_trips.
Proof.
  intros r1 t1 r2 t2 d HR Ht2 Hd.
  change (registry two_trips) with [0%nat; 1%nat] in HR.
  destruct r1 as [|a [|b r1]]; simplify_eq/=.
  - apply list_elem_of_singleton in Ht2 as ->.
    change (members two_trips 0) with [1%nat; 0%nat] in Hd.
    repeat (apply elem_of_cons in Hd as [->|Hd]; [by vm_compute|]).
    by apply elem_of_nil in Hd.
  - by apply elem_of_nil in Ht2.
  - by destruct r1.
Qed.

Lemma two_trips_row_shows : shows_trip two_trips two_trips_row 0%nat [1%nat; 0%nat].
Proof.
  split.
  - change (registry two_trips) with [0%nat; 1%nat]. by left.
  - reflexivity.
  - repeat constructor.
  - reflexivity.
Qed.

Lemma two_trips_row_newest_first : newest_first (node_children two_trips_row).
Proof. cbn. repeat constructor. Qed.

Lemma split_then_merge_restores_trip_witness :
  ∃ s1 parent' newparent' s2,
    insert_trip_before two_trips_row 1 two_trips = Ok (parent', Some newparent') s1 ∧
    node_children parent' = take 1 (node_children two_trips_row) ∧
    node_children newparent' = drop 1 (node_children two_trips_row) ∧
    members s1 0%nat ≡ₚ take 1 [1%nat; 0%nat] ∧
    (∃ new, (new ∉ registry two_trips) ∧ new ∈ registry s1 ∧
            members s1 new ≡ₚ drop 1 [1%nat; 0%nat]) ∧
    merge_trips_cb (DIVE_DATE (node_row newparent')) (DIVE_DATE (node_row parent')) s1
      = Ok tt s2 ∧
    well_formed s2 ∧
    trips_start_at_earliest s2 ∧
    registry s2 = registry two_trips ∧
    members s2 0%nat ≡ₚ members two_trips 0%nat ∧
    trip_start s2 0%nat = trip_start two_trips 0%nat ∧
    (∀ t, t ∈ registry two_trips →
          members s2 t ≡ₚ members two_trips t ∧
          trip_start s2 t = trip_start two_trips t).
Proof.
  apply (split_then_merge_restores_trip true two_trips two_trips_row 0 0%nat
           [1%nat; 0%nat]).
  - exact two_trips_well_formed.
  - exact two_trips_start_at_earliest.
  - exact two_trips_dated.
  - exact two_trips_apart.
  - exact two_trips_row_shows.
  - exact two_trips_row_newest_first.
  - cbn. lia.
Defined.
Lemma overlapping_trips_well_formed : well_formed overlapping_trips.
Proof.
  split.
  - vm_compute. eauto 10.
  - by_computation.
  - intros [|[|t]] tr Ht; vm_compute in Ht; simplify_eq.
    + split_and!; [vm_compute; eauto 20|by_computation|reflexivity].
    + split_and!; [vm_compute; eauto 20|by_computation|reflexivity].
  - intros [|[|t]] Ht; vm_compute in Ht; by simplify_eq.
  - intros [|[|[|[|d]]]] dv t Hd Ht; vm_compute in Hd; simplify_eq;
      vm_compute in Ht; simplify_eq; split; by_computation.
  - intros d Hd. vm_compute in Hd.
    repeat (apply elem_of_cons in Hd as [->|Hd]; [by eexists|]).
    by apply elem_of_nil in Hd.
Qed.

(** C8 as stated fails: trip 1 starts between two dives of trip 0.  After
    the split at the dive at 200, the date of the old row is 300, and
    find_matching_trip walks on from the old trip to trip 1, which starts
    at 250: merge_trips_cb moves the dives of the new trip into trip 1, and
    trip 0 is left with one of its three dives. *)
Lemma split_then_merge_into_other_trip :
  well_formed overlapping_trips ∧
  trips_start_at_earliest overlapping_trips ∧
  shows_trip overlapping_trips overlapping_row 0%nat [2%nat; 1%nat; 0%nat] ∧
  newest_first (node_children overlapping_row) ∧
  ∃ s1 parent' newparent' s2,
    insert_trip_before overlapping_row 1 overlapping_trips
      = Ok (parent', Some newparent') s1 ∧
    merge_trips_cb (DIVE_DATE (node_row newparent')) (DIVE_DATE (node_row parent')) s1
      = Ok tt s2 ∧
    members overlapping_trips 0%nat = [2%nat; 1%nat; 0%nat] ∧
    members s2 0%nat = [2%nat] ∧
    members s2 1%nat = [1%nat; 0%nat; 3%nat].
Proof.
  split_and!.
  - exact overlapping_trips_well_formed.
  - intros t Ht. vm_compute in Ht.
    repeat (apply elem_of_cons in Ht as [->|Ht]; [by vm_compute|]).
    by apply elem_of_nil in Ht.
  - split; [vm_compute; by left|reflexivity|repeat constructor|reflexivity].
  - cbn. repeat constructor.
  - do 4 eexists. split; [vm_compute; reflexivity|].
    split; [vm_compute; reflexivity|]. by vm_compute.
Qed.


(** The split of trip 0 of [two_trips] at its second row when the rows are
    oldest first: the new trip holds the later dive, starts at it and comes
    behind the old trip in the registry. *)
Lemma split_two_trips_oldest_first :
  ∃ s' parent' newparent',
    insert_trip_before two_trips_row_oldest_first 1 two_trips
      = Ok (parent', Some newparent') s' ∧
    well_formed s' ∧
    trips_start_at_earliest s' ∧
    registry s' = [0%nat; 2%nat; 1%nat] ∧
    members s' 0%nat = [0%nat] ∧
    members s' 2%nat = [1%nat] ∧
    trip_start s' 0%nat = 1000 ∧
    trip_start s' 2%nat = 4600.
Proof.
  destruct (insert_trip_before_inv false two_trips two_trips_row_oldest_first 0 0%nat
              [0%nat; 1%nat] [] [1%nat])
    as (s' & parent' & newparent' & Hrun & Hwf' & Hinv' & _ & HR' & _).
  - exact two_trips_well_formed.
  - exact two_trips_start_at_earliest.
  - exact two_trips_dated.
  - split; [vm_compute; by left|reflexivity|repeat constructor|].
    change (members two_trips 0) with [1%nat; 0%nat]. apply Permutation_swap.
  - cbn. repeat constructor.
  - cbn. lia.
  - reflexivity.
  - constructor.
  - intros _ b [= <-]. by vm_compute.
  - exists s', parent', newparent'. split_and!; [done..| | | |].
    all: vm_compute in Hrun; injection Hrun as _ _ <-; by vm_compute.
Qed.

(** ** Every mutation keeps the trips right *)

Lemma earliest_member_nonempty s t :
  earliest_member s t = Some (trip_start s t) → members s t ≠ [].
Proof. unfold earliest_member. intros Hmin He. by rewrite He in Hmin. Qed.

Section Mutations.
Context `{DiveParams}.

(** C1, amended.  From a well-formed store whose dives have timestamps
    and whose trips start at their earliest member, each of the five
    mutations returns and leaves such a store: every trip of the registry
    has a member and starts when its earliest member does.  The dive and
    the trip of an add or a remove exist; the two dates of a merge find
    two different trips; the row of a split shows a trip with its dives
    in time order, newest first or oldest first, the trips before it in
    the registry start before it and, for rows oldest first, the trip
    behind it starts after the dive of the split. *)
Theorem trip_mutations_keep_trips_right s op :
  well_formed s →
  trips_start_at_earliest s →
  dives_dated s →
  op_ready s op →
  ∃ s',
    run_op op s = Ok tt s' ∧
    well_formed s' ∧
    trips_start_at_earliest s' ∧
    dives_dated s' ∧
    (∀ t, t ∈ registry s' →
          members s' t ≠ [] ∧ earliest_member s' t = Some (trip_start s' t)).
Proof.
  intros Hwf Hinv Hdated Hready.
  cut (∃ s', run_op op s = Ok tt s' ∧ well_formed s' ∧
             trips_start_at_earliest s' ∧ dives_dated s').
  { intros (s' & Hrun & Hwf' & Hinv' & Hdated'). exists s'.
    split_and!; [done..|]. intros t Ht.
    split; [apply earliest_member_nonempty|]; by apply Hinv'. }
  destruct op as [d t|d|this_date prev_date|parent k|]; cbn [run_op op_ready] in *.
  - (* add_dive_to_trip *)
    destruct Hready as ([dv Hd] & Ht).
    destruct (decide (divetrip dv = Some t)) as [Hsame|Hne].
    + exists s. split_and!; [|done..]. by eapply add_dive_to_trip_same_trip.
    + destruct (add_dive_to_trip_inv s d dv t Hwf Hinv Hdated Hd Ht Hne)
        as (s' & Hrun & Hwf' & Hinv' & Hsame & _).
      exists s'. split_and!; [done..|]. by eapply same_but_trip_of_dated.
  - (* remove_dive_from_trip *)
    destruct Hready as [dv Hd].
    destruct (remove_dive_from_trip_inv s d dv Hwf Hinv Hd)
      as (s' & Hrun & Hwf' & Hinv' & Hsame & _).
    exists s'. split_and!; [done..|]. by eapply same_but_trip_of_dated.
  - (* merge_trips_cb *)
    destruct Hready as (this & prev & Hthis & Hprev & Hne).
    rewrite (run_find_matching_trip _ _ _ _ Hwf) in Hthis.
    rewrite (run_find_matching_trip _ _ _ _ Hwf) in Hprev.
    injection Hthis as Hthis. injection Hprev as Hprev.
    destruct (merge_trips_cb_inv s this_date prev_date this prev
                Hwf Hinv Hdated Hthis Hprev Hne)
      as (s' & Hrun & Hwf' & Hinv' & Hdated' & _).
    exists s'. by split_and!.
  - (* insert_trip_before *)
    destruct Hready as (old & ds & desc & Hshow & Hsorted & Hk & Hnear).
    destruct k as [|k'].
    { exists s. by split_and!. }
    destruct (list_elem_of_split _ _ (st_trip _ _ _ _ Hshow)) as (A & B & HR).
    destruct (Hnear A B HR) as (Hbefore & Hbehind).
    destruct (insert_trip_before_inv desc s parent k' old ds A B
                Hwf Hinv Hdated Hshow Hsorted Hk HR Hbefore Hbehind)
      as (s' & parent' & newparent' & Hrun & Hwf' & Hinv' & Hdated' & _).
    exists s'. split_and!; [|done..].
    by rewrite (run_bind _ _ _ _ _ Hrun).
  - (* autogroup_dives *)
    by apply autogroup_dives_inv.
Qed.

End Mutations.

Lemma trip_mutations_keep_trips_right_witness :
  ∃ s',
    @run_op (example_params 7200) (Split_trip two_trips_row 1) two_trips = Ok tt s' ∧
    well_formed s' ∧
    trips_start_at_earliest s' ∧
    dives_dated s' ∧
    (∀ t, t ∈ registry s' →
          members s' t ≠ [] ∧ earliest_member s' t = Some (trip_start s' t)).
Proof.
  apply (@trip_mutations_keep_trips_right (example_params 7200)).
  - exact two_trips_well_formed.
  - exact two_trips_start_at_earliest.
  - exact two_trips_dated.
  - exists 0%nat, [1%nat; 0%nat], true. split_and!.
    + exact two_trips_row_shows.
    + exact two_trips_row_newest_first.
    + cbn. lia.
    + intros A B HR. change (registry two_trips) with [0%nat; 1%nat] in HR.
      split; [|done].
      destruct A as [|a [|b [|c A]]]; [constructor|simplify_eq/=..].
Defined.

Lemma undated_store_well_formed : well_formed undated_store.
Proof.
  split.
  - vm_compute. eauto 10.
  - by_computation.
  - intros [|t] tr Ht; vm_compute in Ht; simplify_eq.
    split_and!; [vm_compute; eauto 20|by_computation|reflexivity].
  - intros [|t] Ht; vm_compute in Ht; by simplify_eq.
  - intros [|[|d]] dv t Hd Ht; vm_compute in Hd; simplify_eq;
      vm_compute in Ht; simplify_eq; split; by_computation.
  - intros d Hd. vm_compute in Hd.
    repeat (apply elem_of_cons in Hd as [->|Hd]; [by eexists|]).
    by apply elem_of_nil in Hd.
Qed.

(** C1 as stated fails: add_dive_to_trip takes a timestamp of 0 for unset
    and does not move the start of the trip to it.  The dive without a
    timestamp joins trip 0, whose start stays at 1000, above the least
    [when] of its members. *)
Lemma add_dive_without_timestamp_keeps_start :
  well_formed undated_store ∧
  trips_start_at_earliest undated_store ∧
  ∃ s',
    add_dive_to_trip 1%nat (Some 0%nat) undated_store = Ok tt s' ∧
    registry s' = [0%nat] ∧
    members s' 0%nat = [1%nat; 0%nat] ∧
    earliest_member s' 0%nat = Some 0 ∧
    trip_start s' 0%nat = 1000.
Proof.
  split_and!.
  - exact undated_store_well_formed.
  - intros t Ht. vm_compute in Ht.
    repeat (apply elem_of_cons in Ht as [->|Ht]; [by vm_compute|]).
    by apply elem_of_nil in Ht.
  - eexists. split; [vm_compute; reflexivity|]. by vm_compute.
Qed.

(* ===================================================================== *)
(** * Looking up trips: find_trip_by_idx and find_matching_trip *)
(* ===================================================================== *)

Lemma run_find_trip_by_idx_loop_found s idx : ∀ l fuel p,
  tseg (heap_trips s) p l None →
  (length l < fuel)%nat →
  ∃ r, find_trip_by_idx_loop fuel idx p s = Ok r s ∧
       match r with
       | Some t => ∃ l1 l2, l = l1 ++ t :: l2 ∧ index_of s t = Some idx ∧
                            ∀ a, a ∈ l1 → index_of s a ≠ Some idx
       | None => ∀ a, a ∈ l → index_of s a ≠ Some idx
       end.
Proof.
  induction l as [|t l IH]; intros fuel p Hseg Hfuel.
  - cbn in Hseg. subst p. exists None. split; [by destruct fuel|].
    intros a Ha. by apply elem_of_nil in Ha.
  - destruct Hseg as (-> & tr & Htr & Hseg).
    destruct fuel as [|fuel]; [simpl in Hfuel; lia|].
    cbn [find_trip_by_idx_loop].
    rewrite (run_bind _ _ _ _ _ (run_load_trip _ _ _ Htr)).
    destruct (Z.eqb_spec (trip_index tr) idx) as [Heq|Hne].
    + exists (Some t). split; [done|]. exists [], l. split_and!; [done| |].
      * unfold index_of. by rewrite Htr, <- Heq.
      * intros a Ha. by apply elem_of_nil in Ha.
    + destruct (IH fuel (trip_next tr) Hseg ltac:(simpl in Hfuel; lia)) as (r & Hrun & Hr).
      exists r. split; [done|]. destruct r as [x|].
      * destruct Hr as (l1 & l2 & -> & Hx & Hl1). exists (t :: l1), l2.
        split_and!; [done|done|]. intros a Ha.
        apply elem_of_cons in Ha as [->|Ha]; [|by apply Hl1].
        unfold index_of. rewrite Htr. cbn. congruence.
      * intros a Ha. apply elem_of_cons in Ha as [->|Ha]; [|by apply Hr].
        unfold index_of. rewrite Htr. cbn. congruence.
Qed.

(** find_trip_by_idx reads the store and leaves it as it is.  For an index
    that is not negative the answer is NULL, whatever the indices of the
    trips are.  For a negative index it is the first trip of the registry
    with that index, and NULL when no trip of the registry has it. *)
Theorem find_trip_by_idx_first_with_index s idx :
  well_formed s →
  ∃ r, find_trip_by_idx idx s = Ok r s ∧
       (0 <= idx → r = None) ∧
       match r with
       | Some t => idx < 0 ∧
                   ∃ l1 l2, registry s = l1 ++ t :: l2 ∧ index_of s t = Some idx ∧
                            ∀ a, a ∈ l1 → index_of s a ≠ Some idx
       | None => idx < 0 → ∀ a, a ∈ registry s → index_of s a ≠ Some idx
       end.
Proof.
  intros Hwf. unfold find_trip_by_idx.
  destruct (Z.geb_spec idx 0) as [Hge|Hlt].
  - exists None. split_and!; [done|done|lia].
  - pose proof (rep_trips _ _ _ Hwf) as Hseg.
    destruct (run_find_trip_by_idx_loop_found s idx (registry s) (trip_fuel s)
                (dive_trip_list s) Hseg) as (r & Hrun & Hr).
    { pose proof (tseg_length _ _ _ _ Hseg (rep_trips_nodup _ _ _ Hwf)).
      unfold trip_fuel. lia. }
    exists r. split_and!.
    + unfold get_state at 1. unfold bind at 1. done.
    + lia.
    + destruct r; [by split|done].
Qed.

Lemma last_at_or_before_sorted s w : ∀ L t,
  trip_start s t <= w →
  starts_ascend s (t :: L) →
  ∃ A B, t :: L = A ++ last_at_or_before s w t L :: B ∧
         Forall (λ a, trip_start s a <= w) A ∧
         trip_start s (last_at_or_before s w t L) <= w ∧
         Forall (λ b, w < trip_start s b) B.
Proof.
  induction L as [|n L IH]; intros t Ht Hord; cbn [last_at_or_before].
  - exists [], []. by split_and!.
  - destruct Hord as (Hall & Hord').
    destruct (Z.leb_spec (trip_start s n) w) as [Hn|Hn].
    + destruct (IH n Hn Hord') as (A & B & Heq & HA & Hx & HB).
      exists (t :: A), B. split_and!; [by rewrite Heq|by constructor|done|done].
    + exists [], (n :: L). split_and!; [done|done|done|].
      destruct Hord' as (Hall' & _).
      constructor; [done|]. eapply Forall_impl; [exact Hall'|]. cbn. intros; lia.
Qed.

(** find_matching_trip reads the store and leaves it as it is.  When the
    trips of the registry are in the order of their start, the answer is
    the last trip that starts at or before the time given: every trip up to
    it starts at or before that time and every trip behind it starts later.
    The answer is NULL when every trip starts later. *)
Theorem find_matching_trip_last_at_or_before s w :
  well_formed s →
  trips_in_order s →
  ∃ r, find_matching_trip w s = Ok r s ∧
       match r with
       | Some t => ∃ A B, registry s = A ++ t :: B ∧
                          Forall (λ a, trip_start s a <= w) A ∧
                          trip_start s t <= w ∧
                          Forall (λ b, w < trip_start s b) B
       | None => ∀ t, t ∈ registry s → w < trip_start s t
       end.
Proof.
  intros Hwf Hord. exists (matching_trip s w).
  split; [by eapply run_find_matching_trip|].
  unfold matching_trip. unfold trips_in_order in Hord.
  destruct (registry s) as [|t L] eqn:HR.
  - intros t Ht. by apply elem_of_nil in Ht.
  - destruct (Z.gtb_spec (trip_start s t) w) as [Hgt|Hle].
    + intros x Hx. apply elem_of_cons in Hx as [->|Hx]; [lia|].
      destruct Hord as (Hall & _).
      pose proof (proj1 (Forall_forall _ _) Hall x Hx) as Hx'. cbn in Hx'. lia.
    + by apply last_at_or_before_sorted.
Qed.

Lemma find_matching_trip_last_at_or_before_witness :
  ∃ r, find_matching_trip 5000 two_trips = Ok r two_trips ∧
       match r with
       | Some t => ∃ A B, registry two_trips = A ++ t :: B ∧
                          Forall (λ a, trip_start two_trips a <= 5000) A ∧
                          trip_start two_trips t <= 5000 ∧
                          Forall (λ b, 5000 < trip_start two_trips b) B
       | None => ∀ t, t ∈ registry two_trips → 5000 < trip_start two_trips t
       end.
Proof.
  apply (find_matching_trip_last_at_or_before two_trips 5000).
  - exact two_trips_well_formed.
  - unfold trips_in_order. change (registry two_trips) with [0%nat; 1%nat].
    cbn [starts_ascend]. split_and!; [|done..].
    apply Forall_singleton. by vm_compute.
Defined.

Lemma find_trip_by_idx_first_with_index_witness :
  ∃ r, find_trip_by_idx (-2) two_trips = Ok r two_trips ∧
       (0 <= -2 → r = None) ∧
       match r with
       | Some t => -2 < 0 ∧
                   ∃ l1 l2, registry two_trips = l1 ++ t :: l2 ∧
                            index_of two_trips t = Some (-2) ∧
                            ∀ a, a ∈ l1 → index_of two_trips a ≠ Some (-2)
       | None => -2 < 0 → ∀ a, a ∈ registry two_trips → index_of two_trips a ≠ Some (-2)
       end.
Proof.
  apply (find_trip_by_idx_first_with_index two_trips (-2)).
  exact two_trips_well_formed.
Defined.

(* ===================================================================== *)
(** * insert_trip and the order of the registry *)
(* ===================================================================== *)

Lemma starts_ascend_ext s s' L :
  (∀ t, trip_start s' t = trip_start s t) → starts_ascend s L → starts_ascend s' L.
Proof.
  intros Hst. induction L as [|t L IH]; [done|]. intros (Hall & Hord).
  split; [|by apply IH]. eapply Forall_impl; [exact Hall|].
  cbn. intros b. by rewrite !Hst.
Qed.

Lemma earlier_trips_lt s w L : Forall (λ a, trip_start s a < w) (earlier_trips s w L).
Proof.
  induction L as [|t L IH]; cbn [earlier_trips]; [done|].
  destruct (Z.ltb_spec (trip_start s t) w); [by constructor|done].
Qed.

Lemma later_trips_head s w L y :
  head (later_trips s w L) = Some y → w <= trip_start s y.
Proof.
  induction L as [|t L IH]; cbn [later_trips]; [done|].
  destruct (Z.ltb_spec (trip_start s t) w); [done|]. by intros [= <-].
Qed.

Lemma starts_ascend_later s w L : starts_ascend s L → starts_ascend s (later_trips s w L).
Proof.
  induction L as [|t L IH]; cbn [later_trips]; [done|]. intros Hord.
  destruct (Z.ltb_spec (trip_start s t) w); [|done]. apply IH, Hord.
Qed.

Lemma starts_ascend_earlier s w L : starts_ascend s L → starts_ascend s (earlier_trips s w L).
Proof.
  induction L as [|t L IH]; cbn [earlier_trips]; [done|]. intros (Hall & Hord).
  destruct (Z.ltb_spec (trip_start s t) w); [|done]. split; [|by apply IH].
  apply Forall_forall. intros b Hb.
  apply (proj1 (Forall_forall _ _) Hall).
  pose proof (earlier_later_trips s w L) as Heq. rewrite <- Heq.
  apply elem_of_app. by left.
Qed.

(** The trips from the one insert_trip stops at all start at or after the
    time it looks for, when the registry is in order. *)
Lemma later_trips_ge s w L :
  starts_ascend s L → Forall (λ b, w <= trip_start s b) (later_trips s w L).
Proof.
  intros Hord. pose proof (starts_ascend_later s w L Hord) as Hl.
  pose proof (later_trips_head s w L) as Hhead.
  destruct (later_trips s w L) as [|y L']; [done|].
  destruct Hl as (Hall & _). pose proof (Hhead y eq_refl).
  constructor; [done|]. eapply Forall_impl; [exact Hall|]. cbn. intros; lia.
Qed.

Lemma starts_ascend_insert s w x L :
  starts_ascend s L →
  trip_start s x = w →
  starts_ascend s (earlier_trips s w L ++ x :: later_trips s w L).
Proof.
  intros Hord Hx.
  pose proof (earlier_trips_lt s w L) as Hlt.
  pose proof (later_trips_ge s w L Hord) as Hge.
  pose proof (starts_ascend_earlier s w L Hord) as He.
  pose proof (starts_ascend_later s w L Hord) as Hl.
  induction (earlier_trips s w L) as [|a E IH]; cbn [app starts_ascend].
  - split; [|done]. eapply Forall_impl; [exact Hge|]. cbn. intros; lia.
  - apply Forall_cons in Hlt as (Ha & Hlt). destruct He as (Hall & He).
    split; [|by apply IH]. apply Forall_app. split; [done|].
    constructor; [lia|]. eapply Forall_impl; [exact Hge|]. cbn. intros; lia.
Qed.

(** When the registry is in order, insert_trip finds a trip with the start
    of the draft if the registry has one. *)
Lemma same_start_trip_found s w :
  starts_ascend s (registry s) →
  w ∈ trip_start s <$> registry s →
  is_Some (same_start_trip s w).
Proof.
  intros Hord Hin. unfold same_start_trip.
  pose proof (earlier_trips_lt s w (registry s)) as Hlt.
  pose proof (later_trips_ge s w (registry s) Hord) as Hge.
  pose proof (starts_ascend_later s w (registry s) Hord) as Hl.
  apply list_elem_of_fmap in Hin as (t & Ht & Hin).
  rewrite <- (earlier_later_trips s w (registry s)) in Hin.
  apply elem_of_app in Hin as [Hin|Hin].
  { pose proof (proj1 (Forall_forall _ _) Hlt t Hin) as Hc. cbn in Hc. lia. }
  destruct (later_trips s w (registry s)) as [|y L']; [by apply elem_of_nil in Hin|].
  destruct Hl as (Hall & _). apply Forall_cons in Hge as (Hy & _).
  destruct (Z.eqb_spec (trip_start s y) w) as [|Hne]; [by eexists|].
  exfalso. apply elem_of_cons in Hin as [->|Hin]; [lia|].
  pose proof (proj1 (Forall_forall _ _) Hall t Hin) as Hc. cbn in Hc. lia.
Qed.

(** insert_trip of a draft without dives that is not in the registry.  It
    returns, and the registry stays in the order of the starts if it was.
    If a trip of the registry starts when the draft does, the registry is
    left as it is and that trip is the result; otherwise the draft is the
    result and the registry has it as one more trip.  So trips that started
    at different times still do.  The members and the starts of all trips
    are as before. *)
Theorem insert_trip_keeps_order s dt dtr :
  well_formed s →
  trips_in_order s →
  heap_trips s !! dt = Some dtr →
  dt ∉ registry s →
  trip_dives dtr = None →
  ∃ r s',
    insert_trip dt s = Ok r s' ∧
    well_formed s' ∧
    trips_in_order s' ∧
    (distinct_starts s → distinct_starts s') ∧
    r ∈ registry s' ∧
    trip_start s' r = trip_when dtr ∧
    (∀ t, trip_start s' t = trip_start s t) ∧
    (∀ t, members s' t = members s t) ∧
    if decide (trip_when dtr ∈ trip_start s <$> registry s)
    then registry s' = registry s ∧ r ≠ dt
    else r = dt ∧ registry s' ≡ₚ dt :: registry s.
Proof.
  intros Hwf Hord Hdt Hfresh Hnodives.
  destruct (insert_trip_spec s (registry s) (members s) dt dtr Hwf Hdt Hfresh Hnodives)
    as (s' & Hrun & Hrep & HD & Htab & Hfreed & Hwhen & _ & _).
  set (w := trip_when dtr) in *.
  assert (Hst : ∀ t, trip_start s' t = trip_start s t).
  { intros t. unfold trip_start.
    pose proof (f_equal (λ l, l !! t) Hwhen) as Heq. cbn in Heq.
    rewrite !list_lookup_fmap in Heq.
    destruct (heap_trips s' !! t), (heap_trips s !! t); by simplify_eq/=. }
  assert (Hmem : ∀ t, members s' t = members s t).
  { intros t. by rewrite (members_of_rep _ _ _ t Hrep). }
  pose proof (registry_of_rep _ _ _ Hrep) as HR'.
  pose proof (rep_well_formed _ _ _ Hrep) as Hwf'.
  assert (Hdtw : trip_start s dt = w) by (by apply trip_start_lookup).
  destruct (same_start_trip s w) as [t0|] eqn:Hsame.
  - (* a trip of the registry starts when the draft does *)
    destruct (same_start_trip_Some _ _ _ _ _ Hwf Hsame) as (Ht0 & Hw0).
    exists t0, s'. split_and!; [done|done| | |by rewrite HR'|by rewrite Hst|done|done|].
    + unfold trips_in_order. rewrite HR'. by apply (starts_ascend_ext s).
    + unfold distinct_starts. rewrite HR'.
      replace (trip_start s' <$> registry s) with (trip_start s <$> registry s); [done|].
      apply list_fmap_ext. intros _ t _. by rewrite Hst.
    + rewrite decide_True.
      * split; [done|]. intros ->. done.
      * apply list_elem_of_fmap. by exists t0.
  - (* no trip at the place of the draft starts when it does *)
    exists dt, s'.
    assert (Hnone : w ∉ trip_start s <$> registry s).
    { intros Hin. destruct (same_start_trip_found s w Hord Hin) as [? Hc]. congruence. }
    assert (Hperm : registry s' ≡ₚ dt :: registry s).
    { rewrite HR'. rewrite <- Permutation_middle.
      by rewrite (earlier_later_trips s w (registry s)). }
    split_and!; [done|done| | | |by rewrite Hst|done|done|].
    + unfold trips_in_order. rewrite HR'. apply (starts_ascend_ext s); [done|].
      by apply starts_ascend_insert.
    + unfold distinct_starts. intros Hnd.
      replace (trip_start s' <$> registry s') with (trip_start s <$> registry s')
        by (apply list_fmap_ext; intros _ t _; by rewrite Hst).
      rewrite Hperm. rewrite fmap_cons. apply NoDup_cons. split; [|done].
      by rewrite Hdtw.
    + rewrite Hperm. by left.
    + by rewrite decide_False.
Qed.

Lemma two_trips_with_draft_well_formed w : well_formed (two_trips_with_draft w).
Proof.
  split.
  - vm_compute. eauto 10.
  - by_computation.
  - intros [|[|[|t]]] tr Ht; vm_compute in Ht; simplify_eq.
    + split_and!; [vm_compute; eauto 20|by_computation|reflexivity].
    + split_and!; [vm_compute; eauto 20|by_computation|reflexivity].
    + split_and!; [reflexivity|by_computation|reflexivity].
  - intros [|[|[|t]]] Ht; vm_compute in Ht; by simplify_eq.
  - intros [|[|[|d]]] dv t Hd Ht; vm_compute in Hd; simplify_eq;
      vm_compute in Ht; simplify_eq; split; by_computation.
  - intros d Hd. vm_compute in Hd.
    repeat (apply elem_of_cons in Hd as [->|Hd]; [by eexists|]).
    by apply elem_of_nil in Hd.
Qed.

Lemma insert_trip_keeps_order_witness :
  ∃ r s',
    insert_trip 2%nat (two_trips_with_draft 5000) = Ok r s' ∧
    well_formed s' ∧
    trips_in_order s' ∧
    (distinct_starts (two_trips_with_draft 5000) → distinct_starts s') ∧
    r ∈ registry s' ∧
    trip_start s' r = trip_when (set_trip_when zero_trip 5000) ∧
    (∀ t, trip_start s' t = trip_start (two_trips_with_draft 5000) t) ∧
    (∀ t, members s' t = members (two_trips_with_draft 5000) t) ∧
    if decide (trip_when (set_trip_when zero_trip 5000)
               ∈ trip_start (two_trips_with_draft 5000)
                   <$> registry (two_trips_with_draft 5000))
    then registry s' = registry (two_trips_with_draft 5000) ∧ r ≠ 2%nat
    else r = 2%nat ∧ registry s' ≡ₚ 2%nat :: registry (two_trips_with_draft 5000).
Proof.
  apply (insert_trip_keeps_order (two_trips_with_draft 5000) 2%nat
           (set_trip_when zero_trip 5000)).
  - apply two_trips_with_draft_well_formed.
  - unfold trips_in_order.
    change (registry (two_trips_with_draft 5000)) with [0%nat; 1%nat].
    cbn [starts_ascend]. split_and!; [|done..].
    apply Forall_singleton. by vm_compute.
  - reflexivity.
  - by_computation.
  - reflexivity.
Defined.

(* ===================================================================== *)
(** * Taking a dive out of a trip and putting it into one *)
(* ===================================================================== *)

Lemma ok_inj {A} (a a' : A) (s s' : state) : Ok a s = Ok a' s' → a = a' ∧ s = s'.
Proof. by intros [= -> ->]. Qed.

Lemma without_trip_of_elem d Mf (R : list trip_ptr) t :
  t ∈ without_trip_of d Mf R ↔ t ∈ R ∧ Mf t ≠ [d].
Proof. unfold without_trip_of. rewrite list_elem_of_filter. tauto. Qed.

Lemma start_without_other s d l w : d ∉ l → start_without s d l w = w.
Proof. intros Hd. unfold start_without. rewrite decide_False; [done|]. by intros (? & _). Qed.

(** remove_dive_from_trip returns in a well-formed store.  Afterwards the
    dive has no trip and, if it had one, the flag NO_TRIP.  Every trip has
    the members it had, in their order, but for the dive; a trip is in the
    registry if it was and the dive was not its only member; the trips the
    dive was not in start when they did; and the trips still start at their
    earliest member.  For a dive without a trip nothing changes. *)
Theorem remove_dive_from_trip_takes_dive_out s d dv :
  well_formed s →
  trips_start_at_earliest s →
  heap_dives s !! d = Some dv →
  ∃ s',
    remove_dive_from_trip d s = Ok tt s' ∧
    well_formed s' ∧
    trips_start_at_earliest s' ∧
    (∃ dv', heap_dives s' !! d = Some dv' ∧ divetrip dv' = None ∧
            (is_Some (divetrip dv) → tripflag dv' = NO_TRIP)) ∧
    (∀ t, members s' t = filter (λ y, y ≠ d) (members s t)) ∧
    (∀ t, t ∈ registry s' ↔ t ∈ registry s ∧ members s t ≠ [d]) ∧
    (∀ t, d ∉ members s t → trip_start s' t = trip_start s t) ∧
    (divetrip dv = None → s' = s).
Proof.
  intros Hwf Hinv Hd.
  destruct (remove_dive_from_trip_inv s d dv Hwf Hinv Hd)
    as (s' & Hrun & Hwf' & Hinv' & Hsame & HR & HM & Hst).
  destruct (remove_dive_from_trip_ok s _ _ d dv Hwf Hd)
    as (s'' & Hrun' & _ & _ & Hdv' & _).
  rewrite Hrun in Hrun'. apply ok_inj in Hrun' as (_ & <-).
  exists s'. split_and!; [done..| |done| | |].
  - destruct (divetrip dv) as [t|] eqn:Ht.
    + eexists. split_and!; [exact Hdv'|done|done].
    + exists dv. split_and!; [done|done|]. by intros [? ?].
  - intros t. rewrite HR. apply without_trip_of_elem.
  - intros t Ht. rewrite Hst. by apply start_without_other.
  - intros Hnone. rewrite (remove_dive_from_trip_no_trip s d dv Hd Hnone) in Hrun.
    by apply ok_inj in Hrun as (_ & <-).
Qed.

Lemma remove_dive_from_trip_takes_dive_out_witness :
  ∃ s',
    remove_dive_from_trip 1%nat two_trips = Ok tt s' ∧
    well_formed s' ∧
    trips_start_at_earliest s' ∧
    (∃ dv', heap_dives s' !! 1%nat = Some dv' ∧ divetrip dv' = None ∧
            (is_Some (divetrip (trip_dive 4600 0 (Some 0%nat) (TripDives 0))) →
             tripflag dv' = NO_TRIP)) ∧
    (∀ t, members s' t = filter (λ y, y ≠ 1%nat) (members two_trips t)) ∧
    (∀ t, t ∈ registry s' ↔ t ∈ registry two_trips ∧ members two_trips t ≠ [1%nat]) ∧
    (∀ t, 1%nat ∉ members two_trips t → trip_start s' t = trip_start two_trips t) ∧
    (divetrip (trip_dive 4600 0 (Some 0%nat) (TripDives 0)) = None → s' = two_trips).
Proof.
  apply (remove_dive_from_trip_takes_dive_out two_trips 1%nat
           (trip_dive 4600 0 (Some 0%nat) (TripDives 0))).
  - exact two_trips_well_formed.
  - exact two_trips_start_at_earliest.
  - reflexivity.
Defined.

(** add_dive_to_trip of a dive that is not in the trip, which is a trip of
    the registry: the call returns, the dive is the first member of the
    trip and a member of no other trip, the other trips have the members
    they had but for the dive, and the trip the dive came from leaves the
    registry if the dive was its only member.  The trip starts at the dive
    if that is earlier than its start. *)
Theorem add_dive_to_trip_moves_dive s d dv t :
  well_formed s →
  trips_start_at_earliest s →
  dives_dated s →
  heap_dives s !! d = Some dv →
  t ∈ registry s →
  divetrip dv ≠ Some t →
  ∃ s',
    add_dive_to_trip d (Some t) s = Ok tt s' ∧
    well_formed s' ∧
    trips_start_at_earliest s' ∧
    members s' t = d :: members s t ∧
    (∀ t', t' ≠ t → members s' t' = filter (λ y, y ≠ d) (members s t')) ∧
    (∀ t', d ∈ members s' t' ↔ t' = t) ∧
    (∀ t', t' ∈ registry s' ↔ t' ∈ registry s ∧ members s t' ≠ [d]) ∧
    t ∈ registry s' ∧
    trip_start s' t = Z.min (when dv) (trip_start s t) ∧
    (∃ dv', heap_dives s' !! d = Some dv' ∧ divetrip dv' = Some t ∧
            dive_data dv' = dive_data dv).
Proof.
  intros Hwf Hinv Hdated Hd Ht Hne.
  destruct (add_dive_to_trip_inv s d dv t Hwf Hinv Hdated Hd Ht Hne)
    as (s' & Hrun & Hwf' & Hinv' & Hsame & (dv' & Hdv' & Htrip') & HR & HM & Hst & _).
  assert (Hnotin : d ∉ members s t) by (by eapply rep_no_trip_notin).
  assert (Hreg : ∀ t', t' ∈ registry s' ↔ t' ∈ registry s ∧ members s t' ≠ [d]).
  { intros t'. rewrite HR. apply without_trip_of_elem. }
  exists s'. split_and!; [done|done|done| | | |done| |done|].
  - by rewrite HM, decide_True.
  - intros t' Hne'. by rewrite HM, decide_False.
  - intros t'. rewrite HM. destruct (decide (t' = t)) as [->|Hne'].
    + split; [done|]. intros _. by left.
    + unfold without_dive. rewrite list_elem_of_filter. cbn beta.
      split; [intros (Hc & _); by destruct Hc|intros Heq; by destruct Hne'].
  - apply Hreg. split; [done|]. intros Heq. apply Hnotin. rewrite Heq. by left.
  - exists dv'. split_and!; [done|done|].
    pose proof (sb_dive_data _ _ _ Hsame) as Hdata.
    pose proof (f_equal (λ l, l !! d) Hdata) as Heq. cbn beta in Heq.
    rewrite !list_lookup_fmap, Hdv', Hd in Heq. by apply (inj Some).
Qed.

Lemma add_dive_to_trip_moves_dive_witness :
  ∃ s',
    add_dive_to_trip 2%nat (Some 0%nat) two_trips = Ok tt s' ∧
    well_formed s' ∧
    trips_start_at_earliest s' ∧
    members s' 0%nat = 2%nat :: members two_trips 0%nat ∧
    (∀ t', t' ≠ 0%nat → members s' t' = filter (λ y, y ≠ 2%nat) (members two_trips t')) ∧
    (∀ t', 2%nat ∈ members s' t' ↔ t' = 0%nat) ∧
    (∀ t', t' ∈ registry s' ↔ t' ∈ registry two_trips ∧ members two_trips t' ≠ [2%nat]) ∧
    0%nat ∈ registry s' ∧
    trip_start s' 0%nat
      = Z.min (when (trip_dive 181000 1 None (TripDives 1))) (trip_start two_trips 0%nat) ∧
    (∃ dv', heap_dives s' !! 2%nat = Some dv' ∧ divetrip dv' = Some 0%nat ∧
            dive_data dv' = dive_data (trip_dive 181000 1 None (TripDives 1))).
Proof.
  apply (add_dive_to_trip_moves_dive two_trips 2%nat
           (trip_dive 181000 1 None (TripDives 1)) 0%nat).
  - exact two_trips_well_formed.
  - exact two_trips_start_at_earliest.
  - exact two_trips_dated.
  - reflexivity.
  - by_computation.
  - done.
Defined.

(** A dive without a trip that add_dive_to_trip puts into a trip of the
    registry and remove_dive_from_trip takes out again: both calls return,
    and the registry, the members of every trip and the start of every trip
    are what they were.  The dive is not: it now carries the flag NO_TRIP. *)
Theorem add_then_remove_restores_trips s d dv t :
  well_formed s →
  trips_start_at_earliest s →
  dives_dated s →
  heap_dives s !! d = Some dv →
  divetrip dv = None →
  t ∈ registry s →
  ∃ s1 s2,
    add_dive_to_trip d (Some t) s = Ok tt s1 ∧
    d ∈ members s1 t ∧
    remove_dive_from_trip d s1 = Ok tt s2 ∧
    well_formed s2 ∧
    trips_start_at_earliest s2 ∧
    registry s2 = registry s ∧
    (∀ t', members s2 t' = members s t') ∧
    (∀ t', trip_start s2 t' = trip_start s t') ∧
    (∃ dv2, heap_dives s2 !! d = Some dv2 ∧ divetrip dv2 = None ∧
            tripflag dv2 = NO_TRIP ∧ dive_data dv2 = dive_data dv).
Proof.
  intros Hwf Hinv Hdated Hd Hnone Ht.
  assert (Hne : divetrip dv ≠ Some t) by (by rewrite Hnone).
  assert (Hout : ∀ t', d ∉ members s t').
  { intros t'. eapply rep_no_trip_notin; [done..|]. by rewrite Hnone. }
  assert (Hfilter : ∀ t', filter (λ y, y ≠ d) (members s t') = members s t').
  { intros t'. by apply filter_ne_notin. }
  destruct (add_dive_to_trip_inv s d dv t Hwf Hinv Hdated Hd Ht Hne)
    as (s1 & Hrun1 & Hwf1 & Hinv1 & Hsame1 & (dv1 & Hdv1 & Htrip1) & HR1 & HM1 & Hst1 & Hots1).
  destruct (remove_dive_from_trip_inv s1 d dv1 Hwf1 Hinv1 Hdv1)
    as (s2 & Hrun2 & Hwf2 & Hinv2 & Hsame2 & HR2 & HM2 & Hst2).
  destruct (remove_dive_from_trip_ok s1 _ _ d dv1 Hwf1 Hdv1)
    as (s2' & Hrun2' & _ & _ & Hdv2 & _).
  rewrite Hrun2 in Hrun2'. apply ok_inj in Hrun2' as (_ & <-).
  rewrite Htrip1 in Hdv2.
  assert (HM1' : ∀ t', members s1 t' = if decide (t' = t) then d :: members s t
                                       else members s t').
  { intros t'. rewrite HM1. destruct (decide (t' = t)); [done|]. apply Hfilter. }
  assert (HMeq : ∀ t', members s2 t' = members s t').
  { intros t'. rewrite HM2. unfold without_dive. rewrite HM1'.
    destruct (decide (t' = t)) as [->|]; [|apply Hfilter].
    rewrite filter_cons_False by (by intros ?). apply Hfilter. }
  assert (Hnonempty : ∀ t', t' ∈ registry s → members s t' ≠ []).
  { intros t' Ht'. by apply earliest_member_nonempty, Hinv. }
  assert (HR1eq : registry s1 = registry s).
  { rewrite HR1. unfold without_trip_of. apply filter_all, Forall_forall.
    intros t' _ Heq. apply (Hout t'). rewrite Heq. by left. }
  assert (HReq : registry s2 = registry s).
  { rewrite HR2, HR1eq. unfold without_trip_of. apply filter_all, Forall_forall.
    intros t' Ht' Heq. rewrite HM1' in Heq.
    destruct (decide (t' = t)) as [->|].
    - injection Heq as Heq. by apply (Hnonempty t).
    - apply (Hout t'). rewrite Heq. by left. }
  assert (Hwhen : ∀ y, dive_when s2 y = dive_when s y).
  { intros y. rewrite (same_but_trip_of_when _ _ _ _ Hsame2).
    by rewrite (same_but_trip_of_when _ _ _ _ Hsame1). }
  exists s1, s2. split_and!; [done| |done|done|done|done|done| |].
  - rewrite HM1', decide_True by done. by left.
  - intros t'. destruct (decide (t' ∈ registry s)) as [Hin|Hnin].
    + eapply start_of_members; [done| |by apply Hinv|].
      * by rewrite HMeq.
      * apply Hinv2. by rewrite HReq.
    + (* a trip outside the registry is not touched *)
      assert (t' ≠ t) by (intros ->; done).
      rewrite Hst2, start_without_other.
      * rewrite Hots1 by done. by apply start_without_other.
      * rewrite HM1', decide_False by done. apply Hout.
  - eexists. split_and!; [exact Hdv2|done|done|].
    pose proof (sb_dive_data _ _ _ Hsame1) as Hdata.
    pose proof (f_equal (λ l, l !! d) Hdata) as Heq. cbn beta in Heq.
    rewrite !list_lookup_fmap, Hdv1, Hd in Heq. by apply (inj Some).
Qed.

Lemma loose_dive_store_well_formed : well_formed loose_dive_store.
Proof.
  split.
  - vm_compute. eauto 10.
  - by_computation.
  - intros [|t] tr Ht; vm_compute in Ht; simplify_eq.
    split_and!; [vm_compute; eauto 20|by_computation|reflexivity].
  - intros [|t] Ht; vm_compute in Ht; by simplify_eq.
  - intros [|[|d]] dv t Hd Ht; vm_compute in Hd; simplify_eq;
      vm_compute in Ht; simplify_eq; split; by_computation.
  - intros d Hd. vm_compute in Hd.
    repeat (apply elem_of_cons in Hd as [->|Hd]; [by eexists|]).
    by apply elem_of_nil in Hd.
Qed.

Lemma loose_dive_store_start_at_earliest : trips_start_at_earliest loose_dive_store.
Proof.
  intros t Ht. vm_compute in Ht.
  repeat (apply elem_of_cons in Ht as [->|Ht]; [by vm_compute|]).
  by apply elem_of_nil in Ht.
Qed.

Lemma loose_dive_store_dated : dives_dated loose_dive_store.
Proof. intros [|[|d]] dv Hd; vm_compute in Hd; by simplify_eq. Qed.

Lemma add_then_remove_restores_trips_witness :
  ∃ s1 s2,
    add_dive_to_trip 1%nat (Some 0%nat) loose_dive_store = Ok tt s1 ∧
    1%nat ∈ members s1 0%nat ∧
    remove_dive_from_trip 1%nat s1 = Ok tt s2 ∧
    well_formed s2 ∧
    trips_start_at_earliest s2 ∧
    registry s2 = registry loose_dive_store ∧
    (∀ t', members s2 t' = members loose_dive_store t') ∧
    (∀ t', trip_start s2 t' = trip_start loose_dive_store t') ∧
    (∃ dv2, heap_dives s2 !! 1%nat = Some dv2 ∧ divetrip dv2 = None ∧
            tripflag dv2 = NO_TRIP ∧ dive_data dv2 = dive_data (plain_dive 500)).
Proof.
  apply (add_then_remove_restores_trips loose_dive_store 1%nat (plain_dive 500) 0%nat).
  - exact loose_dive_store_well_formed.
  - exact loose_dive_store_start_at_earliest.
  - exact loose_dive_store_dated.
  - reflexivity.
  - reflexivity.
  - by_computation.
Defined.

(* ===================================================================== *)
(** * merge_trips_cb: when it returns and what it leaves *)
(* ===================================================================== *)

(** merge_trips_cb finds a trip for each of the two dates and moves the
    dives of the first into the second.  In a well-formed store whose trips
    start at their earliest member it returns if both dates find a trip and
    the two trips differ.  In every other case it stops at the assert or at
    a NULL pointer: both dates find the same trip or no trip, or one of
    them finds none. *)
Theorem merge_trips_cb_needs_two_trips s this_date prev_date :
  well_formed s →
  trips_start_at_earliest s →
  dives_dated s →
  ∃ this prev,
    find_matching_trip this_date s = Ok this s ∧
    find_matching_trip prev_date s = Ok prev s ∧
    if decide (is_Some this ∧ is_Some prev ∧ this ≠ prev)
    then ∃ s', merge_trips_cb this_date prev_date s = Ok tt s'
    else merge_trips_cb this_date prev_date s = Fault.
Proof.
  intros Hwf Hinv Hdated.
  pose proof (run_find_matching_trip _ _ _ this_date Hwf) as Hthis.
  pose proof (run_find_matching_trip _ _ _ prev_date Hwf) as Hprev.
  exists (matching_trip s this_date), (matching_trip s prev_date).
  split_and!; [done..|].
  assert (Hrun : merge_trips_cb this_date prev_date s
                 = merge_trips (matching_trip s this_date) (matching_trip s prev_date) s).
  { unfold merge_trips_cb.
    by rewrite (run_bind _ _ _ _ _ Hthis), (run_bind _ _ _ _ _ Hprev). }
  destruct (matching_trip s this_date) as [this|] eqn:Ethis,
           (matching_trip s prev_date) as [prev|] eqn:Eprev.
  - destruct (decide (this = prev)) as [->|Hne].
    + rewrite decide_False by (intros (_ & _ & ?); done).
      rewrite Hrun. unfold merge_trips. by rewrite decide_True.
    + rewrite decide_True by (split_and!; [by eexists..|congruence]).
      destruct (merge_trips_cb_inv s this_date prev_date this prev
                  Hwf Hinv Hdated Ethis Eprev Hne) as (s' & Hrun' & _).
      by exists s'.
  - (* the second date finds no trip: the first dive has nowhere to go *)
    rewrite decide_False by (intros (_ & [? ?] & _); done).
    rewrite Hrun. unfold merge_trips. rewrite decide_False by done.
    unfold assert, ret at 1. unfold bind at 1.
    unfold get_state at 1. unfold bind at 1.
    pose proof (matching_trip_in _ _ _ Ethis) as HthisR.
    destruct (rep_trip_valid _ _ _ _ Hwf HthisR) as [tr Htr].
    destruct (rep_members _ _ _ Hwf _ _ Htr) as (Hseg & _ & _).
    pose proof (earliest_member_nonempty _ _ (Hinv _ HthisR)) as Hnonempty.
    pose proof (dseg_head _ _ _ _ _ _ Hseg) as Hhead.
    destruct (members s this) as [|d l] eqn:HM; [done|].
    assert (Hd : d ∈ members s this) by (rewrite HM; by left).
    destruct (rep_members_trip _ _ _ _ _ Hwf Hd) as (dv & Hdv & Htrip).
    unfold dive_fuel. cbn [merge_trips_loop].
    rewrite (run_bind _ _ _ _ _ (run_load_trip _ _ _ Htr)), Hhead.
    unfold add_dive_to_trip.
    unfold bind at 1. rewrite (run_bind _ _ _ _ _ (run_load_dive _ _ _ Hdv)).
    by rewrite decide_False by (by rewrite Htrip).
  - rewrite decide_False by (intros ([? ?] & _); done).
    rewrite Hrun. unfold merge_trips. by rewrite decide_False by done.
  - rewrite decide_False by (intros ([? ?] & _); done).
    rewrite Hrun. unfold merge_trips. by rewrite decide_True.
Qed.

Lemma merge_trips_cb_needs_two_trips_witness :
  ∃ this prev,
    find_matching_trip 181000 two_trips = Ok this two_trips ∧
    find_matching_trip 1000 two_trips = Ok prev two_trips ∧
    if decide (is_Some this ∧ is_Some prev ∧ this ≠ prev)
    then ∃ s', merge_trips_cb 181000 1000 two_trips = Ok tt s'
    else merge_trips_cb 181000 1000 two_trips = Fault.
Proof.
  apply (merge_trips_cb_needs_two_trips two_trips 181000 1000).
  - exact two_trips_well_formed.
  - exact two_trips_start_at_earliest.
  - exact two_trips_dated.
Defined.

Lemma min_when_rev ws : min_when (rev ws) = min_when ws.
Proof.
  apply min_when_set. intros w. by rewrite <- Permutation_rev.
Qed.

(** merge_trips_cb on two dates that find two different trips: the first
    trip leaves the registry, which is otherwise as it was; the second
    has the dives of the first, in reverse order, before its own; it
    starts at the earlier of the two starts.  All other trips have the members
    and the start they had, and the store is well formed again. *)
Theorem merge_trips_cb_unites_trips s this_date prev_date this prev :
  well_formed s →
  trips_start_at_earliest s →
  dives_dated s →
  find_matching_trip this_date s = Ok (Some this) s →
  find_matching_trip prev_date s = Ok (Some prev) s →
  this ≠ prev →
  ∃ s',
    merge_trips_cb this_date prev_date s = Ok tt s' ∧
    well_formed s' ∧
    trips_start_at_earliest s' ∧
    registry s' = filter (λ t, t ≠ this) (registry s) ∧
    members s' prev = rev (members s this) ++ members s prev ∧
    members s' this = [] ∧
    trip_start s' prev = Z.min (trip_start s this) (trip_start s prev) ∧
    (∀ t, t ∈ registry s → t ≠ this → t ≠ prev →
          members s' t = members s t ∧ trip_start s' t = trip_start s t) ∧
    dive_table s' = dive_table s.
Proof.
  intros Hwf Hinv Hdated Hthis Hprev Hne.
  rewrite (run_find_matching_trip _ _ _ _ Hwf) in Hthis.
  rewrite (run_find_matching_trip _ _ _ _ Hwf) in Hprev.
  apply ok_inj in Hthis as (Hthis & _). apply ok_inj in Hprev as (Hprev & _).
  destruct (merge_trips_cb_inv s this_date prev_date this prev
              Hwf Hinv Hdated Hthis Hprev Hne)
    as (s' & Hrun & Hwf' & Hinv' & Hdated' & Hdata & Htab & HR & HM).
  pose proof (matching_trip_in _ _ _ Hthis) as HthisR.
  pose proof (matching_trip_in _ _ _ Hprev) as HprevR.
  assert (Hwhen : ∀ y, dive_when s' y = dive_when s y)
    by (intros y; by apply dive_when_same_data).
  assert (HinR' : ∀ t, t ∈ registry s → t ≠ this → t ∈ registry s').
  { intros t Ht Hn. rewrite HR. apply list_elem_of_filter. by split. }
  exists s'. split_and!; [done|done|done|done| | | | |done].
  - by rewrite HM, decide_True.
  - rewrite HM, decide_False by done. by rewrite decide_True.
  - pose proof (Hinv' prev (HinR' prev HprevR ltac:(congruence))) as Hmin.
    unfold earliest_member in Hmin. rewrite HM, decide_True in Hmin by done.
    rewrite map_app, map_rev, min_when_app, min_when_rev in Hmin.
    replace (map (dive_when s') (members s this)) with (map (dive_when s) (members s this))
      in Hmin by (apply list_fmap_ext; intros _ y _; by rewrite Hwhen).
    replace (map (dive_when s') (members s prev)) with (map (dive_when s) (members s prev))
      in Hmin by (apply list_fmap_ext; intros _ y _; by rewrite Hwhen).
    pose proof (Hinv this HthisR) as Hmt. pose proof (Hinv prev HprevR) as Hmp.
    unfold earliest_member in Hmt, Hmp. rewrite Hmt, Hmp in Hmin. congruence.
  - intros t Ht Hnt Hnp.
    assert (HMt : members s' t = members s t).
    { rewrite HM, decide_False by done. by rewrite decide_False. }
    split; [done|].
    eapply start_of_members; [done|by rewrite HMt|by apply Hinv|].
    by apply Hinv', HinR'.
Qed.

Lemma merge_trips_cb_unites_trips_witness :
  ∃ s',
    merge_trips_cb 181000 1000 two_trips = Ok tt s' ∧
    well_formed s' ∧
    trips_start_at_earliest s' ∧
    registry s' = filter (λ t, t ≠ 1%nat) (registry two_trips) ∧
    members s' 0%nat = rev (members two_trips 1%nat) ++ members two_trips 0%nat ∧
    members s' 1%nat = [] ∧
    trip_start s' 0%nat = Z.min (trip_start two_trips 1%nat) (trip_start two_trips 0%nat) ∧
    (∀ t, t ∈ registry two_trips → t ≠ 1%nat → t ≠ 0%nat →
          members s' t = members two_trips t ∧ trip_start s' t = trip_start two_trips t) ∧
    dive_table s' = dive_table two_trips.
Proof.
  apply (merge_trips_cb_unites_trips two_trips 181000 1000 1%nat 0%nat).
  - exact two_trips_well_formed.
  - exact two_trips_start_at_earliest.
  - exact two_trips_dated.
  - reflexivity.
  - reflexivity.
  - done.
Defined.

(* ===================================================================== *)
(** * autogroup_dives: what it leaves to do *)
(* ===================================================================== *)

Lemma kept_refl s y : kept s s y.
Proof. intros dv Hdv. by exists dv. Qed.

Lemma kept_trans s1 s2 s3 y : kept s1 s2 y → kept s2 s3 y → kept s1 s3 y.
Proof.
  intros H12 H23 dv Hdv. destruct (H12 dv Hdv) as (dv2 & Hdv2 & Hd2 & Ht2 & Hf2).
  destruct (H23 dv2 Hdv2) as (dv3 & Hdv3 & Hd3 & Ht3 & Hf3).
  exists dv3. split_and!; [done|congruence..].
Qed.

Lemma same_dives_but_kept d s s' y : same_dives_but d s s' → y ≠ d → kept s s' y.
Proof.
  intros Hsame Hne dv Hy.
  destruct (same_dives_but_valid _ _ _ _ Hsame (mk_is_Some _ _ Hy)) as [dv' Hy'].
  exists dv'. split; [done|].
  pose proof (f_equal (λ l, l !! y) (sd_dive_data _ _ _ Hsame)) as Hdata.
  cbn beta in Hdata. rewrite !list_lookup_fmap, Hy, Hy' in Hdata.
  pose proof (sd_other_dives _ _ _ Hsame y Hne) as Ho.
  rewrite Hy, Hy' in Ho. injection Ho as Ht Hf.
  split_and!; [by apply (inj Some)|done..].
Qed.

Lemma trips_grown_refl s : trips_grown s s.
Proof. intros t Ht. split; [done|]. by exists []. Qed.

Lemma trips_grown_trans s1 s2 s3 : trips_grown s1 s2 → trips_grown s2 s3 → trips_grown s1 s3.
Proof.
  intros H12 H23 t Ht. destruct (H12 t Ht) as (Ht2 & l2 & Hm2).
  destruct (H23 t Ht2) as (Ht3 & l3 & Hm3). split; [done|].
  exists (l3 ++ l2). by rewrite Hm3, Hm2, app_assoc.
Qed.

Lemma has_trip_kept s s' y : kept s s' y → has_trip s y → has_trip s' y.
Proof.
  intros Hk (dv & t & Hdv & Ht). destruct (Hk dv Hdv) as (dv' & Hdv' & _ & Ht' & _).
  exists dv', t. split; [done|congruence].
Qed.

Section AutogroupAgain.
Context `{DiveParams}.

(** DIVE_NEEDS_TRIP of dive.h does not look at the pointers that tie a
    dive into the list of its trip. *)
Hypothesis Hneeds_ext : ∀ dv dv',
  dive_data dv' = dive_data dv → divetrip dv' = divetrip dv → tripflag dv' = tripflag dv →
  DIVE_NEEDS_TRIP dv' = DIVE_NEEDS_TRIP dv.

Lemma grouped_kept s s' y : kept s s' y → grouped s y → grouped s' y.
Proof.
  intros Hk (dv & Hdv & Hg). destruct (Hk dv Hdv) as (dv' & Hdv' & Hd & Ht & Hf).
  exists dv'. split; [done|]. rewrite Ht, (Hneeds_ext dv dv') by done. done.
Qed.

Lemma has_trip_grouped s y : has_trip s y → grouped s y.
Proof. intros (dv & t & Hdv & Ht). exists dv. split; [done|]. left. by rewrite Ht. Qed.

(** A table of dives that are all passed by: the loop changes nothing. *)
Lemma autogroup_loop_grouped table : ∀ s lastdive,
  (∀ y, y ∈ table → grouped s y) →
  autogroup_loop table lastdive s = Ok tt s.
Proof.
  induction table as [|dive table' IH]; intros s lastdive Hg; [done|].
  destruct (Hg dive) as (dv & Hdv & Hcase); [by left|].
  assert (Hg' : ∀ y, y ∈ table' → grouped s y) by (intros y Hy; apply Hg; by right).
  cbn [autogroup_loop]. rewrite (run_bind _ _ _ _ _ (run_load_dive _ _ _ Hdv)).
  destruct (divetrip dv) as [t|] eqn:Ht; [by apply IH|].
  destruct Hcase as [[? ?]|Hno]; [done|]. rewrite Hno. by apply IH.
Qed.

(** One turn of the loop for a dive that is to be grouped. *)
Lemma autogroup_turn s dive dv lastdive :
  well_formed s →
  trips_start_at_earliest s →
  dives_dated s →
  heap_dives s !! dive = Some dv →
  divetrip dv = None →
  DIVE_NEEDS_TRIP dv = true →
  (∀ l, lastdive = Some l →
        ∃ ldv t, heap_dives s !! l = Some ldv ∧ divetrip ldv = Some t) →
  ∃ s1,
    (∀ table', autogroup_loop (dive :: table') lastdive s
               = autogroup_loop table' (Some dive) s1) ∧
    well_formed s1 ∧
    trips_start_at_earliest s1 ∧
    same_dives_but dive s s1 ∧
    has_trip s1 dive ∧
    trips_grown s s1.
Proof.
  intros Hwf Hinv Hdated Hd Hnotrip Hneeds Hlast.
  assert (Hseed : (∀ l, lastdive = Some l →
             ∃ ldv, heap_dives s !! l = Some ldv ∧ when ldv + TRIP_THRESHOLD <= when dv) →
           ∃ s1,
             (∀ table', autogroup_loop (dive :: table') lastdive s
                        = autogroup_loop table' (Some dive) s1) ∧
             well_formed s1 ∧ trips_start_at_earliest s1 ∧ same_dives_but dive s s1 ∧
             has_trip s1 dive ∧ trips_grown s s1).
  { intros Hfar.
    destruct (autogroup_seed s dive dv lastdive Hwf Hinv Hdated Hd Hnotrip Hneeds Hfar)
      as (s1 & Hstep & Hwf1 & Hinv1 & Hsame & (dv' & Hdv' & Htrip') & HR & HM & _).
    exists s1. split_and!; [done|done|done|done|by eexists _, _|].
    intros t Ht. split.
    - rewrite HR. destruct (same_start_trip s (when dv)); [done|].
      rewrite <- (earlier_later_trips s (when dv) (registry s)) in Ht.
      apply elem_of_app in Ht as [Ht|Ht]; apply elem_of_app; [by left|right; by right].
    - rewrite HM. destruct (decide _) as [->|]; [by exists [dive]|by exists []]. }
  destruct lastdive as [l|]; [|by apply Hseed].
  destruct (Hlast l eq_refl) as (ldv & t & Hl & Hlt).
  destruct (Z.lt_ge_cases (when dv) (when ldv + TRIP_THRESHOLD)) as [Hnear|Hfar].
  - destruct (autogroup_join s dive dv l ldv t Hwf Hinv Hdated Hd Hnotrip Hneeds Hl Hlt Hnear)
      as (s1 & Hstep & Hwf1 & Hinv1 & Hsame & (dv' & Hdv' & Htrip') & HR & HM & _).
    exists s1. split_and!; [done|done|done|done|by eexists _, _|].
    intros t' Ht'. split; [by rewrite HR|].
    rewrite HM. destruct (decide _) as [->|]; [by exists [dive]|by exists []].
  - apply Hseed. intros ? [= <-]. eauto.
Qed.

(** The loop of autogroup_dives over the rest [table] of the dive table. *)
Lemma autogroup_loop_groups table : ∀ s lastdive,
  well_formed s →
  trips_start_at_earliest s →
  dives_dated s →
  (∀ d, d ∈ table → is_Some (heap_dives s !! d)) →
  (∀ l, lastdive = Some l →
        ∃ ldv t, heap_dives s !! l = Some ldv ∧ divetrip ldv = Some t) →
  ∃ s', autogroup_loop table lastdive s = Ok tt s' ∧
        well_formed s' ∧ trips_start_at_earliest s' ∧ dives_dated s' ∧
        dive_table s' = dive_table s ∧
        dive_data <$> heap_dives s' = dive_data <$> heap_dives s ∧
        (∀ y, y ∉ table ∨ has_trip s y → kept s s' y) ∧
        (∀ y, y ∈ table → grouped s' y) ∧
        trips_grown s s'.
Proof.
  induction table as [|dive table' IH]; intros s lastdive Hwf Hinv Hdated Htab Hlast.
  { exists s. split_and!; [done..| | |apply trips_grown_refl].
    - intros y _. apply kept_refl.
    - intros y Hy. by apply elem_of_nil in Hy. }
  destruct (Htab dive) as [dv Hd]; [by left|].
  assert (Htab' : ∀ y, y ∈ table' → is_Some (heap_dives s !! y))
    by (intros y Hy; apply Htab; by right).
  (* what is left to do once the turn for [dive] has led to [s1] *)
  assert (Hnext : ∀ s1 last1,
            (∀ table'', autogroup_loop (dive :: table'') lastdive s
                        = autogroup_loop table'' last1 s1) →
            well_formed s1 → trips_start_at_earliest s1 →
            same_dives_but dive s s1 →
            (has_trip s dive → kept s s1 dive) →
            grouped s1 dive →
            (has_trip s1 dive ∨ dive ∉ table' → ∀ s', kept s1 s' dive → grouped s' dive) →
            (∀ l, last1 = Some l →
                  ∃ ldv t, heap_dives s1 !! l = Some ldv ∧ divetrip ldv = Some t) →
            trips_grown s s1 →
            ∃ s', autogroup_loop (dive :: table') lastdive s = Ok tt s' ∧
                  well_formed s' ∧ trips_start_at_earliest s' ∧ dives_dated s' ∧
                  dive_table s' = dive_table s ∧
                  dive_data <$> heap_dives s' = dive_data <$> heap_dives s ∧
                  (∀ y, y ∉ dive :: table' ∨ has_trip s y → kept s s' y) ∧
                  (∀ y, y ∈ dive :: table' → grouped s' y) ∧
                  trips_grown s s').
  { intros s1 last1 Hstep Hwf1 Hinv1 Hsame Hkd Hg1 Hstay Hlast1 Hgrow1.
    destruct (IH s1 last1)
      as (s' & Hrun & Hwf' & Hinv' & Hdated' & Htable & Hdata & Hkept & Hgr & Hgrow');
      [done|done|by eapply same_dives_but_dated| |done|].
    { intros y Hy. eapply same_dives_but_valid; [done|]. by apply Htab'. }
    exists s'. split_and!; [by rewrite Hstep|done|done|done| | | | |].
    - by rewrite Htable, (sd_table _ _ _ Hsame).
    - by rewrite Hdata, (sd_dive_data _ _ _ Hsame).
    - intros y Hy.
      assert (Hk1 : kept s s1 y).
      { destruct (decide (y = dive)) as [->|Hne]; [|by eapply same_dives_but_kept].
        destruct Hy as [Hy|Hy]; [|by apply Hkd]. exfalso. apply Hy. by left. }
      eapply kept_trans; [exact Hk1|]. apply Hkept.
      destruct Hy as [Hy|Hy].
      + left. intros Hin. apply Hy. by right.
      + right. by eapply has_trip_kept.
    - intros y Hy. apply elem_of_cons in Hy as [->|Hy]; [|by apply Hgr].
      destruct (decide (dive ∈ table')) as [Hin|Hnin]; [by apply Hgr|].
      apply Hstay; [by right|]. apply Hkept. by left.
    - by eapply trips_grown_trans. }
  destruct (divetrip dv) as [t0|] eqn:Hnotrip.
  { (* the dive has a trip *)
    assert (Htrip : has_trip s dive) by (by exists dv, t0).
    apply (Hnext s (Some dive)).
    - intros table''. cbn [autogroup_loop].
      rewrite (run_bind _ _ _ _ _ (run_load_dive _ _ _ Hd)). by rewrite Hnotrip.
    - done.
    - done.
    - apply same_dives_but_refl.
    - intros _. apply kept_refl.
    - by apply has_trip_grouped.
    - intros _ s' Hk. by apply has_trip_grouped, (has_trip_kept s).
    - intros ? [= <-]. by exists dv, t0.
    - apply trips_grown_refl. }
  destruct (DIVE_NEEDS_TRIP dv) eqn:Hneeds.
  2: { (* the dive is to stay without a trip *)
    assert (Hg : grouped s dive) by (exists dv; split; [done|by right]).
    apply (Hnext s None).
    - intros table''. cbn [autogroup_loop].
      rewrite (run_bind _ _ _ _ _ (run_load_dive _ _ _ Hd)). by rewrite Hnotrip, Hneeds.
    - done.
    - done.
    - apply same_dives_but_refl.
    - intros _. apply kept_refl.
    - done.
    - intros _ s' Hk. by apply (grouped_kept s).
    - done.
    - apply trips_grown_refl. }
  destruct (autogroup_turn s dive dv lastdive Hwf Hinv Hdated Hd Hnotrip Hneeds Hlast)
    as (s1 & Hstep & Hwf1 & Hinv1 & Hsame & Htrip1 & Hgrow1).
  apply (Hnext s1 (Some dive)); [done..| | | | |done].
  - intros (dv0 & t0 & Hdv0 & Ht0). congruence.
  - by apply has_trip_grouped.
  - intros _ s' Hk. by apply has_trip_grouped, (has_trip_kept s1).
  - intros ? [= <-]. destruct Htrip1 as (dv1 & t1 & ? & ?). by exists dv1, t1.
Qed.

(** After autogroup_dives no dive of the table is left to group: each one
    is in a trip, or is not to be grouped.  The call returns in a
    well-formed store whose dives have timestamps and whose trips start at
    their earliest member, and leaves such a store. *)
Theorem autogroup_dives_groups_every_dive s :
  well_formed s →
  trips_start_at_earliest s →
  dives_dated s →
  ∃ s', autogroup_dives s = Ok tt s' ∧
        well_formed s' ∧
        dive_table s' = dive_table s ∧
        ∀ y, y ∈ dive_table s →
             ∃ dv, heap_dives s' !! y = Some dv ∧
                   (is_Some (divetrip dv) ∨ DIVE_NEEDS_TRIP dv = false).
Proof.
  intros Hwf Hinv Hdated. unfold autogroup_dives.
  unfold get_state at 1. unfold bind at 1.
  destruct (autogroup_loop_groups (dive_table s) s None Hwf Hinv Hdated)
    as (s' & Hrun & Hwf' & _ & _ & Htab & _ & _ & Hg & _); [|done|].
  { intros d Hd. by apply (rep_table _ _ _ Hwf). }
  exists s'. split_and!; [done..|]. intros y Hy. by apply Hg.
Qed.

(** autogroup_dives a second time changes nothing. *)
Theorem autogroup_dives_twice s :
  well_formed s →
  trips_start_at_earliest s →
  dives_dated s →
  ∃ s', autogroup_dives s = Ok tt s' ∧ autogroup_dives s' = Ok tt s'.
Proof.
  intros Hwf Hinv Hdated. unfold autogroup_dives.
  unfold get_state at 1. unfold bind at 1.
  destruct (autogroup_loop_groups (dive_table s) s None Hwf Hinv Hdated)
    as (s' & Hrun & Hwf' & _ & _ & Htab & _ & _ & Hg & _); [|done|].
  { intros d Hd. by apply (rep_table _ _ _ Hwf). }
  exists s'. split; [done|].
  unfold get_state at 1. unfold bind at 1. rewrite Htab.
  by apply autogroup_loop_grouped.
Qed.

(** autogroup_dives only adds to the trips: a dive that is in a trip stays
    in it, with its flag; every trip of the registry stays in the registry
    and keeps its members, in their order, behind the dives that have
    joined it.  What the dives record is not touched. *)
Theorem autogroup_dives_only_adds s :
  well_formed s →
  trips_start_at_earliest s →
  dives_dated s →
  ∃ s', autogroup_dives s = Ok tt s' ∧
        (∀ y dv t, heap_dives s !! y = Some dv → divetrip dv = Some t →
           ∃ dv', heap_dives s' !! y = Some dv' ∧ divetrip dv' = Some t ∧
                  tripflag dv' = tripflag dv ∧ dive_data dv' = dive_data dv) ∧
        (∀ t, t ∈ registry s →
              t ∈ registry s' ∧ ∃ l, members s' t = l ++ members s t) ∧
        dive_data <$> heap_dives s' = dive_data <$> heap_dives s.
Proof.
  intros Hwf Hinv Hdated. unfold autogroup_dives.
  unfold get_state at 1. unfold bind at 1.
  destruct (autogroup_loop_groups (dive_table s) s None Hwf Hinv Hdated)
    as (s' & Hrun & Hwf' & _ & _ & Htab & Hdata & Hkept & Hg & Hgrow); [|done|].
  { intros d Hd. by apply (rep_table _ _ _ Hwf). }
  exists s'. split_and!; [done| |done|done].
  - intros y dv t Hdv Ht.
    destruct (Hkept y (or_intror (ex_intro _ dv (ex_intro _ t (conj Hdv Ht)))) dv Hdv)
      as (dv' & Hdv' & Hd' & Ht' & Hf').
    exists dv'. split_and!; [done|congruence|done|done].
Qed.

End AutogroupAgain.

Lemma dive_unmarked_ext dv dv' :
  dive_data dv' = dive_data dv → divetrip dv' = divetrip dv → tripflag dv' = tripflag dv →
  dive_unmarked dv' = dive_unmarked dv.
Proof. intros _ _ Hf. unfold dive_unmarked. by rewrite Hf. Qed.

Lemma three_dives_dated : dives_dated (three_dives 1000).
Proof. intros [|[|[|d]]] dv Hd; vm_compute in Hd; by simplify_eq. Qed.

Lemma three_dives_well_formed : well_formed (three_dives 1000).
Proof. apply store_of_dives_well_formed. repeat constructor. Qed.

Lemma autogroup_dives_groups_every_dive_witness :
  ∃ s', @autogroup_dives (example_params 7200) (three_dives 1000) = Ok tt s' ∧
        well_formed s' ∧
        dive_table s' = dive_table (three_dives 1000) ∧
        ∀ y, y ∈ dive_table (three_dives 1000) →
             ∃ dv, heap_dives s' !! y = Some dv ∧
                   (is_Some (divetrip dv) ∨
                    @DIVE_NEEDS_TRIP (example_params 7200) dv = false).
Proof.
  apply (@autogroup_dives_groups_every_dive (example_params 7200) dive_unmarked_ext
           (three_dives 1000)).
  - exact three_dives_well_formed.
  - apply store_of_dives_start_at_earliest.
  - exact three_dives_dated.
Defined.

Lemma autogroup_dives_twice_witness :
  ∃ s', @autogroup_dives (example_params 7200) (three_dives 1000) = Ok tt s' ∧
        @autogroup_dives (example_params 7200) s' = Ok tt s'.
Proof.
  apply (@autogroup_dives_twice (example_params 7200) dive_unmarked_ext
           (three_dives 1000)).
  - exact three_dives_well_formed.
  - apply store_of_dives_start_at_earliest.
  - exact three_dives_dated.
Defined.

Lemma autogroup_dives_only_adds_witness :
  ∃ s', @autogroup_dives (example_params 7200) loose_dive_store = Ok tt s' ∧
        (∀ y dv t, heap_dives loose_dive_store !! y = Some dv → divetrip dv = Some t →
           ∃ dv', heap_dives s' !! y = Some dv' ∧ divetrip dv' = Some t ∧
                  tripflag dv' = tripflag dv ∧ dive_data dv' = dive_data dv) ∧
        (∀ t, t ∈ registry loose_dive_store →
              t ∈ registry s' ∧ ∃ l, members s' t = l ++ members loose_dive_store t) ∧
        dive_data <$> heap_dives s' = dive_data <$> heap_dives loose_dive_store.
Proof.
  apply (@autogroup_dives_only_adds (example_params 7200) dive_unmarked_ext
           loose_dive_store).
  - exact loose_dive_store_well_formed.
  - exact loose_dive_store_start_at_earliest.
  - exact loose_dive_store_dated.
Defined.

(* ===================================================================== *)
(** * The gas of a dive: order of the cylinders, order of the dives *)
(* ===================================================================== *)

Section GasOrder.
Context `{DiveParams}.

(** What the scan finds is fixed by the cylinders it has seen. *)
Lemma gas_summary_unique cs mo2 mhe lo mo2' mhe' lo' :
  gas_summary cs mo2 mhe lo → gas_summary cs mo2' mhe' lo' →
  (mo2, mhe, lo) = (mo2', mhe', lo').
Proof.
  intros [(c & Hc & Hche & Hco) Hmax Hlow Hcap Hmet]
         [(c' & Hc' & Hche' & Hco') Hmax' Hlow' Hcap' Hmet'].
  pose proof (Hmax c' Hc') as H1. pose proof (Hmax' c Hc) as H2.
  assert (mhe = mhe') by lia. subst mhe'.
  assert (mo2 = mo2') by lia. subst mo2'.
  assert (lo = lo') as Hlo; [|congruence].
  destruct Hmet as [->|(x & Hx & Hxo)], Hmet' as [->|(x' & Hx' & Hxo')].
  - done.
  - pose proof (Hlow x' Hx'). lia.
  - pose proof (Hlow' x Hx). lia.
  - pose proof (Hlow x' Hx'). pose proof (Hlow' x Hx). lia.
Qed.

Lemma gas_summary_same_cylinders cs cs' mo2 mhe lo :
  (∀ c, c ∈ cs ↔ c ∈ cs') → gas_summary cs mo2 mhe lo → gas_summary cs' mo2 mhe lo.
Proof.
  intros Hiff [(c & Hc & Hche & Hco) Hmax Hlow Hcap Hmet]. split.
  - exists c. split; [by apply Hiff|done].
  - intros x Hx. by apply Hmax, Hiff.
  - intros x Hx. by apply Hlow, Hiff.
  - done.
  - destruct Hmet as [?|(x & Hx & Hxo)]; [by left|right].
    exists x. split; [by apply Hiff|done].
Qed.

Lemma gas_scan_same_cylinders cyls cyls' :
  (∀ c, c ∈ used_cylinders cyls → 0 <= he (cyl_gasmix c)) →
  (∀ c, c ∈ used_cylinders cyls ↔ c ∈ used_cylinders cyls') →
  gas_scan cyls' = gas_scan cyls.
Proof.
  intros Hhe Hiff.
  pose proof (gas_scan_summary cyls Hhe) as Hs.
  assert (Hhe' : ∀ c, c ∈ used_cylinders cyls' → 0 <= he (cyl_gasmix c))
    by (intros c Hc; by apply Hhe, Hiff).
  pose proof (gas_scan_summary cyls' Hhe') as Hs'.
  unfold scan_state in Hs, Hs'.
  destruct (used_cylinders cyls) as [|c cs] eqn:Hu.
  - destruct (used_cylinders cyls') as [|c' cs'] eqn:Hu'; [congruence|].
    exfalso. assert (c' ∈ @nil cylinder_t) as Hc by (apply Hiff; by left).
    by apply elem_of_nil in Hc.
  - destruct (used_cylinders cyls') as [|c' cs'] eqn:Hu'.
    { exfalso. assert (c ∈ @nil cylinder_t) as Hc by (apply Hiff; by left).
      by apply elem_of_nil in Hc. }
    apply (gas_summary_same_cylinders _ (c' :: cs')) in Hs; [|done].
    pose proof (gas_summary_unique _ _ _ _ _ _ _ Hs' Hs) as Heq.
    destruct (gas_scan cyls') as [[? ?] ?], (gas_scan cyls) as [[? ?] ?]. exact Heq.
Qed.

(** The gas of a dive does not depend on the order of its cylinders, nor
    on a cylinder being listed twice: get_dive_gas gives the same three
    numbers for two dives with the same used cylinders (helium not
    negative), and nitrox_data_func shows the same text. *)
Theorem get_dive_gas_any_cylinder_order d d' :
  (∀ c, c ∈ used_cylinders (cylinder d) → 0 <= he (cyl_gasmix c)) →
  (∀ c, c ∈ used_cylinders (cylinder d) ↔ c ∈ used_cylinders (cylinder d')) →
  get_dive_gas d' = get_dive_gas d ∧ nitrox_data_func d' = nitrox_data_func d.
Proof.
  intros Hhe Hiff.
  assert (Hg : get_dive_gas d' = get_dive_gas d).
  { unfold get_dive_gas. by rewrite (gas_scan_same_cylinders (cylinder d) (cylinder d')). }
  split; [done|]. unfold nitrox_data_func. by rewrite Hg.
Qed.

Lemma int_sub_exact a b : - 2 ^ 31 <= a - b < 2 ^ 31 → int_sub a b = a - b.
Proof. intros Hx. unfold int_sub. rewrite Z.mod_small by lia. lia. Qed.

Lemma effective_o2_permille c :
  0 <= O2_IN_AIR <= 1000 → 0 <= o2 (cyl_gasmix c) <= 1000 →
  0 <= effective_o2 c <= 1000.
Proof. intros Hair Hc. unfold effective_o2. by destruct (_ =? _). Qed.

Lemma get_dive_gas_in_range d :
  0 <= O2_IN_AIR <= 1000 →
  (∀ c, c ∈ used_cylinders (cylinder d) →
        0 <= o2 (cyl_gasmix c) <= 1000 ∧ 0 <= he (cyl_gasmix c) <= 1000) →
  gas_in_range d.
Proof.
  intros Hair Hall.
  assert (Hhe : ∀ c, c ∈ used_cylinders (cylinder d) → 0 <= he (cyl_gasmix c)).
  { intros c Hc. destruct (Hall c Hc). lia. }
  pose proof (gas_scan_summary _ Hhe) as Hs.
  unfold gas_in_range, get_dive_gas.
  destruct (gas_scan (cylinder d)) as [[mo2 mhe] lo]. unfold scan_state in Hs.
  destruct (used_cylinders (cylinder d)) as [|c0 cs] eqn:Hu.
  - injection Hs as -> -> ->. cbn. lia.
  - cbn [fst snd] in Hs.
    destruct Hs as [(cw & Hcw & Hwhe & Hwo) _ _ Hcap Hmet].
    destruct (Hall cw Hcw) as [Hco Hch].
    pose proof (effective_o2_permille cw Hair Hco) as Hweff.
    assert (0 <= lo).
    { destruct Hmet as [->|(c' & Hc' & <-)]; [lia|].
      destruct (Hall c' Hc') as [Hco' _].
      pose proof (effective_o2_permille c' Hair Hco'). lia. }
    destruct ((mhe =? 0) && (mo2 =? O2_IN_AIR) && (lo =? mo2)); lia.
Qed.

Lemma nitrox_sort_func_in_range a b :
  gas_in_range a → gas_in_range b →
  nitrox_sort_func a b =
    let '(a_o2, a_he, a_o2low) := get_dive_gas a in
    let '(b_o2, b_he, b_o2low) := get_dive_gas b in
    if a_he =? b_he then
      if a_o2 =? b_o2 then a_o2low - b_o2low else a_o2 - b_o2
    else a_he - b_he.
Proof.
  unfold gas_in_range, nitrox_sort_func.
  destruct (get_dive_gas a) as [[ao ah] al], (get_dive_gas b) as [[bo bh] bl].
  intros Ha Hb. rewrite !int_sub_exact by lia. reflexivity.
Qed.

(** nitrox_sort_func orders the dives by helium, then by oxygen, then by
    the least oxygen, as get_dive_gas gives them, for dives whose three
    numbers are within 2^30 of zero, where the int differences it returns
    are exact: swapping the dives negates the result; the result is zero
    only for dives with the same three numbers, which nitrox_data_func
    shows with the same text; and a dive that is not behind a second, which
    is not behind a third, is not behind the third.  The numbers are in
    that range for every dive whose used cylinders have oxygen and helium
    fractions between 0 and 1000 permille, with O2_IN_AIR in that range
    too. *)
Theorem nitrox_sort_func_orders_dives :
  (∀ a b, gas_in_range a → gas_in_range b →
          nitrox_sort_func b a = - nitrox_sort_func a b) ∧
  (∀ a b, gas_in_range a → gas_in_range b →
          (nitrox_sort_func a b = 0 ↔ get_dive_gas a = get_dive_gas b)) ∧
  (∀ a b, gas_in_range a → gas_in_range b →
          nitrox_sort_func a b = 0 → nitrox_data_func a = nitrox_data_func b) ∧
  (∀ a b c, gas_in_range a → gas_in_range b → gas_in_range c →
            nitrox_sort_func a b <= 0 → nitrox_sort_func b c <= 0 →
            nitrox_sort_func a c <= 0) ∧
  (∀ d, 0 <= O2_IN_AIR <= 1000 →
        (∀ c, c ∈ used_cylinders (cylinder d) →
              0 <= o2 (cyl_gasmix c) <= 1000 ∧ 0 <= he (cyl_gasmix c) <= 1000) →
        gas_in_range d).
Proof.
  assert (Hzero : ∀ a b, gas_in_range a → gas_in_range b →
            (nitrox_sort_func a b = 0 ↔ get_dive_gas a = get_dive_gas b)).
  { intros a b Ha Hb. rewrite nitrox_sort_func_in_range by done.
    destruct (get_dive_gas a) as [[ao ah] al], (get_dive_gas b) as [[bo bh] bl].
    destruct (Z.eqb_spec ah bh), (Z.eqb_spec ao bo);
      (split; [intros ?|intros [= ? ? ?]]); first [lia|f_equal; f_equal; lia]. }
  split_and!.
  - intros a b Ha Hb. rewrite !nitrox_sort_func_in_range by done.
    destruct (get_dive_gas a) as [[ao ah] al], (get_dive_gas b) as [[bo bh] bl].
    destruct (Z.eqb_spec ah bh), (Z.eqb_spec bh ah),
             (Z.eqb_spec ao bo), (Z.eqb_spec bo ao); lia.
  - exact Hzero.
  - intros a b Ha Hb Hab. apply Hzero in Hab; [|done..].
    unfold nitrox_data_func. by rewrite Hab.
  - intros a b c Ha Hb Hc. rewrite !nitrox_sort_func_in_range by done.
    destruct (get_dive_gas a) as [[ao ah] al], (get_dive_gas b) as [[bo bh] bl],
             (get_dive_gas c) as [[co ch] cl].
    destruct (Z.eqb_spec ah bh), (Z.eqb_spec bh ch), (Z.eqb_spec ah ch),
             (Z.eqb_spec ao bo), (Z.eqb_spec bo co), (Z.eqb_spec ao co); lia.
  - exact get_dive_gas_in_range.
Qed.

End GasOrder.

Lemma get_dive_gas_any_cylinder_order_witness :
  @get_dive_gas (example_params 7200)
     (dive_with_cylinders [tank 180 450; no_cylinder; tank 210 0])
   = @get_dive_gas (example_params 7200)
       (dive_with_cylinders [tank 210 0; tank 180 450]) ∧
  @nitrox_data_func (example_params 7200)
     (dive_with_cylinders [tank 180 450; no_cylinder; tank 210 0])
   = @nitrox_data_func (example_params 7200)
       (dive_with_cylinders [tank 210 0; tank 180 450]).
Proof.
  apply (@get_dive_gas_any_cylinder_order (example_params 7200)
           (dive_with_cylinders [tank 210 0; tank 180 450])
           (dive_with_cylinders [tank 180 450; no_cylinder; tank 210 0])).
  - intros c Hc. vm_compute in Hc.
    repeat (apply elem_of_cons in Hc as [->|Hc]; [by vm_compute|]).
    by apply elem_of_nil in Hc.
  - intros c.
    replace (used_cylinders (cylinder (dive_with_cylinders [tank 210 0; tank 180 450])))
      with [tank 210 0; tank 180 450] by (by vm_compute).
    replace (used_cylinders (cylinder (dive_with_cylinders
                                         [tank 180 450; no_cylinder; tank 210 0])))
      with [tank 180 450; tank 210 0] by (by vm_compute).
    rewrite !elem_of_cons, !elem_of_nil. tauto.
Defined.

(** On a dive with air, one with 32% nitrox and one with an 18/45 trimix. *)
Lemma nitrox_sort_func_orders_dives_witness :
  @nitrox_sort_func (example_params 7200)
    (dive_with_cylinders [tank 210 0]) (dive_with_cylinders [tank 180 450]) <= 0.
Proof.
  apply (proj1 (proj2 (proj2 (proj2 (@nitrox_sort_func_orders_dives (example_params 7200)))))
           (dive_with_cylinders [tank 210 0]) (dive_with_cylinders [tank 320 0])
           (dive_with_cylinders [tank 180 450])); by vm_compute.
Defined.

(** Outside that range the differences wrap around and the order is lost:
    with a helium value of 2147483647 against one of -1, either dive comes
    before the other. *)
Lemma nitrox_sort_func_wraps :
  @nitrox_sort_func (example_params 7200)
    (dive_with_cylinders [tank 210 2147483647]) (dive_with_cylinders [tank 210 (-1)])
    = -2147483648 ∧
  @nitrox_sort_func (example_params 7200)
    (dive_with_cylinders [tank 210 (-1)]) (dive_with_cylinders [tank 210 2147483647])
    = -2147483648.
Proof. by vm_compute. Qed.

(* ===================================================================== *)
(** * The duration calculate_sac divides by *)
(* ===================================================================== *)

Lemma sac_scan_end_bounds rest e :
  (e <= sac_scan_end rest e <= e + length rest)%nat.
Proof.
  revert e. induction rest as [|x rest IH]; intros e; simpl; [lia|].
  destruct (s_depth x <? 100); [|lia]. specialize (IH (S e)). lia.
Qed.

Lemma sac_scan_end_stop sh x rest e :
  Forall (λ y, s_depth y < 100) sh → 100 <= s_depth x →
  sac_scan_end (sh ++ x :: rest) e = (e + length sh)%nat.
Proof.
  revert e. induction sh as [|y sh IH]; intros e Hsh Hx; simpl.
  - destruct (Z.ltb_spec (s_depth x) 100); lia.
  - apply Forall_cons in Hsh as (Hy & Hsh).
    destruct (Z.ltb_spec (s_depth y) 100); [|lia]. rewrite IH by done. lia.
Qed.

Lemma sac_loop_deep smp fuel i dur x :
  smp !! i = Some x → 100 <= s_depth x →
  sac_loop smp (S fuel) i dur = sac_loop smp fuel (S i) dur.
Proof.
  intros Hi Hx. simpl. rewrite Hi. destruct (Z.ltb_spec (s_depth x) 100); [lia|done].
Qed.

(** Samples at depth cost nothing: the loop walks over them. *)
Lemma sac_loop_deep_run deep : ∀ pre rest fuel dur,
  Forall (λ y, 100 <= s_depth y) deep →
  sac_loop (pre ++ deep ++ rest) (length deep + fuel) (length pre) dur
  = sac_loop (pre ++ deep ++ rest) fuel (length pre + length deep) dur.
Proof.
  induction deep as [|x deep IH]; intros pre rest fuel dur Hdeep.
  - simpl. by rewrite Nat.add_0_r.
  - apply Forall_cons in Hdeep as (Hx & Hdeep).
    rewrite <- app_comm_cons.
    cbn [length Nat.add]. rewrite (sac_loop_deep _ _ _ _ x); [|by apply list_lookup_middle|done].
    specialize (IH (pre ++ [x]) rest fuel dur Hdeep).
    rewrite <- !app_assoc in IH. cbn [app] in IH.
    rewrite length_app in IH. cbn [length] in IH.
    replace (S (length pre)) with (length pre + 1)%nat by lia. rewrite IH.
    f_equal. lia.
Qed.

(** Samples at depth and then at the surface up to the last sample. *)
Lemma sac_loop_deep_then_tail deep : ∀ pre tail fuel dur,
  Forall (λ y, 100 <= s_depth y) deep →
  Forall (λ y, s_depth y < 100) tail →
  sac_loop (pre ++ deep ++ tail) fuel (length pre) dur = dur.
Proof.
  induction deep as [|x deep IH]; intros pre tail fuel dur Hdeep Htail.
  - apply sac_loop_shallow_tail. cbn [app]. by rewrite drop_app_length.
  - apply Forall_cons in Hdeep as (Hx & Hdeep).
    destruct fuel as [|fuel]; [done|]. rewrite <- app_comm_cons.
    rewrite (sac_loop_deep _ _ _ _ x); [|by apply list_lookup_middle|done].
    specialize (IH (pre ++ [x]) tail fuel dur Hdeep Htail).
    rewrite <- !app_assoc in IH. cbn [app] in IH.
    rewrite length_app in IH. cbn [length] in IH.
    replace (S (length pre)) with (length pre + 1)%nat by lia. exact IH.
Qed.

Lemma lookup_last_cons {A} (first : A) more :
  (first :: more) !! length more = Some (List.last more first).
Proof.
  destruct more as [|m more' _] using rev_ind; [done|].
  rewrite List.last_last, app_comm_cons, length_app. cbn [length].
  replace (length more' + 1)%nat with (length (first :: more')) by (cbn; lia).
  by rewrite list_lookup_middle.
Qed.



(** With sample times that do not go back, the loop takes off no more than
    the time between the sample it stands at and the last one, and adds
    nothing. *)
Lemma sac_loop_bounds smp :
  times_ascend smp →
  ∀ fuel i dur,
    dur - (sample_time smp (pred (length smp)) - sample_time smp (i `min` pred (length smp)))
      <= sac_loop smp fuel i dur <= dur.
Proof.
  intros Hasc.
  assert (Hge : ∀ i, (i < length smp)%nat →
            sample_time smp (i `min` pred (length smp))
            <= sample_time smp (pred (length smp))).
  { intros i Hi. apply Hasc. lia. }
  induction fuel as [|fuel IH]; intros i dur.
  - cbn [sac_loop]. destruct (decide (i < length smp)%nat) as [Hi|Hi].
    + pose proof (Hge i Hi). lia.
    + replace (i `min` pred (length smp))%nat with (pred (length smp)) by lia. lia.
  - cbn [sac_loop]. destruct (smp !! i) as [s|] eqn:Hs.
    2: { apply lookup_ge_None in Hs.
         replace (i `min` pred (length smp))%nat with (pred (length smp)) by lia. lia. }
    pose proof (lookup_lt_Some _ _ _ Hs) as Hi.
    assert (Hstep : dur - (sample_time smp (pred (length smp))
                           - sample_time smp (i `min` pred (length smp)))
                    <= sac_loop smp fuel (S i) dur <= dur).
    { specialize (IH (S i) dur).
      assert (sample_time smp (i `min` pred (length smp))
              <= sample_time smp (S i `min` pred (length smp))) by (apply Hasc; lia).
      lia. }
    destruct (s_depth s <? 100); [|done].
    pose proof (sac_scan_end_bounds (drop (S i) smp) (S i)) as Hb.
    rewrite length_drop in Hb.
    set (e := sac_scan_end (drop (S i) smp) (S i)) in *.
    destruct (Nat.ltb_spec e (length smp)) as [He|He]; [|done].
    specialize (IH (S (S (pred e)))
                  (dur - (sample_time smp (pred e) - sample_time smp i))).
    assert (H1 : sample_time smp i <= sample_time smp (pred e)) by (apply Hasc; lia).
    assert (H2 : sample_time smp (pred e)
                 <= sample_time smp (S (S (pred e)) `min` pred (length smp)))
      by (apply Hasc; lia).
    replace (i `min` pred (length smp))%nat with i by lia. lia.
Qed.



(* ===================================================================== *)
(** * get_divenr and get_dive *)
(* ===================================================================== *)

Lemma get_divenr_from_spec table dive : ∀ nr,
  (∀ j, (j < get_divenr_from table dive nr - nr)%nat → table !! j ≠ Some dive) ∧
  (dive ∈ table → table !! (get_divenr_from table dive nr - nr)%nat = Some dive) ∧
  (dive ∉ table → get_divenr_from table dive nr = (nr + length table)%nat).
Proof.
  induction table as [|d table IH]; intros nr; cbn [get_divenr_from].
  - split_and!.
    + intros j Hj. lia.
    + intros Hin. by apply elem_of_nil in Hin.
    + intros _. cbn. lia.
  - pose proof (get_divenr_from_le table dive (S nr)) as Hle.
    destruct (Nat.eqb_spec d dive) as [->|Hne].
    + split_and!.
      * intros j Hj. lia.
      * intros _. by rewrite Nat.sub_diag.
      * intros Hnin. exfalso. apply Hnin. by left.
    + destruct (IH (S nr)) as (Hbefore & Hfound & Hfail).
      split_and!.
      * intros j Hj. destruct j as [|j]; [cbn; congruence|]. cbn. apply Hbefore. lia.
      * intros Hin. apply elem_of_cons in Hin as [?|Hin]; [congruence|].
        replace (get_divenr_from table dive (S nr) - nr)%nat
          with (S (get_divenr_from table dive (S nr) - S nr)) by lia.
        cbn. by apply Hfound.
      * intros Hnin. rewrite Hfail; [cbn; lia|]. intros Hin. apply Hnin. by right.
Qed.

(** get_divenr gives the first place of the dive in the dive table, where
    get_dive finds it again; for a dive that is not in the table it gives
    dive_table.nr, where get_dive finds nothing.  When no dive is in the
    table twice, get_divenr gives back the place get_dive was asked for. *)
Theorem get_divenr_then_get_dive s dive :
  get_dive s (Z.of_nat (get_divenr s dive))
    = (if decide (dive ∈ dive_table s) then Some dive else None) ∧
  (∀ j, (j < get_divenr s dive)%nat → dive_table s !! j ≠ Some dive) ∧
  (dive ∉ dive_table s → get_divenr s dive = length (dive_table s)) ∧
  (∀ i, NoDup (dive_table s) → dive_table s !! i = Some dive → get_divenr s dive = i).
Proof.
  unfold get_divenr, get_dive.
  destruct (get_divenr_from_spec (dive_table s) dive 0) as (Hbefore & Hfound & Hfail).
  rewrite Nat.sub_0_r in Hbefore, Hfound.
  destruct (Z.ltb_spec (Z.of_nat (get_divenr_from (dive_table s) dive 0)) 0); [lia|].
  rewrite Nat2Z.id. split_and!.
  - destruct (decide (dive ∈ dive_table s)) as [Hin|Hnin]; [by apply Hfound|].
    rewrite Hfail by done. by apply lookup_ge_None.
  - done.
  - intros Hnin. by rewrite Hfail.
  - intros i Hnd Hi. eapply NoDup_lookup; [done| |done].
    apply Hfound. by eapply list_elem_of_lookup_2.
Qed.

Lemma get_divenr_then_get_dive_witness :
  get_divenr two_trips 2%nat = 2%nat.
Proof.
  apply (proj2 (proj2 (proj2 (get_divenr_then_get_dive two_trips 2%nat))) 2%nat).
  - by_computation.
  - reflexivity.
Defined.

(* ===================================================================== *)
(** * The indices of the trips: clear_trip_indexes and find_trip_by_idx *)
(* ===================================================================== *)

Lemma index_of_alter s t f t' :
  index_of (set_heap_trips s (alter f t (heap_trips s))) t'
  = if decide (t = t') then trip_index <$> (f <$> heap_trips s !! t) else index_of s t'.
Proof.
  unfold index_of. cbn [heap_trips set_heap_trips].
  destruct (decide (t = t')) as [->|Hne].
  - by rewrite list_lookup_alter_eq.
  - by rewrite list_lookup_alter_ne.
Qed.

Lemma run_clear_trip_indexes_loop : ∀ l s fuel p,
  well_formed s →
  tseg (heap_trips s) p l None →
  NoDup l →
  (length l < fuel)%nat →
  ∃ s',
    clear_trip_indexes_loop fuel p s = Ok tt s' ∧
    well_formed s' ∧
    registry s' = registry s ∧
    (∀ t, members s' t = members s t) ∧
    (∀ t, trip_start s' t = trip_start s t) ∧
    (trips_start_at_earliest s → trips_start_at_earliest s') ∧
    heap_dives s' = heap_dives s ∧
    dive_table s' = dive_table s ∧
    trip_but_index <$> heap_trips s' = trip_but_index <$> heap_trips s ∧
    (∀ t, t ∈ l → index_of s' t = Some 0) ∧
    (∀ t, t ∉ l → index_of s' t = index_of s t).
Proof.
  induction l as [|t l IH]; intros s fuel p Hwf Hseg Hnd Hfuel.
  - cbn in Hseg. subst p. exists s. split_and!; [by destruct fuel|done..| |done].
    intros t Ht. by apply elem_of_nil in Ht.
  - destruct Hseg as (-> & tr & Htr & Hseg).
    apply NoDup_cons in Hnd as (Hnotin & Hnd).
    destruct fuel as [|fuel]; [simpl in Hfuel; lia|].
    set (clr := λ tr : dive_trip_t, set_trip_index tr 0).
    set (s1 := set_heap_trips s (alter clr t (heap_trips s))).
    destruct (alter_trip_views s t clr) as (Hwf1 & HR1 & HM1 & Hst1 & Hinv1); [done..|].
    fold s1 in Hwf1, HR1, HM1, Hst1, Hinv1.
    assert (Htr1 : heap_trips s1 !! t = Some (clr tr)).
    { unfold s1. cbn [heap_trips set_heap_trips]. by rewrite list_lookup_alter_eq, Htr. }
    assert (Hseg1 : tseg (heap_trips s1) (trip_next (clr tr)) l None).
    { unfold s1. cbn [heap_trips set_heap_trips]. by apply tseg_alter_next. }
    destruct (IH s1 fuel (trip_next (clr tr)) Hwf1 Hseg1 Hnd ltac:(simpl in Hfuel; lia))
      as (s' & Hrun & Hwf' & HR' & HM' & Hst' & Hinv' & HD' & Htab' & Hbut' & Hin' & Hout').
    exists s'. split_and!; [|done|congruence| | |by auto|done|done| | |].
    + cbn [clear_trip_indexes_loop].
      rewrite (run_bind _ _ _ _ _ (run_modify_trip _ _ _ clr Htr)). fold s1.
      by rewrite (run_bind _ _ _ _ _ (run_load_trip _ _ _ Htr1)).
    + intros t'. by rewrite HM', HM1.
    + intros t'. by rewrite Hst', Hst1.
    + rewrite Hbut'. unfold s1. cbn [heap_trips set_heap_trips].
      apply fmap_alter_same. done.
    + intros t' Ht'. apply elem_of_cons in Ht' as [->|Ht']; [|by apply Hin'].
      rewrite Hout' by done. unfold s1. rewrite index_of_alter, decide_True by done.
      by rewrite Htr.
    + intros t' Ht'. rewrite Hout' by (intros ?; apply Ht'; by right).
      unfold s1. rewrite index_of_alter, decide_False; [done|].
      intros ->. apply Ht'. by left.
Qed.

(** No trip of the registry has a negative index: find_trip_by_idx finds
    no trip, whatever it is asked for. *)
Lemma find_trip_by_idx_nonneg s :
  well_formed s →
  (∀ t, t ∈ registry s → ∃ i, index_of s t = Some i ∧ 0 <= i) →
  ∀ idx, find_trip_by_idx idx s = Ok None s.
Proof.
  intros Hwf Hidx idx. destruct (Z.lt_ge_cases idx 0) as [Hneg|Hpos].
  - eapply find_trip_by_idx_none; [done|]. intros t tr Ht Htr Heq.
    destruct (Hidx t Ht) as (i & Hi & Hge). unfold index_of in Hi. rewrite Htr in Hi.
    simplify_eq/=. lia.
  - unfold find_trip_by_idx. by rewrite (proj2 (Z.geb_le _ _)) by lia.
Qed.

(** clear_trip_indexes returns in a well-formed store and sets the index of
    every trip of the registry to 0.  The registry, the members and the
    starts of the trips, the dives and the dive table are as before, and so
    is every trip but for its index.  Afterwards find_trip_by_idx finds no
    trip, whatever it is asked for. *)
Theorem clear_trip_indexes_clears s :
  well_formed s →
  ∃ s',
    clear_trip_indexes s = Ok tt s' ∧
    well_formed s' ∧
    registry s' = registry s ∧
    (∀ t, members s' t = members s t) ∧
    (∀ t, trip_start s' t = trip_start s t) ∧
    heap_dives s' = heap_dives s ∧
    dive_table s' = dive_table s ∧
    trip_but_index <$> heap_trips s' = trip_but_index <$> heap_trips s ∧
    (∀ t, t ∈ registry s → index_of s' t = Some 0) ∧
    (∀ t, t ∉ registry s → index_of s' t = index_of s t) ∧
    (∀ idx, find_trip_by_idx idx s' = Ok None s').
Proof.
  intros Hwf.
  pose proof (rep_trips _ _ _ Hwf) as Hseg.
  pose proof (rep_trips_nodup _ _ _ Hwf) as Hnd.
  destruct (run_clear_trip_indexes_loop (registry s) s (trip_fuel s) (dive_trip_list s)
              Hwf Hseg Hnd)
    as (s' & Hrun & Hwf' & HR' & HM' & Hst' & _ & HD' & Htab' & Hbut' & Hin' & Hout').
  { pose proof (tseg_length _ _ _ _ Hseg Hnd). unfold trip_fuel. lia. }
  exists s'. split_and!; [|done..|].
  - unfold clear_trip_indexes. unfold get_state at 1. unfold bind at 1. done.
  - apply find_trip_by_idx_nonneg; [done|]. intros t Ht. exists 0.
    split; [|done]. apply Hin'. by rewrite <- HR'.
Qed.

Lemma clear_trip_indexes_clears_witness :
  ∃ s',
    clear_trip_indexes two_trips = Ok tt s' ∧
    well_formed s' ∧
    registry s' = registry two_trips ∧
    (∀ t, members s' t = members two_trips t) ∧
    (∀ t, trip_start s' t = trip_start two_trips t) ∧
    heap_dives s' = heap_dives two_trips ∧
    dive_table s' = dive_table two_trips ∧
    trip_but_index <$> heap_trips s' = trip_but_index <$> heap_trips two_trips ∧
    (∀ t, t ∈ registry two_trips → index_of s' t = Some 0) ∧
    (∀ t, t ∉ registry two_trips → index_of s' t = index_of two_trips t) ∧
    (∀ idx, find_trip_by_idx idx s' = Ok None s').
Proof.
  apply (clear_trip_indexes_clears two_trips). exact two_trips_well_formed.
Defined.

(* ===================================================================== *)
(** * remove_autogen_trips *)
(* ===================================================================== *)

Lemma filter_iff_in {A} (P Q : A → Prop) `{!∀ x, Decision (P x), !∀ x, Decision (Q x)}
    (l : list A) :
  (∀ x, x ∈ l → P x ↔ Q x) → filter P l = filter Q l.
Proof.
  induction l as [|a l IH]; intros Hiff; [done|].
  rewrite !filter_cons. rewrite IH by (intros x Hx; apply Hiff; by right).
  apply decide_ext, Hiff. by left.
Qed.

Lemma is_autogen_same_info s s' t :
  trip_info <$> heap_trips s' = trip_info <$> heap_trips s →
  is_autogen s' t = is_autogen s t.
Proof.
  intros Hinfo. unfold is_autogen.
  pose proof (f_equal (λ l, l !! t) Hinfo) as Heq. cbn beta in Heq.
  rewrite !list_lookup_fmap in Heq.
  destruct (heap_trips s' !! t) as [tr'|], (heap_trips s !! t) as [tr|];
    cbn in Heq; try done.
  injection Heq as _ _ _ Ha. by rewrite Ha.
Qed.

Lemma same_but_trip_of_kept d s s' y : same_but_trip_of d s s' → y ≠ d → kept s s' y.
Proof. intros Hsame. by apply same_dives_but_kept, same_dives_but_of_trip. Qed.

Lemma in_autogen_trip_kept s s' y :
  trip_info <$> heap_trips s' = trip_info <$> heap_trips s →
  kept s s' y → in_autogen_trip s y → in_autogen_trip s' y.
Proof.
  intros Hinfo Hk (dv & t & Hdv & Ht & Ha).
  destruct (Hk dv Hdv) as (dv' & Hdv' & _ & Ht' & _).
  exists dv', t. split_and!; [done|congruence|]. by rewrite (is_autogen_same_info s).
Qed.

Lemma not_in_autogen_trip_kept s s' y :
  trip_info <$> heap_trips s' = trip_info <$> heap_trips s →
  is_Some (heap_dives s !! y) →
  kept s s' y → ¬ in_autogen_trip s y → ¬ in_autogen_trip s' y.
Proof.
  intros Hinfo [dv Hdv] Hk Hno (dv' & t & Hdv' & Ht & Ha). apply Hno.
  destruct (Hk dv Hdv) as (dv'' & Hdv'' & _ & Ht' & _).
  exists dv, t. split_and!; [done|congruence|]. by rewrite <- (is_autogen_same_info s s').
Qed.

(** The loop of remove_autogen_trips over the rest [table] of the dive
    table. *)
Lemma remove_autogen_trips_loop_spec table : ∀ s,
  well_formed s →
  trips_start_at_earliest s →
  (∀ d, d ∈ table → is_Some (heap_dives s !! d)) →
  ∃ s',
    remove_autogen_trips_loop table s = Ok tt s' ∧
    well_formed s' ∧
    trips_start_at_earliest s' ∧
    dive_table s' = dive_table s ∧
    dive_data <$> heap_dives s' = dive_data <$> heap_dives s ∧
    trip_info <$> heap_trips s' = trip_info <$> heap_trips s ∧
    (∀ t, members s' t = if is_autogen s t then filter (λ d, d ∉ table) (members s t)
                         else members s t) ∧
    registry s' = filter (λ t, members s' t ≠ []) (registry s) ∧
    (∀ t, is_autogen s t = false → trip_start s' t = trip_start s t) ∧
    (∀ y, y ∉ table ∨ ¬ in_autogen_trip s y → kept s s' y) ∧
    (∀ y, y ∈ table → in_autogen_trip s y →
          ∃ dv', heap_dives s' !! y = Some dv' ∧ divetrip dv' = None ∧
                 tripflag dv' = NO_TRIP).
Proof.
  induction table as [|dive table' IH]; intros s Hwf Hinv Htab.
  { exists s. split_and!; [done..| | | | |].
    - intros t. destruct (is_autogen s t); [|done].
      symmetry. apply filter_all, Forall_forall. intros d _ Hd. by apply elem_of_nil in Hd.
    - symmetry. apply filter_all, Forall_forall. intros t Ht.
      by apply earliest_member_nonempty, Hinv.
    - done.
    - intros y _. apply kept_refl.
    - intros y Hy. by apply elem_of_nil in Hy. }
  destruct (Htab dive) as [dv Hd]; [by left|].
  assert (Htab' : ∀ y, y ∈ table' → is_Some (heap_dives s !! y))
    by (intros y Hy; apply Htab; by right).
  (* what is left to do once the turn for [dive] has led to [s1] *)
  assert (Hnext : ∀ s1,
    (∀ k : M unit,
       (do dv <- load_dive dive;
        run match divetrip dv with
            | None => ret tt
            | Some trip =>
              do tr <- load_trip trip;
              if negb (trip_autogen tr =? 0) then remove_dive_from_trip dive else ret tt
            end;
        k) s = k s1) →
    well_formed s1 → trips_start_at_earliest s1 →
    same_but_trip_of dive s s1 →
    registry s1 = filter (λ t, members s1 t ≠ []) (registry s) →
    (∀ t, members s1 t = if is_autogen s t then filter (λ d, d ≠ dive) (members s t)
                         else members s t) →
    (∀ t, is_autogen s t = false → trip_start s1 t = trip_start s t) →
    (¬ in_autogen_trip s dive → kept s s1 dive) →
    (in_autogen_trip s dive →
       ∃ dv1, heap_dives s1 !! dive = Some dv1 ∧ divetrip dv1 = None ∧
              tripflag dv1 = NO_TRIP) →
    ∃ s',
      remove_autogen_trips_loop (dive :: table') s = Ok tt s' ∧
      well_formed s' ∧
      trips_start_at_earliest s' ∧
      dive_table s' = dive_table s ∧
      dive_data <$> heap_dives s' = dive_data <$> heap_dives s ∧
      trip_info <$> heap_trips s' = trip_info <$> heap_trips s ∧
      (∀ t, members s' t = if is_autogen s t
                           then filter (λ d, d ∉ dive :: table') (members s t)
                           else members s t) ∧
      registry s' = filter (λ t, members s' t ≠ []) (registry s) ∧
      (∀ t, is_autogen s t = false → trip_start s' t = trip_start s t) ∧
      (∀ y, y ∉ dive :: table' ∨ ¬ in_autogen_trip s y → kept s s' y) ∧
      (∀ y, y ∈ dive :: table' → in_autogen_trip s y →
            ∃ dv', heap_dives s' !! y = Some dv' ∧ divetrip dv' = None ∧
                   tripflag dv' = NO_TRIP)).
  { intros s1 Hstep Hwf1 Hinv1 Hsame HR1 HM1 Hst1 Hkd Hrd.
    pose proof (sb_trip_info _ _ _ Hsame) as Hinfo1.
    assert (Hauto1 : ∀ t, is_autogen s1 t = is_autogen s t)
      by (intros t; by apply is_autogen_same_info).
    destruct (IH s1 Hwf1 Hinv1)
      as (s' & Hrun & Hwf' & Hinv' & Htable & Hdata & Hinfo & HM' & HR' & Hst' & Hkept & Hrem).
    { intros y Hy. apply lookup_lt_is_Some.
      rewrite (proj1 (same_but_trip_of_length _ _ _ Hsame)).
      apply lookup_lt_is_Some. by apply Htab'. }
    assert (HMs : ∀ t, members s' t = if is_autogen s t
                                      then filter (λ d, d ∉ dive :: table') (members s t)
                                      else members s t).
    { intros t. rewrite HM', Hauto1, HM1. destruct (is_autogen s t); [|done].
      rewrite list_filter_filter. apply list_filter_iff. intros d.
      rewrite not_elem_of_cons. tauto. }
    assert (Hk1 : ∀ y, y ∉ dive :: table' ∨ ¬ in_autogen_trip s y → kept s s1 y).
    { intros y Hy. destruct (decide (y = dive)) as [->|Hne];
        [|by eapply same_but_trip_of_kept].
      destruct Hy as [Hy|Hy]; [|by apply Hkd]. exfalso. apply Hy. by left. }
    exists s'. split_and!; [|done|done| | | |done| | | |].
    - unfold remove_autogen_trips_loop. fold remove_autogen_trips_loop.
      by rewrite Hstep.
    - by rewrite Htable, (sb_table _ _ _ Hsame).
    - by rewrite Hdata, (sb_dive_data _ _ _ Hsame).
    - by rewrite Hinfo.
    - rewrite HR', HR1. rewrite list_filter_filter. apply filter_iff_in.
      intros t Ht. split; [by intros (? & _)|]. intros Hne. split; [done|].
      intros Hnil. apply Hne. rewrite HM', Hnil. by destruct (is_autogen s1 t).
    - intros t Ha. rewrite Hst' by (by rewrite Hauto1). by apply Hst1.
    - intros y Hy. eapply kept_trans; [by apply Hk1|]. apply Hkept.
      destruct Hy as [Hy|Hy].
      + left. intros Hin. apply Hy. by right.
      + right. destruct (heap_dives s !! y) as [dvy|] eqn:Hdvy.
        * eapply not_in_autogen_trip_kept; [done|by eexists| |done].
          apply Hk1. by right.
        * intros (dv' & t & Hdv' & _). apply lookup_lt_Some in Hdv'.
          apply lookup_ge_None in Hdvy.
          pose proof (proj1 (same_but_trip_of_length _ _ _ Hsame)) as Hlen. lia.
    - intros y Hy Hauto.
      destruct (decide (y = dive)) as [->|Hne].
      + destruct (Hrd Hauto) as (dv1 & Hdv1 & Ht1 & Hf1).
        assert (Hno1 : ¬ in_autogen_trip s1 dive).
        { intros (dv2 & t2 & Hdv2 & Ht2 & _). congruence. }
        destruct (Hkept dive (or_intror Hno1) dv1 Hdv1) as (dv' & Hdv' & _ & Ht' & Hf').
        exists dv'. split_and!; [done|congruence..].
      + apply Hrem.
        * apply elem_of_cons in Hy as [?|Hy]; done.
        * eapply in_autogen_trip_kept; [done| |done].
          by eapply same_but_trip_of_kept. }
  (* the turn for [dive] *)
  destruct (divetrip dv) as [t0|] eqn:Htrip.
  2: { (* no trip *)
    assert (Hno : ¬ in_autogen_trip s dive).
    { intros (dv' & t & Hdv' & Ht & _). congruence. }
    apply (Hnext s).
    - intros k. rewrite (run_bind _ _ _ _ _ (run_load_dive _ _ _ Hd)). by rewrite Htrip.
    - done.
    - done.
    - apply same_but_trip_of_refl.
    - symmetry. apply filter_all, Forall_forall. intros t Ht.
      by apply earliest_member_nonempty, Hinv.
    - intros t. destruct (is_autogen s t); [|done]. symmetry. apply filter_ne_notin.
      eapply rep_no_trip_notin; [done..|]. by rewrite Htrip.
    - done.
    - intros _. apply kept_refl.
    - intros Hin. done. }
  destruct (rep_divetrip _ _ _ Hwf _ _ _ Hd Htrip) as (Ht0R & Hd0).
  destruct (rep_trip_valid _ _ _ _ Hwf Ht0R) as [tr0 Htr0].
  destruct (Z.eqb_spec (trip_autogen tr0) 0) as [Hman|Hauto].
  { (* a trip that was not made by autogroup_dives *)
    assert (Hno : ¬ in_autogen_trip s dive).
    { intros (dv' & t & Hdv' & Ht & Ha). assert (t = t0) as -> by congruence.
      unfold is_autogen in Ha. rewrite Htr0 in Ha.
      by rewrite (proj2 (Z.eqb_eq _ _) Hman) in Ha. }
    apply (Hnext s).
    - intros k. rewrite (run_bind _ _ _ _ _ (run_load_dive _ _ _ Hd)). rewrite Htrip.
      unfold bind at 1. rewrite (run_bind _ _ _ _ _ (run_load_trip _ _ _ Htr0)).
      by rewrite (proj2 (Z.eqb_eq _ _) Hman).
    - done.
    - done.
    - apply same_but_trip_of_refl.
    - symmetry. apply filter_all, Forall_forall. intros t Ht.
      by apply earliest_member_nonempty, Hinv.
    - intros t. destruct (is_autogen s t) eqn:Ha; [|done]. symmetry. apply filter_ne_notin.
      eapply rep_no_trip_notin; [done..|]. rewrite Htrip. intros [= <-].
      unfold is_autogen in Ha. rewrite Htr0 in Ha.
      by rewrite (proj2 (Z.eqb_eq _ _) Hman) in Ha.
    - done.
    - intros _. apply kept_refl.
    - intros Hin. done. }
  (* a trip made by autogroup_dives: the dive leaves it *)
  assert (Ha0 : is_autogen s t0 = true).
  { unfold is_autogen. rewrite Htr0. by rewrite (proj2 (Z.eqb_neq _ _) Hauto). }
  destruct (remove_dive_from_trip_inv s dive dv Hwf Hinv Hd)
    as (s1 & Hrun1 & Hwf1 & Hinv1 & Hsame & HR1 & HM1 & Hst1).
  destruct (remove_dive_from_trip_ok s _ _ dive dv Hwf Hd)
    as (s1' & Hrun1' & _ & _ & Hdv1 & _).
  rewrite Hrun1 in Hrun1'. apply ok_inj in Hrun1' as (_ & <-).
  rewrite Htrip in Hdv1.
  assert (Hother : ∀ t, t ≠ t0 → dive ∉ members s t).
  { intros t Hne Hin. apply Hne. by eapply (rep_members_disjoint s (registry s) (members s)). }
  assert (HM1' : ∀ t, members s1 t = if is_autogen s t
                                     then filter (λ d, d ≠ dive) (members s t)
                                     else members s t).
  { intros t. rewrite HM1. unfold without_dive.
    destruct (is_autogen s t) eqn:Ha; [done|]. apply filter_ne_notin, Hother.
    intros ->. congruence. }
  apply (Hnext s1).
  - intros k. rewrite (run_bind _ _ _ _ _ (run_load_dive _ _ _ Hd)). rewrite Htrip.
    unfold bind at 1. rewrite (run_bind _ _ _ _ _ (run_load_trip _ _ _ Htr0)).
    rewrite (proj2 (Z.eqb_neq _ _) Hauto). cbn [negb]. by rewrite Hrun1.
  - done.
  - done.
  - done.
  - rewrite HR1. unfold without_trip_of. apply filter_iff_in. intros t Ht.
    pose proof (earliest_member_nonempty _ _ (Hinv _ Ht)) as Hne.
    rewrite HM1. unfold without_dive. split.
    + intros Hnd Hnil. destruct (members s t) as [|x l] eqn:HMt; [done|].
      destruct (decide (x = dive)) as [->|Hx].
      * rewrite filter_cons_False in Hnil by (by intros ?).
        destruct l as [|y l]; [done|].
        assert (Hndm : NoDup (members s t)).
        { destruct (rep_trip_valid _ _ _ _ Hwf Ht) as [tr Htr].
          by destruct (rep_members _ _ _ Hwf _ _ Htr) as (_ & ? & _). }
        rewrite HMt in Hndm. apply NoDup_cons in Hndm as (Hny & _).
        rewrite filter_cons_True in Hnil; [done|]. intros ->. apply Hny. by left.
      * by rewrite filter_cons_True in Hnil.
    + intros Hnil Heq. apply Hnil. rewrite Heq. by rewrite filter_cons_False by (by intros ?).
  - done.
  - intros t Ha. rewrite Hst1. apply start_without_other, Hother. intros ->. congruence.
  - intros Hno. exfalso. apply Hno. by exists dv, t0.
  - intros _. eexists. by split_and!.
Qed.

(** remove_autogen_trips, in a well-formed store whose trips start at their
    earliest member and have all their dives in the dive table: the call
    returns, and the registry is left with the trips that autogroup_dives
    has not made, in their order, with the members and the start they had.
    The dives of the other trips are without a trip and carry the flag
    NO_TRIP; all other dives are in the trip they were in, with their flag;
    what the dives record is not touched. *)
Theorem remove_autogen_trips_leaves_other_trips s :
  well_formed s →
  trips_start_at_earliest s →
  (∀ t d, t ∈ registry s → d ∈ members s t → d ∈ dive_table s) →
  ∃ s',
    remove_autogen_trips s = Ok tt s' ∧
    well_formed s' ∧
    trips_start_at_earliest s' ∧
    registry s' = filter (λ t, is_autogen s t = false) (registry s) ∧
    (∀ t, t ∈ registry s' →
          members s' t = members s t ∧ trip_start s' t = trip_start s t ∧
          is_autogen s' t = false) ∧
    (∀ y dv, heap_dives s !! y = Some dv →
       ∃ dv', heap_dives s' !! y = Some dv' ∧ dive_data dv' = dive_data dv ∧
              match divetrip dv with
              | Some t =>
                if is_autogen s t then divetrip dv' = None ∧ tripflag dv' = NO_TRIP
                else divetrip dv' = Some t ∧ tripflag dv' = tripflag dv
              | None => divetrip dv' = None ∧ tripflag dv' = tripflag dv
              end) ∧
    dive_table s' = dive_table s.
Proof.
  intros Hwf Hinv Hall.
  destruct (remove_autogen_trips_loop_spec (dive_table s) s Hwf Hinv)
    as (s' & Hrun & Hwf' & Hinv' & Htable & Hdata & Hinfo & HM' & HR' & Hst' & Hkept & Hrem).
  { intros d Hd. by apply (rep_table _ _ _ Hwf). }
  assert (HRf : registry s' = filter (λ t, is_autogen s t = false) (registry s)).
  { rewrite HR'. apply filter_iff_in. intros t Ht. rewrite HM'.
    destruct (is_autogen s t) eqn:Ha.
    - split; [|done]. intros Hne. exfalso. apply Hne.
      destruct (filter _ (members s t)) as [|d l] eqn:Hf; [done|].
      assert (Hd : d ∈ filter (λ d, d ∉ dive_table s) (members s t))
        by (rewrite Hf; by left).
      apply list_elem_of_filter in Hd as (Hout & Hin). exfalso. apply Hout. by eapply Hall.
    - split; [done|]. intros _. by apply earliest_member_nonempty, Hinv. }
  exists s'. split_and!; [|done|done|done| | |done].
  - unfold remove_autogen_trips. unfold get_state at 1. unfold bind at 1. done.
  - intros t Ht. rewrite HRf in Ht. apply list_elem_of_filter in Ht as (Ha & Ht).
    split_and!.
    + by rewrite HM', Ha.
    + by apply Hst'.
    + by rewrite (is_autogen_same_info s).
  - intros y dv Hdv.
    assert (Hcase : in_autogen_trip s y ∨ ¬ in_autogen_trip s y).
    { destruct (divetrip dv) as [t|] eqn:Ht.
      - destruct (is_autogen s t) eqn:Ha.
        + left. by exists dv, t.
        + right. intros (dv0 & t0 & Hdv0 & Ht0 & Ha0). congruence.
      - right. intros (dv0 & t0 & Hdv0 & Ht0 & Ha0). congruence. }
    destruct Hcase as [Hin|Hno].
    + destruct Hin as (dv0 & t & Hdv0 & Ht & Ha).
      assert (dv0 = dv) as -> by congruence.
      destruct (rep_divetrip _ _ _ Hwf _ _ _ Hdv Ht) as (HtR & Hy).
      destruct (Hrem y) as (dv' & Hdv' & Hnone & Hflag);
        [by eapply Hall|by exists dv, t|].
      exists dv'. split_and!; [done| |by rewrite Ht, Ha].
      pose proof (f_equal (λ l, l !! y) Hdata) as Heq. cbn beta in Heq.
      rewrite !list_lookup_fmap, Hdv, Hdv' in Heq. by apply (inj Some).
    + destruct (Hkept y (or_intror Hno) dv Hdv) as (dv' & Hdv' & Hd' & Ht' & Hf').
      exists dv'. split_and!; [done..|].
      destruct (divetrip dv) as [t|] eqn:Ht; [|done].
      destruct (is_autogen s t) eqn:Ha; [|done].
      exfalso. apply Hno. by exists dv, t.
Qed.

Lemma two_trips_one_autogen_well_formed :
  well_formed two_trips_one_autogen ∧ trips_start_at_earliest two_trips_one_autogen.
Proof.
  destruct (alter_trip_views two_trips 1%nat (λ tr, set_trip_autogen tr 1))
    as (Hwf & _ & _ & _ & Hinv); [done..|exact two_trips_well_formed|].
  split; [done|]. apply Hinv. exact two_trips_start_at_earliest.
Qed.

Lemma remove_autogen_trips_leaves_other_trips_witness :
  ∃ s',
    remove_autogen_trips two_trips_one_autogen = Ok tt s' ∧
    well_formed s' ∧
    trips_start_at_earliest s' ∧
    registry s' = filter (λ t, is_autogen two_trips_one_autogen t = false)
                    (registry two_trips_one_autogen) ∧
    (∀ t, t ∈ registry s' →
          members s' t = members two_trips_one_autogen t ∧
          trip_start s' t = trip_start two_trips_one_autogen t ∧
          is_autogen s' t = false) ∧
    (∀ y dv, heap_dives two_trips_one_autogen !! y = Some dv →
       ∃ dv', heap_dives s' !! y = Some dv' ∧ dive_data dv' = dive_data dv ∧
              match divetrip dv with
              | Some t =>
                if is_autogen two_trips_one_autogen t
                then divetrip dv' = None ∧ tripflag dv' = NO_TRIP
                else divetrip dv' = Some t ∧ tripflag dv' = tripflag dv
              | None => divetrip dv' = None ∧ tripflag dv' = tripflag dv
              end) ∧
    dive_table s' = dive_table two_trips_one_autogen.
Proof.
  apply (remove_autogen_trips_leaves_other_trips two_trips_one_autogen).
  - exact (proj1 two_trips_one_autogen_well_formed).
  - exact (proj2 two_trips_one_autogen_well_formed).
  - intros t d Ht Hd. vm_compute in Ht.
    repeat (apply elem_of_cons in Ht as [->|Ht];
            [vm_compute in Hd;
             repeat (apply elem_of_cons in Hd as [->|Hd]; [by_computation|]);
             by apply elem_of_nil in Hd|]).
    by apply elem_of_nil in Ht.
Defined.

(* ===================================================================== *)
(** * delete_single_dive and add_single_dive *)
(* ===================================================================== *)

Lemma rep_set_dive_table s R Mf tab :
  rep s R Mf →
  (∀ d, d ∈ tab → is_Some (heap_dives s !! d)) →
  rep (set_dive_table s tab) R Mf.
Proof. intros [H1 H2 H3 H4 H5 H6] Htab. by split. Qed.

Lemma well_formed_set_dive_table s tab :
  well_formed s →
  (∀ d, d ∈ tab → is_Some (heap_dives s !! d)) →
  well_formed (set_dive_table s tab).
Proof. intros Hwf Htab. by apply (rep_set_dive_table s (registry s) (members s)). Qed.

Lemma count_selected_app sel l1 l2 :
  count_selected sel (l1 ++ l2) = count_selected sel l1 + count_selected sel l2.
Proof. unfold count_selected. rewrite filter_app, length_app. lia. Qed.

Lemma count_selected_cons sel d l :
  count_selected sel (d :: l) = (if selected sel d then 1 else 0) + count_selected sel l.
Proof.
  unfold count_selected. rewrite filter_cons.
  destruct (selected sel d); [rewrite decide_True by done|rewrite decide_False by done];
    cbn [length]; lia.
Qed.

Lemma count_selected_delete sel tab i d :
  tab !! i = Some d →
  count_selected sel (delete i tab)
  = count_selected sel tab - (if selected sel d then 1 else 0).
Proof.
  intros Hi. rewrite <- (take_drop_middle tab i d Hi) at 2.
  rewrite delete_take_drop, !count_selected_app, count_selected_cons. lia.
Qed.

Lemma count_selected_insert sel tab i d :
  count_selected sel (take i tab ++ d :: drop i tab)
  = count_selected sel tab + (if selected sel d then 1 else 0).
Proof.
  rewrite <- (take_drop i tab) at 3.
  rewrite !count_selected_app, count_selected_cons. lia.
Qed.

Lemma count_selected_bounds sel tab :
  0 <= count_selected sel tab <= Z.of_nat (length tab).
Proof. unfold count_selected. pose proof (length_filter (λ d, selected sel d = true) tab). lia. Qed.

Lemma uint_small x : 0 <= x < 2 ^ 32 → uint x = x.
Proof. apply Z.mod_small. Qed.

Lemma count_selected_amount sel n tab :
  count_selected (set_amount_selected sel n) tab = count_selected sel tab.
Proof. done. Qed.

Lemma selection_counted_delete s s1 sel i dive :
  Z.of_nat (length (dive_table s)) < 2 ^ 32 →
  dive_table s !! i = Some dive →
  selection_counted s sel →
  selection_counted (set_dive_table s1 (delete i (dive_table s)))
    (if selected sel dive then set_amount_selected sel (uint (amount_selected sel - 1))
     else sel).
Proof.
  unfold selection_counted. cbn [dive_table set_dive_table]. intros Hfit Hi Hc.
  pose proof (count_selected_bounds sel (dive_table s)) as Hb.
  pose proof (count_selected_bounds sel (delete i (dive_table s))) as Hb'.
  pose proof (count_selected_delete sel _ _ dive Hi) as Hdel.
  destruct (selected sel dive) eqn:Hsel.
  - rewrite count_selected_amount. cbn [amount_selected set_amount_selected].
    rewrite uint_small by lia. lia.
  - lia.
Qed.

Lemma selection_counted_insert s s1 sel i dive :
  Z.of_nat (length (dive_table s)) < 2 ^ 31 →
  selection_counted s sel →
  selection_counted (set_dive_table s1 (take i (dive_table s) ++ dive :: drop i (dive_table s)))
    (if selected sel dive then set_amount_selected sel (uint (amount_selected sel + 1))
     else sel).
Proof.
  unfold selection_counted. cbn [dive_table set_dive_table]. intros Hfit Hc.
  pose proof (count_selected_bounds sel (dive_table s)) as Hb.
  pose proof (count_selected_insert sel (dive_table s) i dive) as Hins.
  destruct (selected sel dive) eqn:Hsel.
  - rewrite count_selected_amount. cbn [amount_selected set_amount_selected].
    rewrite uint_small by lia. lia.
  - lia.
Qed.

(** delete_single_dive at a place of the table. *)
Lemma delete_single_dive_spec s sel idx dive dv :
  well_formed s →
  trips_start_at_earliest s →
  get_dive s idx = Some dive →
  heap_dives s !! dive = Some dv →
  ∃ s1,
    remove_dive_from_trip dive s = Ok tt s1 ∧
    delete_single_dive idx sel s
    = Ok (if selected sel dive then set_amount_selected sel (uint (amount_selected sel - 1))
          else sel)
         (set_dive_table s1 (delete (Z.to_nat idx) (dive_table s))) ∧
    well_formed (set_dive_table s1 (delete (Z.to_nat idx) (dive_table s))) ∧
    trips_start_at_earliest (set_dive_table s1 (delete (Z.to_nat idx) (dive_table s))) ∧
    same_but_trip_of dive s s1 ∧
    registry s1 = without_trip_of dive (members s) (registry s) ∧
    (∀ t, members s1 t = filter (λ y, y ≠ dive) (members s t)) ∧
    (∀ t, dive ∉ members s t → trip_start s1 t = trip_start s t).
Proof.
  intros Hwf Hinv Hget Hd.
  destruct (remove_dive_from_trip_inv s dive dv Hwf Hinv Hd)
    as (s1 & Hrun & Hwf1 & Hinv1 & Hsame & HR & HM & Hst).
  exists s1. split_and!; [done| | |done|done|done|done|].
  - unfold delete_single_dive. unfold get_state at 1. unfold bind at 1. rewrite Hget.
    rewrite (run_bind _ _ _ _ _ Hrun). unfold get_state at 1. unfold bind at 1.
    unfold bind at 1. by rewrite (sb_table _ _ _ Hsame).
  - apply well_formed_set_dive_table; [done|]. intros d Hin.
    apply lookup_lt_is_Some. rewrite (proj1 (same_but_trip_of_length _ _ _ Hsame)).
    apply lookup_lt_is_Some, (rep_table _ _ _ Hwf).
    apply list_elem_of_lookup in Hin as (j & Hj).
    rewrite delete_take_drop in Hj.
    apply list_elem_of_lookup_2 in Hj. apply elem_of_app in Hj as [Hj|Hj].
    + by eapply elem_of_take_in.
    + by eapply elem_of_drop_in.
  - intros t Ht. rewrite Hst. by apply start_without_other.
Qed.

Lemma get_dive_lookup s idx d :
  get_dive s idx = Some d → 0 <= idx ∧ dive_table s !! Z.to_nat idx = Some d.
Proof.
  unfold get_dive. destruct (Z.ltb_spec idx 0); [done|]. intros Hd. split; [lia|done].
Qed.

(** delete_single_dive returns in a well-formed store whose trips start at
    their earliest member, and leaves one.  Outside the table it changes
    nothing.  At a place of the table the dive there leaves its trip, as
    with remove_dive_from_trip, and the table: the entries before it stay,
    those behind move up by one, and if no other entry was the same dive,
    no entry and no trip holds the dive any more.  If amount_selected
    counted the selected entries of the table it still does; the flags and
    selected_dive are left alone. *)
Theorem delete_single_dive_takes_entry_out s sel idx :
  well_formed s →
  trips_start_at_earliest s →
  table_fits s →
  ∃ s' sel',
    delete_single_dive idx sel s = Ok sel' s' ∧
    well_formed s' ∧
    trips_start_at_earliest s' ∧
    (selection_counted s sel → selection_counted s' sel') ∧
    selected sel' = selected sel ∧
    selected_dive sel' = selected_dive sel ∧
    match get_dive s idx with
    | None => s' = s ∧ sel' = sel
    | Some dive =>
      dive_table s' = take (Z.to_nat idx) (dive_table s)
                      ++ drop (S (Z.to_nat idx)) (dive_table s) ∧
      (NoDup (dive_table s) → dive ∉ dive_table s') ∧
      (∀ t, members s' t = filter (λ y, y ≠ dive) (members s t)) ∧
      (∀ t, t ∈ registry s' ↔ t ∈ registry s ∧ members s t ≠ [dive])
    end.
Proof.
  intros Hwf Hinv Hfit. destruct (get_dive s idx) as [dive|] eqn:Hget.
  2: { exists s, sel. split_and!; [|done..].
       unfold delete_single_dive. unfold get_state at 1. unfold bind at 1.
       by rewrite Hget. }
  destruct (get_dive_lookup _ _ _ Hget) as (Hpos & Hlook).
  destruct (rep_table _ _ _ Hwf dive) as [dv Hd]; [by eapply list_elem_of_lookup_2|].
  destruct (delete_single_dive_spec s sel idx dive dv Hwf Hinv Hget Hd)
    as (s1 & Hrun1 & Hrun & Hwf' & Hinv' & Hsame & HR & HM & Hst).
  unfold table_fits in Hfit.
  eexists _, _. split_and!; [exact Hrun|done|done| | | | | | | ].
  - apply selection_counted_delete; [lia|done].
  - by destruct (selected sel dive).
  - by destruct (selected sel dive).
  - cbn [dive_table set_dive_table]. apply delete_take_drop.
  - cbn [dive_table set_dive_table]. intros Hnd Hin.
    rewrite <- (take_drop_middle _ _ _ Hlook) in Hnd.
    apply NoDup_app in Hnd as (_ & Hnd1 & Hnd2). apply NoDup_cons in Hnd2 as (Hnd2 & _).
    rewrite delete_take_drop in Hin. apply elem_of_app in Hin as [Hin|Hin].
    + apply (Hnd1 _ Hin). apply elem_of_cons. by left.
    + done.
  - done.
  - intros t. change (registry (set_dive_table s1 (delete (Z.to_nat idx) (dive_table s))))
      with (registry s1).
    rewrite HR. apply without_trip_of_elem.
Qed.

Lemma delete_single_dive_takes_entry_out_witness :
  ∃ s' sel',
    delete_single_dive 1 {| selected := λ _, true; amount_selected := 3;
                            selected_dive := 2 |} two_trips = Ok sel' s' ∧
    well_formed s' ∧
    trips_start_at_earliest s' ∧
    (selection_counted two_trips {| selected := λ _, true; amount_selected := 3;
                                    selected_dive := 2 |} →
     selection_counted s' sel') ∧
    selected sel' = (λ _, true) ∧
    selected_dive sel' = 2 ∧
    match get_dive two_trips 1 with
    | None => s' = two_trips ∧
              sel' = {| selected := λ _, true; amount_selected := 3; selected_dive := 2 |}
    | Some dive =>
      dive_table s' = take (Z.to_nat 1) (dive_table two_trips)
                      ++ drop (S (Z.to_nat 1)) (dive_table two_trips) ∧
      (NoDup (dive_table two_trips) → dive ∉ dive_table s') ∧
      (∀ t, members s' t = filter (λ y, y ≠ dive) (members two_trips t)) ∧
      (∀ t, t ∈ registry s' ↔ t ∈ registry two_trips ∧ members two_trips t ≠ [dive])
    end.
Proof.
  apply (delete_single_dive_takes_entry_out two_trips
           {| selected := λ _, true; amount_selected := 3; selected_dive := 2 |} 1).
  - exact two_trips_well_formed.
  - exact two_trips_start_at_earliest.
  - by vm_compute.
Defined.

Lemma set_dive_table_same s : set_dive_table s (dive_table s) = s.
Proof. by destruct s. Qed.

Lemma add_single_dive_spec s sel allocated idx dive dv :
  well_formed s →
  heap_dives s !! dive = Some dv →
  0 <= idx <= Z.of_nat (length (dive_table s)) →
  (length (dive_table s) < allocated)%nat →
  add_single_dive allocated idx dive sel s
  = Ok (if selected sel dive then set_amount_selected sel (uint (amount_selected sel + 1))
        else sel)
       (set_dive_table s (take (Z.to_nat idx) (dive_table s) ++
                          dive :: drop (Z.to_nat idx) (dive_table s))) ∧
  well_formed (set_dive_table s (take (Z.to_nat idx) (dive_table s) ++
                                 dive :: drop (Z.to_nat idx) (dive_table s))).
Proof.
  intros Hwf Hd Hidx Hroom. split.
  - unfold add_single_dive. unfold get_state at 1. unfold bind at 1.
    rewrite (run_bind _ _ _ _ _ (run_load_dive _ _ _ Hd)).
    replace (length (dive_table s) <? allocated)%nat with true
      by (symmetry; by apply Nat.ltb_lt).
    replace (0 <=? idx) with true by (symmetry; apply Z.leb_le; lia).
    replace (idx <=? Z.of_nat (length (dive_table s))) with true
      by (symmetry; apply Z.leb_le; lia).
    done.
  - apply well_formed_set_dive_table; [done|]. intros d Hin.
    apply elem_of_app in Hin as [Hin|Hin].
    + apply (rep_table _ _ _ Hwf). by eapply elem_of_take_in.
    + apply elem_of_cons in Hin as [->|Hin]; [done|].
      apply (rep_table _ _ _ Hwf). by eapply elem_of_drop_in.
Qed.

(** add_single_dive needs room in the array and a place in the table or
    right behind it, else it leaves the memory of the table.  With both,
    it puts the dive at that place, the entries from there on one place
    further down, and counts the dive if it is selected; the trips are not
    touched.  delete_single_dive at the same place then takes the dive out
    again: if the dive is in no trip, store and selection are as before. *)
Theorem add_then_delete_single_dive s sel allocated idx dive dv :
  well_formed s →
  trips_start_at_earliest s →
  heap_dives s !! dive = Some dv →
  divetrip dv = None →
  0 <= amount_selected sel < 2 ^ 32 →
  if (length (dive_table s) <? allocated)%nat
     && (0 <=? idx) && (idx <=? Z.of_nat (length (dive_table s)))
  then
    ∃ s1 sel1,
      add_single_dive allocated idx dive sel s = Ok sel1 s1 ∧
      well_formed s1 ∧
      get_dive s1 idx = Some dive ∧
      (∀ j, j < idx → get_dive s1 j = get_dive s j) ∧
      (∀ j, idx <= j → get_dive s1 (j + 1) = get_dive s j) ∧
      registry s1 = registry s ∧
      members s1 = members s ∧
      heap_dives s1 = heap_dives s ∧
      heap_trips s1 = heap_trips s ∧
      amount_selected sel1
        = uint (amount_selected sel + (if selected sel dive then 1 else 0)) ∧
      delete_single_dive idx sel1 s1 = Ok sel s
  else add_single_dive allocated idx dive sel s = Fault.
Proof.
  intros Hwf Hinv Hd Hnone Hrange.
  destruct ((length (dive_table s) <? allocated)%nat
            && (0 <=? idx) && (idx <=? Z.of_nat (length (dive_table s)))) eqn:Hc.
  2: { unfold add_single_dive. unfold get_state at 1. unfold bind at 1.
       rewrite (run_bind _ _ _ _ _ (run_load_dive _ _ _ Hd)). by rewrite Hc. }
  apply andb_prop in Hc as (Hc & Hle). apply andb_prop in Hc as (Hroom & Hpos).
  apply Nat.ltb_lt in Hroom. apply Z.leb_le in Hle, Hpos.
  destruct (add_single_dive_spec s sel allocated idx dive dv Hwf Hd (conj Hpos Hle) Hroom)
    as (Hrun & Hwf1).
  set (n := Z.to_nat idx) in *.
  assert (Hn : (n <= length (dive_table s))%nat) by lia.
  set (tab1 := take n (dive_table s) ++ dive :: drop n (dive_table s)) in *.
  assert (Hat : tab1 !! n = Some dive).
  { unfold tab1. rewrite lookup_app_r by (rewrite length_take; lia).
    rewrite length_take. by replace (n - n `min` length (dive_table s))%nat with 0%nat by lia. }
  assert (Hget1 : get_dive (set_dive_table s tab1) idx = Some dive).
  { unfold get_dive. destruct (Z.ltb_spec idx 0); [lia|]. exact Hat. }
  eexists _, _. split_and!; [exact Hrun|done|done| | |done..| |].
  - intros j Hj. unfold get_dive. destruct (Z.ltb_spec j 0); [done|].
    cbn [dive_table set_dive_table]. unfold tab1.
    rewrite lookup_app_l by (rewrite length_take; lia).
    apply lookup_take_lt. lia.
  - intros j Hj. unfold get_dive.
    destruct (Z.ltb_spec (j + 1) 0); [lia|]. destruct (Z.ltb_spec j 0); [lia|].
    cbn [dive_table set_dive_table]. unfold tab1.
    rewrite lookup_app_r by (rewrite length_take; lia).
    rewrite length_take.
    replace (Z.to_nat (j + 1) - n `min` length (dive_table s))%nat
      with (S (Z.to_nat j - n)) by lia.
    rewrite <- lookup_tail. cbn [tail]. rewrite lookup_drop. f_equal. lia.
  - destruct (selected sel dive); cbn [amount_selected set_amount_selected]; [done|].
    rewrite uint_small by lia. lia.
  - unfold delete_single_dive. unfold get_state at 1. unfold bind at 1.
    rewrite Hget1.
    assert (Hd1 : heap_dives (set_dive_table s tab1) !! dive = Some dv) by exact Hd.
    rewrite (run_bind _ _ _ _ _
               (remove_dive_from_trip_no_trip (set_dive_table s tab1) dive dv Hd1 Hnone)).
    unfold get_state at 1. unfold bind at 1. unfold bind at 1.
    cbn [dive_table set_dive_table]. unfold ret. f_equal.
    + destruct sel as [f a sd]. cbn [selected amount_selected set_amount_selected].
      destruct (f dive) eqn:Hf; cbn [selected amount_selected set_amount_selected selected_dive];
        rewrite Hf; [|done]. unfold set_amount_selected.
      cbn [selected amount_selected selected_dive]. f_equal.
      cbn [amount_selected] in Hrange. unfold uint.
      rewrite Zminus_mod_idemp_l. replace (a + 1 - 1) with a by lia.
      by apply Z.mod_small.
    + replace (delete n tab1) with (dive_table s).
      * change (set_dive_table s (dive_table s) = s). apply set_dive_table_same.
      * unfold tab1. rewrite delete_take_drop.
        rewrite take_app_length' by (rewrite length_take; lia).
        rewrite (cons_middle dive), app_assoc.
        rewrite (drop_app_length' _ _ (S n)).
        2: { rewrite length_app, length_take. cbn [length]. lia. }
        by rewrite take_drop.
Qed.

Lemma three_and_merged_well_formed : well_formed three_and_merged.
Proof.
  apply well_formed_set_dive_table.
  - apply store_of_dives_well_formed. repeat constructor.
  - intros d Hd. apply lookup_lt_is_Some. cbn.
    rewrite !elem_of_cons, elem_of_nil in Hd. lia.
Qed.

Lemma three_and_merged_start_at_earliest : trips_start_at_earliest three_and_merged.
Proof. intros t Ht. by apply elem_of_nil in Ht. Qed.

Lemma add_then_delete_single_dive_witness :
  ∃ s1 sel1,
    add_single_dive 8 0 3%nat {| selected := λ _, true; amount_selected := 3;
                                 selected_dive := 0 |} three_and_merged
    = Ok sel1 s1 ∧
    dive_table s1 = [3; 0; 1; 2]%nat ∧
    amount_selected sel1 = 4 ∧
    delete_single_dive 0 sel1 s1
    = Ok {| selected := λ _, true; amount_selected := 3; selected_dive := 0 |}
         three_and_merged.
Proof.
  pose proof (add_then_delete_single_dive three_and_merged
                {| selected := λ _, true; amount_selected := 3; selected_dive := 0 |}
                8 0 3%nat (plain_dive 1000) three_and_merged_well_formed
                three_and_merged_start_at_earliest eq_refl eq_refl
                ltac:(cbn; lia)) as H.
  change (_ && _ && _) with true in H. cbv iota in H.
  destruct H as (s1 & sel1 & Hrun & _ & _ & _ & _ & _ & _ & _ & _ & _ & Hback).
  exists s1, sel1. split_and!; [done| | |done].
  - vm_compute in Hrun. by injection Hrun as _ <-.
  - vm_compute in Hrun. by injection Hrun as <- _.
Defined.

Lemma delete_behind_prefix {A} (l1 : list A) x y l :
  delete (S (length l1)) (l1 ++ x :: y :: l) = l1 ++ x :: l.
Proof. induction l1 as [|z l1 IH]; [done|]. cbn. f_equal. exact IH. Qed.

Lemma lookup_behind_prefix {A} (l1 : list A) x y l :
  (l1 ++ x :: y :: l) !! S (length l1) = Some y.
Proof. induction l1 as [|z l1 IH]; [done|]. exact IH. Qed.

Lemma selected_if_amount sel (c : bool) n :
  selected (if c then set_amount_selected sel n else sel) = selected sel.
Proof. by destruct c. Qed.



(* ===================================================================== *)
(** * select_dive and deselect_dive *)
(* ===================================================================== *)

Lemma count_selected_ext sel sel' l :
  (∀ y, y ∈ l → selected sel' y = selected sel y) →
  count_selected sel' l = count_selected sel l.
Proof.
  induction l as [|x l IH]; intros Hl; [done|].
  rewrite !count_selected_cons, IH.
  - rewrite Hl; [done|]. apply elem_of_cons. by left.
  - intros y Hy. apply Hl, elem_of_cons. by right.
Qed.

Lemma count_selected_set_other sel dive b l :
  dive ∉ l → count_selected (set_selected sel dive b) l = count_selected sel l.
Proof.
  intros Hd. apply count_selected_ext. intros y Hy. cbn [selected set_selected].
  rewrite decide_False; [done|]. by intros ->.
Qed.

Lemma count_selected_set sel tab i d b :
  NoDup tab →
  tab !! i = Some d →
  count_selected (set_selected sel d b) tab
  = count_selected sel tab - (if selected sel d then 1 else 0) + (if b then 1 else 0).
Proof.
  intros Hnd Hi. rewrite <- (take_drop_middle _ _ _ Hi) in Hnd |- *.
  apply NoDup_app in Hnd as (_ & Hnd1 & Hnd2). apply NoDup_cons in Hnd2 as (Hnd2 & _).
  rewrite !count_selected_app, !count_selected_cons.
  rewrite !count_selected_set_other.
  - cbn [selected set_selected]. rewrite decide_True by done. lia.
  - done.
  - intros Hin. apply (Hnd1 _ Hin). apply elem_of_cons. by left.
Qed.

Lemma count_selected_pos sel l :
  0 < count_selected sel l → ∃ j d, l !! j = Some d ∧ selected sel d = true.
Proof.
  induction l as [|x l IH]; [unfold count_selected; cbn; lia|].
  rewrite count_selected_cons. intros Hpos.
  destruct (selected sel x) eqn:Hx.
  - by exists 0%nat, x.
  - destruct IH as (j & d & Hj & Hd); [lia|]. by exists (S j), d.
Qed.

Lemma count_selected_found sel l j d :
  l !! j = Some d → selected sel d = true → 0 < count_selected sel l.
Proof.
  intros Hj Hd. rewrite <- (take_drop_middle _ _ _ Hj).
  rewrite count_selected_app, count_selected_cons, Hd.
  pose proof (count_selected_bounds sel (take j l)).
  pose proof (count_selected_bounds sel (drop (S j) l)). lia.
Qed.

Lemma get_dive_nat s (j : nat) : get_dive s (Z.of_nat j) = dive_table s !! j.
Proof.
  unfold get_dive. destruct (Z.ltb_spec (Z.of_nat j) 0); [lia|]. by rewrite Nat2Z.id.
Qed.

Lemma deselect_dive_down_spec s sel i :
  match deselect_dive_down s sel i with
  | Some r => 0 <= r < Z.of_nat i ∧
              ∃ d, get_dive s r = Some d ∧ selected sel d = true
  | None => ∀ j d, (j < i)%nat → dive_table s !! j = Some d → selected sel d = false
  end.
Proof.
  induction i as [|i IH]; [intros j d Hj; lia|].
  cbn [deselect_dive_down].
  assert (Hrec : match deselect_dive_down s sel i with
                 | Some r => 0 <= r < Z.of_nat (S i) ∧
                             ∃ d, get_dive s r = Some d ∧ selected sel d = true
                 | None => ∀ j d, (j < i)%nat → dive_table s !! j = Some d →
                                  selected sel d = false
                 end).
  { destruct (deselect_dive_down s sel i); [|done].
    destruct IH as (Hr & Hd). split; [lia|done]. }
  destruct (get_dive s (Z.of_nat i)) as [dive|] eqn:Hget.
  - destruct (selected sel dive) eqn:Hsel.
    + split; [lia|]. by exists dive.
    + destruct (deselect_dive_down s sel i); [done|].
      intros j d Hj Hjd. destruct (decide (j = i)) as [->|Hne].
      * rewrite get_dive_nat in Hget. by simplify_eq.
      * apply (Hrec j d); [lia|done].
  - destruct (deselect_dive_down s sel i); [done|].
    intros j d Hj Hjd. destruct (decide (j = i)) as [->|Hne].
    + rewrite get_dive_nat in Hget. by simplify_eq.
    + apply (Hrec j d); [lia|done].
Qed.

Lemma deselect_dive_up_spec s sel rest : ∀ i : nat,
  (i + rest = length (dive_table s))%nat →
  (∃ d, get_dive s (deselect_dive_up s sel rest (Z.of_nat i)) = Some d ∧
        selected sel d = true) ∨
  (deselect_dive_up s sel rest (Z.of_nat i) = Z.of_nat (length (dive_table s)) ∧
   ∀ j d, (i <= j)%nat → dive_table s !! j = Some d → selected sel d = false).
Proof.
  induction rest as [|rest IH]; intros i Hi.
  - right. cbn [deselect_dive_up]. split; [f_equal; lia|].
    intros j d Hj Hjd. apply lookup_lt_Some in Hjd. lia.
  - cbn [deselect_dive_up].
    replace (Z.of_nat i + 1) with (Z.of_nat (S i)) by lia.
    assert (Hrec :
      selected sel <$> dive_table s !! i ≠ Some true →
      (∃ d, get_dive s (deselect_dive_up s sel rest (Z.of_nat (S i))) = Some d ∧
            selected sel d = true) ∨
      (deselect_dive_up s sel rest (Z.of_nat (S i)) = Z.of_nat (length (dive_table s)) ∧
       ∀ j d, (i <= j)%nat → dive_table s !! j = Some d → selected sel d = false)).
    { intros Hno. destruct (IH (S i)) as [Hfound|(Hend & Hnone)]; [lia|by left|].
      right. split; [done|]. intros j d Hj Hjd.
      destruct (decide (j = i)) as [->|Hne].
      - rewrite Hjd in Hno. cbn in Hno. destruct (selected sel d); [done|done].
      - apply (Hnone j d); [lia|done]. }
    rewrite get_dive_nat. destruct (dive_table s !! i) as [dive|] eqn:Hget.
    + destruct (selected sel dive) eqn:Hsel.
      * left. exists dive. by rewrite get_dive_nat.
      * apply Hrec. cbn. by rewrite Hsel.
    + by apply Hrec.
Qed.

Lemma selection_sound_place s sel j d :
  selection_counted s sel →
  0 < amount_selected sel →
  get_dive s j = Some d →
  selected sel d = true →
  selection_sound s (set_selected_dive sel j).
Proof.
  intros Hc Hpos Hj Hd. split_and!.
  - exact Hc.
  - intros _. by exists d.
  - cbn [amount_selected set_selected_dive]. lia.
Qed.

(** select_dive keeps a sound selection sound, in a table that holds no
    dive twice.  Outside the table, and for a selected dive, it changes
    nothing.  Otherwise the dive is selected afterwards, the flags of the
    other dives are as before, amount_selected is one more and
    selected_dive is the place of the dive. *)
Theorem select_dive_keeps_selection_sound s idx sel :
  NoDup (dive_table s) →
  table_fits s →
  selection_sound s sel →
  selection_sound s (select_dive s idx sel) ∧
  match get_dive s idx with
  | None => select_dive s idx sel = sel
  | Some dive =>
    if selected sel dive then select_dive s idx sel = sel
    else
      selected (select_dive s idx sel) dive = true ∧
      (∀ y, y ≠ dive → selected (select_dive s idx sel) y = selected sel y) ∧
      amount_selected (select_dive s idx sel) = amount_selected sel + 1 ∧
      selected_dive (select_dive s idx sel) = idx
  end.
Proof.
  intros Hnd Hfit (Hc & Hplace & Hnone). unfold select_dive, table_fits in *.
  destruct (get_dive s idx) as [dive|] eqn:Hget; [|done].
  destruct (selected sel dive) eqn:Hsel; cbn [negb]; [done|].
  destruct (get_dive_lookup _ _ _ Hget) as (Hpos & Hlook).
  pose proof (count_selected_set sel _ _ _ true Hnd Hlook) as Hcnt. rewrite Hsel in Hcnt.
  pose proof (count_selected_bounds sel (dive_table s)) as Hb.
  pose proof (count_selected_bounds (set_selected sel dive true) (dive_table s)) as Hb'.
  unfold selection_counted in Hc.
  assert (Hamount : uint (amount_selected sel + 1) = amount_selected sel + 1)
    by (apply uint_small; lia).
  cbn [selected amount_selected selected_dive set_selected set_selected_dive
       set_amount_selected].
  rewrite Hamount. split_and!.
  - apply (selection_sound_place s _ idx dive).
    + unfold selection_counted. rewrite count_selected_amount.
      cbn [amount_selected set_amount_selected]. lia.
    + cbn [amount_selected set_amount_selected]. lia.
    + done.
    + cbn [selected set_selected set_amount_selected]. by rewrite decide_True.
  - by rewrite decide_True.
  - intros y Hy. by rewrite decide_False.
  - done.
  - done.
Qed.

(** deselect_dive keeps a sound selection sound, in a table that holds no
    dive twice: afterwards selected_dive is again the place of a selected
    dive if one is left, and -1 if none is.  Outside the table, and for a
    dive that is not selected, it changes nothing.  Otherwise the dive is
    not selected afterwards, the flags of the other dives are as before
    and amount_selected is one less. *)
Theorem deselect_dive_keeps_selection_sound s idx sel :
  NoDup (dive_table s) →
  table_fits s →
  selection_sound s sel →
  selection_sound s (deselect_dive s idx sel) ∧
  match get_dive s idx with
  | None => deselect_dive s idx sel = sel
  | Some dive =>
    if selected sel dive then
      selected (deselect_dive s idx sel) dive = false ∧
      (∀ y, y ≠ dive → selected (deselect_dive s idx sel) y = selected sel y) ∧
      amount_selected (deselect_dive s idx sel) = amount_selected sel - 1
    else deselect_dive s idx sel = sel
  end.
Proof.
  intros Hnd Hfit (Hc & Hplace & Hnone). unfold deselect_dive, table_fits in *.
  destruct (get_dive s idx) as [dive|] eqn:Hget; [|done].
  destruct (selected sel dive) eqn:Hsel; [|done].
  destruct (get_dive_lookup _ _ _ Hget) as (Hpos & Hlook).
  pose proof (count_selected_set sel _ _ _ false Hnd Hlook) as Hcnt. rewrite Hsel in Hcnt.
  pose proof (count_selected_bounds sel (dive_table s)) as Hb.
  pose proof (count_selected_found sel _ _ _ Hlook Hsel) as Hone.
  unfold selection_counted in Hc.
  assert (Hamount : uint (amount_selected sel - 1) = amount_selected sel - 1)
    by (apply uint_small; lia).
  cbv zeta. rewrite Hamount.
  set (sel1 := set_amount_selected (set_selected sel dive false) (amount_selected sel - 1)).
  assert (Hc1 : selection_counted s sel1).
  { unfold selection_counted, sel1. rewrite count_selected_amount.
    cbn [amount_selected set_amount_selected]. lia. }
  assert (Hoff : selected sel1 dive = false).
  { cbn [sel1 selected set_selected set_amount_selected]. by rewrite decide_True. }
  assert (Hother : ∀ y, y ≠ dive → selected sel1 y = selected sel y).
  { intros y Hy. cbn [sel1 selected set_selected set_amount_selected].
    by rewrite decide_False. }
  assert (Ha1 : amount_selected sel1 = amount_selected sel - 1) by done.
  assert (Hsd1 : selected_dive sel1 = selected_dive sel) by done.
  assert (Hgoal : ∀ sel', selection_sound s sel' →
            selected sel' = selected sel1 → amount_selected sel' = amount_selected sel1 →
            selection_sound s sel' ∧ selected sel' dive = false ∧
            (∀ y, y ≠ dive → selected sel' y = selected sel y) ∧
            amount_selected sel' = amount_selected sel - 1).
  { intros sel' Hs Hf Ha. rewrite Hf, Ha. by split_and!. }
  destruct ((selected_dive sel1 =? idx) && (amount_selected sel1 >? 0)) eqn:Hcond.
  - apply andb_prop in Hcond as (Hidx & Hleft).
    apply Z.eqb_eq in Hidx. apply Z.gtb_lt in Hleft.
    destruct (count_selected_pos sel1 (dive_table s)) as (j & d' & Hj & Hd');
      [unfold selection_counted in Hc1; lia|].
    pose proof (deselect_dive_down_spec s sel1 (Z.to_nat idx)) as Hdown.
    destruct (deselect_dive_down s sel1 (Z.to_nat idx)) as [r|].
    + destruct Hdown as (Hr & d & Hrd & Hdsel).
      apply Hgoal; [|done..]. by apply (selection_sound_place s sel1 r d).
    + destruct (deselect_dive_up_spec s sel1
                  (length (dive_table s) - S (Z.to_nat idx)) (S (Z.to_nat idx)))
        as [(d & Hrd & Hdsel)|(_ & Hup)].
      * apply lookup_lt_Some in Hlook. lia.
      * replace (Z.of_nat (S (Z.to_nat idx))) with (idx + 1) in Hrd by lia.
        apply Hgoal; [|done..]. by apply (selection_sound_place s sel1 _ d).
      * exfalso. destruct (decide (j < Z.to_nat idx)%nat) as [Hlt|Hge].
        { rewrite (Hdown j d' Hlt Hj) in Hd'. done. }
        destruct (decide (j = Z.to_nat idx)) as [->|Hne].
        { rewrite Hlook in Hj. injection Hj as <-. by rewrite Hoff in Hd'. }
        rewrite (Hup j d') in Hd'; [done|lia|done].
  - destruct (Z.eqb_spec (amount_selected sel1) 0) as [Hzero|Hleft].
    + apply Hgoal; [|done..]. split_and!.
      * exact Hc1.
      * cbn [amount_selected set_selected_dive]. lia.
      * done.
    + apply Hgoal; [|done..].
      assert (Hpos1 : 0 < amount_selected sel1).
      { pose proof (count_selected_bounds sel1 (dive_table s)).
        unfold selection_counted in Hc1. lia. }
      assert (Hidx : selected_dive sel ≠ idx).
      { intros Heq. rewrite Hsd1, Heq, Z.eqb_refl in Hcond.
        cbn [andb] in Hcond. apply Z.gtb_lt in Hpos1. congruence. }
      destruct Hplace as (d0 & Hd0 & Hd0sel); [lia|].
      split_and!; [exact Hc1| |intros; lia].
      intros _. exists d0. split; [done|]. rewrite Hother; [done|].
      intros ->. destruct (get_dive_lookup _ _ _ Hd0) as (Hpos0 & Hlook0).
      pose proof (NoDup_lookup _ _ _ _ Hnd Hlook Hlook0). lia.
Qed.

Lemma two_of_three_sound : selection_sound (three_dives 1000) two_of_three.
Proof.
  split_and!.
  - by vm_compute.
  - intros _. by exists 1%nat.
  - cbn. lia.
Qed.

Lemma three_dives_table_NoDup : NoDup (dive_table (three_dives 1000)).
Proof. apply NoDup_seq. Qed.

Lemma select_dive_keeps_selection_sound_witness :
  selection_sound (three_dives 1000) (select_dive (three_dives 1000) 0 two_of_three) ∧
  selected (select_dive (three_dives 1000) 0 two_of_three) 0%nat = true ∧
  (∀ y, y ≠ 0%nat →
        selected (select_dive (three_dives 1000) 0 two_of_three) y = selected two_of_three y) ∧
  amount_selected (select_dive (three_dives 1000) 0 two_of_three) = 2 + 1 ∧
  selected_dive (select_dive (three_dives 1000) 0 two_of_three) = 0.
Proof.
  apply (select_dive_keeps_selection_sound (three_dives 1000) 0 two_of_three).
  - exact three_dives_table_NoDup.
  - by vm_compute.
  - exact two_of_three_sound.
Defined.

Lemma deselect_dive_keeps_selection_sound_witness :
  selection_sound (three_dives 1000) (deselect_dive (three_dives 1000) 1 two_of_three) ∧
  selected (deselect_dive (three_dives 1000) 1 two_of_three) 1%nat = false ∧
  (∀ y, y ≠ 1%nat →
        selected (deselect_dive (three_dives 1000) 1 two_of_three) y
        = selected two_of_three y) ∧
  amount_selected (deselect_dive (three_dives 1000) 1 two_of_three) = 2 - 1.
Proof.
  apply (deselect_dive_keeps_selection_sound (three_dives 1000) 1 two_of_three).
  - exact three_dives_table_NoDup.
  - by vm_compute.
  - exact two_of_three_sound.
Defined.

(* ===================================================================== *)
(** * active_o2 *)
(* ===================================================================== *)

Lemma gas_changes_until_later events time :
  Forall (λ e, time < ev_time e) events → gas_changes_until events time = [].
Proof.
  induction 1 as [|ev events Hev _ IH]; [done|].
  unfold gas_changes_until in *. rewrite filter_cons_False; [done|].
  replace (ev_time ev <=? time) with false; [done|]. symmetry. apply Z.leb_gt. lia.
Qed.

Lemma active_o2_loop_last events time : ∀ base,
  events_in_time_order events →
  active_o2_loop events time base
  = match last (gas_changes_until events time) with
    | Some ev => 10 * Z.land (ev_value ev) 65535
    | None => base
    end.
Proof.
  induction events as [|ev events IH]; intros base Hord; [done|].
  destruct Hord as (Hev & Hord). cbn [active_o2_loop].
  destruct (Z.gtb_spec (ev_time ev) time) as [Hlate|Hearly].
  - rewrite gas_changes_until_later; [done|]. apply Forall_cons_2; [lia|].
    eapply Forall_impl; [exact Hev|]. intros e He. cbn beta in He. lia.
  - unfold gas_changes_until in *.
    destruct (String.eqb (ev_name ev) "gaschange") eqn:Hname; cbn [negb].
    + rewrite filter_cons_True.
      2: { rewrite Hname, andb_true_r. apply Z.leb_le. lia. }
      rewrite IH by done. rewrite last_cons.
      by destruct (last (filter _ events)).
    + rewrite filter_cons_False; [by apply IH|].
      rewrite Hname, andb_false_r. done.
Qed.

Section ActiveO2Facts.
Context `{DiveParams}.

(** For events that follow each other in time, active_o2 gives the oxygen
    of the last gas change up to the time asked for: ten times the low 16
    bits of the value of the event, also where that is 0.  Before the
    first gas change it gives the oxygen of the first cylinder, with air
    for a cylinder whose oxygen is not set. *)
Theorem active_o2_last_gas_change dive cyl cyls events time :
  events_in_time_order events →
  cylinder dive = cyl :: cyls →
  active_o2 dive events time
  = Some (match last (gas_changes_until events time) with
          | Some ev => 10 * Z.land (ev_value ev) 65535
          | None => effective_o2 cyl
          end).
Proof.
  intros Hord Hcyl. unfold active_o2. rewrite Hcyl.
  by rewrite active_o2_loop_last.
Qed.

End ActiveO2Facts.

Lemma active_o2_last_gas_change_witness :
  @active_o2 (example_params 7200)
    {| when := 1000; duration := 3600; location := None;
       cylinder := [{| cyl_size := 12000; cyl_gasmix := {| o2 := 0; he := 0 |};
                       cyl_start := 200000; cyl_end := 50000;
                       cyl_sample_start := 0; cyl_sample_end := 0 |}];
       dc := no_dc; tripflag := TF_NONE; divetrip := None; next := None; pprev := None |}
    [{| ev_time := 60; ev_name := "gaschange"; ev_value := 32 |};
     {| ev_time := 600; ev_name := "ascent"; ev_value := 0 |};
     {| ev_time := 1200; ev_name := "gaschange"; ev_value := 65536 * 3 + 50 |};
     {| ev_time := 1800; ev_name := "gaschange"; ev_value := 100 |}]
    1500
  = Some 500.
Proof.
  apply (@active_o2_last_gas_change (example_params 7200) _
           {| cyl_size := 12000; cyl_gasmix := {| o2 := 0; he := 0 |};
              cyl_start := 200000; cyl_end := 50000;
              cyl_sample_start := 0; cyl_sample_end := 0 |} []).
  - cbn [events_in_time_order]. split_and!; [..|done];
      repeat first [apply Forall_nil_2 | apply Forall_cons_2; [cbn; lia|]].
  - reflexivity.
Defined.

(* ===================================================================== *)
(** * fill_dive_list *)
(* ===================================================================== *)

Lemma places_of_step s t j :
  (j < length (dive_table s))%nat →
  places_of s t j
  = places_of s t (S j) ++ (if decide (trip_at s j = t) then [j] else []).
Proof.
  intros Hj. unfold places_of.
  replace (length (dive_table s) - j)%nat with (S (length (dive_table s) - S j)) by lia.
  cbn [seq]. by rewrite reverse_cons, filter_app.
Qed.

Lemma places_of_end s t : places_of s t (length (dive_table s)) = [].
Proof. unfold places_of. by rewrite Nat.sub_diag. Qed.

Lemma places_of_elem s t i j :
  j ∈ places_of s t i ↔ (i <= j < length (dive_table s))%nat ∧ trip_at s j = t.
Proof.
  unfold places_of. rewrite list_elem_of_filter, elem_of_reverse, elem_of_seq. intuition lia.
Qed.

Lemma places_of_step_nonempty s t j :
  (j < length (dive_table s))%nat →
  places_of s t (S j) ≠ [] ∨ trip_at s j = t →
  places_of s t j ≠ [].
Proof.
  intros Hj Hor. rewrite (places_of_step s t j Hj). intros Hnil.
  apply app_eq_nil in Hnil as (Hnil1 & Hnil2). destruct Hor as [Hne|Heq]; [done|].
  by rewrite decide_True in Hnil2.
Qed.

Lemma trip_node_step_other s j t :
  (j < length (dive_table s))%nat → trip_at s j ≠ Some t →
  trip_node s j t = trip_node s (S j) t.
Proof.
  intros Hj Hne. unfold trip_node. rewrite (places_of_step s (Some t) j Hj).
  rewrite decide_False by done. by rewrite app_nil_r.
Qed.

Lemma trip_node_step_own s j t :
  (j < length (dive_table s))%nat → trip_at s j = Some t →
  trip_node s j t
  = set_node_children (trip_node s (S j) t)
      (node_children (trip_node s (S j) t) ++ [table_row s j]).
Proof.
  intros Hj Heq. unfold trip_node, set_node_children. cbn [node_row node_children].
  rewrite (places_of_step s (Some t) j Hj), decide_True by done.
  by rewrite fmap_app.
Qed.

Lemma trip_at_same s s' j :
  heap_dives s' = heap_dives s → dive_table s' = dive_table s →
  trip_at s' j = trip_at s j.
Proof. intros Hd Ht. unfold trip_at. by rewrite Hd, Ht. Qed.

Lemma table_row_same s s' j :
  heap_dives s' = heap_dives s → dive_table s' = dive_table s →
  table_row s' j = table_row s j.
Proof. intros Hd Ht. unfold table_row, dive_when. by rewrite Hd, Ht. Qed.

Lemma places_of_same s s' t i :
  heap_dives s' = heap_dives s → dive_table s' = dive_table s →
  places_of s' t i = places_of s t i.
Proof. intros Hd Ht. unfold places_of, trip_at. by rewrite Hd, Ht. Qed.

Lemma group_node_same s s' i g :
  heap_dives s' = heap_dives s → dive_table s' = dive_table s →
  (∀ t, g = inl t → trip_start s' t = trip_start s t ∧ index_of s' t = index_of s t) →
  group_node s' i g = group_node s i g.
Proof.
  intros Hd Ht Hg. destruct g as [t|j]; cbn [group_node].
  - destruct (Hg t eq_refl) as (Hst & Hidx). unfold trip_node.
    rewrite Hst, Hidx, (places_of_same s s' _ _ Hd Ht). f_equal.
    apply list_fmap_ext. intros _ j _. by apply table_row_same.
  - unfold dive_node. by rewrite (table_row_same s s' j Hd Ht).
Qed.

Lemma fmap_group_node_same s s' i i' (groups : list (trip_ptr + nat)) :
  (∀ g, g ∈ groups → group_node s' i' g = group_node s i g) →
  group_node s' i' <$> groups = group_node s i <$> groups.
Proof.
  intros Hg. apply list_fmap_ext. intros k g Hk. apply Hg.
  by eapply list_elem_of_lookup_2.
Qed.

Lemma table_row_dive_row s j d dv :
  dive_table s !! j = Some d → heap_dives s !! d = Some dv →
  table_row s j = dive_row (Z.of_nat j) dv.
Proof. intros Hj Hd. unfold table_row, dive_row, dive_when. rewrite Hj. cbn. by rewrite Hd. Qed.

Lemma trip_at_lookup s j d dv :
  dive_table s !! j = Some d → heap_dives s !! d = Some dv →
  trip_at s j = divetrip dv.
Proof. intros Hj Hd. unfold trip_at. by rewrite Hj, Hd. Qed.

Lemma lookup_top_row_found (groups : list (trip_ptr + nat)) f p g idx :
  groups !! p = Some g →
  DIVE_INDEX (node_row (f g)) = idx →
  (∀ q g', groups !! q = Some g' → DIVE_INDEX (node_row (f g')) = idx → q = p) →
  lookup_top_row (f <$> groups) idx = Some p.
Proof.
  intros Hp Hidx Hone. unfold lookup_top_row.
  assert (list_find (λ n, DIVE_INDEX (node_row n) = idx) (f <$> groups) = Some (p, f g))
    as ->; [|done].
  apply list_find_Some. split_and!.
  - by rewrite list_lookup_fmap, Hp.
  - done.
  - intros q y Hq Hlt Hy. rewrite list_lookup_fmap in Hq.
    destruct (groups !! q) as [g'|] eqn:Hg'; [|done]. cbn in Hq. injection Hq as <-.
    pose proof (Hone q g' Hg' Hy). lia.
Qed.

Lemma fill_dive_list_turn s0 j s ti groups lst :
  fill_inv s0 (S j) s ti groups lst →
  (j < length (dive_table s0))%nat →
  ∃ s' ti' groups' lst',
    fill_dive_list_loop (S j) ti (group_node s (S j) <$> groups) lst s
    = fill_dive_list_loop j ti' (group_node s' j <$> groups') lst' s' ∧
    fill_inv s0 j s' ti' groups' lst'.
Proof.
  intros [Hwf HR HM Hst HD Htab Hbut Hti Hnd Htrips Hrange Hinj Hloose Hunseen Hlst Hseen] Hj.
  destruct (lookup_lt_is_Some_2 (dive_table s) j) as [d Hd]; [by rewrite Htab|].
  destruct (rep_table _ _ _ Hwf d) as [dv Hdv]; [by eapply list_elem_of_lookup_2|].
  assert (Hj' : (j < length (dive_table s))%nat) by (by rewrite Htab).
  assert (Hat : trip_at s j = divetrip dv) by (by apply (trip_at_lookup s j d dv)).
  assert (Hat0 : trip_at s0 j = divetrip dv)
    by (by rewrite <- (trip_at_same s0 s j HD Htab)).
  assert (Hrow : table_row s j = dive_row (Z.of_nat j) dv)
    by (by apply (table_row_dive_row s j d dv)).
  assert (Hrow0 : table_row s0 j = dive_row (Z.of_nat j) dv)
    by (by rewrite <- (table_row_same s0 s j HD Htab)).
  assert (Hlst' : lst ++ [dive_row (Z.of_nat j) dv]
                  = table_row s0 <$> reverse (seq j (length (dive_table s0) - j))).
  { replace (length (dive_table s0) - j)%nat with (S (length (dive_table s0) - S j)) by lia.
    cbn [seq]. by rewrite reverse_cons, fmap_app, Hlst, <- Hrow0. }
  cbn [fill_dive_list_loop]. unfold get_state at 1. unfold bind at 1.
  rewrite get_dive_nat, Hd. rewrite (run_bind _ _ _ _ _ (run_load_dive _ _ _ Hdv)).
  unfold fill_dive_list_parent. destruct (divetrip dv) as [trip|] eqn:Htrip.
  - (* the dive has a trip *)
    destruct (rep_divetrip _ _ _ Hwf d dv trip Hdv Htrip) as (Hreg & Hmem).
    rewrite HR in Hreg.
    destruct (tseg_valid _ _ _ _ trip (rep_trips _ _ _ Hwf)) as [tr Htr]; [by rewrite HR|].
    unfold bind at 1. rewrite (run_bind _ _ _ _ _ (run_load_trip _ _ _ Htr)).
    assert (Hidx : index_of s trip = Some (trip_index tr))
      by (unfold index_of; by rewrite Htr).
    destruct (Z.eqb_spec (trip_index tr) 0) as [Hzero|Hnonzero].
    + (* a new trip entry *)
      set (f := λ tr : dive_trip_t, set_trip_index tr (ti + 1)).
      rewrite (run_bind _ _ _ _ _ (run_modify_trip _ _ _ f Htr)).
      set (s' := set_heap_trips s (alter f trip (heap_trips s))).
      destruct (alter_trip_views s trip f) as (Hwf' & HR' & HM' & Hst' & _); [done..|].
      fold s' in Hwf', HR', HM', Hst'.
      assert (Hidx' : ∀ t, index_of s' t
                = if decide (trip = t) then Some (ti + 1) else index_of s t).
      { intros t. unfold s'. rewrite index_of_alter.
        destruct (decide (trip = t)); [|done]. by rewrite Htr. }
      assert (Hnotin : inl trip ∉ groups).
      { intros Hin. apply Htrips in Hin as (_ & Hin). rewrite Hidx, Hzero in Hin. done. }
      exists s', (ti + 1), (groups ++ [inl trip]), (lst ++ [dive_row (Z.of_nat j) dv]).
      split.
      * unfold ret at 1. cbv iota beta. f_equal.
        rewrite length_fmap. unfold tree_store_append.
        rewrite <- (Nat.add_0_r (length groups)) at 1.
        rewrite <- (length_fmap (group_node s (S j)) groups) at 1.
        rewrite alter_app_r. cbn [alter list_alter]. rewrite fmap_app. f_equal.
        -- symmetry. apply fmap_group_node_same. intros g Hg.
           destruct g as [t|j0]; cbn [group_node]; [|done].
           assert (t ≠ trip) by (intros ->; done).
           rewrite trip_node_step_other;
             [|done|rewrite (trip_at_same s s' j) by done; rewrite Hat; congruence].
           change (group_node s' (S j) (inl t) = group_node s (S j) (inl t)).
           apply group_node_same; [done..|]. intros t0 [= <-]. split; [done|].
           rewrite Hidx'. by rewrite decide_False.
        -- cbn [fmap list_fmap group_node]. f_equal.
           rewrite (trip_node_step_own s' j trip); [|done|].
           2: { rewrite (trip_at_same s s' j) by done. by rewrite Hat. }
           unfold trip_node, set_node_children. cbn [node_row node_children].
           rewrite (places_of_same s0 s' (Some trip) (S j)) by done.
           rewrite (Hunseen trip Hreg) by (by rewrite Hidx, Hzero).
           rewrite Hidx', decide_True by done. cbn [default from_option fmap list_fmap app].
           rewrite (table_row_same s s' j) by done. rewrite Hrow.
           rewrite Hst'. unfold trip_start. by rewrite Htr.
      * split.
        -- done.
        -- by rewrite HR'.
        -- intros t. by rewrite HM'.
        -- intros t. by rewrite Hst'.
        -- done.
        -- done.
        -- rewrite <- Hbut. unfold s'. cbn [heap_trips set_heap_trips].
           apply fmap_alter_same. done.
        -- lia.
        -- apply NoDup_app. split_and!; [done| |apply NoDup_singleton].
           intros g Hg Hg'. apply list_elem_of_singleton in Hg' as ->. done.
        -- intros t. rewrite elem_of_app, list_elem_of_singleton, Htrips, Hidx'.
           destruct (decide (trip = t)) as [<-|Hne].
           ++ split; [intros _; split; [done|intros [=]; lia]|by right].
           ++ split; [intros [?|[= ->]]; done|by left].
        -- intros t Ht. rewrite Hidx'. destruct (decide (trip = t)) as [<-|Hne].
           ++ exists (ti + 1). split; [done|lia].
           ++ destruct (Hrange t Ht) as (k & Hk & Hkr). exists k. split; [done|lia].
        -- intros t t' k Ht Ht'. rewrite !Hidx'.
           destruct (decide (trip = t)) as [<-|Hne], (decide (trip = t')) as [<-|Hne'];
             intros Hk Hk' Hk0.
           ++ done.
           ++ destruct (Hrange t' Ht') as (k' & Hk'' & Hkr). simplify_eq. lia.
           ++ destruct (Hrange t Ht) as (k' & Hk'' & Hkr). simplify_eq. lia.
           ++ by apply (Hinj t t' k).
        -- intros j0. rewrite elem_of_app, list_elem_of_singleton, Hloose. split.
           ++ intros [(Hr & Hn)|[=]]. split; [lia|done].
           ++ intros (Hr & Hn). left. split; [|done].
              destruct (decide (j0 = j)) as [->|?]; [|lia]. congruence.
        -- intros t Ht. rewrite Hidx'. destruct (decide (trip = t)) as [<-|Hne];
             [intros [=]; lia|]. intros Hz.
           rewrite (places_of_step s0 (Some t) j Hj), (Hunseen t Ht Hz).
           rewrite decide_False; [done|]. rewrite Hat0. congruence.
        -- done.
        -- intros t Hin. apply places_of_step_nonempty; [done|].
           apply elem_of_app in Hin as [Hin|Hin]; [left; by apply Hseen|].
           apply list_elem_of_singleton in Hin as [= ->]. by right.
    + (* the trip has its entry *)
      assert (Hin : inl trip ∈ groups).
      { apply Htrips. split; [done|]. rewrite Hidx. congruence. }
      apply list_elem_of_lookup in Hin as (p & Hp).
      destruct (Hrange trip Hreg) as (k & Hk & Hkr).
      rewrite Hidx in Hk. injection Hk as Hk.
      assert (Hfound : lookup_top_row (group_node s (S j) <$> groups) (- trip_index tr)
                       = Some p).
      { apply (lookup_top_row_found groups _ p (inl trip)); [done| |].
        - cbn [group_node trip_node node_row DIVE_INDEX]. by rewrite Hidx.
        - intros q g' Hq Hg'. destruct g' as [t|j0].
          + cbn [group_node trip_node node_row DIVE_INDEX] in Hg'.
            assert (Ht : t ∈ registry s0).
            { apply (Htrips t). by eapply list_elem_of_lookup_2. }
            destruct (Hrange t Ht) as (k' & Hk' & _). rewrite Hk' in Hg'. cbn in Hg'.
            assert (t = trip) as ->.
            { apply (Hinj t trip (trip_index tr)); [done|done| |done|done].
              rewrite Hk'. f_equal. lia. }
            by apply (NoDup_lookup groups q p (inl trip)).
          + cbn [group_node dive_node node_row table_row DIVE_INDEX] in Hg'. lia. }
      exists s, ti, groups, (lst ++ [dive_row (Z.of_nat j) dv]). split.
      * unfold ret at 1. cbv iota beta. rewrite Hfound. f_equal.
        unfold tree_store_append. apply list_eq. intros q.
        rewrite !list_lookup_fmap. destruct (decide (q = p)) as [->|Hne].
        -- rewrite list_lookup_alter_eq, list_lookup_fmap, Hp. cbn [fmap option_fmap option_map group_node].
           f_equal. rewrite (trip_node_step_own s j trip); [|done|by rewrite Hat].
           by rewrite Hrow.
        -- rewrite list_lookup_alter_ne by done. rewrite list_lookup_fmap.
           destruct (groups !! q) as [g|] eqn:Hq; [|done]. cbn [fmap option_fmap option_map].
           f_equal. destruct g as [t|j0]; cbn [group_node]; [|done].
           symmetry. apply trip_node_step_other; [done|]. rewrite Hat. intros [= ->].
           apply Hne. by apply (NoDup_lookup groups q p (inl t)).
      * split; [done..| | |done|].
        -- intros j0. rewrite Hloose. split.
           ++ intros (Hr & Hn). split; [lia|done].
           ++ intros (Hr & Hn). split; [|done].
              destruct (decide (j0 = j)) as [->|?]; [|lia]. congruence.
        -- intros t Ht Hz.
           rewrite (places_of_step s0 (Some t) j Hj), (Hunseen t Ht Hz).
           rewrite decide_False; [done|]. rewrite Hat0. intros [= ->].
           rewrite Hidx in Hz. by injection Hz.
        -- intros t Hin. apply places_of_step_nonempty; [done|]. left. by apply Hseen.
  - (* the dive has no trip *)
    exists s, ti, (groups ++ [inr j]), (lst ++ [dive_row (Z.of_nat j) dv]). split.
    + unfold ret at 1. unfold bind at 1. cbv iota beta. f_equal.
      unfold tree_store_append. rewrite fmap_app. f_equal.
      * symmetry. apply fmap_group_node_same. intros g Hg.
        destruct g as [t|j0]; cbn [group_node]; [|done].
        apply trip_node_step_other; [done|]. by rewrite Hat.
      * cbn [fmap list_fmap group_node]. unfold dive_node. by rewrite Hrow.
    + split; [done|done|done|done|done|done|done|done| | |done|done| | |done|].
      * apply NoDup_app. split_and!; [done| |apply NoDup_singleton].
        intros g Hg Hg'. apply list_elem_of_singleton in Hg' as ->.
        apply Hloose in Hg as (Hr & _). lia.
      * intros t. rewrite elem_of_app, list_elem_of_singleton, Htrips.
        split; [intros [?|[=]]; done|by left].
      * intros j0. rewrite elem_of_app, list_elem_of_singleton, Hloose. split.
        -- intros [(Hr & Hn)|[= ->]]; [split; [lia|done]|]. split; [lia|done].
        -- intros (Hr & Hn). destruct (decide (j0 = j)) as [->|?]; [by right|].
           left. split; [lia|done].
      * intros t Ht Hz. rewrite (places_of_step s0 (Some t) j Hj), (Hunseen t Ht Hz).
        rewrite decide_False; [done|]. by rewrite Hat0.
      * intros t Hin. apply places_of_step_nonempty; [done|]. left. apply Hseen.
        apply elem_of_app in Hin as [Hin|Hin]; [done|].
        by apply list_elem_of_singleton in Hin.
Qed.

Lemma fill_dive_list_loop_spec s0 : ∀ i s ti groups lst,
  (i <= length (dive_table s0))%nat →
  fill_inv s0 i s ti groups lst →
  ∃ s' ti' groups' lst',
    fill_dive_list_loop i ti (group_node s i <$> groups) lst s
    = Ok (group_node s' 0 <$> groups', lst') s' ∧
    fill_inv s0 0 s' ti' groups' lst'.
Proof.
  induction i as [|j IH]; intros s ti groups lst Hi Hinv.
  - by exists s, ti, groups, lst.
  - destruct (fill_dive_list_turn s0 j s ti groups lst Hinv) as
      (s1 & ti1 & groups1 & lst1 & Hturn & Hinv1); [lia|].
    destruct (IH s1 ti1 groups1 lst1) as (s' & ti' & groups' & lst' & Hrun & Hinv');
      [lia|done|].
    exists s', ti', groups', lst'. split; [|done]. by rewrite Hturn.
Qed.

(** The invariant when the loop is entered, in a store whose trips have
    the index 0. *)
Lemma fill_inv_start s0 :
  well_formed s0 →
  (∀ t, t ∈ registry s0 → index_of s0 t = Some 0) →
  fill_inv s0 (length (dive_table s0)) s0 0 [] [].
Proof.
  intros Hwf Hzero. split; try done.
  - apply NoDup_nil_2.
  - intros t. split; [intros Hin; by apply elem_of_nil in Hin|].
    intros (Ht & Hne). by rewrite (Hzero t Ht) in Hne.
  - intros t Ht. exists 0. split; [by apply Hzero|lia].
  - intros t t' k Ht _ Hk _ Hk0. rewrite (Hzero t Ht) in Hk. congruence.
  - intros j. split; [intros Hin; by apply elem_of_nil in Hin|]. intros (? & _). lia.
  - intros t _ _. apply places_of_end.
  - by rewrite Nat.sub_diag.
  - intros t Hin. by apply elem_of_nil in Hin.
Qed.

(** The invariant does not depend on the indices the trips had before they
    were cleared. *)
Lemma fill_inv_base s0 s i s' ti groups lst :
  registry s0 = registry s →
  (∀ t, members s0 t = members s t) →
  (∀ t, trip_start s0 t = trip_start s t) →
  heap_dives s0 = heap_dives s →
  dive_table s0 = dive_table s →
  trip_but_index <$> heap_trips s0 = trip_but_index <$> heap_trips s →
  fill_inv s0 i s' ti groups lst →
  fill_inv s i s' ti groups lst.
Proof.
  intros HR HM Hst HD Htab Hbut
    [Hwf HR' HM' Hst' HD' Htab' Hbut' Hti Hnd Htrips Hrange Hinj Hloose Hunseen Hlst Hseen].
  assert (Hat : ∀ j, trip_at s0 j = trip_at s j) by (intros j; by apply trip_at_same).
  assert (Hpl : ∀ t k, places_of s0 t k = places_of s t k)
    by (intros t k; by apply places_of_same).
  split; [done|congruence| | |congruence|congruence|congruence|done|done| | | | | | |].
  - intros t. by rewrite HM', HM.
  - intros t. by rewrite Hst', Hst.
  - intros t. by rewrite Htrips, HR.
  - intros t Ht. apply Hrange. by rewrite HR.
  - intros t t' k Ht Ht'. apply Hinj; by rewrite HR.
  - intros j. by rewrite Hloose, Htab, Hat.
  - intros t Ht Hz. rewrite <- Hpl. apply Hunseen; [by rewrite HR|done].
  - rewrite Hlst, Htab. apply list_fmap_ext. intros _ j _. by apply table_row_same.
  - intros t Hin. rewrite <- Hpl. by apply Hseen.
Qed.

Section FillDiveListFacts.
Context `{DiveParams}.

(** fill_dive_list on empty stores, after the grouping it starts with. *)
Lemma dive_list_update_dives_spec (autogroup : bool) s_in s :
  (if autogroup then autogroup_dives else ret tt) s_in = Ok tt s →
  well_formed s →
  ∃ s' ti groups lst,
    dive_list_update_dives autogroup s_in
    = Ok (group_node s' 0 <$> groups, lst) s' ∧
    fill_inv s 0 s' ti groups lst.
Proof.
  intros Hgroup Hwf.
  pose proof (rep_trips _ _ _ Hwf) as Hseg.
  pose proof (rep_trips_nodup _ _ _ Hwf) as Hnd.
  destruct (run_clear_trip_indexes_loop (registry s) s (trip_fuel s) (dive_trip_list s)
              Hwf Hseg Hnd)
    as (s0 & Hclear & Hwf0 & HR0 & HM0 & Hst0 & _ & HD0 & Htab0 & Hbut0 & Hin0 & _).
  { pose proof (tseg_length _ _ _ _ Hseg Hnd). unfold trip_fuel. lia. }
  destruct (fill_dive_list_loop_spec s0 (length (dive_table s0)) s0 0 [] [])
    as (s' & ti & groups & lst & Hrun & Hinv); [done| |].
  { apply fill_inv_start; [done|]. intros t Ht. apply Hin0. by rewrite <- HR0. }
  exists s', ti, groups, lst. split.
  - unfold dive_list_update_dives, fill_dive_list.
    rewrite (run_bind _ _ _ _ _ Hgroup).
    unfold clear_trip_indexes. unfold bind at 1. unfold get_state at 1. unfold bind at 1.
    rewrite Hclear. unfold get_state at 1. unfold bind at 1. exact Hrun.
  - by apply (fill_inv_base s0 s).
Qed.

End FillDiveListFacts.

Lemma newest_first_places s (P : nat → Prop) `{∀ j, Decision (P j)} i : ∀ n,
  table_in_time_order s →
  (i + n <= length (dive_table s))%nat →
  newest_first (table_row s <$> filter P (reverse (seq i n))).
Proof.
  induction n as [|n IH]; intros Hord Hn; [done|].
  rewrite seq_S, reverse_snoc, filter_cons.
  destruct (decide (P (i + n)%nat)) as [HP|HP]; [|apply IH; [done|lia]].
  cbn [fmap list_fmap newest_first]. split; [|apply IH; [done|lia]].
  apply Forall_fmap, Forall_forall. intros j Hj. cbn.
  apply list_elem_of_filter in Hj as (_ & Hj). apply elem_of_reverse, elem_of_seq in Hj.
  destruct (lookup_lt_is_Some_2 (dive_table s) j) as [dj Hdj]; [lia|].
  destruct (lookup_lt_is_Some_2 (dive_table s) (i + n)) as [dn Hdn]; [lia|].
  rewrite Hdj, Hdn. cbn. apply (Hord j (i + n)%nat); [lia|done..].
Qed.

Lemma rows_of_places s (l : list nat) :
  (∀ j, j ∈ l → (j < length (dive_table s))%nat) →
  rows_of_dives s (table_row s <$> l) ((λ j, default 0%nat (dive_table s !! j)) <$> l).
Proof.
  intros Hl. unfold rows_of_dives. apply Forall2_fmap, Forall_Forall2_diag, Forall_forall.
  intros j Hj. destruct (lookup_lt_is_Some_2 (dive_table s) j) as [d Hd]; [by apply Hl|].
  cbn [table_row DIVE_INDEX DIVE_DATE]. rewrite get_dive_nat, Hd. done.
Qed.

Lemma NoDup_places s t i : NoDup (places_of s t i).
Proof.
  apply NoDup_filter. rewrite reverse_Permutation. apply NoDup_seq.
Qed.

(** The dives at the places of a trip are the members of the trip, when
    the table holds every member and no dive twice. *)
Lemma places_members s t :
  well_formed s →
  NoDup (dive_table s) →
  (∀ d, d ∈ members s t → d ∈ dive_table s) →
  (λ j, default 0%nat (dive_table s !! j)) <$> places_of s (Some t) 0 ≡ₚ members s t.
Proof.
  intros Hwf Hnd Hin. apply NoDup_Permutation.
  - apply NoDup_fmap_2_strong; [|apply NoDup_places].
    intros j j' Hj Hj' Heq. apply places_of_elem in Hj as (Hj & _), Hj' as (Hj' & _).
    destruct (lookup_lt_is_Some_2 (dive_table s) j) as [d Hd]; [lia|].
    destruct (lookup_lt_is_Some_2 (dive_table s) j') as [d' Hd']; [lia|].
    rewrite Hd, Hd' in Heq. cbn in Heq. subst d'. by apply (NoDup_lookup _ _ _ d Hnd).
  - destruct (heap_trips s !! t) as [tr|] eqn:Htr.
    + by destruct (rep_members _ _ _ Hwf t tr Htr) as (_ & ? & _).
    + rewrite (rep_no_trip _ _ _ Hwf t Htr). apply NoDup_nil_2.
  - intros d. rewrite list_elem_of_fmap. split.
    + intros (j & -> & Hj). apply places_of_elem in Hj as (Hj & Hat).
      unfold trip_at in Hat. destruct (dive_table s !! j) as [d|] eqn:Hd; [|done].
      destruct (heap_dives s !! d) as [dv|] eqn:Hdv; [|done]. cbn.
      by destruct (rep_divetrip _ _ _ Hwf d dv t Hdv Hat).
    + intros Hd. destruct (rep_members_trip _ _ _ _ _ Hwf Hd) as (dv & Hdv & Ht).
      apply Hin, list_elem_of_lookup in Hd as (j & Hj). exists j. split.
      * by rewrite Hj.
      * apply places_of_elem. split; [apply lookup_lt_Some in Hj; lia|].
        unfold trip_at. by rewrite Hj, Hdv.
Qed.

Section FillDiveListTheorems.
Context `{DiveParams}.

(** dive_list_update_dives, after the grouping it may start with, returns
    in a well-formed store with the same trips, members and dives.  When
    the table holds every member of every trip and no dive twice, each
    trip that has a member is shown by one top-level row of the tree
    store: the row has the start of the trip as its date, the negated
    index of the trip as its DIVE_INDEX, which no other top-level row has,
    and the rows of the members of the trip as its children.  If the dives
    of the table follow each other in time, the children are in time
    order, the newest first. *)
Theorem dive_list_update_dives_shows_trips (autogroup : bool) s_in s :
  (if autogroup then autogroup_dives else ret tt) s_in = Ok tt s →
  well_formed s →
  NoDup (dive_table s) →
  (∀ t d, t ∈ registry s → d ∈ members s t → d ∈ dive_table s) →
  ∃ s' tree lst,
    dive_list_update_dives autogroup s_in = Ok (tree, lst) s' ∧
    well_formed s' ∧
    registry s' = registry s ∧
    (∀ t, members s' t = members s t) ∧
    (∀ t, trip_start s' t = trip_start s t) ∧
    heap_dives s' = heap_dives s ∧
    dive_table s' = dive_table s ∧
    ∀ t, t ∈ registry s → members s t ≠ [] →
      ∃ p parent ds,
        tree !! p = Some parent ∧
        shows_trip s' parent t ds ∧
        index_of s' t = Some (- DIVE_INDEX (node_row parent)) ∧
        DIVE_INDEX (node_row parent) < 0 ∧
        (∀ q node, tree !! q = Some node →
                   DIVE_INDEX (node_row node) = DIVE_INDEX (node_row parent) → q = p) ∧
        (table_in_time_order s → newest_first (node_children parent)).
Proof.
  intros Hgroup Hwf Hnd Hall.
  destruct (dive_list_update_dives_spec autogroup s_in s Hgroup Hwf)
    as (s' & ti & groups & lst & Hrun &
        [Hwf' HR HM Hst HD Htab Hbut Hti Hndg Htrips Hrange Hinj Hloose Hunseen Hlst Hseen]).
  exists s', (group_node s' 0 <$> groups), lst.
  split_and!; [done..|]. intros t Ht Hmem.
  assert (Hplaces : places_of s (Some t) 0 ≠ []).
  { destruct (members s t) as [|d ds] eqn:Hm; [done|].
    assert (Hd : d ∈ members s t) by (rewrite Hm; apply elem_of_cons; by left).
    pose proof (places_members s t Hwf Hnd (λ d, Hall t d Ht)) as Hperm.
    intros Hnil. rewrite Hnil in Hperm. cbn in Hperm. rewrite Hm in Hperm.
    by apply Permutation_nil_cons in Hperm. }
  destruct (Hrange t Ht) as (k & Hk & Hkr).
  assert (Hk0 : k ≠ 0).
  { intros ->. by apply Hplaces, Hunseen. }
  assert (Hin : inl t ∈ groups).
  { apply Htrips. split; [done|]. rewrite Hk. congruence. }
  apply list_elem_of_lookup in Hin as (p & Hp).
  exists p, (trip_node s' 0 t), ((λ j, default 0%nat (dive_table s' !! j)) <$> places_of s' (Some t) 0).
  assert (Hpl : places_of s' (Some t) 0 = places_of s (Some t) 0)
    by (by apply places_of_same).
  split_and!.
  - by rewrite list_lookup_fmap, Hp.
  - split.
    + by rewrite HR.
    + done.
    + apply rows_of_places. intros j Hj. apply places_of_elem in Hj as (Hj & _). lia.
    + apply places_members; [done|by rewrite Htab|].
      intros d Hd. rewrite Htab. apply (Hall t d Ht). by rewrite <- HM.
  - cbn [trip_node node_row DIVE_INDEX]. rewrite Hk. cbn. f_equal. lia.
  - cbn [trip_node node_row DIVE_INDEX]. rewrite Hk. cbn. lia.
  - intros q node Hq Hidx. rewrite list_lookup_fmap in Hq.
    destruct (groups !! q) as [g|] eqn:Hg; [|done]. cbn in Hq. injection Hq as <-.
    cbn [trip_node node_row DIVE_INDEX] in Hidx. rewrite Hk in Hidx. cbn in Hidx.
    destruct g as [t'|j].
    + cbn [group_node trip_node node_row DIVE_INDEX] in Hidx.
      assert (Ht' : t' ∈ registry s) by (apply (Htrips t'); by eapply list_elem_of_lookup_2).
      destruct (Hrange t' Ht') as (k' & Hk' & _). rewrite Hk' in Hidx. cbn in Hidx.
      assert (t' = t) as ->.
      { apply (Hinj t' t k); [done|done| |done|done]. rewrite Hk'. f_equal. lia. }
      by apply (NoDup_lookup groups q p (inl t)).
    + cbn [group_node dive_node node_row table_row DIVE_INDEX] in Hidx. lia.
  - intros Hord. cbn [trip_node node_children]. unfold places_of.
    apply newest_first_places; [|lia].
    intros i j di dj Hij Hi Hj. unfold dive_when. rewrite HD.
    rewrite Htab in Hi, Hj. exact (Hord i j di dj Hij Hi Hj).
Qed.

(** dive_list_update_dives, after the grouping it may start with, leaves
    these rows in the two stores.  The list store holds the rows of the
    dives of the table, the last place first.  The top-level rows of the
    tree store are one row for each trip that has a dive in the table,
    with the rows of those dives as its children, the last place first,
    and one row without children for each dive of the table that is in no
    trip.  Each trip with a row has an index above 0 that no other trip
    with a row has. *)
Theorem dive_list_update_dives_rows (autogroup : bool) s_in s :
  (if autogroup then autogroup_dives else ret tt) s_in = Ok tt s →
  well_formed s →
  ∃ s' tree lst groups,
    dive_list_update_dives autogroup s_in = Ok (tree, lst) s' ∧
    heap_dives s' = heap_dives s ∧
    dive_table s' = dive_table s ∧
    (∀ t, trip_start s' t = trip_start s t) ∧
    lst = table_row s <$> reverse (seq 0 (length (dive_table s))) ∧
    tree = group_node s' 0 <$> groups ∧
    NoDup groups ∧
    (∀ t, inl t ∈ groups ↔ ∃ j, (j < length (dive_table s))%nat ∧ trip_at s j = Some t) ∧
    (∀ j, inr j ∈ groups ↔ (j < length (dive_table s))%nat ∧ trip_at s j = None) ∧
    (∀ t, inl t ∈ groups → ∃ k, index_of s' t = Some k ∧ 0 < k) ∧
    (∀ t t', inl t ∈ groups → inl t' ∈ groups → index_of s' t = index_of s' t' → t = t').
Proof.
  intros Hgroup Hwf.
  destruct (dive_list_update_dives_spec autogroup s_in s Hgroup Hwf)
    as (s' & ti & groups & lst & Hrun &
        [Hwf' HR HM Hst HD Htab Hbut Hti Hndg Htrips Hrange Hinj Hloose Hunseen Hlst Hseen]).
  exists s', (group_node s' 0 <$> groups), lst, groups.
  assert (Hpos : ∀ t, inl t ∈ groups → ∃ k, index_of s' t = Some k ∧ 0 < k).
  { intros t Hin. apply Htrips in Hin as (Ht & Hne).
    destruct (Hrange t Ht) as (k & Hk & Hkr). exists k. split; [done|].
    destruct (decide (k = 0)) as [->|?]; [done|lia]. }
  split_and!; [done|done|done|done| |done|done| | |done|].
  - by rewrite Hlst, Nat.sub_0_r.
  - intros t. split.
    + intros Hin. apply Hseen in Hin.
      destruct (places_of s (Some t) 0) as [|j l] eqn:Hpl; [done|].
      assert (Hj : j ∈ places_of s (Some t) 0) by (rewrite Hpl; apply elem_of_cons; by left).
      apply places_of_elem in Hj as (Hj & Hat). exists j. split; [lia|done].
    + intros (j & Hj & Hat). apply Htrips.
      assert (Ht : t ∈ registry s).
      { unfold trip_at in Hat. destruct (dive_table s !! j) as [d|]; [|done].
        destruct (heap_dives s !! d) as [dv|] eqn:Hdv; [|done].
        by destruct (rep_divetrip _ _ _ Hwf d dv t Hdv Hat). }
      split; [done|]. intros Hz. pose proof (Hunseen t Ht Hz) as Hnil.
      assert (Hin : j ∈ places_of s (Some t) 0) by (apply places_of_elem; split; [lia|done]).
      rewrite Hnil in Hin. by apply elem_of_nil in Hin.
  - intros j. rewrite Hloose. split; intros (Hj & Hat); (split; [lia|done]).
  - intros t t' Hin Hin' Heq. destruct (Hpos t Hin) as (k & Hk & Hk0).
    apply Htrips in Hin as (Ht & _), Hin' as (Ht' & _).
    apply (Hinj t t' k); [done|done|done|congruence|lia].
Qed.

(** After dive_list_update_dives no trip of the registry has a negative
    index, while each top-level row with a negative DIVE_INDEX stands for
    the trip whose index is that number negated.  So find_trip_by_idx
    finds no trip, whatever row the index is taken from, and remove_trip
    returns without removing anything and leaves the stores as they are. *)
Theorem remove_trip_after_update_dives (autogroup : bool) s_in s :
  (if autogroup then autogroup_dives else ret tt) s_in = Ok tt s →
  well_formed s →
  ∃ s' tree lst,
    dive_list_update_dives autogroup s_in = Ok (tree, lst) s' ∧
    (∀ node, node ∈ tree → DIVE_INDEX (node_row node) < 0 →
             ∃ t, t ∈ registry s' ∧ node = trip_node s' 0 t ∧
                  index_of s' t = Some (- DIVE_INDEX (node_row node))) ∧
    (∀ idx, find_trip_by_idx idx s' = Ok None s') ∧
    (∀ again idx stores, remove_trip again idx stores s' = Ok stores s').
Proof.
  intros Hgroup Hwf.
  destruct (dive_list_update_dives_spec autogroup s_in s Hgroup Hwf)
    as (s' & ti & groups & lst & Hrun &
        [Hwf' HR HM Hst HD Htab Hbut Hti Hndg Htrips Hrange Hinj Hloose Hunseen Hlst Hseen]).
  exists s', (group_node s' 0 <$> groups), lst.
  assert (Hfind : ∀ idx, find_trip_by_idx idx s' = Ok None s').
  { apply find_trip_by_idx_nonneg; [done|]. intros t Ht. rewrite HR in Ht.
    destruct (Hrange t Ht) as (k & Hk & Hkr). exists k. split; [done|lia]. }
  split_and!; [done| |done|].
  - intros node Hin Hneg. apply list_elem_of_fmap in Hin as (g & -> & Hg).
    destruct g as [t|j].
    + apply Htrips in Hg as (Ht & _). destruct (Hrange t Ht) as (k & Hk & _).
      exists t. split_and!; [by rewrite HR|done|].
      cbn [group_node trip_node node_row DIVE_INDEX]. rewrite Hk. cbn. f_equal. lia.
    + cbn [group_node dive_node node_row table_row DIVE_INDEX] in Hneg. lia.
  - intros again idx stores. unfold remove_trip.
    by rewrite (run_bind _ _ _ _ _ (Hfind idx)).
Qed.

End FillDiveListTheorems.

Lemma two_trips_members_in_table t d :
  t ∈ registry two_trips → d ∈ members two_trips t → d ∈ dive_table two_trips.
Proof.
  intros Ht Hd. vm_compute in Ht.
  repeat (apply elem_of_cons in Ht as [->|Ht];
          [vm_compute in Hd;
           repeat (apply elem_of_cons in Hd as [->|Hd]; [by_computation|]);
           by apply elem_of_nil in Hd|]).
  by apply elem_of_nil in Ht.
Qed.

Lemma two_trips_table_NoDup : NoDup (dive_table two_trips).
Proof. apply (NoDup_seq 0 3). Qed.

Lemma dive_list_update_dives_shows_trips_witness :
  ∃ s' tree lst,
    @dive_list_update_dives (example_params 7200) false two_trips = Ok (tree, lst) s' ∧
    well_formed s' ∧
    registry s' = registry two_trips ∧
    (∀ t, members s' t = members two_trips t) ∧
    (∀ t, trip_start s' t = trip_start two_trips t) ∧
    heap_dives s' = heap_dives two_trips ∧
    dive_table s' = dive_table two_trips ∧
    ∀ t, t ∈ registry two_trips → members two_trips t ≠ [] →
      ∃ p parent ds,
        tree !! p = Some parent ∧
        shows_trip s' parent t ds ∧
        index_of s' t = Some (- DIVE_INDEX (node_row parent)) ∧
        DIVE_INDEX (node_row parent) < 0 ∧
        (∀ q node, tree !! q = Some node →
                   DIVE_INDEX (node_row node) = DIVE_INDEX (node_row parent) → q = p) ∧
        (table_in_time_order two_trips → newest_first (node_children parent)).
Proof.
  apply (@dive_list_update_dives_shows_trips (example_params 7200) false two_trips two_trips).
  - reflexivity.
  - exact two_trips_well_formed.
  - exact two_trips_table_NoDup.
  - exact two_trips_members_in_table.
Defined.

Lemma dive_list_update_dives_rows_witness :
  ∃ s' tree lst groups,
    @dive_list_update_dives (example_params 7200) false two_trips = Ok (tree, lst) s' ∧
    heap_dives s' = heap_dives two_trips ∧
    dive_table s' = dive_table two_trips ∧
    (∀ t, trip_start s' t = trip_start two_trips t) ∧
    lst = table_row two_trips <$> reverse (seq 0 (length (dive_table two_trips))) ∧
    tree = group_node s' 0 <$> groups ∧
    NoDup groups ∧
    (∀ t, inl t ∈ groups ↔
          ∃ j, (j < length (dive_table two_trips))%nat ∧ trip_at two_trips j = Some t) ∧
    (∀ j, inr j ∈ groups ↔
          (j < length (dive_table two_trips))%nat ∧ trip_at two_trips j = None) ∧
    (∀ t, inl t ∈ groups → ∃ k, index_of s' t = Some k ∧ 0 < k) ∧
    (∀ t t', inl t ∈ groups → inl t' ∈ groups → index_of s' t = index_of s' t' → t = t').
Proof.
  apply (@dive_list_update_dives_rows (example_params 7200) false two_trips two_trips).
  - reflexivity.
  - exact two_trips_well_formed.
Defined.

Lemma remove_trip_after_update_dives_witness :
  ∃ s' tree lst,
    @dive_list_update_dives (example_params 7200) false two_trips = Ok (tree, lst) s' ∧
    (∀ node, node ∈ tree → DIVE_INDEX (node_row node) < 0 →
             ∃ t, t ∈ registry s' ∧ node = trip_node s' 0 t ∧
                  index_of s' t = Some (- DIVE_INDEX (node_row node))) ∧
    (∀ idx, find_trip_by_idx idx s' = Ok None s') ∧
    (∀ again idx stores,
       @remove_trip (example_params 7200) again idx stores s' = Ok stores s').
Proof.
  apply (@remove_trip_after_update_dives (example_params 7200) false two_trips two_trips).
  - reflexivity.
  - exact two_trips_well_formed.
Defined.

(* ===================================================================== *)
(** * Deleting the selected dives *)
(* ===================================================================== *)

Lemma filter_where_all {A} (P : A → Prop) `{∀ x, Decision (P x)} (l : list A) :
  (∀ x, x ∈ l → P x) → filter P l = l.
Proof.
  induction l as [|x l IH]; intros Hl; [done|].
  rewrite filter_cons_True by (apply Hl, elem_of_cons; by left).
  f_equal. apply IH. intros y Hy. apply Hl, elem_of_cons. by right.
Qed.

Lemma filter_where_none {A} (P : A → Prop) `{∀ x, Decision (P x)} (l : list A) :
  (∀ x, x ∈ l → ¬ P x) → filter P l = [].
Proof.
  induction l as [|x l IH]; intros Hl; [done|].
  rewrite filter_cons_False by (apply Hl, elem_of_cons; by left).
  apply IH. intros y Hy. apply Hl, elem_of_cons. by right.
Qed.

Lemma members_not_sole s t d :
  well_formed s →
  trips_start_at_earliest s →
  t ∈ registry s →
  members s t ≠ [d] ↔ filter (λ y, y ≠ d) (members s t) ≠ [].
Proof.
  intros Hwf Hinv Ht.
  assert (Hne : members s t ≠ []).
  { intros Hnil. pose proof (Hinv t Ht) as He. unfold earliest_member in He.
    by rewrite Hnil in He. }
  assert (Hnd : NoDup (members s t)).
  { destruct (tseg_valid _ _ _ _ t (rep_trips _ _ _ Hwf) Ht) as [tr Htr].
    by destruct (rep_members _ _ _ Hwf t tr Htr) as (_ & ? & _). }
  destruct (members s t) as [|x l]; [done|]. clear Hne.
  apply NoDup_cons in Hnd as (Hx & Hnd). split.
  - intros Hsole Hnil. apply Hsole.
    destruct (decide (x = d)) as [->|Hxd].
    + rewrite filter_cons_False in Hnil by (intros ?; done).
      destruct l as [|y l]; [done|].
      destruct (decide (y = d)) as [->|Hyd].
      * exfalso. apply Hx. apply elem_of_cons. by left.
      * by rewrite filter_cons_True in Hnil.
    + by rewrite filter_cons_True in Hnil.
  - intros Hfil [= -> ->]. apply Hfil. by rewrite filter_cons_False by (intros ?; done).
Qed.

Lemma delete_selected_dives_loop_spec : ∀ rest kept fuel s sel,
  well_formed s →
  trips_start_at_earliest s →
  dive_table s = kept ++ rest →
  Z.of_nat (length (dive_table s)) < 2 ^ 32 →
  (length rest <= fuel)%nat →
  ∃ s' sel',
    delete_selected_dives_loop fuel (Z.of_nat (length kept)) sel s = Ok sel' s' ∧
    well_formed s' ∧
    trips_start_at_earliest s' ∧
    dive_table s' = kept ++ filter (λ d, selected sel d = false) rest ∧
    selected sel' = selected sel ∧
    selected_dive sel' = selected_dive sel ∧
    (selection_counted s sel → selection_counted s' sel') ∧
    (∀ t, members s' t
          = filter (λ y, ¬ (selected sel y = true ∧ y ∈ rest)) (members s t)) ∧
    (∀ t, t ∈ registry s' ↔ t ∈ registry s ∧ members s' t ≠ []) ∧
    (∀ t, t ∈ registry s' → (∀ y, y ∈ members s t → y ∈ members s' t) →
          trip_start s' t = trip_start s t).
Proof.
  induction rest as [|d rest IH]; intros kept fuel s sel Hwf Hinv Htab Hfit Hfuel.
  - exists s, sel. rewrite app_nil_r in Htab.
    split_and!; [|done|done| |done|done|done| | |done].
    + destruct fuel; cbn [delete_selected_dives_loop]; unfold get_state at 1;
        unfold bind at 1; rewrite Htab;
        by rewrite (proj2 (Z.ltb_ge _ _)) by lia.
    + by rewrite filter_nil, app_nil_r.
    + intros t. symmetry. apply filter_where_all. intros y _ (_ & Hy).
      by apply elem_of_nil in Hy.
    + intros t. split; [|by intros (? & _)]. intros Ht. split; [done|].
      intros Hnil. pose proof (Hinv t Ht) as He. unfold earliest_member in He.
      by rewrite Hnil in He.
  - destruct fuel as [|fuel]; [cbn in Hfuel; lia|].
    assert (Hcond : (Z.of_nat (length kept) <? Z.of_nat (length (dive_table s))) = true).
    { apply Z.ltb_lt. rewrite Htab, length_app. cbn [length]. lia. }
    cbn [delete_selected_dives_loop]. unfold get_state at 1. unfold bind at 1.
    rewrite Hcond.
    assert (Hlook : dive_table s !! length kept = Some d)
      by (rewrite Htab; apply list_lookup_middle; done).
    assert (Hget : get_dive s (Z.of_nat (length kept)) = Some d)
      by (by rewrite get_dive_nat).
    rewrite Hget. destruct (selected sel d) eqn:Hsel; cbn [negb].
    + (* the dive is deleted *)
      destruct (rep_table _ _ _ Hwf d) as [dv Hd]; [by eapply list_elem_of_lookup_2|].
      destruct (delete_single_dive_spec s sel _ d dv Hwf Hinv Hget Hd)
        as (s1 & Hrun1 & Hrun & Hwf1 & Hinv1 & Hsame & HR1 & HM1 & Hst1).
      rewrite Hsel in Hrun. rewrite Nat2Z.id in Hrun, Hwf1, Hinv1.
      assert (Hdel : delete (length kept) (dive_table s) = kept ++ rest).
      { rewrite Htab, delete_take_drop, take_app_length.
        by rewrite (cons_middle d), app_assoc, drop_app_length'
          by (rewrite length_app; cbn [length]; lia). }
      rewrite Hdel in Hrun, Hwf1, Hinv1.
      set (s2 := set_dive_table s1 (kept ++ rest)) in *.
      set (sel1 := set_amount_selected sel (uint (amount_selected sel - 1))) in *.
      rewrite (run_bind _ _ _ _ _ Hrun).
      replace (Z.of_nat (length kept) - 1 + 1) with (Z.of_nat (length kept)) by lia.
      destruct (IH kept fuel s2 sel1 Hwf1 Hinv1 eq_refl)
        as (s' & sel' & Hloop & Hwf' & Hinv' & Htab' & Hflags & Hsd & Hcnt & HM' & HR' & Hst').
      { cbn [s2 dive_table set_dive_table]. rewrite Htab in Hfit.
        rewrite !length_app in Hfit |- *. cbn [length] in Hfit. lia. }
      { cbn in Hfuel. lia. }
      assert (HR2 : ∀ t, t ∈ registry s2 ↔ t ∈ registry s ∧ members s2 t ≠ []).
      { intros t. change (registry s2) with (registry s1).
        change (members s2 t) with (members s1 t). rewrite HR1, HM1.
        rewrite without_trip_of_elem. split; intros (Ht & Hm); (split; [done|]).
        - by apply (members_not_sole s t d).
        - by apply (members_not_sole s t d). }
      assert (HMeq : ∀ t, members s' t
                = filter (λ y, ¬ (selected sel y = true ∧ y ∈ d :: rest)) (members s t)).
      { intros t. rewrite HM'. change (members s2 t) with (members s1 t).
        rewrite HM1, list_filter_filter. apply list_filter_iff. intros y.
        cbn [selected sel1 set_amount_selected]. rewrite elem_of_cons. split.
        - intros (Hno & Hyd) (Hy & [->|Hin]); [done|]. by apply Hno.
        - intros Hno. split.
          + intros (Hy & Hin). apply Hno. split; [done|by right].
          + intros ->. apply Hno. split; [done|by left]. }
      exists s', sel'. split_and!; [done|done|done| | |done| | | |].
      * rewrite Htab'. f_equal. rewrite filter_cons_False; [done|]. by rewrite Hsel.
      * by rewrite Hflags.
      * intros Hc. apply Hcnt.
        pose proof (selection_counted_delete s s1 sel (length kept) d Hfit Hlook Hc) as Hc1.
        by rewrite Hsel, Hdel in Hc1.
      * done.
      * intros t. rewrite HR', HR2. split; [intros ((? & _) & ?); done|].
        intros (Ht & Hm). split_and!; [done| |done].
        intros Hnil. apply Hm. rewrite HM', Hnil. done.
      * intros t Ht Hall. rewrite Hst'; [| done |].
        -- change (trip_start s2 t) with (trip_start s1 t). apply Hst1.
           intros Hd'. apply Hall in Hd'. rewrite HMeq in Hd'.
           apply list_elem_of_filter in Hd' as (Hno & _). apply Hno.
           split; [done|]. apply elem_of_cons. by left.
        -- intros y Hy. change (members s2 t) with (members s1 t) in Hy.
           rewrite HM1 in Hy. apply list_elem_of_filter in Hy as (_ & Hy). by apply Hall.
    + (* the dive stays *)
      destruct (IH (kept ++ [d]) fuel s sel Hwf Hinv)
        as (s' & sel' & Hloop & Hwf' & Hinv' & Htab' & Hflags & Hsd & Hcnt & HM' & HR' & Hst').
      { by rewrite <- app_assoc. }
      { done. }
      { cbn in Hfuel. lia. }
      rewrite length_app in Hloop. cbn [length] in Hloop.
      replace (Z.of_nat (length kept + 1)) with (Z.of_nat (length kept) + 1) in Hloop by lia.
      exists s', sel'. split_and!; [done|done|done| |done|done|done| |done|done].
      * rewrite Htab', <- app_assoc. cbn [app]. f_equal.
        by rewrite filter_cons_True.
      * intros t. rewrite HM'. apply list_filter_iff. intros y. rewrite elem_of_cons.
        split.
        -- intros Hno (Hy & [->|Hin]); [congruence|]. by apply Hno.
        -- intros Hno (Hy & Hin). apply Hno. split; [done|by right].
Qed.



(* ===================================================================== *)
(** * edit_dive_when_cb *)
(* ===================================================================== *)

Lemma members_sole_of_count s t tr d :
  well_formed s →
  heap_trips s !! t = Some tr →
  d ∈ members s t →
  trip_nrdives tr = 1 ↔ members s t = [d].
Proof.
  intros Hwf Htr Hd. destruct (rep_members _ _ _ Hwf t tr Htr) as (_ & _ & Hlen).
  rewrite Hlen. split.
  - intros Hone. destruct (members s t) as [|x [|y l]]; cbn in Hone; [lia| |lia].
    apply list_elem_of_singleton in Hd. by subst.
  - by intros ->.
Qed.

Lemma no_trip_no_member s d dv t :
  well_formed s → heap_dives s !! d = Some dv → divetrip dv = None → d ∉ members s t.
Proof.
  intros Hwf Hd Hnone Hin.
  destruct (rep_members_trip _ _ _ _ _ Hwf Hin) as (dv' & Hd' & Ht). congruence.
Qed.

Lemma member_of_own_trip s d dv trip t :
  well_formed s → heap_dives s !! d = Some dv → divetrip dv = Some trip →
  d ∈ members s t → t = trip.
Proof.
  intros Hwf Hd Htrip Hin.
  destruct (rep_members_trip _ _ _ _ _ Hwf Hin) as (dv' & Hd' & Ht). congruence.
Qed.

(** The store before edit_dive_when_cb writes the new time. *)
Lemma edit_dive_when_trip_spec s d dv w :
  well_formed s →
  trips_start_at_earliest s →
  heap_dives s !! d = Some dv →
  ∃ s1,
    edit_dive_when_trip dv d w s = Ok tt s1 ∧
    well_formed s1 ∧
    (∀ y, dive_when s1 y = dive_when s y) ∧
    is_Some (heap_dives s1 !! d) ∧
    (∀ t, d ∈ members s1 t → d ∈ members s t ∧ trip_start s1 t <= w) ∧
    (∀ t, d ∉ members s t →
          members s1 t = members s t ∧ trip_start s1 t = trip_start s t ∧
          (t ∈ registry s1 ↔ t ∈ registry s)) ∧
    (∀ t, t ∈ registry s → members s t = [d] →
          t ∈ registry s1 ∧ members s1 t = [d] ∧ trip_start s1 t = w) ∧
    (∀ t, d ∈ members s1 t → members s t ≠ [d] →
          members s1 t = members s t ∧ trip_start s1 t = trip_start s t ∧
          matching_trip s w = Some t) ∧
    (∀ t, t ∈ registry s1 → d ∉ members s1 t →
          earliest_member s1 t = Some (trip_start s1 t)) ∧
    (∀ t, t ∈ registry s1 → t ∈ registry s).
Proof.
  intros Hwf Hinv Hd. unfold edit_dive_when_trip.
  pose proof (run_find_matching_trip s _ _ w Hwf) as Hfind.
  assert (Hremove : ∃ s1,
    remove_dive_from_trip d s = Ok tt s1 ∧
    well_formed s1 ∧
    (∀ y, dive_when s1 y = dive_when s y) ∧
    is_Some (heap_dives s1 !! d) ∧
    (∀ t, d ∉ members s1 t) ∧
    (∀ t, d ∉ members s t →
          members s1 t = members s t ∧ trip_start s1 t = trip_start s t ∧
          (t ∈ registry s1 ↔ t ∈ registry s)) ∧
    (∀ t, t ∈ registry s1 → earliest_member s1 t = Some (trip_start s1 t)) ∧
    (∀ t, t ∈ registry s1 → t ∈ registry s)).
  { destruct (remove_dive_from_trip_inv s d dv Hwf Hinv Hd)
      as (s1 & Hrun & Hwf1 & Hinv1 & Hsame & HR1 & HM1 & Hst1).
    exists s1. split_and!; [done|done| | | | |done|].
    5: { intros t Ht. rewrite HR1 in Ht. by apply without_trip_of_elem in Ht as (? & _). }
    - intros y. by apply (same_but_trip_of_when d).
    - apply lookup_lt_is_Some. rewrite (proj1 (same_but_trip_of_length _ _ _ Hsame)).
      by apply lookup_lt_is_Some.
    - intros t Hin. rewrite HM1 in Hin. unfold without_dive in Hin.
      by apply list_elem_of_filter in Hin as (Hne & _).
    - intros t Hnot. split_and!.
      + rewrite HM1. unfold without_dive. apply filter_where_all. by intros y Hy ->.
      + rewrite Hst1. by apply start_without_other.
      + rewrite HR1, without_trip_of_elem. split; [by intros (? & _)|].
        intros Ht. split; [done|]. intros Heq. apply Hnot. rewrite Heq.
        apply elem_of_cons. by left. }
  destruct (divetrip dv) as [trip|] eqn:Htrip.
  - (* the dive is in a trip *)
    destruct (rep_divetrip _ _ _ Hwf d dv trip Hd Htrip) as (Hreg & Hmem).
    destruct (tseg_valid _ _ _ _ trip (rep_trips _ _ _ Hwf) Hreg) as [tr Htr].
    assert (Hown : ∀ t, d ∈ members s t → t = trip)
      by (intros t; by apply (member_of_own_trip s d dv)).
    rewrite (run_bind _ _ _ _ _ (run_load_trip _ _ _ Htr)).
    pose proof (members_sole_of_count s trip tr d Hwf Htr Hmem) as Hsole.
    destruct (Z.eqb_spec (trip_nrdives tr) 1) as [Hone|Hmore].
    + (* the only dive of the trip *)
      apply Hsole in Hone.
      set (f := λ tr : dive_trip_t, set_trip_when tr w).
      exists (set_heap_trips s (alter f trip (heap_trips s))).
      pose proof (rep_alter_trip s _ _ trip f
                    ltac:(done) ltac:(done) ltac:(done) Hwf) as Hrep.
      set (s1 := set_heap_trips s (alter f trip (heap_trips s))) in *.
      pose proof (registry_of_rep _ _ _ Hrep) as HR1.
      assert (HM1 : ∀ t, members s1 t = members s t)
        by (intros t; by apply (members_of_rep _ _ _ _ Hrep)).
      assert (Hst1 : ∀ t, trip_start s1 t = if decide (t = trip) then w else trip_start s t).
      { intros t. unfold trip_start, s1. cbn [heap_trips set_heap_trips].
        destruct (decide (t = trip)) as [->|Hne].
        - by rewrite list_lookup_alter_eq, Htr.
        - by rewrite list_lookup_alter_ne. }
      split_and!.
      * by apply (run_modify_trip s trip tr).
      * by eapply rep_well_formed.
      * done.
      * by exists dv.
      * intros t Hin. rewrite HM1 in Hin. split; [done|].
        rewrite Hst1, (Hown t Hin), decide_True by done. lia.
      * intros t Hnot. rewrite HM1, Hst1, HR1. split_and!; [done| |done].
        rewrite decide_False; [done|]. by intros ->.
      * intros t Ht Hm. rewrite HM1, Hst1, HR1. split_and!; [done..|].
        rewrite decide_True; [done|]. apply Hown. rewrite Hm. apply elem_of_cons. by left.
      * intros t Hin Hm. rewrite HM1 in Hin. rewrite (Hown t Hin) in Hm. done.
      * intros t Ht Hnot. rewrite HR1 in Ht. rewrite HM1 in Hnot.
        rewrite Hst1, decide_False by (by intros ->).
        rewrite <- (Hinv t Ht). unfold earliest_member. by rewrite HM1.
      * intros t Ht. by rewrite <- HR1.
    + assert (Hnotsole : members s trip ≠ [d]) by (intros Heq; by apply Hmore, Hsole).
      assert (Hstay : ∃ s1, ret tt s = Ok tt s1 ∧ s1 = s) by (by exists s).
      assert (Hremoved : ∃ s1,
        remove_dive_from_trip d s = Ok tt s1 ∧
        well_formed s1 ∧
        (∀ y, dive_when s1 y = dive_when s y) ∧
        is_Some (heap_dives s1 !! d) ∧
        (∀ t, d ∈ members s1 t → d ∈ members s t ∧ trip_start s1 t <= w) ∧
        (∀ t, d ∉ members s t →
              members s1 t = members s t ∧ trip_start s1 t = trip_start s t ∧
              (t ∈ registry s1 ↔ t ∈ registry s)) ∧
        (∀ t, t ∈ registry s → members s t = [d] →
              t ∈ registry s1 ∧ members s1 t = [d] ∧ trip_start s1 t = w) ∧
        (∀ t, d ∈ members s1 t → members s t ≠ [d] →
              members s1 t = members s t ∧ trip_start s1 t = trip_start s t ∧
              matching_trip s w = Some t) ∧
        (∀ t, t ∈ registry s1 → d ∉ members s1 t →
              earliest_member s1 t = Some (trip_start s1 t)) ∧
        (∀ t, t ∈ registry s1 → t ∈ registry s)).
      { destruct Hremove as (s1 & Hrun & Hwf1 & Hwhen & Hvalid & Hout & Hother & Hinv1 & Hsub).
        exists s1. split_and!; [done..| |done| | | |done].
        - intros t Hin. by destruct (Hout t).
        - intros t Ht Hm. exfalso. apply Hnotsole.
          rewrite <- (Hown t); [done|]. rewrite Hm. apply elem_of_cons. by left.
        - intros t Hin. by destruct (Hout t).
        - intros t Ht _. by apply Hinv1. }
      destruct (Z.gtb_spec (trip_when tr) w) as [Hbefore|Hafter]; [exact Hremoved|].
      rewrite (run_bind _ _ _ _ _ Hfind).
      destruct (decide (matching_trip s w = Some trip)) as [Hmatch|Hmatch];
        [|exact Hremoved].
      exists s. split_and!; [done|done|done|by exists dv| |done| | | |done].
      * intros t Hin. split; [done|]. rewrite (Hown t Hin).
        rewrite (trip_start_lookup _ _ _ Htr). lia.
      * intros t Ht Hm. exfalso. apply Hnotsole.
        rewrite <- (Hown t); [done|]. rewrite Hm. apply elem_of_cons. by left.
      * intros t Hin _. by rewrite (Hown t Hin).
      * intros t Ht _. by apply Hinv.
  - (* the dive is in no trip *)
    assert (Hno : ∀ t, d ∉ members s t) by (intros t; by apply (no_trip_no_member s d dv)).
    rewrite (run_bind _ _ _ _ _ Hfind).
    assert (Hsame : (if decide (matching_trip s w = None) then ret tt
                     else remove_dive_from_trip d) s = Ok tt s).
    { destruct (decide (matching_trip s w = None)); [done|].
      by apply (remove_dive_from_trip_no_trip s d dv). }
    exists s. split_and!; [done|done|done|by exists dv| |done| | | |done].
    + intros t Hin. by destruct (Hno t).
    + intros t _ Hm. destruct (Hno t). rewrite Hm. apply elem_of_cons. by left.
    + intros t Hin. by destruct (Hno t).
    + intros t Ht _. by apply Hinv.
Qed.

Lemma min_when_above ws b : ws ≠ [] → (∀ w, w ∈ ws → b < w) → min_when ws ≠ Some b.
Proof.
  intros Hne Hall Hmin. apply min_when_elem in Hmin. apply Hall in Hmin. lia.
Qed.

(** edit_dive_when_cb with a new time for the dive, in a well-formed store
    whose trips start at their earliest member.  It returns and writes the
    time; no other dive changes its time.  A dive that is the only member
    of its trip stays, and the trip starts at the new time.  Else the dive
    stays in its trip only if the trip does not start later than the new
    time and is the trip find_matching_trip gives for it; so the dive is
    never left in a trip that starts after it.  The trips the dive was not
    in are as they were, and every trip but one the dive stays in with
    other members still starts at its earliest member.  Such a trip keeps
    its start: if the dive was earlier than all other members, the trip
    now starts before its earliest member. *)
Theorem edit_dive_when_cb_moves_dive s d dv w :
  well_formed s →
  trips_start_at_earliest s →
  heap_dives s !! d = Some dv →
  when dv ≠ w →
  ∃ s',
    edit_dive_when_cb (Some d) true w s = Ok tt s' ∧
    well_formed s' ∧
    dive_when s' d = w ∧
    (∀ y, y ≠ d → dive_when s' y = dive_when s y) ∧
    (∀ t, d ∈ members s' t → d ∈ members s t ∧ trip_start s' t <= w) ∧
    (∀ t, d ∉ members s t →
          members s' t = members s t ∧ trip_start s' t = trip_start s t ∧
          (t ∈ registry s' ↔ t ∈ registry s)) ∧
    (∀ t, t ∈ registry s → members s t = [d] →
          t ∈ registry s' ∧ members s' t = [d] ∧ trip_start s' t = w) ∧
    (∀ t, d ∈ members s' t → members s t ≠ [d] →
          members s' t = members s t ∧ trip_start s' t = trip_start s t ∧
          matching_trip s w = Some t) ∧
    (∀ t, t ∈ registry s' → d ∉ members s' t ∨ members s t = [d] →
          earliest_member s' t = Some (trip_start s' t)) ∧
    (∀ t, d ∈ members s' t → members s t ≠ [d] →
          (∀ y, y ∈ members s t → y ≠ d → trip_start s t < dive_when s y) →
          earliest_member s' t ≠ Some (trip_start s' t)).
Proof.
  intros Hwf Hinv Hd Hnew.
  destruct (edit_dive_when_trip_spec s d dv w Hwf Hinv Hd)
    as (s1 & Hrun & Hwf1 & Hwhen1 & Hvalid & Hin1 & Hother1 & Hsole1 & Hstay1 & Hinv1 & Hsub1).
  set (f := λ dv : dive, set_when dv w).
  set (s' := set_heap_dives s1 (alter f d (heap_dives s1))).
  pose proof (rep_alter_dive s1 _ _ d f ltac:(done) Hwf1) as Hrep. fold s' in Hrep.
  pose proof (registry_of_rep _ _ _ Hrep) as HR.
  assert (HM : ∀ t, members s' t = members s1 t)
    by (intros t; by apply (members_of_rep _ _ _ _ Hrep)).
  assert (Hst : ∀ t, trip_start s' t = trip_start s1 t) by done.
  assert (Hwd : dive_when s' d = w).
  { destruct Hvalid as [dv1 Hd1]. unfold dive_when, s'. cbn [heap_dives set_heap_dives].
    by rewrite list_lookup_alter_eq, Hd1. }
  assert (Hwo : ∀ y, y ≠ d → dive_when s' y = dive_when s y).
  { intros y Hy. rewrite <- Hwhen1. unfold dive_when, s'. cbn [heap_dives set_heap_dives].
    by rewrite list_lookup_alter_ne. }
  assert (Hmin_other : ∀ t, d ∉ members s1 t → earliest_member s' t = earliest_member s1 t).
  { intros t Hnot. unfold earliest_member. rewrite HM. f_equal.
    apply map_ext_in. intros y Hy. apply list_elem_of_In in Hy.
    rewrite Hwo, Hwhen1; [done|]. by intros ->. }
  exists s'. split_and!.
  - unfold edit_dive_when_cb. rewrite (run_bind _ _ _ _ _ (run_load_dive _ _ _ Hd)).
    cbn [negb]. rewrite (proj2 (Z.eqb_neq _ _) Hnew).
    rewrite (run_bind _ _ _ _ _ Hrun). by apply run_modify_dive'.
  - by eapply rep_well_formed.
  - done.
  - done.
  - intros t Hin. rewrite HM in Hin. rewrite Hst. by apply Hin1.
  - intros t Hnot. rewrite HM, Hst, HR. by apply Hother1.
  - intros t Ht Hm. rewrite HM, Hst, HR. by apply Hsole1.
  - intros t Hin Hm. rewrite HM in Hin. rewrite HM, Hst. by apply Hstay1.
  - intros t Ht [Hnot|Hm].
    + rewrite HM in Hnot. rewrite Hmin_other, Hst by done. apply Hinv1; [|done].
      by rewrite <- HR.
    + rewrite HR in Ht. destruct (Hsole1 t (Hsub1 t Ht) Hm) as (_ & Hm1 & Hst1).
      unfold earliest_member. rewrite HM, Hm1, Hst, Hst1. cbn. by rewrite Hwd.
  - intros t Hin Hm Hlater. rewrite HM in Hin.
    destruct (Hstay1 t Hin Hm) as (Hm1 & Hst1 & _).
    destruct (Hin1 t Hin) as (Hin0 & Hle).
    assert (Ht : t ∈ registry s).
    { destruct (rep_members_trip _ _ _ _ _ Hwf Hin0) as (dv' & Hd' & Htrip).
      rewrite Hd in Hd'. injection Hd' as <-.
      by destruct (rep_divetrip _ _ _ Hwf d dv t Hd Htrip). }
    assert (Hold : dive_when s d = trip_start s t).
    { pose proof (Hinv t Ht) as Hmin. unfold earliest_member in Hmin.
      apply min_when_elem in Hmin. apply list_elem_of_In, in_map_iff in Hmin
        as (y & Hy & Hyin). apply list_elem_of_In in Hyin.
      destruct (decide (y = d)) as [->|Hne]; [done|].
      pose proof (Hlater y Hyin Hne). lia. }
    rewrite (dive_when_lookup _ _ _ Hd) in Hold.
    unfold earliest_member. rewrite HM, Hm1, Hst, Hst1. apply min_when_above.
    + destruct (members s t); [by apply elem_of_nil in Hin0|done].
    + intros x Hx. apply list_elem_of_In, in_map_iff in Hx as (y & <- & Hyin).
      apply list_elem_of_In in Hyin. destruct (decide (y = d)) as [->|Hne].
      * rewrite Hwd. rewrite Hst1 in Hle. lia.
      * rewrite Hwo by done. by apply Hlater.
Qed.

Lemma trip_of_two_well_formed : well_formed trip_of_two.
Proof.
  split.
  - vm_compute. eauto 10.
  - by_computation.
  - intros [|t] tr Ht; vm_compute in Ht; simplify_eq.
    split_and!; [vm_compute; eauto 20|by_computation|reflexivity].
  - intros [|t] Ht; vm_compute in Ht; by simplify_eq.
  - intros [|[|d]] dv t Hd Ht; vm_compute in Hd; simplify_eq;
      vm_compute in Ht; simplify_eq; split; by_computation.
  - intros d Hd. vm_compute in Hd.
    repeat (apply elem_of_cons in Hd as [->|Hd]; [by eexists|]).
    by apply elem_of_nil in Hd.
Qed.

Lemma trip_of_two_start_at_earliest : trips_start_at_earliest trip_of_two.
Proof.
  intros t Ht. vm_compute in Ht.
  repeat (apply elem_of_cons in Ht as [->|Ht]; [by vm_compute|]).
  by apply elem_of_nil in Ht.
Qed.

Lemma edit_dive_when_cb_moves_dive_witness :
  ∃ s',
    edit_dive_when_cb (Some 0%nat) true 3000 trip_of_two = Ok tt s' ∧
    dive_when s' 0%nat = 3000 ∧
    members s' 0%nat = [1%nat; 0%nat] ∧
    trip_start s' 0%nat = 1000 ∧
    earliest_member s' 0%nat ≠ Some (trip_start s' 0%nat).
Proof.
  destruct (edit_dive_when_cb_moves_dive trip_of_two 0%nat
              (trip_dive 1000 0 None (DiveNext 1)) 3000
              trip_of_two_well_formed trip_of_two_start_at_earliest eq_refl
              ltac:(cbn; lia))
    as (s' & Hrun & _ & Hw & _ & _ & _ & _ & Hstay & _ & Hbreak).
  exists s'.
  assert (Hin : 0%nat ∈ members s' 0%nat).
  { vm_compute in Hrun. injection Hrun as <-. by_computation. }
  destruct (Hstay 0%nat Hin ltac:(by vm_compute)) as (Hm & Hst & _).
  split_and!; [done|done|done|done|].
  apply Hbreak; [done|by vm_compute|].
  intros y Hy Hne. vm_compute in Hy.
  repeat (apply elem_of_cons in Hy as [->|Hy]; [try done; by vm_compute|]).
  by apply elem_of_nil in Hy.
Defined.

(* ===================================================================== *)
(** * dive_nr_sort on the rows of fill_dive_list *)
(* ===================================================================== *)

Lemma to_gint_small x : - 2 ^ 31 <= x < 2 ^ 31 → to_gint x = x.
Proof. intros Hx. unfold to_gint. rewrite Z.mod_small by lia. lia. Qed.

Lemma dive_nr_sort_same_trip s row_a row_b trip :
  dive_nr_sort_trip (DIVE_INDEX row_a) s = Ok trip s →
  dive_nr_sort_trip (DIVE_INDEX row_b) s = Ok trip s →
  dive_nr_sort row_a row_b s = Ok (to_gint (DIVE_DATE row_a - DIVE_DATE row_b)) s.
Proof.
  intros Ha Hb. unfold dive_nr_sort.
  rewrite (run_bind _ _ _ _ _ Ha), (run_bind _ _ _ _ _ Hb).
  by rewrite decide_True.
Qed.

Lemma dive_nr_sort_trip_dive s (j : nat) d dv :
  dive_table s !! j = Some d → heap_dives s !! d = Some dv →
  dive_nr_sort_trip (Z.of_nat j) s = Ok (divetrip dv) s.
Proof.
  intros Hj Hd. unfold dive_nr_sort_trip.
  destruct (Z.ltb_spec (Z.of_nat j) 0); [lia|].
  unfold get_state at 1. unfold bind at 1. rewrite get_dive_nat, Hj.
  by rewrite (run_bind _ _ _ _ _ (run_load_dive _ _ _ Hd)).
Qed.

Section DiveNrSort.
Context `{DiveParams}.

(** dive_nr_sort on the rows that dive_list_update_dives has made.  For
    two top-level rows of the tree store, and for two children of one
    top-level row, it returns the difference of the dates of the rows,
    cut to a gint: for dates less than 2^31 seconds apart that is the
    difference itself, so that the earlier row comes first.  (For a row of
    a trip find_trip_by_idx finds no trip, and the date of the row is
    used.) *)
Theorem dive_nr_sort_orders_rows (autogroup : bool) s_in s :
  (if autogroup then autogroup_dives else ret tt) s_in = Ok tt s →
  well_formed s →
  ∃ s' tree lst,
    dive_list_update_dives autogroup s_in = Ok (tree, lst) s' ∧
    (∀ a b, a ∈ tree → b ∈ tree →
       dive_nr_sort (node_row a) (node_row b) s'
       = Ok (to_gint (DIVE_DATE (node_row a) - DIVE_DATE (node_row b))) s') ∧
    (∀ p a b, p ∈ tree → a ∈ node_children p → b ∈ node_children p →
       dive_nr_sort a b s' = Ok (to_gint (DIVE_DATE a - DIVE_DATE b)) s') ∧
    (∀ x, - 2 ^ 31 <= x < 2 ^ 31 → to_gint x = x).
Proof.
  intros Hgroup Hwf.
  destruct (dive_list_update_dives_spec autogroup s_in s Hgroup Hwf)
    as (s' & ti & groups & lst & Hrun &
        [Hwf' HR HM Hst HD Htab Hbut Hti Hndg Htrips Hrange Hinj Hloose Hunseen Hlst Hseen]).
  exists s', (group_node s' 0 <$> groups), lst.
  assert (Hfind : ∀ idx, find_trip_by_idx idx s' = Ok None s').
  { apply find_trip_by_idx_nonneg; [done|]. intros t Ht. rewrite HR in Ht.
    destruct (Hrange t Ht) as (k & Hk & Hkr). exists k. split; [done|lia]. }
  assert (Hplace : ∀ j t, (j < length (dive_table s))%nat → trip_at s j = t →
            dive_nr_sort_trip (Z.of_nat j) s' = Ok t s').
  { intros j t Hj Hat.
    destruct (lookup_lt_is_Some_2 (dive_table s') j) as [d Hd]; [by rewrite Htab|].
    destruct (rep_table _ _ _ Hwf' d) as [dv Hdv]; [by eapply list_elem_of_lookup_2|].
    rewrite (dive_nr_sort_trip_dive s' j d dv Hd Hdv).
    rewrite <- Hat, <- (trip_at_same s s' j HD Htab). f_equal.
    symmetry. by apply (trip_at_lookup s' j d dv). }
  assert (Htop : ∀ a, a ∈ group_node s' 0 <$> groups →
            dive_nr_sort_trip (DIVE_INDEX (node_row a)) s' = Ok None s').
  { intros a Ha. apply list_elem_of_fmap in Ha as (g & -> & Hg). destruct g as [t|j].
    - apply Htrips in Hg as (Ht & Hne). destruct (Hrange t Ht) as (k & Hk & Hkr).
      cbn [group_node trip_node node_row DIVE_INDEX]. rewrite Hk. cbn [default from_option id].
      unfold dive_nr_sort_trip.
      destruct (Z.ltb_spec (- k) 0) as [_|Hge]; [apply Hfind|].
      exfalso. apply Hne. rewrite Hk. f_equal. lia.
    - apply Hloose in Hg as (Hj & Hat).
      cbn [group_node dive_node node_row table_row DIVE_INDEX]. apply Hplace; [lia|done]. }
  split_and!; [done| | |exact to_gint_small].
  - intros a b Ha Hb. apply (dive_nr_sort_same_trip s' _ _ None); by apply Htop.
  - intros p a b Hp Ha Hb. apply list_elem_of_fmap in Hp as (g & -> & Hg).
    destruct g as [t|j]; [|by apply elem_of_nil in Ha].
    cbn [group_node trip_node node_children] in Ha, Hb.
    apply list_elem_of_fmap in Ha as (ja & -> & Hja), Hb as (jb & -> & Hjb).
    rewrite (places_of_same s s') in Hja, Hjb by done.
    apply places_of_elem in Hja as (Hja & Hata), Hjb as (Hjb & Hatb).
    apply (dive_nr_sort_same_trip s' _ _ (Some t));
      cbn [table_row DIVE_INDEX]; apply Hplace; (lia || done).
Qed.

End DiveNrSort.

Lemma dive_nr_sort_orders_rows_witness :
  ∃ s' tree lst,
    @dive_list_update_dives (example_params 7200) false two_trips = Ok (tree, lst) s' ∧
    (∀ a b, a ∈ tree → b ∈ tree →
       dive_nr_sort (node_row a) (node_row b) s'
       = Ok (to_gint (DIVE_DATE (node_row a) - DIVE_DATE (node_row b))) s') ∧
    (∀ p a b, p ∈ tree → a ∈ node_children p → b ∈ node_children p →
       dive_nr_sort a b s' = Ok (to_gint (DIVE_DATE a - DIVE_DATE b)) s') ∧
    (∀ x, - 2 ^ 31 <= x < 2 ^ 31 → to_gint x = x).
Proof.
  apply (@dive_nr_sort_orders_rows (example_params 7200) false two_trips two_trips).
  - reflexivity.
  - exact two_trips_well_formed.
Defined.
